(* ===== verification/_CoqProject ===== *)
-Q . S2P
Prelude.v
Bytes.v
Io.v
Net.v
Capture.v
Ip.v
Error.v
Control.v
Encryption.v
Stream.v
Commands.v
Protocol.v
Interpreter.v
Master.v
Proxy.v
Relay.v
Chain.v
Reprobe.v
Args.v
Cidr.v
Serve.v
Fanout.v
Acceptor.v
Hops.v
Shutdown.v
Opening.v
ProxyShutdown.v
Nonces.v
ServeMulti.v
Server.v
Visit.v
Failures.v
CaptureBin.v
Replay.v
RecordReplay.v
ProxyMulti.v
Widths.v
UnitTests.v
