(* ===== verification/Prelude.v ===== *)
(** * rtltcp2026: a verification library

    rtltcp2026 is a network server for RTL-SDR receivers: it sends the I/Q data
    of a tuner to TCP clients and executes the five-byte commands of one of
    them (the master).  It runs in three ways (a single client; a master and
    read-only slaves; a proxy in front of another server, over an optionally
    encrypted link) and comes with a program that captures a stream to a file
    and one that replays it.

    ** The program and its model

    - [src/error.rs]: [Error].
    - [src/control.rs] (constants, validation, whitelist, AGC state, rate
      limiter): [Control]; the addresses it parses and prints: [Ip]; what a
      whitelist of networks means: [Cidr].
    - [src/encryption.rs]: [Encryption].
    - [src/stream.rs] (broadcast, the writer loop of a client): [Stream].
    - [src/capture/mod.rs] (the file format): [Capture].
    - [src/proxy.rs] (connection to the upstream): [Proxy].
    - [src/main.rs]: the arguments, the key, [main] ([Args]); the command
      interpreter of the single-client server ([Commands]) and of a master,
      with the chain handshake ([Master]); [run_serve_single] ([Serve]); the
      slave acceptor ([Acceptor]); [run_serve_multi] ([ServeMulti], and
      [Nonces] for the nonces its threads share); the relays and the master
      loop of [run_proxy_multi] ([Relay], [ProxyMulti]); the threads of the
      three modes and their shutdown ([Shutdown], [ProxyShutdown]); the threads
      that write to one new connection ([Opening]); the device's callback or
      the upstream reader and the writer threads of all clients ([Fanout]);
      all threads of [run_serve_multi] over what they share, in any order of
      turns ([Server]), a master's visit among them ([Visit]), and what ends
      the server ([Failures]).
    - [src/bin/capture.rs] and [src/bin/replay.rs]: [CaptureBin], [Replay].
    - The components together: a proxy and a server over an encrypted link
      ([Chain]; with a probe in the middle of a session, [Reprobe]), the data
      path through one proxy and through several ([Hops]), a server, a capture
      and its replay ([RecordReplay]); the types all threads keep ([Widths]).
    - The unit tests of the library's files, run on the model: [UnitTests].

    Definitions keep the names of the source.  A function that can fail returns
    a [res] ([Ok], [Err], a panic, or a call that does not return) with the
    state as the callee left it, threaded by [let? x @ s := c in k], which is
    the operator [?].  A loop over reads and timers takes a schedule: what each
    iteration meets (the exit flag it loads, the clock, what [accept] answers);
    theorems quantify over all schedules.  Sockets and files are scripts of the
    operating system's answers ([Io], [Net]): segments, short writes, errors,
    timeouts; theorems quantify over those too.  Bytes are integers, machine
    integers wrap explicitly ([Bytes]), durations are in nanoseconds.

    ** What stands for code that is not in the repository

    Classes, instantiated by small concrete implementations for the witnesses:
    [IpNetLib] (crate ipnet; [IpNetLaws], its documented behaviour on CIDR
    notation), [StreamCipherLib] (chacha20: a keystream and its
    end), [BroadcastLib] (tokio's broadcast channel, with its documented
    laws), [RtlSdrLib] (rtlsdr_mt).  Arguments: random nonces, [hex::decode],
    name resolution and connection, the text of an I/O error.

    ** What the theorems show

    - Commands: the control threads implement the abstract machine of
      [Protocol] for every segmentation ([Interpreter], [Master]), also as part
      of a master's visit ([ServeMulti]) and across an encrypted chain, from the
      proxy's connection and its handshake to the tuner ([Chain]); nothing a client sends
      makes the tuner leave the documented ranges; what the other threads do
      meanwhile makes no difference ([Visit]); the rate limiter bounds the
      commands of any window.
    - Data: a client gets whole buffers in order ([Stream]), or everything
      ([Serve]); any number of clients of one producer follow one log, each
      with a cursor of its own, and those that keep up have the same data
      ([Fanout]), in the whole running server too, masters and slaves that come
      and go included ([Server]); the proxy relays the bytes it reads ([Relay]), so its slaves
      have the upstream's data but for the bytes its probe consumes, five for
      each proxy ([Hops]); what is captured
      is what is read back, even from a truncated file ([Capture],
      [CaptureBin]), and what is replayed ([Replay]); a replay of the capture
      of a server's client gives its own client what the server sent
      ([RecordReplay]).  Bytes stay bytes and counters [u64] in every thread
      ([Widths]).
    - Order on one connection ([Opening]): the magic packet comes first where it
      is sent before the pump starts, and with a key the handshake comes before
      any I/Q data, under every interleaving of the threads and every splitting
      of their writes; elsewhere the orders are races, which are theorems too.
    - Admission: the networks of a whitelist, the slaves let in, the arguments
      accepted, the upstream detected as a chain or not; in the running server
      every client was admitted and can be shut down ([Server]).
    - Life cycle: loops end when their traffic does; the servers and
      the proxy shut down after a signal under every scheduling of their
      threads, with exactly one exception, a connected and silent master; after
      the signal nothing is written or executed any more ([Server]);
      without a signal nothing ends the proxy, not even the loss of its upstream.
    - Behaviours that look unintended are theorems too: the desynchronisation
      of an encrypted writer after a short write and of a command reader after
      a timeout, the nonce reused by a second encrypted session, the slave
      limit that never recovers, the flush written twice, the server ended by a
      refused master or by a slave whose socket cannot be cloned ([Failures]),
      the acknowledgement that comes after I/Q data, the
      ciphertext a proxy of an encrypted chain relays, the probe of a local
      master that blocks the server's control thread.
    - The unit tests of [src/control.rs], [src/capture/mod.rs],
      [src/encryption.rs] and [src/stream.rs] hold of the model ([UnitTests]).

    ** Fuel

    [read_exact] and [write_all] run with fuel for their buffer and the
    interruptions the script still holds, and are proved to return
    ([read_exact_returns], [write_all_returns]).  [read_chunks] and the replay
    loop take a number of iterations, and their theorems say how many are
    enough.  The control loops take a schedule; [control_thread_ends] and
    [master_control_loop_ends] bound the iterations by what the peer's script
    holds.  In [Shutdown] and [ProxyShutdown] a rank bounds every run of the
    threads.

    ** What is not modelled

    Logging (when the servers warn that they listen on all interfaces is in
    [Args]); [clap]'s own parsing; the random generator (and so
    [test_nonce_unique]); in [Server], a key, and what another thread does
    inside a turn (both are in the files on single threads and connections);
    poisoned locks other than the slaves' list of streams: a thread would have to panic while
    it holds the device or the nonces, which only the end of a keystream (a
    writer that holds the nonces, after 256 GiB) or the driver can cause; the
    tests under [tests/], which run the programs against each other or a
    device. *)

From stdpp Require Export prelude pretty.
From stdpp Require Import relations.
From Stdlib Require Export Lia ZArith.

#[global] Open Scope Z_scope.

(** ** The result of a Rust computation

    [Ok] and [Err] are Rust's [Result]; [Panic] is an unwinding panic and
    [Diverged] a call that never returns (the value of a loop whose fuel ran
    out: every loop of the library comes with a theorem that it is not
    reached, or that it is reached for every fuel). *)

Inductive res (A E : Type) : Type :=
| Ok (a : A)
| Err (e : E)
| Panic
| Diverged.
Arguments Ok {A E} a.
Arguments Err {A E} e.
Arguments Panic {A E}.
Arguments Diverged {A E}.

Definition is_ok {A E} (r : res A E) : bool :=
  match r with Ok _ => true | _ => false end.

Definition is_err {A E} (r : res A E) : bool :=
  match r with Err _ => true | _ => false end.

Definition map_err {A E F} (f : E -> F) (r : res A E) : res A F :=
  match r with
  | Ok a => Ok a
  | Err e => Err (f e)
  | Panic => Panic
  | Diverged => Diverged
  end.

(** The [?] operator on a computation that also returns a new state: the
    failing branches give the state back as the callee left it. *)
Definition bind_st {A B E S} (r : res A E * S) (k : A -> S -> res B E * S) : res B E * S :=
  match r with
  | (Ok a, s) => k a s
  | (Err e, s) => (Err e, s)
  | (Panic, s) => (Panic, s)
  | (Diverged, s) => (Diverged, s)
  end.

(** The [?] operator on a pure result. *)
Definition bind {A B E} (r : res A E) (k : A -> res B E) : res B E :=
  match r with
  | Ok a => k a
  | Err e => Err e
  | Panic => Panic
  | Diverged => Diverged
  end.

Declare Scope rust_scope.
Delimit Scope rust_scope with rust.
Notation "'let?' x '@' s ':=' c 'in' k" := (bind_st c (fun x s => k))
  (at level 10, x name, s name, c at level 200, k at level 200,
   format "'[v' 'let?'  x  '@'  s  ':='  c  'in' '/' k ']'") : rust_scope.
Notation "'let?' x ':=' c 'in' k" := (bind c (fun x => k))
  (at level 10, x name, c at level 200, k at level 200,
   format "'[v' 'let?'  x  ':='  c  'in' '/' k ']'") : rust_scope.
#[global] Open Scope rust_scope.

#[export] Instance res_eq_dec {A E} `{EqDecision A, EqDecision E} : EqDecision (res A E).
Proof. solve_decision. Defined.

(** ** Automation *)

Create HintDb rtl discriminated.
Create Rewrite HintDb rtl_len.
#[export] Hint Constants Transparent : rtl.

(** Case analysis on the scrutinee of a match of the goal or of a hypothesis,
    cleaning up the equations. *)
Ltac dmatch :=
  match goal with
  | |- context [match ?x with _ => _ end] => destruct x eqn:?
  | H : context [match ?x with _ => _ end] |- _ => destruct x eqn:?
  end; simplify_eq/=.

(** Turn boolean tests into propositions. *)
Ltac b2p :=
  repeat match goal with
  | H : andb _ _ = true |- _ => apply andb_true_iff in H as [? ?]
  | H : orb _ _ = false |- _ => apply orb_false_iff in H as [? ?]
  | H : andb _ _ = false |- _ => apply andb_false_iff in H
  | H : orb _ _ = true |- _ => apply orb_true_iff in H
  | H : negb _ = true |- _ => apply negb_true_iff in H
  | H : negb _ = false |- _ => apply negb_false_iff in H
  | H : (_ <? _) = true |- _ => apply Z.ltb_lt in H
  | H : (_ <? _) = false |- _ => apply Z.ltb_ge in H
  | H : (_ <=? _) = true |- _ => apply Z.leb_le in H
  | H : (_ <=? _) = false |- _ => apply Z.leb_gt in H
  | H : (_ =? _) = true |- _ => apply Z.eqb_eq in H
  | H : (_ =? _) = false |- _ => apply Z.eqb_neq in H
  | H : (_ <? _)%nat = true |- _ => apply Nat.ltb_lt in H
  | H : (_ <? _)%nat = false |- _ => apply Nat.ltb_ge in H
  | H : (_ <=? _)%nat = true |- _ => apply Nat.leb_le in H
  | H : (_ <=? _)%nat = false |- _ => apply Nat.leb_gt in H
  | H : (_ =? _)%nat = true |- _ => apply Nat.eqb_eq in H
  | H : (_ =? _)%nat = false |- _ => apply Nat.eqb_neq in H
  end.

(** ** Lists *)

Section Lists.
Context {A : Type}.
Implicit Types (l k : list A).

(** Length of a slice as Rust's [usize], a non-negative integer. *)
Definition zlen l : Z := Z.of_nat (length l).

Lemma zlen_nonneg l : 0 <= zlen l.
Proof. unfold zlen. lia. Qed.

Lemma zlen_app l k : zlen (l ++ k) = zlen l + zlen k.
Proof. unfold zlen. rewrite length_app. lia. Qed.

Lemma zlen_cons x l : zlen (x :: l) = 1 + zlen l.
Proof. unfold zlen. simpl. lia. Qed.

Lemma take_drop_app_eq l k n : length l = n -> take n (l ++ k) = l /\ drop n (l ++ k) = k.
Proof. intros <-. split; [apply take_app_length | apply drop_app_length]. Qed.

Lemma take_min_length l n : take (Nat.min n (length l)) l = take n l.
Proof.
  destruct (Nat.le_gt_cases n (length l)).
  - by rewrite Nat.min_l.
  - by rewrite Nat.min_r, !take_ge by lia.
Qed.

Lemma drop_min_length l n : drop (Nat.min n (length l)) l = drop n l.
Proof.
  destruct (Nat.le_gt_cases n (length l)).
  - by rewrite Nat.min_l.
  - by rewrite Nat.min_r, !drop_ge by lia.
Qed.

Lemma take_app_iff l k n : take n l ++ k = l <-> k = drop n l.
Proof.
  split; [|intros ->; apply take_drop].
  intros E. rewrite <- (take_drop n l) in E at 2. by apply app_inv_head in E.
Qed.

Lemma prefix_nil_inv l : l `prefix_of` [] -> l = [].
Proof. intros [k Hk]. by destruct l. Qed.

Lemma nonempty_length l : l <> [] -> (0 < length l)%nat.
Proof. destruct l; [done | simpl; lia]. Qed.

End Lists.

Lemma Forall_take_drop {A} (P : A -> Prop) n l :
  Forall P l -> Forall P (take n l) /\ Forall P (drop n l).
Proof. intros H. rewrite <- (take_drop n l), Forall_app in H. tauto. Qed.

#[export] Hint Resolve zlen_nonneg nonempty_length : rtl.
#[export] Hint Rewrite @zlen_app @zlen_cons @length_app @length_take @length_drop : rtl_len.

(** ** Transition systems *)

(** An invariant of the steps holds of every state they reach. *)
Lemma rtc_preserves {A} (R : A -> A -> Prop) (P : A -> Prop) :
  (forall x y, R x y -> P x -> P y) -> forall x y, P x -> rtc R x y -> P y.
Proof. intros Hstep x y Hx Hr. induction Hr as [|x y z Hxy _ IH]; [done|]. apply IH. by eapply Hstep. Qed.
