(* ===== verification/Bytes.v ===== *)
(** * Bytes and machine integers

    A byte is an integer in [[0, 256)]; a [u32], [u64] or [i32] is an integer
    in its range, and a conversion that truncates or reinterprets writes its
    wrap-around out.  [to_le_bytes], [from_le_bytes], [to_be_bytes] and
    [from_be_bytes] are the conversions of Rust's integer types the program
    uses. *)

From S2P Require Import Prelude.

(** ** Ranges *)

Definition is_byte (b : Z) : Prop := 0 <= b < 256.
Definition bytes_ok (bs : list Z) : Prop := Forall is_byte bs.

Definition U32_MAX : Z := 2 ^ 32 - 1.
Definition is_u32 (z : Z) : Prop := 0 <= z <= U32_MAX.
Definition is_u64 (z : Z) : Prop := 0 <= z < 2 ^ 64.
Definition is_i32 (z : Z) : Prop := - 2 ^ 31 <= z < 2 ^ 31.

(** [as u32], [as u64] on a wider integer, and a [u32] read as an [i32]. *)
Definition as_u32 (z : Z) : Z := z mod 2 ^ 32.
Definition as_u64 (z : Z) : Z := z mod 2 ^ 64.
Definition as_i32 (z : Z) : Z := if 2 ^ 31 <=? z mod 2 ^ 32 then z mod 2 ^ 32 - 2 ^ 32 else z mod 2 ^ 32.

(** ** Little- and big-endian encodings *)

Fixpoint le_value (bs : list Z) : Z :=
  match bs with
  | [] => 0
  | b :: rest => b + 256 * le_value rest
  end.

Fixpoint le_bytes (k : nat) (z : Z) : list Z :=
  match k with
  | O => []
  | S k' => z mod 256 :: le_bytes k' (z / 256)
  end.

Definition be_value (bs : list Z) : Z := le_value (rev bs).
Definition be_bytes (k : nat) (z : Z) : list Z := rev (le_bytes k z).

Definition u32_to_le_bytes (z : Z) : list Z := le_bytes 4 z.
Definition u64_to_le_bytes (z : Z) : list Z := le_bytes 8 z.
Definition u32_from_le_bytes (bs : list Z) : Z := le_value bs.
Definition u64_from_le_bytes (bs : list Z) : Z := le_value bs.
Definition u32_to_be_bytes (z : Z) : list Z := be_bytes 4 z.
Definition u32_from_be_bytes (bs : list Z) : Z := be_value bs.
Definition i32_from_be_bytes (bs : list Z) : Z := as_i32 (be_value bs).

Lemma length_le_bytes k z : length (le_bytes k z) = k.
Proof. revert z; induction k; intros z; simpl; auto. Qed.

Lemma le_bytes_ok k z : bytes_ok (le_bytes k z).
Proof.
  revert z; induction k as [|k IH]; intros z; simpl; constructor; [|apply IH].
  apply (Z.mod_pos_bound z 256). lia.
Qed.

Lemma le_value_bound bs : bytes_ok bs -> 0 <= le_value bs < 256 ^ Z.of_nat (length bs).
Proof.
  induction 1 as [|b bs Hb _ IH]; [done|].
  unfold is_byte in Hb. cbn [le_value length].
  rewrite Nat2Z.inj_succ, Z.pow_succ_r by lia. lia.
Qed.

Lemma le_value_bytes k z : le_value (le_bytes k z) = z mod 256 ^ Z.of_nat k.
Proof.
  revert z; induction k as [|k IH]; intros z.
  - simpl. by rewrite Z.mod_1_r.
  - cbn [le_bytes le_value]. rewrite IH, Nat2Z.inj_succ, Z.pow_succ_r by lia.
    rewrite Z.rem_mul_r by lia. lia.
Qed.

Lemma le_bytes_value bs : bytes_ok bs -> le_bytes (length bs) (le_value bs) = bs.
Proof.
  induction 1 as [|b bs Hb _ IH]; [done|]. unfold is_byte in Hb.
  cbn [le_value length le_bytes].
  assert (Hmod : (b + 256 * le_value bs) mod 256 = b).
  { rewrite Z.mul_comm, Z_mod_plus_full. by apply Z.mod_small. }
  assert (Hdiv : (b + 256 * le_value bs) / 256 = le_value bs).
  { rewrite Z.mul_comm, Z_div_plus_full by lia. rewrite Z.div_small by lia. lia. }
  by rewrite Hmod, Hdiv, IH.
Qed.

Lemma le_value_inj bs cs :
  bytes_ok bs -> bytes_ok cs -> length bs = length cs -> le_value bs = le_value cs -> bs = cs.
Proof.
  intros Hb Hc Hlen Heq.
  by rewrite <- (le_bytes_value bs Hb), <- (le_bytes_value cs Hc), Hlen, Heq.
Qed.

Lemma be_value_bound bs : bytes_ok bs -> 0 <= be_value bs < 256 ^ Z.of_nat (length bs).
Proof.
  intros H. unfold be_value. rewrite <- length_rev. apply le_value_bound.
  by apply Forall_rev.
Qed.

Lemma be_value_bytes k z : be_value (be_bytes k z) = z mod 256 ^ Z.of_nat k.
Proof. unfold be_value, be_bytes. rewrite rev_involutive. apply le_value_bytes. Qed.

Lemma length_be_bytes k z : length (be_bytes k z) = k.
Proof. unfold be_bytes. rewrite length_rev. apply length_le_bytes. Qed.

Lemma be_bytes_ok k z : bytes_ok (be_bytes k z).
Proof. apply Forall_rev, le_bytes_ok. Qed.

(** ** The typed conversions *)

Lemma u32_le_roundtrip z : u32_from_le_bytes (u32_to_le_bytes z) = as_u32 z.
Proof. apply (le_value_bytes 4). Qed.

Lemma u64_le_roundtrip z : u64_from_le_bytes (u64_to_le_bytes z) = as_u64 z.
Proof. apply (le_value_bytes 8). Qed.

Lemma u32_be_roundtrip z : u32_from_be_bytes (u32_to_be_bytes z) = as_u32 z.
Proof. apply (be_value_bytes 4). Qed.

Lemma i32_be_roundtrip z : is_i32 z -> i32_from_be_bytes (be_bytes 4 z) = z.
Proof.
  intros H. unfold i32_from_be_bytes. rewrite be_value_bytes.
  change (256 ^ Z.of_nat 4) with (2 ^ 32). unfold as_i32, is_i32 in *.
  change (2 ^ 32) with 4294967296 in *. change (2 ^ 31) with 2147483648 in *.
  rewrite Z.mod_mod by lia.
  pose proof (Z.div_mod z 4294967296). pose proof (Z.mod_pos_bound z 4294967296).
  destruct (Z.leb_spec 2147483648 (z mod 4294967296)); lia.
Qed.

Lemma as_u32_small z : is_u32 z -> as_u32 z = z.
Proof. unfold is_u32, as_u32, U32_MAX. intros. apply Z.mod_small. lia. Qed.

Lemma as_u64_small z : is_u64 z -> as_u64 z = z.
Proof. apply Z.mod_small. Qed.

Lemma u32_from_be_bytes_range bs : bytes_ok bs -> length bs = 4%nat -> is_u32 (u32_from_be_bytes bs).
Proof.
  intros Hok Hlen. pose proof (be_value_bound bs Hok) as H. rewrite Hlen in H.
  change (256 ^ Z.of_nat 4) with (2 ^ 32) in H.
  unfold is_u32, u32_from_be_bytes, U32_MAX. lia.
Qed.

Lemma u32_from_le_bytes_range bs : bytes_ok bs -> length bs = 4%nat -> is_u32 (u32_from_le_bytes bs).
Proof.
  intros Hok Hlen. pose proof (le_value_bound bs Hok) as H. rewrite Hlen in H.
  change (256 ^ Z.of_nat 4) with (2 ^ 32) in H.
  unfold is_u32, u32_from_le_bytes, U32_MAX. lia.
Qed.

Lemma as_i32_range z : is_i32 (as_i32 z).
Proof.
  unfold as_i32, is_i32. pose proof (Z.mod_pos_bound z (2 ^ 32) eq_refl).
  destruct (Z.leb_spec (2 ^ 31) (z mod 2 ^ 32)); lia.
Qed.

Lemma i32_from_be_bytes_range bs : is_i32 (i32_from_be_bytes bs).
Proof. apply as_i32_range. Qed.

#[export] Hint Rewrite length_le_bytes length_be_bytes : rtl_len.
#[export] Hint Resolve le_bytes_ok be_bytes_ok as_i32_range : rtl.
