(* ===== verification/Io.v ===== *)
(** * Standard-library I/O

    The parts of [std::io] and [std::net] the program is written against: the
    traits [Read] and [Write] as classes, their default methods [read_exact]
    and [write_all], [BufWriter], a [TcpStream] driven by the operating
    system's answers, and a seekable file.

    The operating system is a script.  [rx] lists what successive [read] calls
    meet (a segment of bytes, or an error such as a timeout), [tx] what
    successive [write] calls meet (how many bytes the kernel takes, or an
    error).  Past the end of [rx] the peer has closed ([read] returns 0); past
    the end of [tx] every write is taken whole. *)

From S2P Require Import Prelude Bytes.

Inductive ErrorKind : Type :=
| UnexpectedEof | ConnectionReset | BrokenPipe | ConnectionAborted | NotConnected
| WouldBlock | TimedOut | Interrupted | WriteZero | InvalidData | InvalidInput | OtherError.

#[export] Instance ErrorKind_eq_dec : EqDecision ErrorKind.
Proof. solve_decision. Defined.

Abbreviation io A := (res A ErrorKind).

(** ** The trait [Read] *)

(** [read r n] fills at most [n] bytes of a buffer: the bytes it read, and the
    reader afterwards.  [read_budget] counts the [Interrupted] results the
    reader can still give, which the retry loops of the library use up. *)
Class Read (R : Type) : Type := {
  read : R -> nat -> io (list Z) * R;
  read_budget : R -> nat
}.

Class ReadLaws (R : Type) `{Read R} : Prop := {
  read_ok_law : forall r n bs r', read r n = (Ok bs, r') ->
    (length bs <= n)%nat /\ (read_budget r' <= read_budget r)%nat;
  read_interrupted_law : forall r n r', read r n = (Err Interrupted, r') ->
    (read_budget r' < read_budget r)%nat;
  read_returns_law : forall r n, fst (read r n) <> Diverged
}.

(** A reader that is going to deliver exactly [bs] and then end-of-file, in
    segments of its own choosing. *)
Class ReadStream (R : Type) `{Read R} : Type := {
  yields : R -> list Z -> Prop;
  read_yields : forall r bs n, yields r bs -> (0 < n)%nat ->
    (exists k r', read r n = (Ok (take k bs), r') /\ yields r' (drop k bs) /\
       (k <= n)%nat /\ (k <= length bs)%nat /\ (bs <> [] -> (0 < k)%nat)) \/
    (exists r', read r n = (Err Interrupted, r') /\ yields r' bs)
}.

Section read_exact.
Context {R : Type} `{Read R}.

(** [Read::read_exact]: reads until the buffer is full, retrying interrupted
    calls; a read of no bytes is an unexpected end of file.  The bytes read
    before an error are gone. *)
Fixpoint read_exact_loop (fuel : nat) (r : R) (n : nat) (acc : list Z) : io (list Z) * R :=
  match n with
  | O => (Ok acc, r)
  | S _ =>
    match fuel with
    | O => (Diverged, r)
    | S fuel' =>
      match read r n with
      | (Ok [], r') => (Err UnexpectedEof, r')
      | (Ok bs, r') => read_exact_loop fuel' r' (n - length bs) (acc ++ bs)
      | (Err Interrupted, r') => read_exact_loop fuel' r' n acc
      | (Err e, r') => (Err e, r')
      | (Panic, r') => (Panic, r')
      | (Diverged, r') => (Diverged, r')
      end
    end
  end.

Definition read_exact (r : R) (n : nat) : io (list Z) * R :=
  read_exact_loop (n + read_budget r) r n [].

Lemma read_exact_loop_ok fuel r n acc bs r' :
  ReadLaws R -> read_exact_loop fuel r n acc = (Ok bs, r') ->
  exists cs, bs = acc ++ cs /\ length cs = n.
Proof.
  intros L. revert r n acc; induction fuel as [|fuel IH]; intros r n acc Heq;
    destruct n as [|n]; simpl in Heq; simplify_eq.
  - exists []. by rewrite app_nil_r.
  - exists []. by rewrite app_nil_r.
  - destruct (read r (S n)) as [[[|b cs]|e| |] r1] eqn:Hr; try (simplify_eq; fail).
    + apply read_ok_law in Hr as [Hlen _]. simpl in Hlen.
      apply IH in Heq as (ds & -> & Hd). exists ((b :: cs) ++ ds).
      rewrite <- app_assoc. simpl in Hd |- *. rewrite length_app. split; [done | lia].
    + destruct e; simplify_eq. by apply IH in Heq.
Qed.

Lemma read_exact_ok r n bs r' :
  ReadLaws R -> read_exact r n = (Ok bs, r') -> length bs = n.
Proof. intros L Heq. by apply read_exact_loop_ok in Heq as (cs & -> & ?). Qed.

Lemma read_exact_loop_returns fuel r n acc :
  ReadLaws R -> (n + read_budget r <= fuel)%nat -> fst (read_exact_loop fuel r n acc) <> Diverged.
Proof.
  intros L. revert r n acc; induction fuel as [|fuel IH]; intros r n acc Hf.
  { destruct n; simpl in *; [done | lia]. }
  destruct n as [|n]; [done|]. cbn [read_exact_loop].
  pose proof (read_returns_law r (S n)) as Hret.
  destruct (read r (S n)) as [[[|b cs]|e| |] r1] eqn:Hr; try done.
  - apply read_ok_law in Hr as [Hlen Hb]. apply IH. simpl in *. lia.
  - destruct e; try done. apply read_interrupted_law in Hr. apply IH. lia.
Qed.

(** [read_exact] returns: the fuel is enough for every lawful reader. *)
Lemma read_exact_returns r n : ReadLaws R -> fst (read_exact r n) <> Diverged.
Proof. intros L. by apply read_exact_loop_returns. Qed.

Context `{!ReadStream R} `{!ReadLaws R}.

Lemma read_exact_loop_yields fuel r n acc bs :
  yields r bs -> (n + read_budget r <= fuel)%nat -> (n <= length bs)%nat ->
  exists r', read_exact_loop fuel r n acc = (Ok (acc ++ take n bs), r') /\ yields r' (drop n bs).
Proof.
  revert r n acc bs; induction fuel as [|fuel IH]; intros r n acc bs Hy Hf Hn.
  { assert (n = O) as -> by lia. exists r. by rewrite take_0, drop_0, app_nil_r. }
  destruct n as [|n]; [exists r; by rewrite take_0, drop_0, app_nil_r|].
  cbn [read_exact_loop].
  destruct (read_yields r bs (S n) Hy) as [(k & r1 & Hr & Hy1 & Hkn & Hkl & Hpos)|(r1 & Hr & Hy1)];
    [lia| |]; rewrite Hr.
  - assert (0 < k)%nat by (apply Hpos; intros ->; simpl in Hn; lia).
    pose proof (read_ok_law _ _ _ _ Hr) as [_ Hb].
    assert (Hlen : length (take k bs) = k) by (rewrite length_take; lia).
    destruct (take k bs) as [|b cs] eqn:Ht; [simpl in Hlen; lia|].
    rewrite Hlen, <- Ht.
    destruct (IH r1 (S n - k)%nat (acc ++ take k bs) (drop k bs)) as (r2 & -> & Hy2);
      [done | lia | rewrite length_drop; lia |].
    exists r2. rewrite <- app_assoc, drop_drop in *.
    replace (k + (S n - k))%nat with (S n) in Hy2 by lia. split; [|done].
    do 3 f_equal. rewrite <- (take_drop k (take (S n) bs)), take_take, skipn_firstn_comm.
    by rewrite Nat.min_l by lia.
  - apply read_interrupted_law in Hr. apply (IH r1); [done | lia | lia].
Qed.

(** On a well-behaved stream [read_exact] delivers the next [n] bytes. *)
Lemma read_exact_yields r bs cs n :
  yields r (bs ++ cs) -> length bs = n ->
  exists r', read_exact r n = (Ok bs, r') /\ yields r' cs.
Proof.
  intros Hy <-. unfold read_exact.
  destruct (read_exact_loop_yields (length bs + read_budget r) r (length bs) [] (bs ++ cs))
    as (r' & -> & Hy'); [done | lia | rewrite length_app; lia |].
  exists r'. rewrite take_app_length, drop_app_length in *. done.
Qed.

Lemma read_exact_loop_short fuel r n acc bs :
  yields r bs -> (n + read_budget r <= fuel)%nat -> (length bs < n)%nat ->
  exists r', read_exact_loop fuel r n acc = (Err UnexpectedEof, r') /\ yields r' [].
Proof.
  revert r n acc bs; induction fuel as [|fuel IH]; intros r n acc bs Hy Hf Hn; [lia|].
  destruct n as [|n]; [lia|]. cbn [read_exact_loop].
  destruct (read_yields r bs (S n) Hy) as [(k & r1 & Hr & Hy1 & Hkn & Hkl & Hpos)|(r1 & Hr & Hy1)];
    [lia| |]; rewrite Hr.
  - destruct (decide (bs = [])) as [->|Hne].
    { rewrite take_nil. exists r1. by rewrite drop_nil in Hy1. }
    assert (0 < k)%nat by auto. pose proof (read_ok_law _ _ _ _ Hr) as [_ Hb].
    assert (Hlen : length (take k bs) = k) by (rewrite length_take; lia).
    destruct (take k bs) as [|b cs] eqn:Ht; [simpl in Hlen; lia|].
    rewrite Hlen. apply (IH r1 _ _ (drop k bs)); [done | lia | rewrite length_drop; lia].
  - apply read_interrupted_law in Hr. apply (IH r1 _ _ bs); [done | lia | lia].
Qed.

(** On a stream that ends early it reports the end of the file, and the bytes
    that were left are lost. *)
Lemma read_exact_short r bs n :
  yields r bs -> (length bs < n)%nat ->
  exists r', read_exact r n = (Err UnexpectedEof, r') /\ yields r' [].
Proof. intros Hy Hn. by apply (read_exact_loop_short _ _ _ _ bs). Qed.

(** The two cases at once: on a stream of the bytes [bs], [read_exact] is the
    pure split of [bs] at [n], for every segmentation of the stream. *)
Definition split_exact (n : nat) (bs : list Z) : io (list Z) * list Z :=
  if (n <=? length bs)%nat then (Ok (take n bs), drop n bs) else (Err UnexpectedEof, []).

Lemma read_exact_split r bs n :
  yields r bs -> exists r', read_exact r n = (fst (split_exact n bs), r') /\ yields r' (snd (split_exact n bs)).
Proof.
  intros Hy. unfold split_exact. destruct (Nat.leb_spec n (length bs)) as [Hn|Hn].
  - rewrite <- (take_drop n bs) in Hy. apply (read_exact_yields _ _ _ n) in Hy; [done|].
    rewrite length_take. lia.
  - by apply (read_exact_short _ bs).
Qed.

Lemma split_exact_app bs cs n : length bs = n -> split_exact n (bs ++ cs) = (Ok bs, cs).
Proof.
  intros <-. unfold split_exact. rewrite length_app.
  destruct (Nat.leb_spec (length bs) (length bs + length cs)); [|lia].
  by rewrite take_app_length, drop_app_length.
Qed.

Lemma split_exact_short bs n : (length bs < n)%nat -> split_exact n bs = (Err UnexpectedEof, []).
Proof. intros Hn. unfold split_exact. destruct (Nat.leb_spec n (length bs)); [lia | done]. Qed.

End read_exact.

(** ** The trait [Write] *)

(** [write w buf] hands [buf] to the sink, which takes a prefix of it: how many
    bytes it took, and the sink afterwards. *)
Class Write (W : Type) : Type := {
  write : W -> list Z -> io nat * W;
  flush : W -> io unit * W;
  write_budget : W -> nat
}.

Class WriteLaws (W : Type) `{Write W} : Prop := {
  write_ok_law : forall w buf n w', write w buf = (Ok n, w') ->
    (n <= length buf)%nat /\ (write_budget w' <= write_budget w)%nat;
  write_interrupted_law : forall w buf w', write w buf = (Err Interrupted, w') ->
    (write_budget w' < write_budget w)%nat;
  write_returns_law : forall w buf, fst (write w buf) <> Diverged
}.

(** What a sink has been given: [wrote w bs w'] says that from [w] to [w']
    exactly the bytes [bs] went through; [accepts w] that no write is going to
    fail. *)
Class WriteSink (W : Type) `{Write W} : Type := {
  wrote : W -> list Z -> W -> Prop;
  wrote_nil : forall w, wrote w [] w;
  wrote_app : forall w1 w2 w3 bs cs, wrote w1 bs w2 -> wrote w2 cs w3 -> wrote w1 (bs ++ cs) w3;
  write_wrote : forall w buf n w', write w buf = (Ok n, w') -> wrote w (take n buf) w';
  write_fail_wrote : forall w buf r w', write w buf = (r, w') -> is_ok r = false -> wrote w [] w';
  accepts : W -> Prop;
  write_accepts : forall w buf, accepts w -> buf <> [] ->
    (exists n w', write w buf = (Ok n, w') /\ (0 < n)%nat /\ accepts w') \/
    (exists w', write w buf = (Err Interrupted, w') /\ accepts w')
}.

Section write_all.
Context {W : Type} `{Write W}.

(** The loop [write_all] and [BufWriter::flush_buf] share: hand over what is
    left until nothing is, retrying interrupted calls.  It also returns the
    bytes that were not taken. *)
Fixpoint write_loop (fuel : nat) (w : W) (buf : list Z) : io unit * list Z * W :=
  match buf with
  | [] => (Ok tt, [], w)
  | _ =>
    match fuel with
    | O => (Diverged, buf, w)
    | S fuel' =>
      match write w buf with
      | (Ok O, w') => (Err WriteZero, buf, w')
      | (Ok n, w') => write_loop fuel' w' (drop n buf)
      | (Err Interrupted, w') => write_loop fuel' w' buf
      | (Err e, w') => (Err e, buf, w')
      | (Panic, w') => (Panic, buf, w')
      | (Diverged, w') => (Diverged, buf, w')
      end
    end
  end.

(** [Write::write_all]. *)
Definition write_all (w : W) (buf : list Z) : io unit * W :=
  match write_loop (length buf + write_budget w) w buf with
  | (r, _, w') => (r, w')
  end.

Lemma write_loop_nil fuel w : write_loop fuel w [] = (Ok tt, [], w).
Proof. by destruct fuel. Qed.

Lemma write_all_nil w : write_all w [] = (Ok tt, w).
Proof. unfold write_all. by rewrite write_loop_nil. Qed.

Lemma write_loop_returns fuel w buf :
  WriteLaws W -> (length buf + write_budget w <= fuel)%nat ->
  fst (fst (write_loop fuel w buf)) <> Diverged.
Proof.
  intros L. revert w buf; induction fuel as [|fuel IH]; intros w buf Hf.
  { destruct buf; simpl in *; [done | lia]. }
  destruct buf as [|b bs]; [done|]. cbn [write_loop].
  pose proof (write_returns_law w (b :: bs)) as Hret.
  destruct (write w (b :: bs)) as [[[|n]|e| |] w1] eqn:Hw; try done.
  - apply write_ok_law in Hw as [Hlen Hb]. apply IH. rewrite length_drop. simpl in *. lia.
  - destruct e; try done. apply write_interrupted_law in Hw. apply IH. lia.
Qed.

Lemma write_loop_no_panic fuel w buf :
  (forall w buf, fst (write w buf) <> Panic) -> fst (fst (write_loop fuel w buf)) <> Panic.
Proof.
  intros Hnp. revert w buf; induction fuel as [|fuel IH]; intros w [|b bs]; try done. cbn [write_loop].
  pose proof (Hnp w (b :: bs)) as Hp. destruct (write w (b :: bs)) as [[[|n]|e| |] w1]; try done; try apply IH.
  by destruct e.
Qed.

Lemma write_all_returns w buf : WriteLaws W -> fst (write_all w buf) <> Diverged.
Proof.
  intros L. unfold write_all.
  pose proof (write_loop_returns (length buf + write_budget w) w buf L) as Hr.
  destruct (write_loop _ w buf) as [[r rest] w']. apply Hr. lia.
Qed.

Context `{!WriteSink W}.

(** What was taken and what is left make up the buffer, on every outcome. *)
Lemma write_loop_wrote fuel w buf r rest w' :
  write_loop fuel w buf = (r, rest, w') ->
  exists bs, buf = bs ++ rest /\ wrote w bs w' /\ (r = Ok tt -> rest = []).
Proof.
  revert w buf; induction fuel as [|fuel IH]; intros w buf Heq;
    destruct buf as [|b cs]; simpl in Heq; simplify_eq;
    try (exists []; split_and!; [done | apply wrote_nil | done]; fail).
  destruct (write w (b :: cs)) as [q w1] eqn:Hw.
  assert (Hfail : is_ok q = false -> wrote w [] w1) by (intros; by apply (write_fail_wrote _ _ _ _ Hw)).
  assert (Hstop : forall s, is_ok q = false -> s <> Ok tt -> (r, rest, w') = (s, b :: cs, w1) ->
    exists bs, b :: cs = bs ++ rest /\ wrote w bs w' /\ (r = Ok tt -> rest = [])).
  { intros s Hq Hs E. simplify_eq. exists []. split_and!; [done | by apply Hfail | done]. }
  destruct q as [[|n]|e| |]; try (eapply Hstop; [done | | symmetry; exact Heq]; done).
  - simplify_eq. exists []. apply write_wrote in Hw. by split_and!.
  - apply IH in Heq as (ds & Heq & Hds & Hr). apply write_wrote in Hw.
    exists (take (S n) (b :: cs) ++ ds). rewrite <- app_assoc, <- Heq, take_drop.
    split_and!; [done | by eapply wrote_app | done].
  - destruct e; try (eapply Hstop; [done | | symmetry; exact Heq]; done).
    apply IH in Heq as (ds & Heq & Hds & Hr). exists ([] ++ ds).
    split_and!; [done | eapply wrote_app; [by apply Hfail | done] | done].
Qed.

(** Whatever happens, [write_all] has handed over a prefix of its buffer, and
    all of it when it returns [Ok]. *)
Lemma write_all_wrote w buf r w' :
  write_all w buf = (r, w') ->
  exists bs, bs `prefix_of` buf /\ wrote w bs w' /\ (r = Ok tt -> bs = buf).
Proof.
  unfold write_all. destruct (write_loop _ w buf) as [[r1 rest] w1] eqn:Hl.
  intros E; simplify_eq. apply write_loop_wrote in Hl as (bs & -> & Hw & Hr).
  exists bs. split; [by exists rest|]. split; [done|].
  intros E. by rewrite (Hr E), app_nil_r.
Qed.

Context `{!WriteLaws W}.

Lemma write_loop_accepts fuel w buf :
  accepts w -> (length buf + write_budget w <= fuel)%nat ->
  exists w', write_loop fuel w buf = (Ok tt, [], w') /\ accepts w'.
Proof.
  revert w buf; induction fuel as [|fuel IH]; intros w buf Ha Hf.
  { destruct buf; simpl in *; [eauto | lia]. }
  destruct buf as [|b bs]; [eauto|]. cbn [write_loop].
  destruct (write_accepts w (b :: bs) Ha) as [(n & w1 & Hw & Hn & Ha1)|(w1 & Hw & Ha1)];
    [done| |]; rewrite Hw.
  - apply write_ok_law in Hw as [Hlen Hb]. destruct n as [|n]; [lia|].
    apply IH; [done|]. rewrite length_drop. simpl in *. lia.
  - apply write_interrupted_law in Hw. apply IH; [done | lia].
Qed.

(** On a sink that accepts, [write_all] succeeds with all of its buffer. *)
Lemma write_all_accepts w buf :
  accepts w -> exists w', write_all w buf = (Ok tt, w') /\ wrote w buf w' /\ accepts w'.
Proof.
  intros Ha. unfold write_all.
  destruct (write_loop_accepts (length buf + write_budget w) w buf) as (w' & Hl & Ha');
    [done | lia |].
  rewrite Hl. apply write_loop_wrote in Hl as (bs & -> & Hw & _).
  rewrite app_nil_r. eauto.
Qed.

(** A computation that writes [full] if it succeeds, and a prefix of it
    otherwise; sequencing with [?] sequences the bytes. *)
Definition emits (w : W) (full : list Z) (out : io unit * W) : Prop :=
  exists bs, bs `prefix_of` full /\ wrote w bs (snd out) /\ (fst out = Ok tt -> bs = full).

Lemma emits_write_all w buf : emits w buf (write_all w buf).
Proof. destruct (write_all w buf) as [r w'] eqn:E. by apply write_all_wrote in E. Qed.

Lemma emits_bind w bs cs out (k : unit -> W -> io unit * W) :
  emits w bs out -> (forall w1, emits w1 cs (k tt w1)) -> emits w (bs ++ cs) (bind_st out k).
Proof.
  intros (xs & Hpre & Hw & Hok) Hk. destruct out as [[[]|e| |] w1]; simpl in *.
  - rewrite (Hok eq_refl) in *. destruct (Hk w1) as (ys & Hp2 & Hw2 & Hok2).
    exists (bs ++ ys). split_and!; [by apply prefix_app | by eapply wrote_app |].
    intros E. by rewrite (Hok2 E).
  - exists xs. split_and!; [by apply prefix_app_r | done | done].
  - exists xs. split_and!; [by apply prefix_app_r | done | done].
  - exists xs. split_and!; [by apply prefix_app_r | done | done].
Qed.

(** The same on a sink that accepts: everything is written. *)
Definition delivers (w : W) (full : list Z) (out : io unit * W) : Prop :=
  exists w', out = (Ok tt, w') /\ wrote w full w' /\ accepts w'.

Lemma delivers_write_all w buf : accepts w -> delivers w buf (write_all w buf).
Proof. intros Ha. by apply write_all_accepts. Qed.

Lemma delivers_bind w bs cs out (k : unit -> W -> io unit * W) :
  delivers w bs out -> (forall w1, accepts w1 -> delivers w1 cs (k tt w1)) ->
  delivers w (bs ++ cs) (bind_st out k).
Proof.
  intros (w1 & -> & Hw & Ha) Hk. destruct (Hk w1 Ha) as (w2 & E & Hw2 & Ha2).
  exists w2. split_and!; [done | by eapply wrote_app | done].
Qed.

Lemma emits_ok w full w' : emits w full (Ok tt, w') -> wrote w full w'.
Proof. intros (bs & _ & Hw & Hok). by rewrite (Hok eq_refl) in Hw. Qed.

End write_all.
