(* ===== verification/Net.v ===== *)
(** * Streams of the standard library

    [TcpStream] over the scripts of the operating system, a seekable [File],
    [Vec<u8>] as a sink, and [BufWriter]; each with its instances of the
    interfaces of [Io]. *)

From S2P Require Import Prelude Bytes Io.

(** ** [std::net::TcpStream] *)

Inductive rx_event : Type :=
| Data (bs : list Z)
| RErr (k : ErrorKind).

Inductive tx_event : Type :=
| Accept (n : nat)
| WErr (k : ErrorKind).

#[export] Instance rx_event_eq_dec : EqDecision rx_event.
Proof. solve_decision. Defined.
#[export] Instance tx_event_eq_dec : EqDecision tx_event.
Proof. solve_decision. Defined.

(** [rto] and [wto] are the read and write timeouts in nanoseconds; [sent] is
    everything this end has put on the wire. *)
Record TcpStream : Type := mkTcp {
  rx : list rx_event;
  tx : list tx_event;
  sent : list Z;
  rto : option Z;
  wto : option Z
}.

Definition with_rx (s : TcpStream) (evs : list rx_event) : TcpStream :=
  mkTcp evs (tx s) (sent s) (rto s) (wto s).
Definition with_tx (s : TcpStream) (evs : list tx_event) (bs : list Z) : TcpStream :=
  mkTcp (rx s) evs (sent s ++ bs) (rto s) (wto s).

(** [set_read_timeout(Some(d))] and [set_write_timeout(Some(d))]: a zero
    duration is an error. *)
Definition set_read_timeout (s : TcpStream) (d : Z) : io unit * TcpStream :=
  if d =? 0 then (Err InvalidInput, s)
  else (Ok tt, mkTcp (rx s) (tx s) (sent s) (Some d) (wto s)).
Definition set_write_timeout (s : TcpStream) (d : Z) : io unit * TcpStream :=
  if d =? 0 then (Err InvalidInput, s)
  else (Ok tt, mkTcp (rx s) (tx s) (sent s) (rto s) (Some d)).

Definition tcp_read (s : TcpStream) (n : nat) : io (list Z) * TcpStream :=
  match rx s with
  | [] => (Ok [], s)
  | Data bs :: evs =>
    if (length bs <=? n)%nat then (Ok bs, with_rx s evs)
    else (Ok (take n bs), with_rx s (Data (drop n bs) :: evs))
  | RErr k :: evs => (Err k, with_rx s evs)
  end.

Definition tcp_write (s : TcpStream) (buf : list Z) : io nat * TcpStream :=
  match tx s with
  | [] => (Ok (length buf), with_tx s [] buf)
  | Accept n :: evs => (Ok (Nat.min n (length buf)), with_tx s evs (take n buf))
  | WErr k :: evs => (Err k, with_tx s evs [])
  end.

Definition rx_interrupts (evs : list rx_event) : nat :=
  sum_list_with (fun e => match e with RErr Interrupted => 1%nat | _ => 0%nat end) evs.
Definition tx_interrupts (evs : list tx_event) : nat :=
  sum_list_with (fun e => match e with WErr Interrupted => 1%nat | _ => 0%nat end) evs.

#[export] Instance TcpStream_Read : Read TcpStream :=
  {| read := tcp_read; read_budget s := rx_interrupts (rx s) |}.
#[export] Instance TcpStream_Write : Write TcpStream :=
  {| write := tcp_write; flush s := (Ok tt, s); write_budget s := tx_interrupts (tx s) |}.

#[export] Instance TcpStream_ReadLaws : ReadLaws TcpStream.
Proof.
  constructor; intros [evs t o rt wt] n; cbn [read read_budget TcpStream_Read];
    unfold tcp_read, rx_interrupts; simpl.
  - intros bs r'. destruct evs as [|[cs|k] evs]; intros E; simplify_eq/=; [lia|].
    destruct (Nat.leb_spec (length cs) n); simplify_eq/=; [lia|].
    rewrite length_take. lia.
  - intros r'. destruct evs as [|[cs|k] evs]; intros E; simplify_eq/=; [|lia].
    destruct (length cs <=? n)%nat; simplify_eq.
  - destruct evs as [|[cs|k] evs]; simpl; try done. by destruct (length cs <=? n)%nat.
Qed.

#[export] Instance TcpStream_WriteLaws : WriteLaws TcpStream.
Proof.
  constructor; intros [evs t o rt wt] buf; cbn [write write_budget TcpStream_Write];
    unfold tcp_write, tx_interrupts; simpl.
  - intros n w'. destruct t as [|[m|k] t]; intros E; simplify_eq/=; lia.
  - intros w'. destruct t as [|[m|k] t]; intros E; simplify_eq/=. lia.
  - by destruct t as [|[m|k] t].
Qed.

(** A peer that sends exactly these bytes and closes, however segmented. *)
Definition rx_good (e : rx_event) : Prop :=
  match e with Data bs => bs <> [] | RErr k => k = Interrupted end.
Definition rx_bytes (evs : list rx_event) : list Z :=
  concat (map (fun e => match e with Data bs => bs | RErr _ => [] end) evs).
Definition tx_good (e : tx_event) : Prop :=
  match e with Accept n => (0 < n)%nat | WErr k => k = Interrupted end.

#[export] Program Instance TcpStream_ReadStream : ReadStream TcpStream :=
  {| yields s bs := Forall rx_good (rx s) /\ rx_bytes (rx s) = bs |}.
Next Obligation.
  intros [evs t o rt wt] bs n [Hg Hb] Hn. simpl in Hg, Hb.
  cbn [read TcpStream_Read]; unfold tcp_read; simpl.
  destruct Hg as [|[cs|k] evs He Hg].
  - left. exists O, (mkTcp [] t o rt wt). rewrite take_0, drop_0.
    subst bs. split_and!; simpl; auto; try lia. by intros [].
  - left. simpl in He. apply nonempty_length in He.
    change (rx_bytes (Data cs :: evs)) with (cs ++ rx_bytes evs) in Hb. subst bs.
    destruct (Nat.leb_spec (length cs) n).
    + exists (length cs), (with_rx (mkTcp (Data cs :: evs) t o rt wt) evs).
      rewrite take_app_length, drop_app_length, length_app. simpl. split_and!; auto; lia.
    + eexists n, _. rewrite take_app_le, drop_app_le, length_app by lia. simpl.
      split_and!; auto; try lia. constructor; [|done]. simpl.
      intros E. apply (f_equal length) in E. rewrite length_drop in E. simpl in E. lia.
  - right. simpl in He. subst k. eexists. simpl. split_and!; auto.
Qed.

#[export] Program Instance TcpStream_WriteSink : WriteSink TcpStream :=
  {| wrote s bs s' := sent s' = sent s ++ bs /\ rx s' = rx s /\ rto s' = rto s /\ wto s' = wto s;
     accepts s := Forall tx_good (tx s) |}.
Next Obligation. intros w; simpl. by rewrite app_nil_r. Qed.
Next Obligation. intros w1 w2 w3 bs cs; simpl; intros (?&?&?&?) (?&?&?&?). rewrite app_assoc. split_and!; congruence. Qed.
Next Obligation.
  intros [r t o rt wt] buf n w'. cbn [write TcpStream_Write]; unfold tcp_write; simpl.
  destruct t as [|[m|k] t]; intros E; simplify_eq/=; [by rewrite firstn_all|].
  by rewrite take_min_length.
Qed.
Next Obligation.
  intros [rr t o rt wt] buf r w'. cbn [write TcpStream_Write]; unfold tcp_write; simpl.
  by destruct t as [|[m|k] t]; intros E; simplify_eq/=.
Qed.
Next Obligation.
  intros [r t o rt wt] buf Ha Hb. apply nonempty_length in Hb. simpl in Ha.
  cbn [write TcpStream_Write]; unfold tcp_write; simpl.
  destruct Ha as [|[m|k] t Hm Ht]; simpl in *.
  - left. eexists _, _. by split_and!.
  - left. eexists _, _. split_and!; [done | lia | done].
  - right. subst k. eexists. by split_and!.
Qed.

(** Reading leaves the sending side of a socket alone. *)
Lemma tcp_read_sent (s s' : TcpStream) n r :
  read s n = (r, s') -> sent s' = sent s /\ tx s' = tx s.
Proof.
  cbn. unfold tcp_read. destruct (rx s) as [|[d|e] evs]; try destruct (_ <=? _)%nat;
    intros E; by simplify_eq/=.
Qed.

Lemma read_exact_sent (s s' : TcpStream) n r :
  read_exact s n = (r, s') -> sent s' = sent s /\ tx s' = tx s.
Proof.
  unfold read_exact. generalize (n + read_budget s)%nat as fuel. intros fuel. generalize (@nil Z) as acc.
  revert s n; induction fuel as [|fuel IH]; intros s n acc; (destruct n as [|n]; [intros E; by simplify_eq/=|]);
    [intros E; by simplify_eq/=|].
  cbn [read_exact_loop]. destruct (read s (S n)) as [q s1] eqn:Er.
  destruct (tcp_read_sent _ _ _ _ Er) as [<- <-].
  destruct q as [[|b d]|e| |]; try (intros E; by simplify_eq/=); [apply IH|].
  destruct e; try (intros E; by simplify_eq/=). apply IH.
Qed.

(** ** [Vec<u8>] as a sink *)

#[export] Instance Vec_Write : Write (list Z) :=
  {| write v buf := (Ok (length buf), v ++ buf); flush v := (Ok tt, v); write_budget _ := O |}.

#[export] Instance Vec_WriteLaws : WriteLaws (list Z).
Proof. constructor; intros; simplify_eq/=; try lia; done. Qed.

#[export] Program Instance Vec_WriteSink : WriteSink (list Z) :=
  {| wrote v bs v' := v' = v ++ bs; accepts _ := True |}.
Next Obligation. intros; simpl. by rewrite app_nil_r. Qed.
Next Obligation. intros; simpl in *. subst. by rewrite app_assoc. Qed.
Next Obligation. intros w buf n w' E; simplify_eq/=. by rewrite firstn_all. Qed.
Next Obligation. intros w buf r w' E; by simplify_eq/=. Qed.
Next Obligation. intros w buf _ Hb. left. eexists _, _. split_and!; [done | by apply nonempty_length | done]. Qed.

(** Writing to a vector cannot fail. *)
Lemma write_all_vec (v buf : list Z) : write_all v buf = (Ok tt, v ++ buf).
Proof.
  destruct (write_all_accepts v buf) as (w' & -> & Hw & _); [exact I |].
  simpl in Hw. by subst.
Qed.

(** ** Seekable files

    [std::fs::File] and [std::io::Cursor]: the bytes, the position, and the
    answers of the operating system to the next writes ([ftx]), reads ([frx],
    where [None] is success) and seeks ([fsk]); a cursor is a file whose three
    scripts are empty. *)
Record File : Type := mkFile {
  content : list Z;
  fpos : nat;
  ftx : list tx_event;
  frx : list (option ErrorKind);
  fsk : list (option ErrorKind)
}.

Definition cursor (bs : list Z) : File := mkFile bs 0 [] [] [].

(** Overwriting from position [p], padding with zeros when [p] is past the end. *)
Definition splice (p : nat) (bs c : list Z) : list Z :=
  take p (c ++ replicate (p - length c) 0) ++ bs ++ drop (p + length bs) c.

Definition file_put (f : File) (bs : list Z) (evs : list tx_event) : File :=
  match bs with
  | [] => mkFile (content f) (fpos f) evs (frx f) (fsk f)
  | _ => mkFile (splice (fpos f) bs (content f)) (fpos f + length bs) evs (frx f) (fsk f)
  end.

Definition file_write (f : File) (buf : list Z) : io nat * File :=
  match ftx f with
  | [] => (Ok (length buf), file_put f buf [])
  | Accept n :: evs => (Ok (Nat.min n (length buf)), file_put f (take n buf) evs)
  | WErr k :: evs => (Err k, file_put f [] evs)
  end.

Definition file_read (f : File) (n : nat) : io (list Z) * File :=
  match frx f with
  | Some k :: es => (Err k, mkFile (content f) (fpos f) (ftx f) es (fsk f))
  | es =>
    let bs := take n (drop (fpos f) (content f)) in
    (Ok bs, mkFile (content f) (fpos f + length bs) (ftx f) (tail es) (fsk f))
  end.

(** The trait [Seek], as far as it is used. *)
Class Seek (F : Type) : Type := {
  stream_position : F -> io nat * F;
  seek_start : F -> nat -> io nat * F
}.

Definition file_seek (f : File) (p : nat) : io nat * File :=
  match fsk f with
  | Some k :: es => (Err k, mkFile (content f) (fpos f) (ftx f) (frx f) es)
  | es => (Ok p, mkFile (content f) p (ftx f) (frx f) (tail es))
  end.

#[export] Instance File_Write : Write File :=
  {| write := file_write; flush f := (Ok tt, f); write_budget f := tx_interrupts (ftx f) |}.
#[export] Instance File_Read : Read File :=
  {| read := file_read;
     read_budget f := sum_list_with
       (fun e => match e with Some Interrupted => 1%nat | _ => 0%nat end) (frx f) |}.
#[export] Instance File_Seek : Seek File :=
  {| stream_position f := file_seek f (fpos f); seek_start := file_seek |}.

#[export] Instance File_WriteLaws : WriteLaws File.
Proof.
  constructor; intros [c p t rs ks] buf; cbn [write write_budget File_Write];
    unfold file_write, tx_interrupts; simpl.
  - intros n w'. destruct t as [|[m|k] t]; intros E; simplify_eq/=.
    + destruct buf; simpl; lia.
    + destruct (take m buf); simpl; lia.
  - intros w'. destruct t as [|[m|k] t]; intros E; simplify_eq/=. lia.
  - by destruct t as [|[m|k] t].
Qed.

#[export] Instance File_ReadLaws : ReadLaws File.
Proof.
  constructor; intros [c p t rs ks] n; cbn [read read_budget File_Read]; unfold file_read; simpl.
  - intros bs r'. destruct rs as [|[k|] rs]; intros E; simplify_eq/=; rewrite length_take; lia.
  - intros r'. destruct rs as [|[k|] rs]; intros E; simplify_eq/=. lia.
  - by destruct rs as [|[k|] rs].
Qed.

(** A file read from its position, with no error to come. *)
Definition frx_good (e : option ErrorKind) : Prop :=
  match e with None => True | Some k => k = Interrupted end.

#[export] Program Instance File_ReadStream : ReadStream File :=
  {| yields f bs := Forall frx_good (frx f) /\ drop (fpos f) (content f) = bs |}.
Next Obligation.
  intros [c p t rs ks] bs n [Hg Hb] Hn. simpl in *. cbn [read File_Read]; unfold file_read; simpl.
  assert (Hgo : forall rs', Forall frx_good rs' -> exists k r',
    (Ok (take n (drop p c)), mkFile c (p + length (take n (drop p c))) t rs' ks)
      = ((Ok (take k bs), r') : io (list Z) * File) /\
    (Forall frx_good (frx r') /\ drop (fpos r') (content r') = drop k bs) /\
    (k <= n)%nat /\ (k <= length bs)%nat /\ (bs <> [] -> (0 < k)%nat)).
  { intros rs' Hrs. exists (Nat.min n (length bs)), (mkFile c (p + length (take n (drop p c))) t rs' ks).
    subst bs. rewrite take_min_length, drop_min_length. simpl.
    rewrite <- drop_drop, length_take, drop_min_length. split_and!; auto; try lia.
    intros Hne. apply nonempty_length in Hne. lia. }
  destruct Hg as [|[k|] rs He Hg].
  - left. by apply Hgo.
  - right. simpl in He. subst k. eexists. by split_and!.
  - left. by apply Hgo.
Qed.

Section splice.
Implicit Types (bs cs c : list Z).

Lemma splice_in p bs c : (p <= length c)%nat -> splice p bs c = take p c ++ bs ++ drop (p + length bs) c.
Proof.
  intros Hp. unfold splice. replace (p - length c)%nat with O by lia.
  by rewrite app_nil_r.
Qed.

Lemma splice_nil p c : (p <= length c)%nat -> splice p [] c = c.
Proof. intros Hp. rewrite splice_in by done. simpl. by rewrite Nat.add_0_r, take_drop. Qed.

Lemma splice_end bs c : splice (length c) bs c = c ++ bs.
Proof. rewrite splice_in by done. by rewrite firstn_all, drop_ge, app_nil_r by lia. Qed.

Lemma length_splice p bs c :
  (p <= length c)%nat -> length (splice p bs c) = Nat.max (p + length bs) (length c).
Proof. intros Hp. rewrite splice_in by done. rewrite !length_app, length_take, length_drop. lia. Qed.

Lemma splice_app p bs cs c :
  (p <= length c)%nat -> splice (p + length bs) cs (splice p bs c) = splice p (bs ++ cs) c.
Proof.
  intros Hp. rewrite (splice_in (p + length bs)) by (rewrite length_splice; lia).
  rewrite !(splice_in p) by done.
  assert (Ht : length (take p c) = p) by (rewrite length_take; lia).
  assert (E : take (p + length bs) (take p c ++ bs ++ drop (p + length bs) c) = take p c ++ bs).
  { rewrite app_assoc, take_app_le by (rewrite length_app; lia).
    rewrite firstn_all2; [done | rewrite length_app; lia]. }
  rewrite E, drop_app_ge by (rewrite Ht; lia). rewrite Ht.
  rewrite (drop_app_ge bs) by lia. rewrite drop_drop, length_app, <- !app_assoc.
  do 4 f_equal. lia.
Qed.

(** Bytes written at [p] are what a read from [p] finds. *)
Lemma drop_splice p bs c :
  (p <= length c)%nat -> drop p (splice p bs c) = bs ++ drop (p + length bs) c.
Proof.
  intros Hp. rewrite splice_in by done. rewrite drop_app_ge by (rewrite length_take; lia).
  rewrite length_take. by replace (p - p `min` length c)%nat with O by lia.
Qed.

Lemma splice_front q bs cs c :
  (q + length bs <= length c)%nat -> splice 0 cs (splice q bs c) = cs ++ drop (length cs) (splice q bs c).
Proof. intros. rewrite (splice_in 0) by lia. done. Qed.

End splice.

#[export] Program Instance File_WriteSink : WriteSink File :=
  {| wrote f bs f' := fpos f' = (fpos f + length bs)%nat /\ frx f' = frx f /\ fsk f' = fsk f /\
       ((fpos f <= length (content f))%nat -> content f' = splice (fpos f) bs (content f));
     accepts f := Forall tx_good (ftx f) |}.
Next Obligation. intros w; simpl. split_and!; try done; try lia. intros. by rewrite splice_nil. Qed.
Next Obligation.
  intros w1 w2 w3 bs cs; simpl; intros (Hp1&?&?&H1) (Hp2&?&?&H2).
  rewrite length_app. split_and!; [lia | congruence | congruence |].
  intros Hp. rewrite (H1 Hp), Hp1 in H2. rewrite H2 by (rewrite length_splice; lia).
  by apply splice_app.
Qed.
Next Obligation.
  assert (Hput : forall f bs evs, let f' := file_put f bs evs in
    fpos f' = (fpos f + length bs)%nat /\ frx f' = frx f /\ fsk f' = fsk f /\
    ((fpos f <= length (content f))%nat -> content f' = splice (fpos f) bs (content f))).
  { intros f [|b bs] evs; simpl; split_and!; try done; try lia. intros. by rewrite splice_nil. }
  intros w buf n w'. cbn [write File_Write]; unfold file_write.
  destruct (ftx w) as [|[m|k] t]; intros E; simplify_eq; [rewrite firstn_all | rewrite take_min_length]; apply Hput.
Qed.
Next Obligation.
  intros w buf r w'. cbn [write File_Write]; unfold file_write.
  destruct (ftx w) as [|[m|k] t]; intros E; simplify_eq/=; try done.
  intros _. split_and!; try done; try lia. intros. by rewrite splice_nil.
Qed.
Next Obligation.
  intros w buf Ha Hb. apply nonempty_length in Hb.
  assert (Hput : forall f bs evs, ftx (file_put f bs evs) = evs) by (by intros f [] ?).
  cbn [write File_Write]; unfold file_write. simpl in Ha.
  destruct Ha as [|[m|k] t Hm Ht]; simpl in *.
  - left. eexists _, _. rewrite Hput. by split_and!.
  - left. eexists _, _. rewrite Hput. split_and!; [done | lia | done].
  - right. subst k. eexists. by split_and!.
Qed.

(** ** [std::io::BufWriter] *)

Record BufWriter (W : Type) : Type := mkBufWriter {
  inner : W;
  cap : nat;
  pending : list Z
}.
Arguments mkBufWriter {W}.
Arguments inner {W}.
Arguments cap {W}.
Arguments pending {W}.

Section BufWriter.
Context {W : Type} `{Write W}.

Definition bufwriter_with_capacity (n : nat) (w : W) : BufWriter W := mkBufWriter w n [].

(** [flush_buf]: on an error the bytes the sink took are dropped from the
    buffer and the others stay. *)
Definition bufwriter_flush_buf (b : BufWriter W) : io unit * BufWriter W :=
  match write_loop (length (pending b) + write_budget (inner b)) (inner b) (pending b) with
  | (r, rest, w') => (r, mkBufWriter w' (cap b) rest)
  end.

Definition bufwriter_write_all (b : BufWriter W) (buf : list Z) : io unit * BufWriter W :=
  let spare (b : BufWriter W) := (cap b - length (pending b))%nat in
  if (length buf <? spare b)%nat then (Ok tt, mkBufWriter (inner b) (cap b) (pending b ++ buf))
  else
    let? _ @ b1 := (if (spare b <? length buf)%nat then bufwriter_flush_buf b else (Ok tt, b)) in
    if (cap b1 <=? length buf)%nat then
      match write_all (inner b1) buf with
      | (r, w') => (r, mkBufWriter w' (cap b1) (pending b1))
      end
    else (Ok tt, mkBufWriter (inner b1) (cap b1) (pending b1 ++ buf)).

Definition bufwriter_flush (b : BufWriter W) : io unit * BufWriter W :=
  let? _ @ b1 := bufwriter_flush_buf b in
  match flush (inner b1) with
  | (r, w') => (r, mkBufWriter w' (cap b1) (pending b1))
  end.

Context `{!WriteSink W}.

(** Since [w0], the bytes [bs] were written through [b]: some went to the sink,
    the others are pending, in order, and fit the capacity. *)
Definition buffered (w0 : W) (bs : list Z) (b : BufWriter W) : Prop :=
  (length (pending b) <= cap b)%nat /\ exists cs, bs = cs ++ pending b /\ wrote w0 cs (inner b).

Lemma buffered_new w n : buffered w [] (bufwriter_with_capacity n w).
Proof. split; [simpl; lia|]. exists []. split; [done | apply wrote_nil]. Qed.

Lemma buffered_push w0 bs b buf :
  buffered w0 bs b -> (length (pending b) + length buf <= cap b)%nat ->
  buffered w0 (bs ++ buf) (mkBufWriter (inner b) (cap b) (pending b ++ buf)).
Proof.
  intros (_ & cs & -> & Hw) Hle. split; simpl; [rewrite length_app; lia|].
  exists cs. by rewrite <- app_assoc.
Qed.

Lemma buffered_flush_buf w0 bs b r b' :
  buffered w0 bs b -> bufwriter_flush_buf b = (r, b') ->
  buffered w0 bs b' /\ cap b' = cap b /\ (r = Ok tt -> pending b' = []).
Proof.
  intros (Hle & cs & -> & Hw). unfold bufwriter_flush_buf.
  destruct (write_loop _ _ _) as [[r1 rest] w1] eqn:Hl. intros E; simplify_eq/=.
  apply write_loop_wrote in Hl as (ds & Hds & Hw' & Hr). rewrite Hds in *.
  rewrite length_app in Hle. split_and!; [|done|done].
  split; simpl; [lia|]. exists (cs ++ ds). rewrite app_assoc. split; [done|].
  by eapply wrote_app.
Qed.

(** [write_all] through a buffer: whatever the capacity, the bytes follow those
    written before. *)
Lemma buffered_write_all w0 bs b buf b' :
  buffered w0 bs b -> bufwriter_write_all b buf = (Ok tt, b') ->
  buffered w0 (bs ++ buf) b' /\ cap b' = cap b.
Proof.
  intros Hb. pose proof (proj1 Hb) as Hle. unfold bufwriter_write_all.
  destruct (Nat.ltb_spec (length buf) (cap b - length (pending b))) as [Hlt|Hge].
  { intros E; simplify_eq/=. split; [apply buffered_push; [done | lia] | done]. }
  destruct (if (_ <? _)%nat then _ else _) as [r1 b1] eqn:Hf.
  assert (H1 : buffered w0 bs b1 /\ cap b1 = cap b /\
    (r1 = Ok tt -> pending b1 = [] \/ (length (pending b1) + length buf = cap b1)%nat)).
  { destruct (Nat.ltb_spec (cap b - length (pending b)) (length buf)) as [Hgt|Hle'].
    - apply (buffered_flush_buf _ _ _ _ _ Hb) in Hf as (?&?&?). split_and!; auto.
    - simplify_eq. split_and!; auto. intros _. right. lia. }
  destruct H1 as (Hb1 & Hcap & Hp). destruct r1 as [[]|e| |]; simpl; try done.
  specialize (Hp eq_refl).
  destruct (Nat.leb_spec (cap b1) (length buf)) as [Hbig|Hsmall].
  - destruct (write_all (inner b1) buf) as [r w'] eqn:Hw. intros E; simplify_eq/=.
    split; [|done]. destruct Hb1 as (Hle1 & cs & -> & Hcs).
    apply write_all_wrote in Hw as (ds & _ & Hds & Hr). rewrite (Hr eq_refl) in Hds.
    assert (Hnil : pending b1 = []) by (destruct Hp; [done | apply length_zero_iff_nil; lia]).
    rewrite Hnil, app_nil_r. split; simpl; [lia|].
    exists (cs ++ buf). rewrite app_nil_r. split; [done|]. by eapply wrote_app.
  - intros E; simplify_eq/=. split; [|done]. apply buffered_push; [done|].
    destruct Hp as [->|]; simpl; lia.
Qed.

Lemma buffered_flush w0 bs b b' :
  (forall w, flush w = (Ok tt, w)) -> buffered w0 bs b -> bufwriter_flush b = (Ok tt, b') ->
  wrote w0 bs (inner b') /\ pending b' = [] /\ cap b' = cap b.
Proof.
  intros Hfl Hb. unfold bufwriter_flush.
  destruct (bufwriter_flush_buf b) as [r b1] eqn:Hf.
  apply (buffered_flush_buf _ _ _ _ _ Hb) in Hf as ((_ & cs & -> & Hw) & Hcap & Hp).
  destruct r as [[]|e| |]; simpl; try done. rewrite Hfl. intros E; simplify_eq/=.
  rewrite (Hp eq_refl), app_nil_r. done.
Qed.

End BufWriter.
