(* ===== verification/Capture.v ===== *)
(** * The capture file format

    Models [src/capture/mod.rs]: the header and chunk records, their writers
    over any [Write] (and [Seek]) and their readers over any [Read]. *)

From S2P Require Import Prelude Bytes Io Net.

(** ** Data *)

Definition CAPTURE_MAGIC : list Z := [0x52; 0x54; 0x4c; 0x58].
Definition CAPTURE_VERSION : Z := 1.

Record CaptureHeader : Type := mkHeader { magic_payload : list Z }.
Record CaptureChunk : Type := mkChunk { timestamp_ns : Z; data : list Z }.

(** ** Writers *)

Definition write_header_to_vec (header : CaptureHeader) : io (list Z) :=
  let buf := [] in
  let buf := buf ++ CAPTURE_MAGIC in
  let buf := buf ++ u32_to_le_bytes CAPTURE_VERSION in
  let magic_len := as_u32 (zlen (magic_payload header)) in
  let buf := buf ++ u32_to_le_bytes magic_len in
  let buf := buf ++ magic_payload header in
  Ok buf.

Section writers.
Context {W : Type} `{Write W}.

Definition write_header `{Seek W} (writer : W) (header : CaptureHeader) : io unit * W :=
  let? start @ writer := stream_position writer in
  let? _ @ writer := write_all writer CAPTURE_MAGIC in
  let? _ @ writer := write_all writer (u32_to_le_bytes CAPTURE_VERSION) in
  let magic_len := as_u32 (zlen (magic_payload header)) in
  let? _ @ writer := write_all writer (u32_to_le_bytes magic_len) in
  let? _ @ writer := write_all writer (magic_payload header) in
  let? end_ @ writer := stream_position writer in
  if negb (start =? 0)%nat then
    let? header_bytes @ writer := (write_header_to_vec header, writer) in
    let? _ @ writer := seek_start writer 0 in
    let? _ @ writer := write_all writer header_bytes in
    let? _ @ writer := seek_start writer end_ in
    (Ok tt, writer)
  else (Ok tt, writer).

Definition write_chunk (writer : W) (chunk : CaptureChunk) : io unit * W :=
  let? _ @ writer := write_all writer (u64_to_le_bytes (timestamp_ns chunk)) in
  let data_len := as_u32 (zlen (data chunk)) in
  let? _ @ writer := write_all writer (u32_to_le_bytes data_len) in
  write_all writer (data chunk).

End writers.

(** ** Readers *)

Section readers.
Context {R : Type} `{Read R}.

Definition read_header (reader : R) : io CaptureHeader * R :=
  let? magic @ reader := read_exact reader 4 in
  if negb (bool_decide (magic = CAPTURE_MAGIC)) then (Err InvalidData, reader)
  else
    let? version_buf @ reader := read_exact reader 4 in
    let? magic_len_buf @ reader := read_exact reader 4 in
    let magic_len := u32_from_le_bytes magic_len_buf in
    let? magic_payload @ reader := read_exact reader (Z.to_nat magic_len) in
    (Ok (mkHeader magic_payload), reader).

Definition read_chunk (reader : R) : io (option CaptureChunk) * R :=
  match read_exact reader 8 with
  | (Ok ts_buf, reader) =>
    let timestamp_ns := u64_from_le_bytes ts_buf in
    let? len_buf @ reader := read_exact reader 4 in
    let data_len := u32_from_le_bytes len_buf in
    let? data @ reader := read_exact reader (Z.to_nat data_len) in
    (Ok (Some (mkChunk timestamp_ns data)), reader)
  | (Err UnexpectedEof, reader) => (Ok None, reader)
  | (Err e, reader) => (Err e, reader)
  | (Panic, reader) => (Panic, reader)
  | (Diverged, reader) => (Diverged, reader)
  end.

End readers.

(** ** The format *)

Definition encode_header (h : CaptureHeader) : list Z :=
  CAPTURE_MAGIC ++ u32_to_le_bytes CAPTURE_VERSION ++
  u32_to_le_bytes (as_u32 (zlen (magic_payload h))) ++ magic_payload h.

Definition encode_chunk (c : CaptureChunk) : list Z :=
  u64_to_le_bytes (timestamp_ns c) ++ u32_to_le_bytes (as_u32 (zlen (data c))) ++ data c.

Definition decode_header (bs : list Z) : io CaptureHeader * list Z :=
  let? magic @ bs := split_exact 4 bs in
  if negb (bool_decide (magic = CAPTURE_MAGIC)) then (Err InvalidData, bs)
  else
    let? _ @ bs := split_exact 4 bs in
    let? len @ bs := split_exact 4 bs in
    let? payload @ bs := split_exact (Z.to_nat (le_value len)) bs in
    (Ok (mkHeader payload), bs).

Definition decode_chunk (bs : list Z) : io (option CaptureChunk) * list Z :=
  match split_exact 8 bs with
  | (Ok ts, bs) =>
    let? len @ bs := split_exact 4 bs in
    let? payload @ bs := split_exact (Z.to_nat (le_value len)) bs in
    (Ok (Some (mkChunk (le_value ts) payload)), bs)
  | (Err UnexpectedEof, bs) => (Ok None, bs)
  | (Err e, bs) => (Err e, bs)
  | (Panic, bs) => (Panic, bs)
  | (Diverged, bs) => (Diverged, bs)
  end.

(** The values a capture tool produces: a timestamp of 64 bits, a block whose
    length fits the 32 bits of the length field. *)
Definition chunk_ok (c : CaptureChunk) : Prop :=
  is_u64 (timestamp_ns c) /\ is_u32 (zlen (data c)).
Definition header_ok (h : CaptureHeader) : Prop := is_u32 (zlen (magic_payload h)).

Lemma write_header_to_vec_eq h : write_header_to_vec h = Ok (encode_header h).
Proof. unfold write_header_to_vec, encode_header. by rewrite <- !app_assoc. Qed.

Section writers_spec.
Context {W : Type} `{WriteSink W}.

Lemma write_chunk_emits w c : emits w (encode_chunk c) (write_chunk w c).
Proof. by repeat first [apply emits_bind; [|intros ?] | apply emits_write_all]. Qed.

Lemma write_chunk_delivers `{!WriteLaws W} w c : accepts w -> delivers w (encode_chunk c) (write_chunk w c).
Proof. intros Ha. by repeat first [apply delivers_bind; [|intros ??] | apply delivers_write_all]. Qed.

End writers_spec.

(** ** The readers refine the format, on every segmentation *)

Section readers_spec.
Context {R : Type} `{ReadStream R} `{!ReadLaws R}.

(** A reader computation that behaves as the pure one [p] of the bytes to come. *)
Definition refines {A} (p : list Z -> io A * list Z) (m : R -> io A * R) : Prop :=
  forall r bs, yields r bs -> exists r', m r = (fst (p bs), r') /\ yields r' (snd (p bs)).

Lemma refines_read_exact n : refines (split_exact n) (fun r => read_exact r n).
Proof. intros r bs Hy. by apply read_exact_split. Qed.

Lemma refines_ret {A} (x : io A) : refines (fun bs => (x, bs)) (fun r => (x, r)).
Proof. intros r bs Hy. by exists r. Qed.

Lemma refines_bind {A B} p (m : R -> io A * R) (q : A -> list Z -> io B * list Z) k :
  refines p m -> (forall a, refines (q a) (k a)) ->
  refines (fun bs => bind_st (p bs) q) (fun r => bind_st (m r) k).
Proof.
  intros Hm Hk r bs Hy. destruct (Hm r bs Hy) as (r1 & -> & Hy1).
  destruct (p bs) as [[a|e| |] bs1]; simpl in *; [by apply Hk | by exists r1 ..].
Qed.

Lemma read_header_refines : refines decode_header read_header.
Proof.
  apply refines_bind; [apply refines_read_exact|]. intros magic.
  destruct (negb _); [apply refines_ret|].
  do 3 (apply refines_bind; [apply refines_read_exact | intros ?]). apply refines_ret.
Qed.

Lemma read_chunk_refines_aux : refines decode_chunk read_chunk.
Proof.
  intros r bs Hy. unfold decode_chunk, read_chunk.
  destruct (read_exact_split r bs 8 Hy) as (r1 & -> & Hy1).
  destruct (split_exact 8 bs) as [[ts|e| |] bs1]; simpl in *; try by exists r1.
  - eapply (refines_bind (split_exact 4) (fun r => read_exact r 4)
      (fun len bs => bind_st (split_exact (Z.to_nat (le_value len)) bs) (fun pl bs => (Ok (Some (mkChunk (le_value ts) pl)), bs))));
      [apply refines_read_exact | | done].
    intros len. apply refines_bind; [apply refines_read_exact|]. intros ?. apply refines_ret.
  - destruct e; by exists r1.
Qed.

End readers_spec.

(** ** Encoding then decoding *)

Lemma length_encode_chunk c : length (encode_chunk c) = (12 + length (data c))%nat.
Proof. unfold encode_chunk, u64_to_le_bytes, u32_to_le_bytes. by rewrite !length_app, !length_le_bytes. Qed.

(** Any chunk, any timestamp, any length: the timestamp is kept modulo 2^64 and
    the block is cut to its length modulo 2^32, the rest of it being left in
    front of what follows. *)
Lemma decode_encode_chunk_wrap c rest :
  let n := Z.to_nat (as_u32 (zlen (data c))) in
  decode_chunk (encode_chunk c ++ rest) =
    (Ok (Some (mkChunk (as_u64 (timestamp_ns c)) (take n (data c)))), drop n (data c) ++ rest).
Proof.
  intros n. unfold decode_chunk, encode_chunk, u64_to_le_bytes, u32_to_le_bytes.
  rewrite <- !app_assoc.
  rewrite split_exact_app by (by rewrite length_le_bytes). cbn [fst snd].
  rewrite split_exact_app by (by rewrite length_le_bytes). cbn [bind_st].
  rewrite !le_value_bytes. change (256 ^ Z.of_nat 4) with (2 ^ 32). change (256 ^ Z.of_nat 8) with (2 ^ 64).
  fold (as_u64 (timestamp_ns c)).
  assert (Hm : as_u32 (zlen (data c)) mod 2 ^ 32 = as_u32 (zlen (data c))) by (unfold as_u32; apply Zmod_mod).
  rewrite Hm. fold n.
  assert (Hn : (n <= length (data c))%nat).
  { unfold n, as_u32. pose proof (Z.mod_le (zlen (data c)) (2 ^ 32)) as Hle.
    pose proof (zlen_nonneg (data c)). unfold zlen in *. lia. }
  rewrite <- (take_drop n (data c)) at 1. rewrite <- app_assoc.
  rewrite split_exact_app by (rewrite length_take; lia). done.
Qed.

Lemma decode_encode_chunk c rest :
  chunk_ok c -> decode_chunk (encode_chunk c ++ rest) = (Ok (Some c), rest).
Proof.
  intros [Ht Hd]. rewrite decode_encode_chunk_wrap. destruct c as [t d]; simpl in *.
  rewrite as_u64_small, as_u32_small by done. unfold zlen. rewrite Nat2Z.id.
  by rewrite firstn_all, drop_all.
Qed.

Lemma decode_encode_header h rest :
  header_ok h -> decode_header (encode_header h ++ rest) = (Ok h, rest).
Proof.
  intros Hh. unfold decode_header, encode_header, u32_to_le_bytes. rewrite <- !app_assoc.
  rewrite split_exact_app by done. cbn [bind_st].
  rewrite bool_decide_true by done. cbn [negb].
  rewrite split_exact_app by (by rewrite length_le_bytes). cbn [bind_st].
  rewrite split_exact_app by (by rewrite length_le_bytes). cbn [bind_st].
  rewrite le_value_bytes. change (256 ^ Z.of_nat 4) with (2 ^ 32).
  assert (E : as_u32 (zlen (magic_payload h)) mod 2 ^ 32 = zlen (magic_payload h)).
  { unfold as_u32. rewrite Zmod_mod. by apply as_u32_small. }
  rewrite E. unfold zlen. rewrite Nat2Z.id.
  rewrite split_exact_app by done. by destruct h.
Qed.

(** A chunk cut short is a clean end of file inside the timestamp, and an
    error after it. *)
Lemma decode_chunk_cut c k :
  chunk_ok c -> (k < length (encode_chunk c))%nat ->
  decode_chunk (take k (encode_chunk c)) =
    (if (k <? 8)%nat then Ok None else Err UnexpectedEof, []).
Proof.
  intros [Ht Hd] Hk. rewrite length_encode_chunk in Hk. unfold decode_chunk, encode_chunk.
  unfold u64_to_le_bytes, u32_to_le_bytes.
  destruct (Nat.ltb_spec k 8) as [H8|H8].
  { rewrite split_exact_short; [done|]. rewrite length_take. lia. }
  rewrite take_app_ge by (rewrite length_le_bytes; lia).
  rewrite split_exact_app by (by rewrite length_le_bytes). rewrite length_le_bytes.
  destruct (decide (k < 12)%nat) as [H12|H12].
  { rewrite split_exact_short; [done|]. rewrite length_take. lia. }
  rewrite take_app_ge by (rewrite length_le_bytes; lia).
  rewrite split_exact_app by (by rewrite length_le_bytes). rewrite length_le_bytes.
  cbn [bind_st]. rewrite le_value_bytes. change (256 ^ Z.of_nat 4) with (2 ^ 32).
  assert (E : as_u32 (zlen (data c)) mod 2 ^ 32 = zlen (data c)).
  { unfold as_u32. rewrite Zmod_mod. by apply as_u32_small. }
  rewrite E, split_exact_short; [done|]. rewrite length_take. unfold zlen. lia.
Qed.

(** ** Whole files *)

(** The consumer's loop: chunks until [read_chunk] reports the end or fails. *)
Fixpoint read_chunks {R} `{Read R} (fuel : nat) (r : R) : list CaptureChunk * io unit * R :=
  match fuel with
  | O => ([], Diverged, r)
  | S fuel' =>
    match read_chunk r with
    | (Ok (Some c), r') => let '(cs, e, r'') := read_chunks fuel' r' in (c :: cs, e, r'')
    | (Ok None, r') => ([], Ok tt, r')
    | (Err e, r') => ([], Err e, r')
    | (Panic, r') => ([], Panic, r')
    | (Diverged, r') => ([], Diverged, r')
    end
  end.

Fixpoint write_chunks {W} `{Write W} (w : W) (cs : list CaptureChunk) : io unit * W :=
  match cs with
  | [] => (Ok tt, w)
  | c :: cs => let? _ @ w := write_chunk w c in write_chunks w cs
  end.

Definition encode_chunks (cs : list CaptureChunk) : list Z := concat (map encode_chunk cs).

Section whole_files.
Context {R : Type} `{ReadStream R} `{!ReadLaws R}.

(** Complete chunks followed by any tail are read back, then the tail decides. *)
Lemma read_chunks_app r cs tail fuel :
  Forall chunk_ok cs -> yields r (encode_chunks cs ++ tail) -> (length cs <= fuel)%nat ->
  exists r', yields r' tail /\
    read_chunks fuel r = (let '(ds, e, r'') := read_chunks (fuel - length cs) r' in (cs ++ ds, e, r'')).
Proof.
  intros Hcs. revert r fuel; induction Hcs as [|c cs Hc _ IH]; intros r fuel Hy Hf.
  - exists r. split; [done|]. simpl. rewrite Nat.sub_0_r.
    by destruct (read_chunks fuel r) as [[? ?] ?].
  - destruct fuel as [|fuel]; simpl in Hf; [lia|].
    change (encode_chunks (c :: cs)) with (encode_chunk c ++ encode_chunks cs) in Hy.
    rewrite <- app_assoc in Hy.
    destruct (read_chunk_refines_aux r _ Hy) as (r1 & Hr & Hy1).
    rewrite decode_encode_chunk in Hr, Hy1 by done. cbn [fst snd] in Hr, Hy1.
    destruct (IH r1 fuel Hy1) as (r2 & Hy2 & E); [lia|].
    exists r2. split; [done|]. simpl. rewrite Hr, E.
    by destruct (read_chunks (fuel - length cs) r2) as [[? ?] ?].
Qed.

Lemma read_chunks_end r fuel tail :
  yields r tail -> (length tail < 8)%nat -> (0 < fuel)%nat ->
  exists r', read_chunks fuel r = ([], Ok tt, r').
Proof.
  intros Hy Ht Hf. destruct fuel as [|fuel]; [lia|]. simpl.
  destruct (read_chunk_refines_aux r _ Hy) as (r1 & Hr & Hy1).
  unfold decode_chunk in Hr. rewrite split_exact_short in Hr by done. simpl in Hr.
  rewrite Hr. by exists r1.
Qed.

End whole_files.

Lemma write_chunks_delivers {W} `{WriteSink W} `{!WriteLaws W} (w : W) cs :
  accepts w -> delivers w (encode_chunks cs) (write_chunks w cs).
Proof.
  revert w; induction cs as [|c cs IH]; intros w Ha.
  - exists w. split_and!; [done | apply wrote_nil | done].
  - apply (delivers_bind w (encode_chunk c) (encode_chunks cs));
      [by apply write_chunk_delivers | apply IH].
Qed.

Lemma write_chunks_emits {W} `{WriteSink W} (w : W) cs :
  emits w (encode_chunks cs) (write_chunks w cs).
Proof.
  revert w; induction cs as [|c cs IH]; intros w.
  - exists []. split_and!; [done | apply wrote_nil | done].
  - apply (emits_bind w (encode_chunk c) (encode_chunks cs)); [apply write_chunk_emits | apply IH].
Qed.

(** ** Headers on a file *)

Section file_header.

Lemma file_write_all_at (f : File) buf : accepts f ->
  exists f', write_all f buf = (Ok tt, f') /\ wrote f buf f' /\ accepts f'.
Proof. intros Ha. by apply write_all_accepts. Qed.

Lemma seek_start_ok f p : fsk f = [] -> seek_start f p = (Ok p, mkFile (content f) p (ftx f) (frx f) []).
Proof. destruct f; simpl. by intros ->. Qed.

Lemma stream_position_ok f : fsk f = [] -> stream_position f = (Ok (fpos f), mkFile (content f) (fpos f) (ftx f) (frx f) []).
Proof. destruct f; simpl. by intros ->. Qed.

(** On a disk that takes every write: the header goes to the current position,
    and a second time to the start of the file when that is somewhere else. *)
Lemma write_header_file (f : File) h :
  accepts f -> fsk f = [] -> (fpos f <= length (content f))%nat ->
  exists f', write_header f h = (Ok tt, f') /\ accepts f' /\ fsk f' = [] /\ frx f' = frx f /\
    fpos f' = (fpos f + length (encode_header h))%nat /\
    content f' = (if (fpos f =? 0)%nat then splice 0 (encode_header h) (content f)
                  else splice 0 (encode_header h) (splice (fpos f) (encode_header h) (content f))).
Proof.
  intros Ha Hk Hp. unfold write_header. rewrite stream_position_ok by done. cbn [bind_st].
  set (f0 := mkFile _ _ _ _ _).
  assert (D : delivers f0 (encode_header h)
    (let? _ @ w := write_all f0 CAPTURE_MAGIC in
     let? _ @ w := write_all w (u32_to_le_bytes CAPTURE_VERSION) in
     let? _ @ w := write_all w (u32_to_le_bytes (as_u32 (zlen (magic_payload h)))) in
     write_all w (magic_payload h))).
  { by repeat first [apply delivers_bind; [|intros ??] | apply delivers_write_all]. }
  destruct D as (f1 & E & (Hpos & Hrx & Hsk & Hc) & Ha1).
  specialize (Hc Hp). simpl in Hpos, Hrx, Hsk, Hc.
  destruct (write_all f0 CAPTURE_MAGIC) as [[[]|?| |] w1]; try done. cbn [bind_st] in *.
  destruct (write_all w1 _) as [[[]|?| |] w2]; try done. cbn [bind_st] in *.
  destruct (write_all w2 _) as [[[]|?| |] w3]; try done. cbn [bind_st] in *.
  rewrite E. cbn [bind_st]. rewrite stream_position_ok by done. cbn [bind_st].
  destruct (Nat.eqb_spec (fpos f) 0) as [H0|H0]; cbn [negb].
  { eexists. split_and!; [done|..]; simpl; try done. by rewrite Hc, H0. }
  rewrite write_header_to_vec_eq. cbn [bind_st]. rewrite seek_start_ok by done.
  cbn [bind_st content fpos ftx frx fsk].
  destruct (file_write_all_at (mkFile (content f1) 0 (ftx f1) (frx f1) []) (encode_header h) Ha1)
    as (f2 & -> & (Hpos2 & Hrx2 & Hsk2 & Hc2) & Ha2).
  simpl in *. cbn [bind_st]. rewrite (seek_start_ok f2) by done. cbn [bind_st].
  eexists. split_and!; [done|..]; simpl; try done; [by rewrite Hrx2, Hrx|].
  rewrite Hc2 by lia. by rewrite Hc.
Qed.

End file_header.

(** A prefix of a sequence of chunks is some complete chunks and a cut one. *)
Lemma encode_chunks_prefix bs cs :
  bs `prefix_of` encode_chunks cs ->
  bs = encode_chunks cs \/
  exists n c k, cs !! n = Some c /\ (k < length (encode_chunk c))%nat /\
    bs = encode_chunks (take n cs) ++ take k (encode_chunk c).
Proof.
  revert bs; induction cs as [|c cs IH]; intros bs [tl Hpre].
  { left. by destruct bs. }
  change (encode_chunks (c :: cs)) with (encode_chunk c ++ encode_chunks cs) in *.
  destruct (Nat.lt_ge_cases (length bs) (length (encode_chunk c))) as [Hlt|Hge].
  { right. exists O, c, (length bs). split_and!; [done | done |].
    apply (f_equal (take (length bs))) in Hpre.
    rewrite take_app_length, take_app_le in Hpre by lia. by simpl. }
  assert (Hsplit : bs = encode_chunk c ++ drop (length (encode_chunk c)) bs).
  { apply (f_equal (take (length (encode_chunk c)))) in Hpre.
    rewrite take_app_length, take_app_le in Hpre by lia.
    rewrite Hpre at 1. by rewrite take_drop. }
  rewrite Hsplit, <- app_assoc in Hpre. apply app_inv_head in Hpre.
  destruct (IH (drop (length (encode_chunk c)) bs)) as [E|(n & d & k & Hn & Hk & E)];
    [by exists tl | left | right]; rewrite Hsplit, E.
  - done.
  - exists (S n), d, k. split_and!; [done | done |].
    change (take (S n) (c :: cs)) with (c :: take n cs).
    change (encode_chunks (c :: take n cs)) with (encode_chunk c ++ encode_chunks (take n cs)).
    by rewrite app_assoc.
Qed.

(** Reading a sequence of chunks that stops anywhere. *)
Lemma read_chunks_prefix {R} `{ReadStream R} `{!ReadLaws R} (r : R) cs bs fuel :
  Forall chunk_ok cs -> bs `prefix_of` encode_chunks cs -> yields r bs -> (length cs < fuel)%nat ->
  exists ds e r', read_chunks fuel r = (ds, e, r') /\ ds `prefix_of` cs /\
    (e = Ok tt \/ e = Err UnexpectedEof) /\ (bs = encode_chunks cs -> ds = cs /\ e = Ok tt).
Proof.
  intros Hcs Hpre Hy Hf.
  destruct (encode_chunks_prefix bs cs Hpre) as [->|(n & c & k & Hn & Hk & ->)].
  - rewrite <- (app_nil_r (encode_chunks cs)) in Hy.
    destruct (read_chunks_app r cs [] fuel Hcs Hy) as (r1 & Hy1 & ->); [lia|].
    destruct (read_chunks_end r1 (fuel - length cs) [] Hy1) as (r2 & ->); [simpl; lia | lia |].
    eexists _, _, _. rewrite app_nil_r. by split_and!; [| | left |].
  - assert (Hn' : (n < length cs)%nat) by (by eapply lookup_lt_Some).
    assert (Hlt : length (take n cs) = n) by (rewrite length_take; lia).
    destruct (read_chunks_app r (take n cs) (take k (encode_chunk c)) fuel) as (r1 & Hy1 & ->);
      [by apply Forall_take | done | lia |].
    rewrite Hlt. destruct (fuel - n)%nat as [|fuel'] eqn:Hfu; [lia|]. simpl.
    destruct (read_chunk_refines_aux r1 _ Hy1) as (r2 & -> & Hy2).
    rewrite decode_chunk_cut in * by (try done; by eapply Forall_lookup_1). cbn [fst] in *.
    assert (Hne : encode_chunks (take n cs) ++ take k (encode_chunk c) <> encode_chunks cs).
    { rewrite <- (take_drop n cs) at 2. rewrite (drop_S _ _ _ Hn).
      unfold encode_chunks. rewrite map_app, concat_app. intros E. apply app_inv_head in E.
      cbn [map concat] in E. apply (f_equal length) in E. rewrite length_take, length_app in E. lia. }
    destruct (k <? 8)%nat; eexists _, _, _; rewrite app_nil_r;
      (split_and!; [done | apply prefix_take | auto | done]).
Qed.

(** ** Properties *)

(** C12. Round trip of a capture file: a header and any chunks written from the
    start of an empty file succeed, produce exactly the format's bytes, and
    [read_header] followed by [read_chunk] until the end gives them back, in
    order and with nothing more. *)
Theorem capture_roundtrip (h : CaptureHeader) (cs : list CaptureChunk) :
  header_ok h -> Forall chunk_ok cs ->
  exists f, (let? _ @ w := write_header (cursor []) h in write_chunks w cs) = (Ok tt, f) /\
    content f = encode_header h ++ encode_chunks cs /\
    exists r r', read_header (cursor (content f)) = (Ok h, r) /\
      read_chunks (S (length cs)) r = (cs, Ok tt, r').
Proof.
  intros Hh Hcs.
  destruct (write_header_file (cursor []) h) as (f1 & -> & Ha1 & Hk1 & Hr1 & Hp1 & Hc1);
    [constructor | done | simpl; lia |].
  cbn [bind_st]. change (fpos f1 = length (encode_header h)) in Hp1.
  change (content f1 = splice (length (@nil Z)) (encode_header h) []) in Hc1.
  rewrite splice_end in Hc1. change (content f1 = encode_header h) in Hc1.
  destruct (write_chunks_delivers f1 cs Ha1) as (f & -> & (Hp & _ & _ & Hc) & Ha).
  exists f. split; [done|]. rewrite Hp1, Hc1 in Hc. rewrite splice_end in Hc by done.
  specialize (Hc (Nat.le_refl _)). split; [done|]. rewrite Hc.
  assert (Hy : yields (cursor (encode_header h ++ encode_chunks cs)) (encode_header h ++ encode_chunks cs))
    by (split; [constructor | done]).
  destruct (read_header_refines _ _ Hy) as (r & Hr & Hyr).
  rewrite decode_encode_header in Hr, Hyr by done. cbn [fst snd] in Hr, Hyr. exists r.
  destruct (read_chunks_prefix r cs _ (S (length cs)) Hcs (reflexivity _) Hyr) as (ds & e & r' & E & _ & _ & Hd);
    [lia|].
  exists r'. split; [done|]. rewrite E. by destruct (Hd eq_refl) as [-> ->].
Qed.

Lemma capture_roundtrip_witness :
  let h := mkHeader [0x52; 0x54; 0x4c; 0x30] in
  let cs := [mkChunk 1000 [1; 2; 3]; mkChunk 2000 []] in
  exists f, (let? _ @ w := write_header (cursor []) h in write_chunks w cs) = (Ok tt, f) /\
    content f = encode_header h ++ encode_chunks cs /\
    exists r r', read_header (cursor (content f)) = (Ok h, r) /\
      read_chunks 3 r = (cs, Ok tt, r').
Proof.
  apply (capture_roundtrip (mkHeader [0x52; 0x54; 0x4c; 0x30]) [mkChunk 1000 [1; 2; 3]; mkChunk 2000 []]).
  - by vm_compute.
  - repeat constructor; by vm_compute.
Defined.

(** C31. Crash consistency: chunks appended to a capture whose disk may fail at
    any byte (short writes, errors) leave a file from which the earlier chunks
    and a prefix of the new ones are read back unchanged, ending cleanly or
    with an unexpected end of file; never a corrupt chunk. *)
Theorem capture_crash_consistent (f f' : File) (h : CaptureHeader) (old new : list CaptureChunk) (r : io unit) :
  header_ok h -> Forall chunk_ok old -> Forall chunk_ok new ->
  content f = encode_header h ++ encode_chunks old -> fpos f = length (content f) ->
  write_chunks f new = (r, f') ->
  exists ds e r1 r2, read_header (cursor (content f')) = (Ok h, r1) /\
    read_chunks (S (length old + length new)) r1 = (old ++ ds, e, r2) /\
    ds `prefix_of` new /\ (r = Ok tt -> ds = new) /\ (e = Ok tt \/ e = Err UnexpectedEof).
Proof.
  intros Hh Hold Hnew Hc Hp Hw.
  pose proof (write_chunks_emits f new) as (bs & Hpre & Hwr & Hok). rewrite Hw in Hwr, Hok.
  destruct Hwr as (_ & _ & _ & Hc'). rewrite Hp in Hc'. specialize (Hc' (Nat.le_refl _)).
  rewrite splice_end in Hc'. simpl in Hc', Hok. rewrite Hc', Hc, <- app_assoc.
  assert (Hy : yields (cursor (encode_header h ++ encode_chunks old ++ bs)) (encode_header h ++ encode_chunks old ++ bs))
    by (split; [constructor | done]).
  destruct (read_header_refines _ _ Hy) as (r1 & Hr1 & Hy1).
  rewrite decode_encode_header in Hr1, Hy1 by done. cbn [fst snd] in Hr1, Hy1.
  destruct (read_chunks_app r1 old bs (S (length old + length new)) Hold Hy1) as (r2 & Hy2 & E); [lia|].
  destruct (read_chunks_prefix r2 new bs (S (length old + length new) - length old) Hnew Hpre Hy2)
    as (ds & e & r3 & E2 & Hds & He & Hfull); [lia|].
  rewrite E2 in E. exists ds, e, r1, r3. split_and!; try done.
  intros Hr. by apply Hfull, Hok.
Qed.

Lemma capture_crash_consistent_witness :
  let h := mkHeader [7] in
  let f := mkFile (encode_header h ++ encode_chunks [mkChunk 1 [5; 6]]) 27 [Accept 9; WErr OtherError] [] [] in
  exists ds e r1 r2, read_header (cursor (content (snd (write_chunks f [mkChunk 2 [8; 9]])))) = (Ok h, r1) /\
    read_chunks 3 r1 = ([mkChunk 1 [5; 6]] ++ ds, e, r2) /\ ds `prefix_of` [mkChunk 2 [8; 9]] /\
    (fst (write_chunks f [mkChunk 2 [8; 9]]) = Ok tt -> ds = [mkChunk 2 [8; 9]]) /\ (e = Ok tt \/ e = Err UnexpectedEof).
Proof.
  set (h := mkHeader [7]).
  set (f := mkFile (encode_header h ++ encode_chunks [mkChunk 1 [5; 6]]) 27 [Accept 9; WErr OtherError] [] []).
  apply (capture_crash_consistent f _ h [mkChunk 1 [5; 6]] [mkChunk 2 [8; 9]]).
  - by vm_compute.
  - repeat constructor; by vm_compute.
  - repeat constructor; by vm_compute.
  - reflexivity.
  - by vm_compute.
  - by vm_compute.
Defined.

(** Segmentation independence: what [read_header] and [read_chunk] return
    depends only on the bytes of the stream, not on how the reader (a socket,
    a file, interrupted calls) cuts them: both are the pure decoders. *)
Theorem readers_segmentation_independent {R} `{ReadStream R} `{!ReadLaws R} (r : R) (bs : list Z) :
  yields r bs ->
  fst (read_header r) = fst (decode_header bs) /\ fst (read_chunk r) = fst (decode_chunk bs).
Proof.
  intros Hy. destruct (read_header_refines r bs Hy) as (r1 & -> & _).
  by destruct (read_chunk_refines_aux r bs Hy) as (r2 & -> & _).
Qed.

Lemma readers_segmentation_independent_witness :
  let bs := encode_chunk (mkChunk 3 [1; 2]) in
  let s := mkTcp [Data (take 5 bs); RErr Interrupted; Data (drop 5 bs)] [] [] None None in
  fst (read_header s) = Err InvalidData /\ fst (read_chunk s) = Ok (Some (mkChunk 3 [1; 2])).
Proof.
  apply (readers_segmentation_independent
    (mkTcp [Data (take 5 (encode_chunk (mkChunk 3 [1; 2]))); RErr Interrupted;
            Data (drop 5 (encode_chunk (mkChunk 3 [1; 2])))] [] [] None None)
    (encode_chunk (mkChunk 3 [1; 2]))).
  split; [|reflexivity]. by repeat constructor.
Defined.

(** Widths: a chunk of any timestamp and any length written and read back
    keeps its timestamp modulo 2^64 and only the first (length mod 2^32) bytes
    of its block; the rest of the block is read as if it were the next chunk. *)
Theorem chunk_length_truncated {R} `{ReadStream R} `{!ReadLaws R} (r : R) (c : CaptureChunk) (rest : list Z) :
  yields r (snd (write_chunk [] c) ++ rest) ->
  let n := Z.to_nat (as_u32 (zlen (data c))) in
  exists r', read_chunk r = (Ok (Some (mkChunk (as_u64 (timestamp_ns c)) (take n (data c)))), r') /\
    yields r' (drop n (data c) ++ rest).
Proof.
  intros Hy n.
  destruct (write_chunk_delivers ([] : list Z) c) as (v & E & Hw & _); [exact I|].
  rewrite E in Hy. simpl in Hw, Hy. subst v.
  destruct (read_chunk_refines_aux r _ Hy) as (r' & -> & Hy').
  rewrite decode_encode_chunk_wrap in *. by exists r'.
Qed.

Lemma chunk_length_truncated_witness :
  let f := cursor (snd (write_chunk [] (mkChunk (2 ^ 64 + 5) [1; 2])) ++ [3]) in
  exists r', read_chunk f = (Ok (Some (mkChunk 5 [1; 2])), r') /\ yields r' [3].
Proof.
  apply (chunk_length_truncated (cursor (snd (write_chunk [] (mkChunk (2 ^ 64 + 5) [1; 2])) ++ [3]))
    (mkChunk (2 ^ 64 + 5) [1; 2]) [3]).
  split; [constructor | by vm_compute].
Defined.

(** A header written when the file is not at its start goes to the current
    position and overwrites the start of the file as well; the position ends
    after the first copy. *)
Theorem write_header_twice (f : File) (h : CaptureHeader) :
  accepts f -> fsk f = [] -> (fpos f <= length (content f))%nat -> fpos f <> 0%nat ->
  exists f', write_header f h = (Ok tt, f') /\
    fpos f' = (fpos f + length (encode_header h))%nat /\
    content f' = splice 0 (encode_header h) (splice (fpos f) (encode_header h) (content f)) /\
    take (length (encode_header h)) (content f') = encode_header h.
Proof.
  intros Ha Hk Hp H0.
  destruct (write_header_file f h Ha Hk Hp) as (f' & E & _ & _ & _ & Hp' & Hc).
  apply Nat.eqb_neq in H0. rewrite H0 in Hc. exists f'. split_and!; [done | done | done |].
  rewrite Hc, (splice_in 0) by lia. rewrite take_0, app_nil_l. apply take_app_length.
Qed.

Lemma write_header_twice_witness :
  let f := mkFile (replicate 40 9) 20 [] [] [] in
  exists f', write_header f (mkHeader [1]) = (Ok tt, f') /\ fpos f' = 33%nat /\
    content f' = splice 0 (encode_header (mkHeader [1])) (splice 20 (encode_header (mkHeader [1])) (replicate 40 9)) /\
    take 13 (content f') = encode_header (mkHeader [1]).
Proof.
  apply (write_header_twice (mkFile (replicate 40 9) 20 [] [] []) (mkHeader [1])).
  - constructor.
  - reflexivity.
  - simpl. lia.
  - simpl. lia.
Defined.

(** What [read_header] accepts, on every stream: the magic bytes are
    checked first and a wrong magic is [InvalidData] (a stream of fewer than
    four bytes is an unexpected end of file); after a right magic the version
    field is skipped, whatever its value, and the header is the declared number
    of bytes or an unexpected end of file. *)
Theorem read_header_cases {R} `{ReadStream R} `{!ReadLaws R} (r : R) (magic version len tail : list Z) :
  length magic = 4%nat -> length version = 4%nat -> length len = 4%nat ->
  yields r (magic ++ version ++ len ++ tail) ->
  fst (read_header r) =
    if bool_decide (magic = CAPTURE_MAGIC) then
      if (Z.to_nat (u32_from_le_bytes len) <=? length tail)%nat
      then Ok (mkHeader (take (Z.to_nat (u32_from_le_bytes len)) tail))
      else Err UnexpectedEof
    else Err InvalidData.
Proof.
  intros Hm Hv Hl Hy. destruct (read_header_refines r _ Hy) as (r1 & -> & _).
  unfold decode_header. rewrite split_exact_app by done. cbn [fst bind_st].
  destruct (bool_decide (magic = CAPTURE_MAGIC)); cbn [negb]; [|done].
  do 2 (rewrite split_exact_app by done; cbn [bind_st]).
  unfold split_exact, u32_from_le_bytes. by destruct (_ <=? _)%nat.
Qed.

Lemma read_header_cases_witness :
  fst (read_header (cursor (CAPTURE_MAGIC ++ [99; 0; 0; 0] ++ [2; 0; 0; 0] ++ [7; 8; 9]))) = Ok (mkHeader [7; 8]).
Proof.
  apply (read_header_cases (cursor (CAPTURE_MAGIC ++ [99; 0; 0; 0] ++ [2; 0; 0; 0] ++ [7; 8; 9]))
    CAPTURE_MAGIC [99; 0; 0; 0] [2; 0; 0; 0] [7; 8; 9]).
  - reflexivity.
  - reflexivity.
  - reflexivity.
  - split; [constructor | reflexivity].
Defined.
