(* ===== verification/Ip.v ===== *)
(** * IP addresses

    [std::net::IpAddr] as the whitelist uses it: [to_canonical], the textual
    form ([Display]) and the parser ([FromStr]) of the standard library, and
    the fact that a canonical address survives printing and parsing. *)

From S2P Require Import Prelude Bytes.
From Stdlib Require Import Ascii String.
#[local] Open Scope Z_scope.
#[local] Open Scope list_scope.

(** An IPv4 address is four octets, an IPv6 address eight 16-bit segments. *)
Inductive IpAddr : Type :=
| V4 (a b c d : Z)
| V6 (segments : list Z).

#[export] Instance IpAddr_eq_dec : EqDecision IpAddr.
Proof. solve_decision. Defined.

Definition is_u16 (z : Z) : Prop := 0 <= z < 65536.

Definition ip_ok (ip : IpAddr) : Prop :=
  match ip with
  | V4 a b c d => is_byte a /\ is_byte b /\ is_byte c /\ is_byte d
  | V6 segs => List.length segs = 8%nat /\ Forall is_u16 segs
  end.

(** [Ipv6Addr::to_ipv4_mapped]: the address of [::ffff:a.b.c.d]. *)
Definition to_ipv4_mapped (segs : list Z) : option (Z * Z) :=
  match segs with
  | [s0; s1; s2; s3; s4; s5; ab; cd] =>
    if forallb (Z.eqb 0) [s0; s1; s2; s3; s4] && (s5 =? 65535) then Some (ab, cd) else None
  | _ => None
  end.

(** [IpAddr::to_canonical]: an IPv4-mapped IPv6 address becomes IPv4. *)
Definition to_canonical (ip : IpAddr) : IpAddr :=
  match ip with
  | V4 _ _ _ _ => ip
  | V6 segs =>
    match to_ipv4_mapped segs with
    | Some (ab, cd) => V4 (ab / 256) (ab mod 256) (cd / 256) (cd mod 256)
    | None => ip
    end
  end.

(** ** Numbers in a radix *)

Definition digit_char (d : Z) : ascii :=
  if d <? 10 then ascii_of_N (Z.to_N (48 + d)) else ascii_of_N (Z.to_N (87 + d)).

Definition to_digit (radix : Z) (c : ascii) : option Z :=
  let n := Z.of_N (N_of_ascii c) in
  let d := if (48 <=? n) && (n <=? 57) then n - 48
           else if (97 <=? n) && (n <=? 122) then n - 87
           else if (65 <=? n) && (n <=? 90) then n - 55
           else radix in
  if d <? radix then Some d else None.

(** The [k] digits of [n], most significant first. *)
Fixpoint digits (radix : Z) (k : nat) (n : Z) : list Z :=
  match k with
  | O => []
  | S k' => digits radix k' (n / radix) ++ [n mod radix]
  end.

Fixpoint strip_zeros (ds : list Z) : list Z :=
  match ds with
  | d :: rest =>
    match rest with
    | [] => ds
    | _ => if d =? 0 then strip_zeros rest else ds
    end
  | [] => []
  end.

(** [{}] and [{:x}] on an unsigned integer of at most [k] digits. *)
Definition fmt_radix (radix : Z) (k : nat) (n : Z) : list ascii :=
  map digit_char (strip_zeros (digits radix k n)).

(** ** The parser of [core::net::parser]

    A parser returns the value and the rest of the input, or [None] with the
    input unchanged ([read_atomically]). *)

Definition parser (A : Type) : Type := list ascii -> option (A * list ascii).

Definition read_given_char (c : ascii) : parser unit := fun s =>
  match s with
  | x :: rest => if Ascii.eqb x c then Some (tt, rest) else None
  | [] => None
  end.

Fixpoint read_digits (radix : Z) (s : list ascii) (acc : Z) (count : nat) : Z * nat * list ascii :=
  match s with
  | c :: rest =>
    match to_digit radix c with
    | Some d => read_digits radix rest (acc * radix + d) (S count)
    | None => (acc, count, s)
    end
  | [] => (acc, count, s)
  end.

Definition read_number (radix : Z) (max_digits : nat) (allow_zero_prefix : bool) (bound : Z) : parser Z := fun s =>
  let has_leading_zero := match s with c :: _ => Ascii.eqb c "0"%char | [] => false end in
  let '(v, count, rest) := read_digits radix s 0 0 in
  if (max_digits <? count)%nat then None
  else if (count =? 0)%nat then None
  else if negb allow_zero_prefix && has_leading_zero && (1 <? count)%nat then None
  else if bound <=? v then None
  else Some (v, rest).

Definition read_separator {A} (sep : ascii) (index : nat) (p : parser A) : parser A := fun s =>
  match index with
  | O => p s
  | S _ => match read_given_char sep s with Some (_, s') => p s' | None => None end
  end.

Fixpoint read_octets (k index : nat) (s : list ascii) : option (list Z * list ascii) :=
  match k with
  | O => Some ([], s)
  | S k' =>
    match read_separator "."%char index (read_number 10 3 false 256) s with
    | Some (n, s1) =>
      match read_octets k' (S index) s1 with Some (ns, s2) => Some (n :: ns, s2) | None => None end
    | None => None
    end
  end.

Definition read_ipv4_addr : parser (list Z) := read_octets 4 0.

(** [read_groups]: up to [limit] groups from index [i] on; whether it ended in
    an embedded IPv4 address. *)
Fixpoint read_groups (k limit i : nat) (s : list ascii) : list Z * bool * list ascii :=
  match k with
  | O => ([], false, s)
  | S k' =>
    let ipv4 := if (i <? limit - 1)%nat then read_separator ":"%char i read_ipv4_addr s else None in
    match ipv4 with
    | Some (oct, s1) =>
      (match oct with [a; b; c; d] => [a * 256 + b; c * 256 + d] | _ => [] end, true, s1)
    | None =>
      match read_separator ":"%char i (read_number 16 4 true 65536) s with
      | Some (g, s1) => let '(gs, v4, s2) := read_groups k' limit (S i) s1 in (g :: gs, v4, s2)
      | None => ([], false, s)
      end
    end
  end.

Definition read_ipv6_addr : parser (list Z) := fun s =>
  let '(head, head_ipv4, s1) := read_groups 8 8 0 s in
  if (List.length head =? 8)%nat then Some (head, s1)
  else if head_ipv4 then None
  else
    match read_given_char ":"%char s1 with
    | Some (_, s2) =>
      match read_given_char ":"%char s2 with
      | Some (_, s3) =>
        let limit := (8 - (List.length head + 1))%nat in
        let '(tl, _, s4) := read_groups limit limit 0 s3 in
        Some (head ++ replicate (8 - List.length head - List.length tl) 0 ++ tl, s4)
      | None => None
      end
    | None => None
    end.

(** [str::parse::<IpAddr>]: the whole input must be consumed. *)
Definition parse_ip_chars (s : list ascii) : option IpAddr :=
  match read_ipv4_addr s with
  | Some ([a; b; c; d], []) => Some (V4 a b c d)
  | Some _ => None
  | None =>
    match read_ipv6_addr s with
    | Some (segs, []) => Some (V6 segs)
    | _ => None
    end
  end.

Definition parse_ip (s : string) : option IpAddr := parse_ip_chars (list_ascii_of_string s).

(** ** [Display] *)

Definition fmt_ipv4 (a b c d : Z) : list ascii :=
  fmt_radix 10 3 a ++ "."%char :: fmt_radix 10 3 b ++ "."%char :: fmt_radix 10 3 c ++ "."%char :: fmt_radix 10 3 d.

(** [fmt_subslice]: segments separated by colons. *)
Fixpoint fmt_subslice (segs : list Z) : list ascii :=
  match segs with
  | [] => []
  | [g] => fmt_radix 16 4 g
  | g :: rest => fmt_radix 16 4 g ++ ":"%char :: fmt_subslice rest
  end.

(** The first longest run of zero segments: (start, length). *)
Fixpoint longest_zeros (segs : list Z) (i : nat) (longest current : nat * nat) : nat * nat :=
  match segs with
  | [] => longest
  | g :: rest =>
    if g =? 0 then
      let start := if (snd current =? 0)%nat then i else fst current in
      let cur := (start, S (snd current)) in
      longest_zeros rest (S i) (if (snd longest <? snd cur)%nat then cur else longest) cur
    else longest_zeros rest (S i) longest (O, O)
  end.

Definition fmt_ipv6 (segs : list Z) : list ascii :=
  let '(start, len) := longest_zeros segs 0 (O, O) (O, O) in
  if (1 <? len)%nat then
    fmt_subslice (take start segs) ++ ":"%char :: ":"%char :: fmt_subslice (drop (start + len) segs)
  else fmt_subslice segs.

Definition fmt_ip (ip : IpAddr) : list ascii :=
  match ip with
  | V4 a b c d => fmt_ipv4 a b c d
  | V6 segs =>
    match to_ipv4_mapped segs with
    | Some (ab, cd) =>
      list_ascii_of_string "::ffff:" ++ fmt_ipv4 (ab / 256) (ab mod 256) (cd / 256) (cd mod 256)
    | None => fmt_ipv6 segs
    end
  end.

Definition ip_to_string (ip : IpAddr) : string := string_of_list_ascii (fmt_ip ip).

(** [{}] on a [u16]. *)
Definition u16_to_string (n : Z) : string := string_of_list_ascii (fmt_radix 10 5 n).

(** [u16::from_str]: an optional plus sign, then decimal digits. *)
Definition parse_u16_chars (s : list ascii) : option Z :=
  let ds := match s with c :: (_ :: _) as rest => if Ascii.eqb c "+"%char then rest else s | _ => s end in
  match read_digits 10 ds 0 0 with
  | (v, S _, []) => if v <? 65536 then Some v else None
  | _ => None
  end.
Definition parse_u16 (s : string) : option Z := parse_u16_chars (list_ascii_of_string s).

Example parse_u16_plus : parse_u16 "+0080"%string = Some 80. Proof. reflexivity. Qed.
Example parse_u16_over : parse_u16 "65536"%string = None. Proof. reflexivity. Qed.
Example parse_u16_sign : parse_u16 "+"%string = None /\ parse_u16 "-1"%string = None. Proof. split; reflexivity. Qed.

Example parse_v4 : parse_ip "192.168.1.100"%string = Some (V4 192 168 1 100). Proof. reflexivity. Qed.
Example parse_v4_leading : parse_ip "192.168.01.100"%string = None. Proof. reflexivity. Qed.
Example parse_v6_loop : parse_ip "::1"%string = Some (V6 [0; 0; 0; 0; 0; 0; 0; 1]). Proof. reflexivity. Qed.
Example parse_v6_mapped : parse_ip "::ffff:10.4.10.71"%string = Some (V6 [0; 0; 0; 0; 0; 65535; 2564; 2631]).
Proof. reflexivity. Qed.
Example print_v6 : ip_to_string (V6 [8193; 3512; 0; 0; 1; 0; 0; 1]) = "2001:db8::1:0:0:1"%string.
Proof. reflexivity. Qed.

(** ** Printing then parsing *)

Lemma Z_range_forallb (n : nat) (P : Z -> bool) :
  forallb P (map Z.of_nat (seq 0 n)) = true -> forall z, 0 <= z < Z.of_nat n -> P z = true.
Proof.
  rewrite forallb_forall. intros H z Hz. apply H, in_map_iff. exists (Z.to_nat z).
  split; [lia | apply in_seq; lia].
Qed.

Lemma to_digit_char radix d : 0 <= d < radix -> radix <= 16 -> to_digit radix (digit_char d) = Some d.
Proof.
  intros Hd Hr.
  assert (H : bool_decide (to_digit 16 (digit_char d) = Some d) = true).
  { revert d Hd. enough (forall z, 0 <= z < Z.of_nat 16 -> bool_decide (to_digit 16 (digit_char z) = Some z) = true)
      by (intros d Hd; apply H; lia).
    apply Z_range_forallb. by vm_compute. }
  apply bool_decide_eq_true in H. revert H. unfold to_digit.
  set (n := Z.of_N (N_of_ascii (digit_char d))).
  assert (Hif : forall e, (if e <? 16 then Some e else None) = Some d -> (if e <? radix then Some e else None) = Some d).
  { intros e. destruct (Z.ltb_spec e 16); intros E; simplify_eq. by destruct (Z.ltb_spec d radix); [|lia]. }
  destruct (_ && _); [apply Hif|]. destruct (_ && _); [apply Hif|]. destruct (_ && _); [apply Hif | done].
Qed.

Lemma digit_char_zero d : 0 <= d < 16 -> Ascii.eqb (digit_char d) "0"%char = (d =? 0).
Proof.
  intros Hd. apply eqb_true_iff. revert d Hd.
  apply (Z_range_forallb 16 (fun d => Bool.eqb (Ascii.eqb (digit_char d) "0"%char) (d =? 0))).
  by vm_compute.
Qed.

Definition digits_ok (radix : Z) (ds : list Z) : Prop := Forall (fun d => 0 <= d < radix) ds.

Definition value_of (radix : Z) (ds : list Z) (acc : Z) : Z := fold_left (fun a d => a * radix + d) ds acc.

Definition no_digit (radix : Z) (s : list ascii) : Prop :=
  match s with c :: _ => to_digit radix c = None | [] => True end.

Lemma read_digits_fmt radix ds rest acc count :
  radix <= 16 -> digits_ok radix ds -> no_digit radix rest ->
  read_digits radix (map digit_char ds ++ rest) acc count
    = (value_of radix ds acc, (count + List.length ds)%nat, rest).
Proof.
  intros Hr Hds Hrest. revert acc count; induction Hds as [|d ds Hd _ IH]; intros acc count; simpl.
  - rewrite Nat.add_0_r. destruct rest as [|c rest]; [done|]. simpl in *. by rewrite Hrest.
  - rewrite to_digit_char by done. rewrite IH. do 2 f_equal. lia.
Qed.

Lemma digits_spec radix k n :
  0 < radix -> 0 <= n < radix ^ Z.of_nat k ->
  digits_ok radix (digits radix k n) /\ List.length (digits radix k n) = k /\
  value_of radix (digits radix k n) 0 = n.
Proof.
  intros Hr. revert n; induction k as [|k IH]; intros n Hn.
  - simpl in *. split_and!; [constructor | done | lia].
  - rewrite Nat2Z.inj_succ, Z.pow_succ_r in Hn by lia.
    destruct (IH (n / radix)) as (Hok & Hlen & Hval).
    { split; [apply Z.div_pos; lia | apply Z.div_lt_upper_bound; lia]. }
    simpl. pose proof (Z.mod_pos_bound n radix). split_and!.
    + apply Forall_app. split; [done|]. constructor; [lia | constructor].
    + rewrite length_app, Hlen. simpl. lia.
    + unfold value_of in *. rewrite fold_left_app, Hval. simpl.
      rewrite (Z.div_mod n radix) at 3 by lia. lia.
Qed.

Lemma strip_zeros_spec radix ds :
  digits_ok radix ds -> ds <> [] ->
  digits_ok radix (strip_zeros ds) /\ value_of radix (strip_zeros ds) 0 = value_of radix ds 0 /\
  (0 < List.length (strip_zeros ds) <= List.length ds)%nat /\
  (forall d rest, strip_zeros ds = d :: rest -> d = 0 -> rest = []).
Proof.
  induction ds as [|d ds IH]; intros Hok Hne; [done|]. simpl.
  destruct ds as [|e ds].
  - split_and!; simpl; try done; try lia. intros; by simplify_eq.
  - destruct (Z.eqb_spec d 0) as [->|Hd].
    + destruct IH as (H1 & H2 & H3 & H4); [by inversion Hok | done |].
      split_and!; try done; simpl in *; try lia.
    + split_and!; simpl; try done; try lia. intros; by simplify_eq.
Qed.

Lemma read_number_fmt radix k allow bound n rest :
  0 < radix <= 16 -> (0 < k)%nat -> 0 <= n < bound -> bound <= radix ^ Z.of_nat k -> no_digit radix rest ->
  read_number radix k allow bound (fmt_radix radix k n ++ rest) = Some (n, rest).
Proof.
  intros Hr Hk Hn Hb Hrest. unfold read_number, fmt_radix.
  destruct (digits_spec radix k n) as (Hok & Hlen & Hval); [lia | lia |].
  destruct (strip_zeros_spec radix (digits radix k n)) as (Hok' & Hval' & Hlen' & Hzero); [done | intros E; rewrite E in Hlen; simpl in Hlen; lia |].
  set (ds := strip_zeros _) in *. rewrite read_digits_fmt, Hval', Hval by (done || lia).
  destruct (Nat.ltb_spec k (0 + List.length ds)); [lia|].
  destruct (Nat.eqb_spec (0 + List.length ds) 0); [lia|].
  assert (Hlz : (match map digit_char ds ++ rest with c :: _ => Ascii.eqb c "0"%char | [] => false end) &&
                (1 <? 0 + List.length ds)%nat = false).
  { destruct ds as [|d ds']; [simpl in *; lia|]. simpl. inversion Hok' as [|? ? Hd Hok2]; subst.
    rewrite digit_char_zero by lia. destruct (Z.eqb_spec d 0) as [->|]; [|done].
    by rewrite (Hzero _ _ eq_refl eq_refl). }
  rewrite <- andb_assoc, Hlz, andb_false_r.
  destruct (Z.leb_spec bound n); [lia | done].
Qed.

(** *** IPv4 *)

Lemma read_octet_first n rest :
  is_byte n -> no_digit 10 rest ->
  read_separator "."%char 0 (read_number 10 3 false 256) (fmt_radix 10 3 n ++ rest) = Some (n, rest).
Proof. intros Hn Hrest. unfold is_byte in Hn. apply (read_number_fmt 10 3); done || lia. Qed.

Lemma read_octet_next i n rest :
  is_byte n -> no_digit 10 rest ->
  read_separator "."%char (S i) (read_number 10 3 false 256) ("."%char :: fmt_radix 10 3 n ++ rest) = Some (n, rest).
Proof. intros Hn Hrest. unfold is_byte in Hn. apply (read_number_fmt 10 3); done || lia. Qed.

Lemma read_ipv4_fmt a b c d rest :
  ip_ok (V4 a b c d) -> no_digit 10 rest ->
  read_ipv4_addr (fmt_ipv4 a b c d ++ rest) = Some ([a; b; c; d], rest).
Proof.
  intros (Ha & Hb & Hc & Hd) Hrest. unfold fmt_ipv4, read_ipv4_addr.
  do 3 (rewrite <- app_assoc; cbn [app]). cbn [read_octets].
  rewrite read_octet_first; [|done|done].
  rewrite read_octet_next; [|done|done].
  rewrite read_octet_next; [|done|done].
  by rewrite read_octet_next.
Qed.

Lemma read_digits_suffix radix s acc count v n rest :
  read_digits radix s acc count = (v, n, rest) -> rest `suffix_of` s.
Proof.
  revert acc count; induction s as [|c s IH]; intros acc count; simpl.
  - intros E; simplify_eq. done.
  - destruct (to_digit radix c).
    + intros H. apply IH in H. by apply suffix_cons_r.
    + intros E; simplify_eq. done.
Qed.

Lemma read_number_suffix radix k allow bound s v rest :
  read_number radix k allow bound s = Some (v, rest) -> rest `suffix_of` s.
Proof.
  unfold read_number. destruct (read_digits radix s 0 0) as [[v' n] rest'] eqn:E.
  apply read_digits_suffix in E. intros H. repeat case_match; by simplify_eq.
Qed.

Lemma to_digit_range radix c d : to_digit radix c = Some d -> 0 <= d < radix.
Proof.
  unfold to_digit. cbv zeta. generalize (Z.of_N (N_of_ascii c)). intros n.
  destruct (Z.leb_spec 48 n), (Z.leb_spec n 57), (Z.leb_spec 97 n), (Z.leb_spec n 122), (Z.leb_spec 65 n), (Z.leb_spec n 90); cbn [andb];
    match goal with |- (if ?b then _ else _) = _ -> _ => destruct b eqn:Eb end; intros [= <-]; apply Z.ltb_lt in Eb; lia.
Qed.

Lemma to_digit_zero c : to_digit 10 c = Some 0 -> c = "0"%char.
Proof.
  intros E. assert (Hn : N_of_ascii c = 48%N).
  { revert E. unfold to_digit. cbv zeta. destruct (N_of_ascii c) as [|n] eqn:Ec; [done|].
    destruct (Z.leb_spec 48 (Z.of_N (N.pos n))), (Z.leb_spec (Z.of_N (N.pos n)) 57), (Z.leb_spec 97 (Z.of_N (N.pos n))),
      (Z.leb_spec (Z.of_N (N.pos n)) 122), (Z.leb_spec 65 (Z.of_N (N.pos n))), (Z.leb_spec (Z.of_N (N.pos n)) 90); cbn [andb];
    match goal with |- (if ?b then _ else _) = _ -> _ => destruct b end; intros [=]; lia. }
  rewrite <- (ascii_N_embedding c), Hn. reflexivity.
Qed.

Lemma read_digits_mono radix s acc count v n rest :
  0 < radix -> 0 <= acc -> read_digits radix s acc count = (v, n, rest) ->
  acc <= v /\ (count <= n)%nat /\ (n = count -> rest = s).
Proof.
  intros Hr. revert acc count; induction s as [|c s IH]; intros acc count Ha; simpl.
  - intros E; simplify_eq. done.
  - destruct (to_digit radix c) as [d|] eqn:Ed; [|intros E; simplify_eq; done].
    apply to_digit_range in Ed.
    intros E. apply IH in E as (Hv & Hn & _); [|nia]. split_and!; [nia | lia | lia].
Qed.

(** A decimal octet of value zero is a single zero. *)
Lemma read_octet_zero s rest : read_number 10 3 false 256 s = Some (0, rest) -> s = "0"%char :: rest.
Proof.
  unfold read_number. destruct s as [|c s]; [done|]. cbn [read_digits].
  destruct (to_digit 10 c) as [d|] eqn:Ed; [|done].
  destruct (read_digits 10 s (0 * 10 + d) 1) as [[v n] rest'] eqn:E.
  pose proof (to_digit_range _ _ _ Ed) as Hd.
  apply read_digits_mono in E as (Hv & Hn & Hrest); [|lia|lia].
  destruct (3 <? n)%nat; [done|]. destruct (n =? 0)%nat; [done|].
  destruct (negb false && Ascii.eqb c "0"%char && (1 <? n)%nat) eqn:Hz; [done|].
  destruct (256 <=? v); [done|]. intros [= -> ->]. assert (d = 0) as -> by lia.
  apply to_digit_zero in Ed as ->. rewrite Ascii.eqb_refl in Hz. cbn [negb andb] in Hz. apply Nat.ltb_ge in Hz.
  rewrite Hrest by lia. done.
Qed.

Lemma read_given_char_some c s u rest : read_given_char c s = Some (u, rest) -> s = c :: rest.
Proof. destruct s as [|x s]; [done|]. simpl. destruct (Ascii.eqb_spec x c) as [->|]; [|done]. by intros [= _ ->]. Qed.

(** The IPv4 address 0.0.0.0 has one spelling. *)
Lemma read_ipv4_unspecified s : read_ipv4_addr s = Some ([0; 0; 0; 0], []) -> s = fmt_ipv4 0 0 0 0.
Proof.
  unfold read_ipv4_addr. cbn [read_octets read_separator].
  intros E. repeat case_match; simplify_eq.
  repeat match goal with
  | H : read_number _ _ _ _ _ = Some (0, _) |- _ => apply read_octet_zero in H; subst
  | H : read_given_char _ _ = Some _ |- _ => apply read_given_char_some in H; subst
  end.
  reflexivity.
Qed.

(** Text without a dot is no IPv4 address. *)
Lemma read_ipv4_no_dot s : "."%char ∉ s -> read_ipv4_addr s = None.
Proof.
  intros Hdot. unfold read_ipv4_addr. cbn [read_octets read_separator].
  destruct (read_number 10 3 false 256 s) as [[n s1]|] eqn:E; [|done].
  apply read_number_suffix in E as [pre ->]. apply not_elem_of_app in Hdot as [_ Hdot].
  destruct s1 as [|x s1]; [done|]. cbn [read_separator read_given_char].
  apply not_elem_of_cons in Hdot as [Hne _].
  destruct (Ascii.eqb_spec x "."%char); [congruence | done].
Qed.

(** *** IPv6 *)

Lemma digit_char_not_special d : 0 <= d < 16 -> digit_char d <> "."%char /\ digit_char d <> ":"%char.
Proof.
  intros Hd.
  assert (H : bool_decide (digit_char d <> "."%char /\ digit_char d <> ":"%char) = true).
  { revert d Hd. apply (Z_range_forallb 16 (fun d => bool_decide (digit_char d <> "."%char /\ digit_char d <> ":"%char))).
    by vm_compute. }
  by apply bool_decide_eq_true in H.
Qed.

Lemma fmt_radix_digits radix k n :
  0 < radix <= 16 -> (0 < k)%nat -> 0 <= n < radix ^ Z.of_nat k ->
  exists ds, fmt_radix radix k n = map digit_char ds /\ digits_ok radix ds.
Proof.
  intros Hr Hk Hn. destruct (digits_spec radix k n) as (Hok & Hlen & Hval); [lia | lia |].
  destruct (strip_zeros_spec radix (digits radix k n)) as (Hok' & _);
    [done | intros E; rewrite E in Hlen; simpl in Hlen; lia |].
  by eexists.
Qed.

Lemma fmt_hex_no_dot g : is_u16 g -> "."%char ∉ fmt_radix 16 4 g.
Proof.
  intros Hg. destruct (fmt_radix_digits 16 4 g) as (ds & -> & Hok); [lia | lia | apply Hg|].
  intros Hin. apply list_elem_of_In, in_map_iff in Hin as (d & Hd & Hin).
  unfold digits_ok in Hok. rewrite List.Forall_forall in Hok.
  by apply (digit_char_not_special d) in Hd; [|apply Hok].
Qed.

(** Segments with the separator the parser expects before the [i]-th group. *)
Fixpoint sep_text (i : nat) (gs : list Z) : list ascii :=
  match gs with
  | [] => []
  | g :: rest => match i with O => [] | S _ => [":"%char] end ++ fmt_radix 16 4 g ++ sep_text (S i) rest
  end.

Lemma fmt_subslice_sep gs : fmt_subslice gs = sep_text 0 gs.
Proof.
  assert (H : forall g gs i, sep_text (S i) (g :: gs) = ":"%char :: fmt_subslice (g :: gs)).
  { intros g0 gs0. revert g0. induction gs0 as [|h gs0 IH]; intros g0 i.
    - simpl. by rewrite app_nil_r.
    - change (sep_text (S i) (g0 :: h :: gs0)) with (":"%char :: fmt_radix 16 4 g0 ++ sep_text (S (S i)) (h :: gs0)).
      by rewrite IH. }
  destruct gs as [|g [|h gs]]; [done | simpl; by rewrite app_nil_r |].
  change (sep_text 0 (g :: h :: gs)) with (fmt_radix 16 4 g ++ sep_text 1 (h :: gs)). by rewrite H.
Qed.

Lemma sep_text_no_dot i gs : Forall is_u16 gs -> "."%char ∉ sep_text i gs.
Proof.
  intros H. revert i; induction H as [|g gs Hg _ IH]; intros i; [by apply not_elem_of_nil|].
  change (sep_text i (g :: gs)) with (match i with O => [] | S _ => [":"%char] end ++ fmt_radix 16 4 g ++ sep_text (S i) gs).
  rewrite !not_elem_of_app. split_and!; [|by apply fmt_hex_no_dot | apply IH].
  destruct i; [by apply not_elem_of_nil|]. rewrite list_elem_of_singleton. done.
Qed.

Definition stops (rest : list ascii) : Prop := rest = [] \/ exists r, rest = ":"%char :: ":"%char :: r.

Lemma stops_no_digit rest : stops rest -> no_digit 16 rest.
Proof. by intros [->|[r ->]]. Qed.

Lemma read_separator_no_dot i s : "."%char ∉ s -> read_separator ":"%char i read_ipv4_addr s = None.
Proof.
  intros Hdot. destruct i; cbn [read_separator]; [by apply read_ipv4_no_dot|].
  destruct s as [|x s]; [done|]. apply not_elem_of_cons in Hdot as [_ Hdot]. cbn [read_given_char].
  destruct (Ascii.eqb x ":"%char); [by apply read_ipv4_no_dot | done].
Qed.

Lemma read_groups_stop k limit i rest :
  stops rest -> "."%char ∉ rest -> read_groups k limit i rest = ([], false, rest).
Proof.
  intros Hs Hdot. destruct k as [|k]; [done|]. cbn [read_groups].
  rewrite read_separator_no_dot by done.
  assert (E : (if (i <? limit - 1)%nat then @None (list Z * list ascii) else None) = None) by (by destruct (_ <? _)%nat).
  rewrite E. destruct Hs as [->|[r ->]]; by destruct i.
Qed.

Lemma read_groups_text gs k limit i rest :
  Forall is_u16 gs -> (List.length gs <= k)%nat -> stops rest -> "."%char ∉ rest ->
  read_groups k limit i (sep_text i gs ++ rest) = (gs, false, rest).
Proof.
  intros Hgs. revert k i; induction Hgs as [|g gs Hg Hgs IH]; intros k i Hk Hs Hdot.
  - by apply read_groups_stop.
  - destruct k as [|k]; simpl in Hk; [lia|]. cbn [read_groups].
    rewrite read_separator_no_dot.
    2: { apply not_elem_of_app. split; [|done]. apply sep_text_no_dot. by constructor. }
    assert (E : (if (i <? limit - 1)%nat then @None (list Z * list ascii) else None) = None) by (by destruct (_ <? _)%nat).
    rewrite E.
    change (sep_text i (g :: gs)) with (match i with O => [] | S _ => [":"%char] end ++ fmt_radix 16 4 g ++ sep_text (S i) gs).
    assert (Hr : read_separator ":"%char i (read_number 16 4 true 65536)
      ((match i with O => [] | S _ => [":"%char] end ++ fmt_radix 16 4 g ++ sep_text (S i) gs) ++ rest)
      = Some (g, sep_text (S i) gs ++ rest)).
    { assert (Hn : read_number 16 4 true 65536 (fmt_radix 16 4 g ++ sep_text (S i) gs ++ rest) = Some (g, sep_text (S i) gs ++ rest)).
      { apply (read_number_fmt 16 4); [lia | lia | exact Hg | done |]. destruct gs; [by apply stops_no_digit | done]. }
      destruct i; rewrite <- !app_assoc; exact Hn. }
    rewrite Hr, IH; [done | lia | done | done].
Qed.

(** *** The zero run *)

Definition span_ok (l : list Z) (sp : nat * nat) : Prop :=
  (fst sp + snd sp <= List.length l)%nat /\ take (snd sp) (drop (fst sp) l) = replicate (snd sp) 0.

Lemma span_ok_app l k sp : span_ok l sp -> span_ok (l ++ k) sp.
Proof.
  intros [Hlen Hz]. split; [rewrite length_app; lia|].
  rewrite drop_app_le by lia. rewrite take_app_le by (rewrite length_drop; lia). done.
Qed.

Lemma longest_zeros_ok l pre longest current :
  span_ok pre longest -> span_ok pre current ->
  (snd current = 0%nat \/ (fst current + snd current = List.length pre)%nat) ->
  span_ok (pre ++ l) (longest_zeros l (List.length pre) longest current).
Proof.
  revert pre longest current; induction l as [|g l IH]; intros pre longest current Hl Hc Hend.
  - by rewrite app_nil_r.
  - simpl. assert (E : pre ++ g :: l = (pre ++ [g]) ++ l) by (by rewrite <- app_assoc).
    assert (Elen : S (List.length pre) = List.length (pre ++ [g])) by (rewrite length_app; simpl; lia).
    rewrite E, Elen. destruct (Z.eqb_spec g 0) as [->|Hg].
    + set (start := if (snd current =? 0)%nat then List.length pre else fst current).
      assert (Hstart : (start + snd current = List.length pre)%nat).
      { unfold start. destruct (Nat.eqb_spec (snd current) 0); lia. }
      assert (Hcur : span_ok (pre ++ [0]) (start, S (snd current))).
      { split; cbn [fst snd]; [rewrite <- Elen; lia|].
        rewrite drop_app_le, take_app_ge by (rewrite ?length_drop; lia).
        rewrite length_drop. replace (S (snd current) - (List.length pre - start))%nat with 1%nat by lia.
        rewrite replicate_S_end. simpl take at 1. f_equal.
        unfold start in *. destruct (Nat.eqb_spec (snd current) 0) as [E0|].
        - rewrite E0, drop_ge by lia. done.
        - destruct Hc as [_ Hz]. rewrite <- Hz, take_ge; [done | rewrite length_drop; lia]. }
      apply IH; [|done|right; cbn [fst snd]; lia].
      by destruct (_ <? _)%nat; [|apply span_ok_app].
    + apply IH; [by apply span_ok_app | | by left]. split; simpl; [lia | done].
Qed.

Lemma read_ipv6_fmt segs :
  ip_ok (V6 segs) -> read_ipv6_addr (fmt_ipv6 segs) = Some (segs, []).
Proof.
  intros [Hlen Hok]. unfold fmt_ipv6.
  pose proof (longest_zeros_ok segs [] (O, O) (O, O)) as Hspan. simpl List.length in Hspan.
  destruct (longest_zeros segs 0 (0%nat, 0%nat) (0%nat, 0%nat)) as [start len].
  destruct Hspan as [Hb Hz]; [by split; simpl | by split; simpl | by left |]. simpl in Hb, Hz.
  unfold read_ipv6_addr. rewrite !fmt_subslice_sep.
  destruct (Nat.ltb_spec 1 len) as [H1|H1].
  - destruct (Forall_take_drop is_u16 start segs Hok) as [HA _].
    destruct (Forall_take_drop is_u16 (start + len) segs Hok) as [_ HB].
    assert (HlA : List.length (take start segs) = start) by (rewrite length_take; lia).
    rewrite (read_groups_text (take start segs)).
    2-5: first [done | rewrite HlA; lia | by right; eexists | idtac].
    2: { rewrite !not_elem_of_cons. split_and!; [done | done | by apply sep_text_no_dot]. }
    rewrite HlA. destruct (Nat.eqb_spec start 8); [lia|]. 
    assert (Hcolon : forall s, read_given_char ":"%char (":"%char :: s) = Some (tt, s)) by done.
    rewrite !Hcolon. rewrite <- (app_nil_r (sep_text 0 (drop (start + len) segs))).
    rewrite (read_groups_text (drop (start + len) segs));
      [|done | rewrite length_drop; lia | by left | by apply not_elem_of_nil].
    rewrite length_drop, Hlen. do 2 f_equal.
    replace (8 - start - (8 - (start + len)))%nat with len by lia.
    by rewrite <- Hz, <- drop_drop, !take_drop.
  - rewrite <- (app_nil_r (sep_text 0 segs)).
    rewrite (read_groups_text segs); [|done | lia | by left | by apply not_elem_of_nil].
    by rewrite Hlen.
Qed.

Lemma fmt_ipv6_no_dot segs : Forall is_u16 segs -> "."%char ∉ fmt_ipv6 segs.
Proof.
  intros Hok. unfold fmt_ipv6. destruct (longest_zeros segs 0 _ _) as [start len].
  rewrite !fmt_subslice_sep. destruct (Forall_take_drop is_u16 start segs Hok) as [HA _].
  destruct (Forall_take_drop is_u16 (start + len) segs Hok) as [_ HB].
  destruct (1 <? len)%nat; [|by apply sep_text_no_dot].
  rewrite not_elem_of_app, !not_elem_of_cons.
  split_and!; [by apply sep_text_no_dot | done | done | by apply sep_text_no_dot].
Qed.

Lemma to_canonical_ok ip : ip_ok ip -> ip_ok (to_canonical ip).
Proof.
  destruct ip as [a b c d|segs]; [done|]. intros [Hlen Hok]. simpl.
  destruct (to_ipv4_mapped segs) as [[ab cd]|] eqn:E; [|done].
  unfold to_ipv4_mapped in E. do 9 (destruct segs as [|? segs]; try done).
  destruct (_ && _); simplify_eq. rewrite !Forall_cons in Hok. unfold is_u16 in Hok.
  destruct Hok as (_&_&_&_&_&_&Hab&Hcd&_).
  assert (Hbyte : forall x, 0 <= x < 65536 -> is_byte (x / 256) /\ is_byte (x mod 256)).
  { intros x Hx. unfold is_byte. split; [|by apply Z.mod_pos_bound].
    split; [apply Z.div_pos | apply Z.div_lt_upper_bound]; lia. }
  destruct (Hbyte ab Hab), (Hbyte cd Hcd). by split_and!.
Qed.

Lemma to_canonical_idem ip : to_canonical (to_canonical ip) = to_canonical ip.
Proof.
  destruct ip as [a b c d|segs]; [done|]. simpl.
  destruct (to_ipv4_mapped segs) as [[ab cd]|] eqn:E; [done|]. simpl. by rewrite E.
Qed.

(** A canonical address printed and parsed is itself. *)
Lemma parse_ip_to_string ip : ip_ok ip -> parse_ip (ip_to_string (to_canonical ip)) = Some (to_canonical ip).
Proof.
  intros Hok. apply to_canonical_ok in Hok. pose proof (to_canonical_idem ip) as Hid.
  unfold parse_ip, ip_to_string. rewrite list_ascii_of_string_of_list_ascii. unfold parse_ip_chars.
  destruct (to_canonical ip) as [a b c d|segs].
  - simpl fmt_ip. rewrite <- (app_nil_r (fmt_ipv4 a b c d)). by rewrite read_ipv4_fmt.
  - simpl in Hid |- *. destruct (to_ipv4_mapped segs) as [[ab cd]|]; [done|].
    rewrite read_ipv4_no_dot by (by apply fmt_ipv6_no_dot; destruct Hok).
    by rewrite read_ipv6_fmt.
Qed.

(** *** [u16] *)

Lemma fmt_u16_no_colon n : is_u16 n -> ":"%char ∉ fmt_radix 10 5 n.
Proof.
  intros Hn. destruct (fmt_radix_digits 10 5 n) as (ds & -> & Hok); [lia | lia | unfold is_u16 in Hn; lia |].
  intros Hin. apply list_elem_of_In, in_map_iff in Hin as (d & Hd & Hin).
  unfold digits_ok in Hok. rewrite List.Forall_forall in Hok. specialize (Hok _ Hin).
  by apply (digit_char_not_special d) in Hd; [|lia].
Qed.

Lemma digit_char_not_plus d : 0 <= d < 10 -> Ascii.eqb (digit_char d) "+"%char = false.
Proof.
  intros Hd. apply negb_true_iff. revert d Hd.
  apply (Z_range_forallb 10 (fun d => negb (Ascii.eqb (digit_char d) "+"%char))). by vm_compute.
Qed.

Lemma parse_u16_to_string n : is_u16 n -> parse_u16_chars (fmt_radix 10 5 n) = Some n.
Proof.
  intros Hn. unfold is_u16 in Hn. unfold parse_u16_chars, fmt_radix.
  destruct (digits_spec 10 5 n) as (Hok & Hlen & Hval); [lia | lia |].
  destruct (strip_zeros_spec 10 (digits 10 5 n)) as (Hok' & Hval' & Hlen' & _);
    [done | intros E; rewrite E in Hlen; simpl in Hlen; lia |].
  set (ds := strip_zeros (digits 10 5 n)) in *.
  assert (Hplus : match map digit_char ds with
    | c :: (_ :: _) as rest => if Ascii.eqb c "+"%char then rest else map digit_char ds
    | _ => map digit_char ds end = map digit_char ds).
  { destruct ds as [|d [|e ds']]; [done | done |]. cbn [map]. inversion Hok'; subst. by rewrite digit_char_not_plus. }
  rewrite Hplus, <- (app_nil_r (map digit_char ds)), read_digits_fmt, Hval', Hval by done.
  destruct (List.length ds) as [|k]; [lia|]. cbn [Nat.add].
  destruct (Z.ltb_spec n 65536); [done | lia].
Qed.
