(* ===== verification/Error.v ===== *)
(** * The error type

    Models [src/error.rs].  An [std::io::Error] is its [ErrorKind]; its text
    comes from the operating system and is an argument of [display]. *)

From S2P Require Import Prelude Io.
From stdpp Require Import strings.
#[local] Open Scope Z_scope.

Inductive RtlTcpError : Type :=
| Device (msg : string)
| Network (msg : string)
| Config (msg : string)
| IoError (e : ErrorKind).

#[export] Instance RtlTcpError_eq_dec : EqDecision RtlTcpError.
Proof. solve_decision. Defined.

Definition display (io_display : ErrorKind -> string) (e : RtlTcpError) : string :=
  match e with
  | Device msg => "Device error: " +:+ msg
  | Network msg => "Network error: " +:+ msg
  | Config msg => "Configuration error: " +:+ msg
  | IoError e => "I/O error: " +:+ io_display e
  end.

(** [From<std::io::Error>] and [From<Box<dyn Error>>] (which keeps the text). *)
Definition from_io (error : ErrorKind) : RtlTcpError := IoError error.
Definition from_box (text : string) : RtlTcpError := Device text.

(** The [?] on an [io::Result] inside a function that returns [RtlTcpError]. *)
Definition lift_io {A S} (c : io A * S) : res A RtlTcpError * S :=
  (map_err from_io (fst c), snd c).
