(* ===== verification/Control.v ===== *)
(** * Protocol constants, validation, whitelist, AGC state and rate limiter

    Models [src/control.rs].  [ipnet] (CIDR parsing and containment) is a
    third-party crate: the class [IpNetLib].  The clock is an argument of the
    rate limiter's operations, in nanoseconds. *)

From S2P Require Import Prelude Bytes Io Error Ip.
From stdpp Require Import strings sorting.
#[local] Open Scope Z_scope.

(** ** Constants *)

Definition COMMAND_HEADER_SIZE : nat := 5.
Definition CMD_SET_FREQUENCY : Z := 0x01.
Definition CMD_SET_SAMPLE_RATE : Z := 0x02.
Definition CMD_SET_GAIN_MODE : Z := 0x03.
Definition CMD_SET_TUNER_GAIN : Z := 0x04.
Definition CMD_SET_PPM : Z := 0x05.
Definition CMD_SET_AGC : Z := 0x08.
Definition CMD_CHAIN_DETECT : Z := 0xF0.

(** b"RTL0", the tuner type 5 and the maximal gain 0x1d. *)
Definition MAGIC_PACKET : list Z :=
  [0x52; 0x54; 0x4c; 0x30; 0x00; 0x00; 0x00; 0x05; 0x00; 0x00; 0x00; 0x1d].

Definition FREQ_MIN : Z := 0.
Definition FREQ_MAX : Z := 2200000000.
Definition SAMPLE_RATE_MIN : Z := 0.
Definition SAMPLE_RATE_MAX : Z := 3200000.
Definition PPM_MIN : Z := -200.
Definition PPM_MAX : Z := 200.
Definition TUNER_GAIN_MIN : Z := 0.
Definition TUNER_GAIN_MAX : Z := 500.

(** [RangeInclusive::contains]. *)
Definition in_range (lo hi z : Z) : bool := (lo <=? z) && (z <=? hi).

(** Durations are in nanoseconds. *)
Definition from_millis (ms : Z) : Z := ms * 1000000.
Definition from_secs (s : Z) : Z := s * 1000000000.
Definition COMMAND_RATE_LIMIT_INTERVAL : Z := from_millis 50.

(** ** [with_control] *)

Record Mutex (T : Type) : Type := mkMutex { guarded : T; poisoned : bool }.
Arguments mkMutex {T}.
Arguments guarded {T}.
Arguments poisoned {T}.

Definition with_control {T} (ctl : Mutex T) (op : T -> T) : Mutex T :=
  if poisoned ctl then ctl else mkMutex (op (guarded ctl)) false.

(** ** Validation *)

Definition validate_frequency (freq : Z) : res unit string :=
  if negb (in_range FREQ_MIN FREQ_MAX freq) then
    Err ("frequency " +:+ pretty freq +:+ " Hz out of range (" +:+ pretty FREQ_MIN +:+ "-" +:+ pretty FREQ_MAX +:+ ")")
  else Ok tt.

Definition validate_sample_rate (rate : Z) : res unit string :=
  if negb (in_range SAMPLE_RATE_MIN SAMPLE_RATE_MAX rate) then
    Err ("sample rate " +:+ pretty rate +:+ " Hz out of range (" +:+ pretty SAMPLE_RATE_MIN +:+ "-" +:+ pretty SAMPLE_RATE_MAX +:+ ")")
  else Ok tt.

Definition validate_ppm (ppm : Z) : res unit string :=
  if negb (in_range PPM_MIN PPM_MAX ppm) then
    Err ("ppm " +:+ pretty ppm +:+ " out of range (" +:+ pretty PPM_MIN +:+ "-" +:+ pretty PPM_MAX +:+ ")")
  else Ok tt.

Definition validate_tuner_gain (gain : Z) : res unit string :=
  if negb (in_range TUNER_GAIN_MIN TUNER_GAIN_MAX gain) then
    Err ("tuner gain " +:+ pretty gain +:+ " out of range (" +:+ pretty TUNER_GAIN_MIN +:+ "-" +:+ pretty TUNER_GAIN_MAX +:+ ")")
  else Ok tt.

Example validate_frequency_text :
  validate_frequency 4294967295 = Err "frequency 4294967295 Hz out of range (0-2200000000)".
Proof. reflexivity. Qed.

(** ** The whitelist *)

(** The crate [ipnet]: networks, their parser and containment. *)
Class IpNetLib : Type := {
  IpNet : Type;
  parse_ipnet : string -> option IpNet;
  ipnet_contains : IpNet -> IpAddr -> bool
}.

Section whitelist.
Context `{IpNetLib}.

(** The loop over the entries: an entry that does not parse is skipped. *)
Fixpoint any_entry_contains (whitelist : list string) (client_ip : IpAddr) : bool :=
  match whitelist with
  | [] => false
  | cidr :: rest =>
    match parse_ipnet cidr with
    | Some network => if ipnet_contains network client_ip then true else any_entry_contains rest client_ip
    | None => any_entry_contains rest client_ip
    end
  end.

Definition is_ip_in_whitelist (client_ip : string) (whitelist : list string) : bool :=
  match parse_ip client_ip with
  | Some ip => any_entry_contains whitelist (to_canonical ip)
  | None => false
  end.

Definition check_whitelist (client_ip : string) (whitelist : list string) : res unit RtlTcpError :=
  if bool_decide (whitelist = []) then Ok tt
  else if is_ip_in_whitelist client_ip whitelist then Ok tt
  else Err (Network "connection rejected: IP not in whitelist").

Lemma any_entry_contains_spec whitelist ip :
  any_entry_contains whitelist ip = true <->
  exists cidr net, cidr ∈ whitelist /\ parse_ipnet cidr = Some net /\ ipnet_contains net ip = true.
Proof.
  induction whitelist as [|cidr rest IH].
  - split; [done|]. by intros (? & ? & ?%not_elem_of_nil & _).
  - assert (Hrest : any_entry_contains rest ip = true ->
      exists c net, c ∈ cidr :: rest /\ parse_ipnet c = Some net /\ ipnet_contains net ip = true).
    { intros Hr. apply IH in Hr as (c & net & Hc & Hn). exists c, net. split; [by right | done]. }
    simpl. split.
    + destruct (parse_ipnet cidr) as [net|] eqn:Ep; [|done].
      destruct (ipnet_contains net ip) eqn:Ec; [|done].
      intros _. exists cidr, net. split; [by left | done].
    + intros (c & net & [->|Hc]%elem_of_cons & Hp & Hn).
      * by rewrite Hp, Hn.
      * assert (Hr : any_entry_contains rest ip = true) by (apply IH; eauto).
        rewrite Hr. by repeat case_match.
Qed.

End whitelist.

(** ** [AgcState] *)

Record AgcState : Type := mkAgc { enabled : bool }.

Definition agc_default : AgcState := mkAgc true.
Definition agc_new : AgcState := agc_default.

(** [swap] returns the old value: whether the call changed the state. *)
Definition agc_enable (a : AgcState) : bool * AgcState := (negb (enabled a), mkAgc true).
Definition agc_disable (a : AgcState) : bool * AgcState := (enabled a, mkAgc false).

(** ** [RateLimiter] *)

Record RateLimiter : Type := mkRateLimiter { last_command : Z; min_interval : Z }.

(** [Instant::checked_sub] on a platform whose earliest instant is [epoch]. *)
Definition checked_sub (epoch now d : Z) : option Z :=
  if now - d <? epoch then None else Some (now - d).

(** [RateLimiter::new] reads the clock twice ([unwrap_or]'s argument is
    evaluated in any case). *)
Definition rate_limiter_new (epoch now now' interval : Z) : RateLimiter :=
  mkRateLimiter (match checked_sub epoch now interval with Some t => t | None => now' end) interval.

(** [RateLimiter::check] at the instant [now]. *)
Definition rate_limiter_check (rl : RateLimiter) (now : Z) : bool * RateLimiter :=
  let elapsed := Z.max 0 (now - last_command rl) in
  if min_interval rl <=? elapsed then (true, mkRateLimiter now (min_interval rl))
  else (false, rl).

(** The instants at which a sequence of calls is accepted. *)
Fixpoint accepted (rl : RateLimiter) (nows : list Z) : list Z :=
  match nows with
  | [] => []
  | now :: rest =>
    match rate_limiter_check rl now with
    | (true, rl') => now :: accepted rl' rest
    | (false, rl') => accepted rl' rest
    end
  end.

(** ** Lemmas on the rate limiter *)

Definition spaced (m : Z) : list Z -> Prop := StronglySorted (fun a b => a + m <= b).

Lemma check_true rl now rl' :
  0 < min_interval rl -> rate_limiter_check rl now = (true, rl') ->
  last_command rl + min_interval rl <= now /\ rl' = mkRateLimiter now (min_interval rl).
Proof.
  intros Hm. unfold rate_limiter_check.
  destruct (Z.leb_spec (min_interval rl) (Z.max 0 (now - last_command rl))); intros E; simplify_eq.
  split; [lia | done].
Qed.

Lemma check_false rl now rl' :
  rate_limiter_check rl now = (false, rl') -> now < last_command rl + min_interval rl /\ rl' = rl.
Proof.
  unfold rate_limiter_check.
  destruct (Z.leb_spec (min_interval rl) (Z.max 0 (now - last_command rl))); intros E; simplify_eq.
  split; [lia | done].
Qed.

Lemma check_spaced rl now :
  0 <= min_interval rl -> last_command rl + min_interval rl <= now ->
  rate_limiter_check rl now = (true, mkRateLimiter now (min_interval rl)).
Proof.
  intros Hm Hn. unfold rate_limiter_check.
  by destruct (Z.leb_spec (min_interval rl) (Z.max 0 (now - last_command rl))); [|lia].
Qed.

Lemma accepted_spaced rl nows :
  0 < min_interval rl ->
  spaced (min_interval rl) (accepted rl nows) /\
  Forall (fun t => last_command rl + min_interval rl <= t) (accepted rl nows).
Proof.
  revert rl; induction nows as [|now nows IH]; intros rl Hm; [by repeat constructor|]. simpl.
  destruct (rate_limiter_check rl now) as [[] rl'] eqn:E.
  - apply check_true in E as [Hle ->]; [|done].
    destruct (IH (mkRateLimiter now (min_interval rl)) Hm) as [Hs Hf]. cbn [last_command min_interval] in *.
    split; constructor; try done.
    eapply Forall_impl; [exact Hf|]. simpl. intros. lia.
  - apply check_false in E as [_ ->]. by apply IH.
Qed.

Lemma spaced_window m l s e :
  0 < m -> spaced m l -> Forall (fun t => s <= t < e) l -> s <= e ->
  zlen l * m < e - s + m.
Proof.
  intros Hm Hs. revert s; induction Hs as [|a l Hs IH Ha]; intros s Hf He; [unfold zlen; simpl; lia|].
  inversion Hf as [|? ? Hsa Hl]; subst. rewrite zlen_cons.
  destruct (decide (a + m <= e)) as [Hae|Hae].
  - assert (zlen l * m < e - (a + m) + m); [|lia]. apply IH; [|lia].
    rewrite Forall_forall in *. intros x Hx. specialize (Ha x Hx). specialize (Hl x Hx). lia.
  - destruct l as [|b l]; [unfold zlen; simpl; lia|].
    inversion Ha; subst. inversion Hl; subst. lia.
Qed.

Lemma spaced_filter m P `{!forall x, Decision (P x)} l : spaced m l -> spaced m (filter P l).
Proof.
  induction 1 as [|a l Hs IH Ha]; [constructor|]. rewrite filter_cons. case_decide; [|done].
  constructor; [done|]. rewrite Forall_forall in *. intros x Hx.
  apply list_elem_of_filter in Hx as [_ Hx]. by apply Ha.
Qed.

(** ** Properties *)

(** C27. Flood protection: whatever the instants at which commands arrive, in any
    window of [T] nanoseconds the limiter accepts at most [T / interval + 1]
    of them. *)
Theorem rate_limit_window (rl : RateLimiter) (nows : list Z) (s T : Z) :
  0 < min_interval rl -> 0 <= T ->
  zlen (filter (fun t => s <= t < s + T) (accepted rl nows)) <= T / min_interval rl + 1.
Proof.
  intros Hm HT. destruct (accepted_spaced rl nows Hm) as [Hs _].
  apply (spaced_filter _ (fun t => s <= t < s + T)) in Hs.
  assert (H : zlen (filter (fun t => s <= t < s + T) (accepted rl nows)) * min_interval rl < T + min_interval rl).
  { enough (Hw : zlen (filter (fun t => s <= t < s + T) (accepted rl nows)) * min_interval rl
      < s + T - s + min_interval rl) by lia.
    apply spaced_window; [done | done | | lia].
    apply Forall_forall. intros x Hx. by apply list_elem_of_filter in Hx as [? _]. }
  set (n := zlen _) in *. enough (n - 1 <= T / min_interval rl) by lia.
  apply Z.div_le_lower_bound; lia.
Qed.

Lemma rate_limit_window_witness :
  let rl := rate_limiter_new 0 (from_secs 10) (from_secs 10) COMMAND_RATE_LIMIT_INTERVAL in
  let nows := map (fun i => from_secs 10 + from_millis (7 * Z.of_nat i)) (seq 0 40) in
  zlen (filter (fun t => from_secs 10 <= t < from_secs 10 + from_millis 120) (accepted rl nows)) <= 3.
Proof.
  apply (rate_limit_window (rate_limiter_new 0 (from_secs 10) (from_secs 10) COMMAND_RATE_LIMIT_INTERVAL)
    (map (fun i => from_secs 10 + from_millis (7 * Z.of_nat i)) (seq 0 40)) (from_secs 10) (from_millis 120)).
  - reflexivity.
  - by vm_compute.
Defined.

(** No command is refused without reason: commands that are at least the
    interval apart from each other and from the last accepted one are all
    accepted. *)
Theorem rate_limit_admits_spaced (rl : RateLimiter) (nows : list Z) :
  0 <= min_interval rl -> spaced (min_interval rl) (last_command rl :: nows) -> accepted rl nows = nows.
Proof.
  intros Hm. revert rl Hm; induction nows as [|now nows IH]; intros rl Hm Hs; [done|].
  inversion Hs as [|? ? Hs' Hall]; subst. inversion Hall; subst. simpl.
  rewrite check_spaced by done. by rewrite (IH (mkRateLimiter now (min_interval rl))).
Qed.

Lemma rate_limit_admits_spaced_witness :
  accepted (mkRateLimiter 0 (from_millis 50)) [from_millis 50; from_millis 130; from_millis 180]
    = [from_millis 50; from_millis 130; from_millis 180].
Proof.
  apply (rate_limit_admits_spaced (mkRateLimiter 0 (from_millis 50)) [from_millis 50; from_millis 130; from_millis 180]).
  - by vm_compute.
  - repeat constructor; by vm_compute.
Defined.

(** The first command on a new connection: accepted at once when the clock
    can go back by the interval, and otherwise (a machine that has just
    started, on a platform whose instants begin at boot) refused until the
    interval has elapsed since the connection. *)
Theorem rate_limiter_first_command (epoch now0 now1 interval now : Z) :
  0 < interval -> now0 <= now1 <= now ->
  fst (rate_limiter_check (rate_limiter_new epoch now0 now1 interval) now) =
    ((epoch <=? now0 - interval) || (now1 + interval <=? now)).
Proof.
  intros Hi Hn. unfold rate_limiter_new, checked_sub, rate_limiter_check. cbn [min_interval last_command].
  destruct (Z.ltb_spec (now0 - interval) epoch), (Z.leb_spec epoch (now0 - interval)); try lia; cbn [orb].
  - destruct (Z.leb_spec interval (Z.max 0 (now - now1))), (Z.leb_spec (now1 + interval) now); done || lia.
  - destruct (Z.leb_spec interval (Z.max 0 (now - (now0 - interval)))); done || lia.
Qed.

Lemma rate_limiter_first_command_witness :
  fst (rate_limiter_check (rate_limiter_new 0 (from_millis 20) (from_millis 21) (from_millis 50)) (from_millis 30)) = false.
Proof.
  apply (rate_limiter_first_command 0 (from_millis 20) (from_millis 21) (from_millis 50) (from_millis 30)).
  - by vm_compute.
  - split; by vm_compute.
Defined.

Section whitelist_property.
Context `{IpNetLib}.

(** The whitelist decision for a connected peer: the address the server
    prints and checks passes exactly when the whitelist is empty or one of its
    entries parses and contains the peer's canonical address (an IPv4-mapped
    IPv6 peer counts as its IPv4 address), and is refused with a network error
    otherwise. *)
Theorem check_whitelist_decides (peer : IpAddr) (whitelist : list string) :
  ip_ok peer ->
  let allowed := whitelist = [] \/ exists cidr net, cidr ∈ whitelist /\
    parse_ipnet cidr = Some net /\ ipnet_contains net (to_canonical peer) = true in
  let r := check_whitelist (ip_to_string (to_canonical peer)) whitelist in
  (r = Ok tt <-> allowed) /\ (r <> Ok tt -> r = Err (Network "connection rejected: IP not in whitelist")).
Proof.
  intros Hok allowed r. unfold r, allowed, check_whitelist, is_ip_in_whitelist.
  rewrite parse_ip_to_string, to_canonical_idem by done.
  case_bool_decide as He; [split; [|done]; split; auto|].
  pose proof (any_entry_contains_spec whitelist (to_canonical peer)) as Hspec.
  destruct (any_entry_contains whitelist (to_canonical peer)).
  - split; [|done]. split; [|done]. intros _. right. by apply Hspec.
  - split; [|done]. split; [done|]. intros [|Hex]; [done|]. by apply Hspec in Hex.
Qed.

End whitelist_property.

(** A containment library for the witnesses: one network, 10.0.0.0/8. *)
Definition ten_net : IpNetLib :=
  {| IpNet := Z;
     parse_ipnet s := if bool_decide (s = "10.0.0.0/8") then Some 10 else None;
     ipnet_contains n ip := match ip with V4 a _ _ _ => a =? n | V6 _ => false end |}.

Lemma check_whitelist_decides_witness :
  let peer := V6 [0; 0; 0; 0; 0; 65535; 2564; 2631] in
  let whitelist := ["not-a-network"; "10.0.0.0/8"] in
  let allowed := whitelist = [] \/ exists cidr net, cidr ∈ whitelist /\
    @parse_ipnet ten_net cidr = Some net /\ @ipnet_contains ten_net net (to_canonical peer) = true in
  let r := @check_whitelist ten_net (ip_to_string (to_canonical peer)) whitelist in
  (r = Ok tt <-> allowed) /\ (r <> Ok tt -> r = Err (Network "connection rejected: IP not in whitelist")).
Proof.
  apply (@check_whitelist_decides ten_net (V6 [0; 0; 0; 0; 0; 65535; 2564; 2631])).
  split; [reflexivity|]. repeat constructor; by vm_compute.
Defined.
