(* ===== verification/Encryption.v ===== *)
(** * Stream encryption and the nonce exchange

    Models [src/encryption.rs].  The crate [chacha20] is the class
    [StreamCipherLib]: a keystream of bytes determined by key, nonce and
    position, and the position past which [apply_keystream] panics.  The random
    nonce is an argument of the exchanges. *)

From S2P Require Import Prelude Bytes Io Net.

Class StreamCipherLib : Type := {
  keystream : list Z -> list Z -> Z -> Z;
  keystream_end : Z;
  keystream_byte : forall key nonce p, is_byte (keystream key nonce p)
}.

Section encryption.
Context `{StreamCipherLib}.

(** ** The cipher *)

Record ChaCha20 : Type := mkCipher { ckey : list Z; cnonce : list Z; cpos : Z }.

Definition chacha20_new (key nonce : list Z) : ChaCha20 := mkCipher key nonce 0.

Fixpoint xor_from (key nonce : list Z) (p : Z) (buf : list Z) : list Z :=
  match buf with
  | [] => []
  | b :: rest => Z.lxor b (keystream key nonce p) :: xor_from key nonce (p + 1) rest
  end.

(** [apply_keystream]: [None] is the panic at the end of the keystream. *)
Definition apply_keystream (c : ChaCha20) (buf : list Z) : option (list Z * ChaCha20) :=
  if keystream_end <? cpos c + zlen buf then None
  else Some (xor_from (ckey c) (cnonce c) (cpos c) buf,
             mkCipher (ckey c) (cnonce c) (cpos c + zlen buf)).

(** ** [EncryptedWriter] *)

Record EncryptedWriter (W : Type) : Type := mkEW { ew_inner : W; ew_cipher : ChaCha20 }.
Arguments mkEW {W}.
Arguments ew_inner {W}.
Arguments ew_cipher {W}.

Definition encrypted_writer_new {W} (w : W) (key nonce : list Z) : EncryptedWriter W :=
  mkEW w (chacha20_new key nonce).

Definition encrypted_write {W} `{Write W} (w : EncryptedWriter W) (buf : list Z) : io nat * EncryptedWriter W :=
  match apply_keystream (ew_cipher w) buf with
  | Some (encrypted, cipher) =>
    match write (ew_inner w) encrypted with
    | (r, inner) => (r, mkEW inner cipher)
    end
  | None => (Panic, w)
  end.

Definition encrypted_flush {W} `{Write W} (w : EncryptedWriter W) : io unit * EncryptedWriter W :=
  match flush (ew_inner w) with
  | (r, inner) => (r, mkEW inner (ew_cipher w))
  end.

#[export] Instance EncryptedWriter_Write {W} `{Write W} : Write (EncryptedWriter W) :=
  {| write := encrypted_write; flush := encrypted_flush; write_budget w := write_budget (ew_inner w) |}.

(** ** [EncryptedReader] *)

Record EncryptedReader (R : Type) : Type := mkER { er_inner : R; er_cipher : ChaCha20 }.
Arguments mkER {R}.
Arguments er_inner {R}.
Arguments er_cipher {R}.

Definition encrypted_reader_new {R} (r : R) (key nonce : list Z) : EncryptedReader R :=
  mkER r (chacha20_new key nonce).

Definition encrypted_read {R} `{Read R} (r : EncryptedReader R) (n : nat) : io (list Z) * EncryptedReader R :=
  match read (er_inner r) n with
  | (Ok buf, inner) =>
    match apply_keystream (er_cipher r) buf with
    | Some (decrypted, cipher) => (Ok decrypted, mkER inner cipher)
    | None => (Panic, mkER inner (er_cipher r))
    end
  | (e, inner) => (e, mkER inner (er_cipher r))
  end.

#[export] Instance EncryptedReader_Read {R} `{Read R} : Read (EncryptedReader R) :=
  {| read := encrypted_read; read_budget r := read_budget (er_inner r) |}.

(** ** The exchanges *)

Definition NONCE_SIZE : nat := 12.

Definition nonce_exchange {S} `{Read S} `{Write S} (stream : S) (_key : list Z) (generate_nonce : list Z)
    : io (list Z * list Z) * S :=
  let my_nonce := generate_nonce in
  let? _ @ stream := write_all stream my_nonce in
  let? peer_nonce @ stream := read_exact stream NONCE_SIZE in
  (Ok (my_nonce, peer_nonce), stream).

Definition server_nonce_exchange {S} `{Read S} `{Write S} (stream : S) (_key : list Z) (generate_nonce : list Z)
    : io (list Z * list Z) * S :=
  let? peer_nonce @ stream := read_exact stream NONCE_SIZE in
  let my_nonce := generate_nonce in
  let? _ @ stream := write_all stream my_nonce in
  (Ok (my_nonce, peer_nonce), stream).

(** ** Lemmas: the keystream *)

Lemma xor_from_app key nonce p bs cs :
  xor_from key nonce p (bs ++ cs) = xor_from key nonce p bs ++ xor_from key nonce (p + zlen bs) cs.
Proof.
  revert p; induction bs as [|b bs IH]; intros p; simpl.
  - unfold zlen. by rewrite Z.add_0_r.
  - rewrite IH, zlen_cons. do 3 f_equal. lia.
Qed.

Lemma length_xor_from key nonce p bs : length (xor_from key nonce p bs) = length bs.
Proof. revert p; induction bs as [|b bs IH]; intros p; simpl; auto. Qed.

Lemma zlen_xor_from key nonce p bs : zlen (xor_from key nonce p bs) = zlen bs.
Proof. unfold zlen. by rewrite length_xor_from. Qed.

(** Encryption and decryption are the same operation. *)
Lemma xor_from_involutive key nonce p bs : xor_from key nonce p (xor_from key nonce p bs) = bs.
Proof.
  revert p; induction bs as [|b bs IH]; intros p; simpl; [done|].
  by rewrite Z.lxor_assoc, Z.lxor_nilpotent, Z.lxor_0_r, IH.
Qed.

Lemma take_xor_from key nonce p n bs : take n (xor_from key nonce p bs) = xor_from key nonce p (take n bs).
Proof.
  revert p n; induction bs as [|b bs IH]; intros p [|n]; simpl; try done. by rewrite IH.
Qed.

Lemma drop_xor_from key nonce p n bs :
  drop n (xor_from key nonce p bs) = xor_from key nonce (p + zlen (take n bs)) (drop n bs).
Proof.
  rewrite <- (take_drop n bs) at 1. rewrite xor_from_app.
  destruct (Nat.le_gt_cases n (length bs)).
  - rewrite drop_app_ge by (rewrite length_xor_from, length_take; lia).
    rewrite length_xor_from, length_take. by replace (n - n `min` length bs)%nat with O by lia.
  - rewrite (drop_ge bs) by lia. simpl. rewrite app_nil_r. apply drop_ge.
    rewrite length_xor_from, length_take. lia.
Qed.

Lemma apply_keystream_some c buf out c' :
  apply_keystream c buf = Some (out, c') ->
  out = xor_from (ckey c) (cnonce c) (cpos c) buf /\
  c' = mkCipher (ckey c) (cnonce c) (cpos c + zlen buf) /\ cpos c + zlen buf <= keystream_end.
Proof.
  unfold apply_keystream. destruct (Z.ltb_spec keystream_end (cpos c + zlen buf)); [done|].
  intros E; simplify_eq. done.
Qed.

Lemma apply_keystream_ok c buf :
  cpos c + zlen buf <= keystream_end ->
  apply_keystream c buf = Some (xor_from (ckey c) (cnonce c) (cpos c) buf,
                                mkCipher (ckey c) (cnonce c) (cpos c + zlen buf)).
Proof. intros Hle. unfold apply_keystream. by destruct (Z.ltb_spec keystream_end (cpos c + zlen buf)); [lia|]. Qed.

(** ** The wrappers are lawful readers and writers *)

#[export] Instance EncryptedWriter_WriteLaws {W} `{Write W} `{!WriteLaws W} : WriteLaws (EncryptedWriter W).
Proof.
  constructor; intros [w c] buf; cbn [write write_budget EncryptedWriter_Write ew_inner];
    unfold encrypted_write; cbn [ew_inner ew_cipher];
    destruct (apply_keystream c buf) as [[enc c']|] eqn:Ec; try done;
    destruct (write w enc) as [r i] eqn:Ew.
  - intros n w' E. simplify_eq/=. apply write_ok_law in Ew as [Hl Hb].
    apply apply_keystream_some in Ec as (-> & _). by rewrite length_xor_from in Hl.
  - intros w' E. simplify_eq/=. by apply write_interrupted_law in Ew.
  - pose proof (write_returns_law w enc) as Hr. rewrite Ew in Hr. done.
Qed.

#[export] Instance EncryptedReader_ReadLaws {R} `{Read R} `{!ReadLaws R} : ReadLaws (EncryptedReader R).
Proof.
  constructor; intros [r c] n; cbn [read read_budget EncryptedReader_Read er_inner];
    unfold encrypted_read; cbn [er_inner er_cipher];
    pose proof (read_returns_law r n) as Hret;
    destruct (read r n) as [[buf|e| |] r1] eqn:Er; try done.
  - intros bs r'. apply read_ok_law in Er as [Hl Hb].
    destruct (apply_keystream c buf) as [[dec c']|] eqn:Ec; intros E; simplify_eq/=.
    apply apply_keystream_some in Ec as (-> & _). by rewrite length_xor_from.
  - intros r'. by destruct (apply_keystream c buf) as [[dec c']|].
  - intros r' E. simplify_eq/=. by apply read_interrupted_law in Er.
  - by destruct (apply_keystream c buf) as [[dec c']|].
Qed.

(** The plaintext an encrypted reader is going to deliver is the decryption of
    what its source delivers, when the keystream is long enough. *)
#[export] Program Instance EncryptedReader_ReadStream {R} `{Read R} `{!ReadStream R} : ReadStream (EncryptedReader R) :=
  {| yields r bs := exists enc, yields (er_inner r) enc /\
       bs = xor_from (ckey (er_cipher r)) (cnonce (er_cipher r)) (cpos (er_cipher r)) enc /\
       cpos (er_cipher r) + zlen enc <= keystream_end |}.
Next Obligation.
  intros R HR HS [r c] bs n (enc & Hy & Hbs & Hend) Hn. cbn [er_inner er_cipher] in *.
  cbn [read EncryptedReader_Read]. unfold encrypted_read. cbn [er_inner er_cipher].
  destruct (read_yields r enc n Hy Hn) as [(k & r1 & Hr & Hy1 & Hkn & Hkl & Hpos)|(r1 & Hr & Hy1)]; rewrite Hr.
  - left. assert (Hlen : zlen enc = zlen (take k enc) + zlen (drop k enc)).
    { by rewrite <- zlen_app, take_drop. }
    rewrite apply_keystream_ok by (pose proof (zlen_nonneg (drop k enc)); lia).
    exists k. eexists. subst bs. rewrite take_xor_from, length_xor_from.
    split_and!; [done | | done | done |].
    + exists (drop k enc). cbn [er_inner er_cipher ckey cnonce cpos]. rewrite drop_xor_from.
      split_and!; [done | done | lia].
    + intros Hne. apply Hpos. intros ->. by apply Hne.
  - right. eexists. split; [done|]. exists enc. by cbn [er_inner er_cipher].
Qed.

(** ** Writing encrypted data *)

Section encrypted_write_all.
Context {W : Type} `{WriteSink W} `{!WriteLaws W}.

(** On a sink that takes every buffer whole, [write_all] puts the encryption of
    its buffer on the wire and advances the keystream by its length. *)
Variable whole : W -> Prop.
Hypothesis whole_write : forall w buf, whole w -> buf <> [] ->
  exists w', write w buf = (Ok (length buf), w') /\ whole w'.

Lemma encrypted_write_all_whole w c buf :
  whole w -> cpos c + zlen buf <= keystream_end ->
  exists w', write_all (mkEW w c) buf =
      (Ok tt, mkEW w' (mkCipher (ckey c) (cnonce c) (cpos c + zlen buf))) /\
    wrote w (xor_from (ckey c) (cnonce c) (cpos c) buf) w' /\ whole w'.
Proof.
  intros Hw Hend. destruct buf as [|b bs].
  - exists w. rewrite write_all_nil. unfold zlen. simpl. rewrite Z.add_0_r.
    split_and!; [by destruct c | apply wrote_nil | done].
  - unfold write_all. set (buf := b :: bs) in *.
    assert (Hfuel : exists f, (length buf + write_budget (mkEW w c) = S f)%nat) by (by eexists).
    destruct Hfuel as [f ->]. cbn [write_loop]. unfold buf at 1.
    cbn [write EncryptedWriter_Write]. unfold encrypted_write. cbn [ew_inner ew_cipher].
    rewrite apply_keystream_ok by done.
    assert (Hne : xor_from (ckey c) (cnonce c) (cpos c) buf <> []) by done.
    destruct (whole_write w _ Hw Hne) as (w' & Ew & Hw'). rewrite Ew, length_xor_from.
    change (length buf) with (S (length bs)). rewrite drop_ge by (simpl; lia).
    exists w'. rewrite write_loop_nil. split_and!; [done | | done].
    apply write_wrote in Ew. by rewrite firstn_all in Ew.
Qed.

(** Several buffers one after the other are encrypted as their concatenation. *)
Fixpoint write_all_list {X} `{Write X} (w : X) (bufs : list (list Z)) : io unit * X :=
  match bufs with
  | [] => (Ok tt, w)
  | buf :: rest => let? _ @ w := write_all w buf in write_all_list w rest
  end.

Lemma encrypted_write_list_whole w c bufs :
  whole w -> cpos c + zlen (concat bufs) <= keystream_end ->
  exists w', write_all_list (mkEW w c) bufs =
      (Ok tt, mkEW w' (mkCipher (ckey c) (cnonce c) (cpos c + zlen (concat bufs)))) /\
    wrote w (xor_from (ckey c) (cnonce c) (cpos c) (concat bufs)) w' /\ whole w'.
Proof.
  revert w c; induction bufs as [|buf bufs IH]; intros w c Hw Hend; cbn [write_all_list concat] in *.
  - exists w. unfold zlen. simpl. rewrite Z.add_0_r.
    split_and!; [by destruct c | apply wrote_nil | done].
  - rewrite zlen_app in *. pose proof (zlen_nonneg (concat bufs)).
    destruct (encrypted_write_all_whole w c buf Hw) as (w1 & -> & Hw1 & Hwh1); [lia|]. cbn [bind_st].
    destruct (IH w1 (mkCipher (ckey c) (cnonce c) (cpos c + zlen buf)) Hwh1) as (w2 & -> & Hw2 & Hwh2);
      [cbn [cpos]; lia|].
    cbn [ckey cnonce cpos] in *. exists w2. rewrite xor_from_app, Z.add_assoc.
    split_and!; [done | by eapply wrote_app | done].
Qed.

End encrypted_write_all.

End encryption.

#[export] Hint Rewrite @length_xor_from @zlen_xor_from : rtl_len.
Arguments mkEW {W}.
Arguments ew_inner {W}.
Arguments ew_cipher {W}.
Arguments mkER {R}.
Arguments er_inner {R}.
Arguments er_cipher {R}.

(** ** Properties *)

Section encryption_properties.
Context `{StreamCipherLib}.

Lemma tcp_whole (w : TcpStream) buf :
  tx w = [] -> buf <> [] -> exists w', write w buf = (Ok (length buf), w') /\ tx w' = [].
Proof. intros Hw _. eexists. cbn. unfold tcp_write. by rewrite Hw. Qed.

Lemma xor_xor_id key nonce p q bs :
  xor_from key nonce p (xor_from key nonce q bs) = bs <->
  forall j, 0 <= j < zlen bs -> keystream key nonce (q + j) = keystream key nonce (p + j).
Proof.
  revert p q; induction bs as [|b bs IH]; intros p q.
  - simpl. split; [|done]. unfold zlen. simpl. lia.
  - simpl. rewrite zlen_cons. pose proof (zlen_nonneg bs). split.
    + intros E. injection E as Eb Ebs. pose proof (proj1 (IH _ _) Ebs) as Hj. intros j Hlt.
      destruct (decide (j = 0)) as [->|Hne].
      * rewrite !Z.add_0_r. rewrite Z.lxor_assoc in Eb. apply Z.lxor_eq.
        apply (f_equal (Z.lxor b)) in Eb. by rewrite <- Z.lxor_assoc, Z.lxor_nilpotent, Z.lxor_0_l in Eb.
      * specialize (Hj (j - 1)). replace (q + j) with (q + 1 + (j - 1)) by lia.
        replace (p + j) with (p + 1 + (j - 1)) by lia. apply Hj. lia.
    + intros Hj. f_equal.
      * specialize (Hj 0). rewrite !Z.add_0_r in Hj. rewrite Hj by lia.
        by rewrite Z.lxor_assoc, Z.lxor_nilpotent, Z.lxor_0_r.
      * apply IH. intros j Hlt. specialize (Hj (j + 1)).
        replace (q + 1 + j) with (q + (j + 1)) by lia. replace (p + 1 + j) with (p + (j + 1)) by lia.
        apply Hj. lia.
Qed.

(** C26. Round trip of an encrypted link: buffers written through an
    [EncryptedWriter] whose socket takes every write whole are read back,
    concatenated, by an [EncryptedReader] with the same key and nonce, however
    the wire is segmented. *)
Theorem encrypted_link_roundtrip (key nonce : list Z) (w : TcpStream) (bufs : list (list Z)) :
  tx w = [] -> zlen (concat bufs) <= keystream_end ->
  exists w' wire, write_all_list (encrypted_writer_new w key nonce) bufs = (Ok tt, w') /\
    sent (ew_inner w') = sent w ++ wire /\
    forall r : TcpStream, yields r wire ->
      exists r', read_exact (encrypted_reader_new r key nonce) (length (concat bufs)) = (Ok (concat bufs), r').
Proof.
  intros Hw Hend.
  destruct (encrypted_write_list_whole (fun w => tx w = []) tcp_whole w (chacha20_new key nonce) bufs Hw)
    as (w' & E & (Hsent & _) & _); [done|].
  eexists _, _. split; [exact E|]. split; [exact Hsent|]. intros r Hy.
  destruct (read_exact_yields (encrypted_reader_new r key nonce) (concat bufs) [] (length (concat bufs)))
    as (r' & Hr & _); [|done | by exists r'].
  rewrite app_nil_r. eexists. split; [exact Hy|]. cbn [er_cipher encrypted_reader_new chacha20_new ckey cnonce cpos].
  rewrite xor_from_involutive, zlen_xor_from. done.
Qed.

(** C33. A socket that takes only the first [k] bytes of an encrypted write
    breaks the link: [write_all] encrypts the rest again with the keystream
    already advanced past the whole buffer, so the receiver gets the buffer
    back if and only if the keystream happens to repeat. *)
Theorem encrypted_short_write (key nonce : list Z) (w : TcpStream) (buf : list Z) (k : nat) :
  tx w = [Accept k] -> (0 < k < length buf)%nat -> 2 * zlen buf <= keystream_end ->
  exists w' wire, write_all (encrypted_writer_new w key nonce) buf = (Ok tt, w') /\
    sent (ew_inner w') = sent w ++ wire /\
    (xor_from key nonce 0 wire = buf <->
     forall j, 0 <= j < zlen buf - Z.of_nat k ->
       keystream key nonce (zlen buf + j) = keystream key nonce (Z.of_nat k + j)).
Proof.
  intros Hw Hk Hend. pose proof (zlen_nonneg buf) as Hpos.
  assert (Hd : zlen (drop k buf) = zlen buf - Z.of_nat k) by (unfold zlen; rewrite length_drop; lia).
  assert (Ht : zlen (take k buf) = Z.of_nat k) by (unfold zlen; rewrite length_take; lia).
  unfold write_all. destruct buf as [|b bs]; [simpl in Hk; lia|]. set (buf := b :: bs) in *.
  assert (Hfuel : (length buf + write_budget (encrypted_writer_new w key nonce) = S (S (length bs - 1)))%nat).
  { cbn. rewrite Hw. cbn. simpl in Hk. lia. }
  rewrite Hfuel. cbn [write_loop]. unfold buf at 1. cbn [write EncryptedWriter_Write].
  unfold encrypted_write at 1, encrypted_writer_new. cbn [ew_inner ew_cipher].
  rewrite apply_keystream_ok by (cbn [chacha20_new cpos]; lia).
  cbn [write TcpStream_Write]. unfold tcp_write at 1. rewrite Hw, length_xor_from, Nat.min_l by lia.
  destruct k as [|k]; [lia|].
  assert (Hne : drop (S k) buf <> []) by (intros E; apply (f_equal length) in E; rewrite length_drop in E; simpl in E, Hk; lia).
  destruct (drop (S k) buf) as [|d ds] eqn:Edrop; [done|]. rewrite <- Edrop.
  unfold encrypted_write. cbn [ew_inner ew_cipher with_tx].
  rewrite apply_keystream_ok by (cbn [chacha20_new cpos]; rewrite Edrop; lia).
  cbn [write TcpStream_Write]. unfold tcp_write. cbn [tx with_tx chacha20_new cpos ckey cnonce].
  rewrite length_xor_from, Edrop. cbn [length]. rewrite drop_ge by (simpl; lia). rewrite write_loop_nil.
  eexists _, (take (S k) (xor_from key nonce 0 buf) ++ xor_from key nonce (0 + zlen buf) (drop (S k) buf)).
  split; [done|]. cbn [ew_inner]. rewrite Edrop. split; [simpl sent; by rewrite <- app_assoc|].
  rewrite take_xor_from, xor_from_app, xor_from_involutive, zlen_xor_from, Ht, !Z.add_0_l, <- Edrop.
  by rewrite <- Hd, <- xor_xor_id, <- Edrop, take_app_iff.
Qed.

Lemma encrypted_write_loop_bound {W} `{Write W} `{!WriteLaws W} fuel (ew ew' : EncryptedWriter W) buf rest :
  write_loop fuel ew buf = (Ok tt, rest, ew') -> cpos (ew_cipher ew) <= keystream_end ->
  cpos (ew_cipher ew) + zlen buf <= cpos (ew_cipher ew') <= keystream_end.
Proof.
  revert ew buf; induction fuel as [|fuel IH]; intros ew buf Hl Hpos;
    (destruct buf as [|b bs]; [simpl in Hl; simplify_eq; unfold zlen; simpl; lia|]); [done|].
  revert Hl. set (buf := b :: bs) in *. cbn [write_loop]. unfold buf at 1.
  destruct (write ew buf) as [r ew1] eqn:Ew. pose proof Ew as Ew0. revert Ew.
  cbn [write EncryptedWriter_Write]. unfold encrypted_write.
  destruct (apply_keystream (ew_cipher ew) buf) as [[enc c1]|] eqn:Ec; [|intros E; by simplify_eq].
  apply apply_keystream_some in Ec as (_ & -> & Hend).
  destruct (write (ew_inner ew) enc) as [r2 i2]. intros E; simplify_eq.
  pose proof (zlen_nonneg buf).
  destruct r as [[|n]|e| |]; try done.
  - intros Hl. apply IH in Hl; cbn [ew_cipher cpos] in *; [|lia].
    apply write_ok_law in Ew0 as [Hn _].
    pose proof (zlen_nonneg (drop (S n) buf)). lia.
  - destruct e; try done. intros Hl. apply IH in Hl; cbn [ew_cipher cpos] in *; lia.
Qed.

(** An encrypted connection carries a bounded amount of data: whatever the
    sink does, a sequence of writes that all succeed has used at least as much
    keystream as it has data, so its total is at most [keystream_end] (past
    it [apply_keystream] panics the writing thread). *)
Theorem encrypted_stream_bound {W} `{Write W} `{!WriteLaws W} (w : W) (key nonce : list Z)
    (bufs : list (list Z)) (w' : EncryptedWriter W) :
  0 <= keystream_end -> write_all_list (encrypted_writer_new w key nonce) bufs = (Ok tt, w') ->
  zlen (concat bufs) <= cpos (ew_cipher w') <= keystream_end.
Proof.
  intros Hend.
  assert (Hgen : forall bufs (ew : EncryptedWriter W), cpos (ew_cipher ew) <= keystream_end ->
    write_all_list ew bufs = (Ok tt, w') ->
    cpos (ew_cipher ew) + zlen (concat bufs) <= cpos (ew_cipher w') <= keystream_end).
  { clear bufs. induction bufs as [|buf bufs IH]; intros ew Hpos; cbn [write_all_list concat].
    - intros E; simplify_eq. unfold zlen. simpl. lia.
    - unfold write_all. destruct (write_loop _ ew buf) as [[r rest] ew1] eqn:El.
      destruct r as [[]|e| |]; try done. cbn [bind_st]. intros Hl.
      apply encrypted_write_loop_bound in El; [|done]. apply IH in Hl; [|lia].
      rewrite zlen_app. lia. }
  intros Hl. apply Hgen in Hl; [done|]. exact Hend.
Qed.

(** The handshake agrees: a proxy running [nonce_exchange] and a server
    running [server_nonce_exchange], each reading what the other sent (cut into
    any segments), both succeed; each side's own nonce is the other's peer
    nonce, exactly the two nonces are consumed, and so the proxy's write cipher
    is the server's read cipher and conversely. *)
Theorem handshake_agreement (key proxy_nonce server_nonce after_p after_s : list Z) (proxy server : TcpStream) :
  length proxy_nonce = NONCE_SIZE -> length server_nonce = NONCE_SIZE ->
  accepts proxy -> accepts server ->
  yields proxy (server_nonce ++ after_s) -> yields server (proxy_nonce ++ after_p) ->
  exists proxy' server',
    nonce_exchange proxy key proxy_nonce = (Ok (proxy_nonce, server_nonce), proxy') /\
    server_nonce_exchange server key server_nonce = (Ok (server_nonce, proxy_nonce), server') /\
    sent proxy' = sent proxy ++ proxy_nonce /\ sent server' = sent server ++ server_nonce /\
    yields proxy' after_s /\ yields server' after_p.
Proof.
  intros Hlp Hls Hap Has Hyp Hys. unfold nonce_exchange, server_nonce_exchange.
  destruct (write_all_accepts proxy proxy_nonce Hap) as (p1 & -> & (Hsp & Hrx & _ & _) & _). cbn [bind_st].
  assert (Hyp1 : yields p1 (server_nonce ++ after_s)) by (simpl in *; by rewrite Hrx).
  destruct (read_exact_yields p1 server_nonce after_s NONCE_SIZE Hyp1 Hls) as (p2 & Ep & Hyp2).
  rewrite Ep. cbn [bind_st]. destruct (read_exact_sent _ _ _ _ Ep) as [Hsp2 _].
  destruct (read_exact_yields server proxy_nonce after_p NONCE_SIZE Hys Hlp) as (s1 & Es & Hys1).
  rewrite Es. cbn [bind_st]. destruct (read_exact_sent _ _ _ _ Es) as [Hss1 Htx1].
  assert (Has1 : accepts s1) by (simpl in *; by rewrite Htx1).
  destruct (write_all_accepts s1 server_nonce Has1) as (s2 & -> & (Hss & Hrxs & _ & _) & _). cbn [bind_st].
  exists p2, s2. split_and!; [done | done | congruence | congruence | done |].
  simpl in *. by rewrite Hrxs.
Qed.

End encryption_properties.

(** A keystream for the witnesses: byte [7 * p mod 256] at position [p]. *)
Definition toy_cipher : StreamCipherLib.
Proof.
  refine {| keystream _ _ p := (7 * p) mod 256; keystream_end := 2 ^ 38 |}.
  intros _ _ p. by apply Z.mod_pos_bound.
Defined.

Section witnesses.
#[local] Existing Instance toy_cipher.

Lemma encrypted_link_roundtrip_witness :
  let w := mkTcp [] [] [] None None in
  exists w' wire, write_all_list (encrypted_writer_new w [1] [2]) [[10; 20]; [30]] = (Ok tt, w') /\
    sent (ew_inner w') = [] ++ wire /\
    forall r : TcpStream, yields r wire ->
      exists r', read_exact (encrypted_reader_new r [1] [2]) 3 = (Ok [10; 20; 30], r').
Proof.
  apply (encrypted_link_roundtrip [1] [2] (mkTcp [] [] [] None None) [[10; 20]; [30]]).
  - reflexivity.
  - by vm_compute.
Defined.

Lemma encrypted_short_write_witness :
  let w := mkTcp [] [Accept 1] [] None None in
  exists w' wire, write_all (encrypted_writer_new w [1] [2]) [10; 20; 30] = (Ok tt, w') /\
    sent (ew_inner w') = [] ++ wire /\
    (xor_from [1] [2] 0 wire = [10; 20; 30] <->
     forall j, 0 <= j < 2 -> keystream [1] [2] (3 + j) = keystream [1] [2] (1 + j)).
Proof.
  apply (encrypted_short_write [1] [2] (mkTcp [] [Accept 1] [] None None) [10; 20; 30] 1).
  - reflexivity.
  - simpl. lia.
  - by vm_compute.
Defined.

Lemma encrypted_stream_bound_witness :
  let w := mkTcp [] [Accept 1] [] None None in
  let out := write_all_list (encrypted_writer_new w [1] [2]) [[10; 20]; [30]] in
  zlen (concat [[10; 20]; [30]]) <= cpos (ew_cipher (snd out)) <= keystream_end.
Proof.
  intros w out. apply (encrypted_stream_bound w [1] [2] [[10; 20]; [30]] (snd out)).
  - by vm_compute.
  - by vm_compute.
Defined.

End witnesses.

Lemma handshake_agreement_witness :
  let np := replicate 12 5 in let ns := replicate 12 6 in
  let proxy := mkTcp [Data (take 7 ns); RErr Interrupted; Data (drop 7 ns)] [] [] None None in
  let server := mkTcp [Data (np ++ [1; 2])] [] [] None None in
  exists proxy' server',
    nonce_exchange proxy [0] np = (Ok (np, ns), proxy') /\
    server_nonce_exchange server [0] ns = (Ok (ns, np), server') /\
    sent proxy' = [] ++ np /\ sent server' = [] ++ ns /\ yields proxy' [] /\ yields server' [1; 2].
Proof.
  apply (handshake_agreement [0] (replicate 12 5) (replicate 12 6) [1; 2] []
    (mkTcp [Data (take 7 (replicate 12 6)); RErr Interrupted; Data (drop 7 (replicate 12 6))] [] [] None None)
    (mkTcp [Data (replicate 12 5 ++ [1; 2])] [] [] None None)).
  - reflexivity.
  - reflexivity.
  - constructor.
  - constructor.
  - split; [|reflexivity]. by repeat constructor.
  - split; [|reflexivity]. by repeat constructor.
Defined.
