(* ===== verification/Stream.v ===== *)
(** * The broadcast channel and the client writer

    Models [src/stream.rs].  [tokio::sync::broadcast] is the class
    [BroadcastLib]: its operations, and its documented behaviour in terms of
    the values sent so far and the position of a receiver (a receiver sees the
    values sent after it subscribed, in order; one that falls behind by more
    than the capacity is told how many values it missed and goes on with the
    oldest value retained; a channel whose senders are gone is drained and
    then reports that it is closed). *)

From S2P Require Import Prelude Bytes Io Net.
#[local] Open Scope Z_scope.

Inductive TryRecv : Type :=
| RecvOk (buf : list Z)
| Empty
| Closed
| Lagged (n : nat).

Class BroadcastLib : Type := {
  Chan : Type;
  Receiver : Type;
  channel : nat -> Chan * Receiver;
  send : Chan -> list Z -> Chan;
  subscribe : Chan -> Receiver;
  try_recv : Chan -> Receiver -> TryRecv * Receiver;
  (** observations *)
  history : Chan -> list (list Z);
  oldest : Chan -> nat;
  closed : Chan -> bool;
  position : Receiver -> nat;
  (** documented behaviour *)
  channel_law : forall n, let '(ch, rcv) := channel n in
    history ch = [] /\ closed ch = false /\ position rcv = 0%nat;
  send_law : forall ch buf, history (send ch buf) = history ch ++ [buf] /\ closed (send ch buf) = closed ch;
  subscribe_law : forall ch, position (subscribe ch) = length (history ch);
  oldest_law : forall ch, (oldest ch <= length (history ch))%nat;
  try_recv_law : forall ch rcv, (position rcv <= length (history ch))%nat ->
    match try_recv ch rcv with
    | (RecvOk buf, rcv') => (oldest ch <= position rcv)%nat /\
        history ch !! position rcv = Some buf /\ position rcv' = S (position rcv)
    | (Lagged n, rcv') => (position rcv < oldest ch)%nat /\
        n = (oldest ch - position rcv)%nat /\ position rcv' = oldest ch
    | (Empty, rcv') => position rcv = length (history ch) /\ closed ch = false /\ rcv' = rcv
    | (Closed, rcv') => position rcv = length (history ch) /\ closed ch = true /\ rcv' = rcv
    end
}.

Definition DEFAULT_BROADCAST_CAPACITY : nat := 64.

Section stream.
Context `{BroadcastLib}.

Definition new_broadcast (capacity : nat) : Chan * Receiver := channel capacity.

(** Why the writer of a client ended. *)
Inductive WriterStop : Type :=
| ExitFlag
| WriteError (e : ErrorKind)
| ChannelClosed
| WriterPanic
| WriterHung.

Section write_client_loop.
Context {W : Type} `{Write W}.

(** One iteration, with the exit flag it loads and the channel as it is then. *)
Definition client_step (should_exit : bool) (ch : Chan) (stream : W) (rcv : Receiver)
    : option WriterStop * W * Receiver :=
  if should_exit then (Some ExitFlag, stream, rcv)
  else
    match try_recv ch rcv with
    | (RecvOk buf, rcv') =>
      match write_all stream buf with
      | (Ok _, stream') => (None, stream', rcv')
      | (Err e, stream') => (Some (WriteError e), stream', rcv')
      | (Panic, stream') => (Some WriterPanic, stream', rcv')
      | (Diverged, stream') => (Some WriterHung, stream', rcv')
      end
    | (Empty, rcv') => (None, stream, rcv')
    | (Closed, rcv') => (Some ChannelClosed, stream, rcv')
    | (Lagged _, rcv') => (None, stream, rcv')
    end.

(** The loop, over what each iteration meets; [None] is a loop still running at
    the end of the schedule. *)
Fixpoint write_client_loop (schedule : list (bool * Chan)) (stream : W) (rcv : Receiver)
    : option WriterStop * W * Receiver :=
  match schedule with
  | [] => (None, stream, rcv)
  | (should_exit, ch) :: rest =>
    match client_step should_exit ch stream rcv with
    | (None, stream', rcv') => write_client_loop rest stream' rcv'
    | stop => stop
    end
  end.

(** A schedule in which the channel only grows, up to [H]. *)
Definition growing (Hfin : list (list Z)) (schedule : list (bool * Chan)) : Prop :=
  Forall (fun p => history (snd p) `prefix_of` Hfin) schedule.

Fixpoint monotone (n : nat) (schedule : list (bool * Chan)) : Prop :=
  match schedule with
  | [] => True
  | (_, ch) :: rest => (n <= length (history ch))%nat /\ monotone (length (history ch)) rest
  end.

Lemma monotone_weaken n m schedule : (m <= n)%nat -> monotone n schedule -> monotone m schedule.
Proof. destruct schedule as [|[b ch] rest]; simpl; [done|]. intros ? [? ?]. split; [lia | done]. Qed.

Context `{!WriteSink W}.

Definition write_failed (stop : option WriterStop) : Prop :=
  match stop with Some (WriteError _ | WriterPanic | WriterHung) => True | _ => False end.

Lemma client_step_spec b ch stream rcv stop stream' rcv' :
  (position rcv <= length (history ch))%nat ->
  client_step b ch stream rcv = (stop, stream', rcv') ->
  (position rcv' <= length (history ch))%nat /\ (position rcv <= position rcv')%nat /\
  exists ms part, wrote stream (concat ms ++ part) stream' /\
    ms `sublist_of` take (position rcv' - position rcv) (drop (position rcv) (history ch)) /\
    (~ write_failed stop -> part = []) /\
    (exists m, m ∈ [] :: history ch /\ part `prefix_of` m) /\
    ((oldest ch <= position rcv)%nat -> ~ write_failed stop ->
       ms = take (position rcv' - position rcv) (drop (position rcv) (history ch))).
Proof.
  intros Hpos. unfold client_step. destruct b.
  { intros E; simplify_eq. split_and!; [done | done |]. exists [], [].
    rewrite Nat.sub_diag, take_0. split_and!; [apply wrote_nil | done | done | | done].
    exists []. split; [by left | done]. }
  pose proof (try_recv_law ch rcv Hpos) as Hlaw.
  assert (Hnil : exists m, m ∈ [] :: history ch /\ [] `prefix_of` m) by (exists []; split; [by left | done]).
  destruct (try_recv ch rcv) as [[buf| | |n] r1] eqn:Et.
  - destruct Hlaw as (Hold & Hlk & Hp1).
    assert (Hlt : (position rcv < length (history ch))%nat) by (by eapply lookup_lt_Some).
    assert (Htk : take (position r1 - position rcv) (drop (position rcv) (history ch)) = [buf]).
    { rewrite Hp1, (drop_S _ _ _ Hlk). by replace (S (position rcv) - position rcv)%nat with 1%nat by lia. }
    destruct (write_all stream buf) as [q s1] eqn:Ew. apply write_all_wrote in Ew as (bs & Hpre & Hw & Hok).
    assert (Hmem : buf ∈ [] :: history ch) by (right; by eapply list_elem_of_lookup_2).
    destruct q as [[]|e| |]; intros E; simplify_eq; (split; [lia|]; split; [lia|]); rewrite Htk.
    + exists [buf], []. rewrite (Hok eq_refl) in Hw. simpl. rewrite !app_nil_r. by split_and!.
    + exists [], bs. simpl. split_and!; try done; [apply sublist_nil_l | by exists buf].
    + exists [], bs. simpl. split_and!; try done; [apply sublist_nil_l | by exists buf].
    + exists [], bs. simpl. split_and!; try done; [apply sublist_nil_l | by exists buf].
  - destruct Hlaw as (Hend & _ & ->). intros E; simplify_eq. split; [done|]. split; [done|].
    exists [], []. rewrite Nat.sub_diag, take_0. split_and!; [apply wrote_nil | done | done | done | done].
  - destruct Hlaw as (Hend & _ & ->). intros E; simplify_eq. split; [done|]. split; [done|].
    exists [], []. rewrite Nat.sub_diag, take_0. split_and!; [apply wrote_nil | done | done | done | done].
  - destruct Hlaw as (Hlt & _ & Hp). pose proof (oldest_law ch). intros E; simplify_eq.
    split; [lia|]. split; [lia|]. exists [], [].
    split_and!; [apply wrote_nil | apply sublist_nil_l | done | done | lia].
Qed.

Lemma take_drop_split {A} (a b p : nat) (l : list A) :
  take a (drop p l) ++ take b (drop (p + a) l) = take (a + b) (drop p l).
Proof. rewrite <- drop_drop. rewrite <- (take_drop a (take (a + b) (drop p l))).
  rewrite take_take, skipn_firstn_comm. do 2 f_equal; lia. Qed.

Lemma prefix_take_drop {A} (l k : list A) a p :
  l `prefix_of` k -> (p + a <= length l)%nat -> take a (drop p l) = take a (drop p k).
Proof.
  intros [m ->] Hle. rewrite drop_app_le by lia. rewrite take_app_le; [done|]. rewrite length_drop. lia.
Qed.

(** Once the flag is seen the loop has ended. *)
Lemma write_client_loop_exit schedule stream rcv :
  (exists ch, (true, ch) ∈ schedule) -> fst (fst (write_client_loop schedule stream rcv)) <> None.
Proof.
  intros [c Hc]. revert stream rcv. induction schedule as [|[b ch] rest IH]; intros stream rcv; [by apply not_elem_of_nil in Hc|].
  cbn [write_client_loop]. apply elem_of_cons in Hc as [[= <- <-]|Hc]; [done|].
  destruct (client_step b ch stream rcv) as [[[stop|] s1] r1]; [done|]. by apply IH.
Qed.

End write_client_loop.

Section properties.
Context {W : Type} `{WriteSink W} `{!WriteLaws W}.

(** C25. What a client gets: as long as the broadcast channel only grows, the
    bytes put on the client's socket are whole published buffers, in the order
    they were published and none twice (buffers lost to lag are skipped as a
    whole, so the I/Q alignment is kept), followed by a part of one buffer only
    if a write failed; and when the channel has not discarded anything the
    client still had to read, they are exactly the buffers published since. *)
Theorem client_receives_in_order (Hfin : list (list Z)) (schedule : list (bool * Chan))
    (stream stream' : W) (rcv rcv' : Receiver) (stop : option WriterStop) :
  growing Hfin schedule -> monotone (position rcv) schedule ->
  write_client_loop schedule stream rcv = (stop, stream', rcv') ->
  (position rcv <= position rcv')%nat /\
    exists ms part, wrote stream (concat ms ++ part) stream' /\
    ms `sublist_of` take (position rcv' - position rcv) (drop (position rcv) Hfin) /\
    (~ write_failed stop -> part = []) /\
    (exists m, m ∈ [] :: Hfin /\ part `prefix_of` m) /\
    (Forall (fun p => (oldest (snd p) <= position rcv)%nat) schedule -> ~ write_failed stop ->
       ms = take (position rcv' - position rcv) (drop (position rcv) Hfin)).
Proof.
  revert stream rcv. induction schedule as [|[b ch] rest IH]; intros stream rcv Hg Hm E.
  { simpl in E; simplify_eq. split; [done|]. exists [], []. rewrite Nat.sub_diag, take_0.
    split_and!; [apply wrote_nil | done | done | exists []; split; [by left | done] | done]. }
  inversion Hg as [|? ? Hpre Hg']; subst. destruct Hm as [Hle Hm]. cbn [snd] in Hpre.
  cbn [write_client_loop] in E. destruct (client_step b ch stream rcv) as [[st1 s1] r1] eqn:Es.
  destruct (client_step_spec _ _ _ _ _ _ _ Hle Es) as (Hp1 & Hp01 & ms & part & Hw & Hsub & Hnf & (m & Hmem & Hpm) & Hall).
  rewrite (prefix_take_drop _ Hfin) in Hsub, Hall by (done || lia).
  assert (Hmem' : m ∈ [] :: Hfin).
  { apply elem_of_cons in Hmem as [->|Hmem]; [by left|]. right. by eapply elem_of_prefix. }
  destruct st1 as [st1|].
  { simplify_eq. split; [done|]. exists ms, part. split_and!; try done; [by exists m|].
    intros Hf. inversion Hf; subst. by apply Hall. }
  rewrite Hnf, app_nil_r in Hw by (by intros []).
  apply IH in E as (Hp2 & ms2 & part2 & Hw2 & Hsub2 & Hnf2 & Hpart & Hall2);
    [|done|by eapply monotone_weaken].
  split; [lia|]. exists (ms ++ ms2), part2.
  assert (Hsplit : forall l : list (list Z), take (position r1 - position rcv) (drop (position rcv) l) ++
      take (position rcv' - position r1) (drop (position r1) l) = take (position rcv' - position rcv) (drop (position rcv) l)).
  { intros l. pose proof (take_drop_split (position r1 - position rcv) (position rcv' - position r1) (position rcv) l) as Ht.
    replace (position rcv + (position r1 - position rcv))%nat with (position r1) in Ht by lia.
    rewrite Ht. f_equal. lia. }
  split_and!; [| | done | done |].
  - rewrite concat_app, <- app_assoc. by eapply wrote_app.
  - rewrite <- Hsplit. by apply sublist_app.
  - intros Hf Hn. inversion Hf as [|? ? Ho Hf']; subst. rewrite <- Hsplit, Hall, Hall2; [done | | done | done | by intros []].
    eapply Forall_impl; [exact Hf'|]. simpl. lia.
Qed.

(** C38. The writer of a client ends: at the latest in the iteration that sees
    the exit flag, and, when the senders are gone and the socket takes the
    data, after it has delivered every buffer still in the channel. *)
Theorem client_writer_ends (stream : W) (rcv : Receiver) :
  (forall schedule, (exists ch, (true, ch) ∈ schedule) ->
     exists stop, fst (fst (write_client_loop schedule stream rcv)) = Some stop) /\
    (forall ch, closed ch = true -> accepts stream -> (oldest ch <= position rcv <= length (history ch))%nat ->
     exists stream' rcv',
       write_client_loop (replicate (S (length (history ch) - position rcv)) (false, ch)) stream rcv =
         (Some ChannelClosed, stream', rcv') /\
    wrote stream (concat (drop (position rcv) (history ch))) stream').
Proof.
  split.
  { intros schedule Hs. pose proof (write_client_loop_exit schedule stream rcv Hs).
    destruct (fst (fst (write_client_loop schedule stream rcv))) as [st|]; [by exists st | done]. }
  intros ch Hc. remember (length (history ch) - position rcv)%nat as n eqn:En.
  revert stream rcv En. induction n as [|n IH]; intros stream rcv En Ha [Ho Hp];
    cbn [replicate write_client_loop client_step]; pose proof (try_recv_law ch rcv Hp) as Hlaw.
  - destruct (try_recv ch rcv) as [[buf| | |m] r1].
    + destruct Hlaw as (_ & Hl & _). apply lookup_lt_Some in Hl. lia.
    + destruct Hlaw as (_ & ? & _). congruence.
    + eexists _, _. split; [done|]. rewrite drop_ge by lia. apply wrote_nil.
    + lia.
  - destruct (try_recv ch rcv) as [[buf| | |m] r1]; [| lia | lia | lia].
    destruct Hlaw as (_ & Hl & Hr1).
    destruct (write_all_accepts stream buf Ha) as (s1 & Hwa & Hw1 & Ha1). rewrite Hwa.
    destruct (IH s1 r1) as (s2 & r2 & E & Hw2); [lia | done | lia |].
    exists s2, r2. split; [exact E|].
    rewrite (drop_S _ _ _ Hl), concat_cons, <- Hr1. by eapply wrote_app.
Qed.

End properties.
End stream.

(** A channel for the witnesses: the buffers sent, of which the last [cap] are
    retained, and a receiver that is its position. *)
Record ListChan : Type := mkListChan { sent_bufs : list (list Z); cap : nat; senders_gone : bool }.

Definition list_broadcast : BroadcastLib.
Proof.
  refine {| Chan := ListChan; Receiver := nat;
    channel n := (mkListChan [] n false, O);
    send ch buf := mkListChan (sent_bufs ch ++ [buf]) (cap ch) (senders_gone ch);
    subscribe ch := length (sent_bufs ch);
    try_recv ch p :=
      let old := (length (sent_bufs ch) - cap ch)%nat in
      if (p <? old)%nat then (Lagged (old - p), old)
      else match sent_bufs ch !! p with
           | Some buf => (RecvOk buf, S p)
           | None => (if senders_gone ch then Closed else Empty, p)
           end;
    history := sent_bufs; oldest ch := (length (sent_bufs ch) - cap ch)%nat;
    closed := senders_gone; position p := p |}; try done.
  - intros ch. lia.
  - intros [bufs c g] p Hp; simpl in *. destruct (Nat.ltb_spec p (length bufs - c)); [done|].
    destruct (bufs !! p) as [buf|] eqn:El; [done|]. apply lookup_ge_None in El.
    destruct g; split; done || lia.
Defined.

Section witnesses.
#[local] Existing Instance list_broadcast.

Lemma client_receives_in_order_witness :
  let bufs := [[1; 2]; [3; 4]; [5; 6]; [7; 8]] in
  let ch n := mkListChan (take n bufs) 2 false in
  let schedule := [(false, ch 1%nat); (false, ch 4%nat); (false, ch 4%nat); (true, ch 4%nat)] in
  let out := write_client_loop (W:=list Z) schedule [] O in
  out = (Some ExitFlag, [1; 2; 5; 6], 3%nat) /\
    exists ms part, snd (fst out) = [] ++ concat ms ++ part /\ ms `sublist_of` take 3 bufs.
Proof.
  intros bufs ch schedule out. split; [by vm_compute|].
  destruct (@client_receives_in_order list_broadcast (list Z) _ _ bufs schedule [] (snd (fst out)) O (snd out) (fst (fst out)))
    as (_ & ms & part & Hw & Hs & _).
  - repeat constructor; apply prefix_take.
  - simpl. lia.
  - by vm_compute.
  - exists ms, part. by split.
Defined.

Lemma client_writer_ends_witness :
  let ch := mkListChan [[1; 2]; [3; 4]; [5; 6]] 64 true in
  (exists stop, fst (fst (write_client_loop (W:=list Z) [(false, ch); (true, ch)] [] O)) = Some stop) /\
    exists stream' rcv', write_client_loop (W:=list Z) (replicate 3 (false, ch)) [] 1%nat =
      (Some ChannelClosed, stream', rcv') /\ stream' = [] ++ [3; 4; 5; 6].
Proof.
  intros ch. split.
  - apply (proj1 (@client_writer_ends list_broadcast (list Z) _ _ _ [] O)). exists ch. right. by left.
  - destruct (proj2 (@client_writer_ends list_broadcast (list Z) _ _ _ [] 1%nat) ch) as (s' & r' & E & Hw);
      [done | exact I | simpl; lia |].
    exists s', r'. split; [exact E | exact Hw].
Defined.

End witnesses.
