(* ===== verification/Commands.v ===== *)
(** * The command interpreter

    Models the control threads of [src/main.rs]: the dispatch of a five-byte
    command, and the loop around it as [run_serve_single] runs it and as
    [spawn_master_control_thread] runs it (chain handshake and ciphers
    included).  The tuner is a third-party crate ([rtlsdr_mt]): the class
    [RtlSdrLib].

    A loop runs over a schedule of [Tick]s: what an iteration meets of the
    rest of the process (the exit flag, the clock, a fresh nonce, whether the
    lock of the shared nonces can be taken). *)

From S2P Require Import Prelude Bytes Io Net Error Control Encryption.
#[local] Open Scope Z_scope.

(** ** The tuner *)

Class RtlSdrLib : Type := {
  Controller : Type;
  DeviceError : Type;
  set_center_freq : Controller -> Z -> res unit DeviceError * Controller;
  set_sample_rate : Controller -> Z -> res unit DeviceError * Controller;
  set_tuner_gain : Controller -> Z -> res unit DeviceError * Controller;
  set_ppm : Controller -> Z -> res unit DeviceError * Controller;
  enable_agc : Controller -> res unit DeviceError * Controller;
  disable_agc : Controller -> res unit DeviceError * Controller;
  cancel_async_read : Controller -> Controller
}.

(** ** Errors of a read *)

Definition is_timeout (e : ErrorKind) : bool :=
  match e with WouldBlock | TimedOut => true | _ => false end.

Definition is_disconnect_err (e : ErrorKind) : bool :=
  match e with
  | UnexpectedEof | ConnectionReset | BrokenPipe | ConnectionAborted | NotConnected => true
  | _ => false
  end.

Record Tick : Type := mkTick {
  exit_flag : bool;
  now : Z;
  fresh_nonce : list Z;
  nonces_free : bool
}.

Inductive BreakReason : Type := Disconnected | ReadError (e : ErrorKind) | ExitSet | ForwardFailed | LockPoisoned.

(** How an iteration ends: [Continue] also is the flow of a loop still running
    at the end of its schedule; [Blocked] a thread waiting for a lock that is
    not released. *)
Inductive Flow : Type := Continue | Break (why : BreakReason) | Panicked | Blocked.

#[export] Instance ErrorKind_inhabited : Inhabited ErrorKind := populate OtherError.
#[export] Instance BreakReason_eq_dec : EqDecision BreakReason.
Proof. solve_decision. Defined.
#[export] Instance Flow_eq_dec : EqDecision Flow.
Proof. solve_decision. Defined.

(** [loop { ... }] over a schedule. *)
Section control_loop.
Context {S : Type} (iteration : Tick -> S -> Flow * S).

Fixpoint control_loop (ticks : list Tick) (s : S) : Flow * S :=
  match ticks with
  | [] => (Continue, s)
  | tick :: rest =>
    match iteration tick s with
    | (Continue, s') => control_loop rest s'
    | stop => stop
    end
  end.

Lemma control_loop_invariant (I : S -> Prop) ticks s :
  (forall tick s, I s -> I (snd (iteration tick s))) -> I s -> I (snd (control_loop ticks s)).
Proof.
  intros Hstep. revert s; induction ticks as [|tick ticks IH]; intros s Hs; [done|]. cbn [control_loop].
  pose proof (Hstep tick s Hs) as H1. destruct (iteration tick s) as [[| | |] s1]; [by apply IH | done..].
Qed.

Lemma control_loop_ends (measure : S -> nat) ticks s :
  (forall tick s s', iteration tick s = (Continue, s') -> (measure s' < measure s)%nat) ->
  (measure s < length ticks)%nat -> fst (control_loop ticks s) <> Continue.
Proof.
  intros Hdec. revert s; induction ticks as [|tick ticks IH]; intros s Hm; simpl in Hm; [lia|]. cbn [control_loop].
  destruct (iteration tick s) as [[| | |] s1] eqn:E; try done. apply IH. apply Hdec in E. lia.
Qed.
End control_loop.

Section commands.
Context `{RtlSdrLib}.

(** ** The six commands of the tuner *)

Record Tuner : Type := mkTuner { ctl : Mutex Controller; agc_state : AgcState }.

Definition call (op : Controller -> res unit DeviceError * Controller) (t : Tuner) : Tuner :=
  mkTuner (with_control (ctl t) (fun guard => snd (op guard))) (agc_state t).
Definition set_agc_state (r : bool * AgcState) (t : Tuner) : Tuner := mkTuner (ctl t) (snd r).

(** The arms of the [match cmd]; [None] is a command without an arm here. *)
Definition device_command (cmd : Z) (payload : list Z) (t : Tuner) : option Tuner :=
  if cmd =? CMD_SET_FREQUENCY then
    let freq := u32_from_be_bytes payload in
    if is_err (validate_frequency freq) then Some t
    else Some (call (fun guard => set_center_freq guard freq) t)
  else if cmd =? CMD_SET_SAMPLE_RATE then
    let sample_rate := u32_from_be_bytes payload in
    if is_err (validate_sample_rate sample_rate) then Some t
    else Some (call (fun guard => set_sample_rate guard sample_rate) t)
  else if cmd =? CMD_SET_GAIN_MODE then
    let gain_mode := i32_from_be_bytes payload in
    if 0 <? gain_mode then Some (call disable_agc (set_agc_state (agc_disable (agc_state t)) t))
    else Some (call enable_agc (set_agc_state (agc_enable (agc_state t)) t))
  else if cmd =? CMD_SET_TUNER_GAIN then
    let gain := i32_from_be_bytes payload in
    if is_err (validate_tuner_gain gain) then Some t
    else Some (call (fun guard => set_tuner_gain guard gain) t)
  else if cmd =? CMD_SET_PPM then
    let ppm := i32_from_be_bytes payload in
    if is_err (validate_ppm ppm) then Some t
    else Some (call (fun guard => set_ppm guard ppm) t)
  else if cmd =? CMD_SET_AGC then
    let agc := u32_from_be_bytes payload =? 1 in
    if agc then Some (call enable_agc (set_agc_state (agc_enable (agc_state t)) t))
    else Some (call disable_agc (set_agc_state (agc_disable (agc_state t)) t))
  else None.

Definition CHAIN_ACK : list Z := [CMD_CHAIN_DETECT; 0x00; 0x00; 0x00; 0x00].

(** What a control thread holds: its end of the socket, its rate limiter, the
    tuner and the count of unknown commands ([u64]). *)
Record Session : Type := mkSession {
  stream : TcpStream;
  rate_limiter : RateLimiter;
  tuner : Tuner;
  unknown_command_count : Z
}.

Definition with_stream (s : Session) (st : TcpStream) : Session :=
  mkSession st (rate_limiter s) (tuner s) (unknown_command_count s).
Definition with_limiter (s : Session) (rl : RateLimiter) : Session :=
  mkSession (stream s) rl (tuner s) (unknown_command_count s).
Definition with_tuner (s : Session) (t : Tuner) : Session :=
  mkSession (stream s) (rate_limiter s) t (unknown_command_count s).
Definition count_unknown (s : Session) : Session :=
  mkSession (stream s) (rate_limiter s) (tuner s) (as_u64 (unknown_command_count s + 1)).

(** The arms of the read's result that do not deliver a command. *)
Definition read_failed (e : ErrorKind) : Flow :=
  if is_timeout e then Continue
  else if is_disconnect_err e then Break Disconnected
  else Break (ReadError e).

(** ** [run_serve_single]'s control thread *)

Definition single_dispatch (buf : list Z) (s : Session) : Session :=
  let cmd := nth 0 buf 0 in
  let payload := drop 1 buf in
  match device_command cmd payload (tuner s) with
  | Some t => with_tuner s t
  | None =>
    if cmd =? CMD_CHAIN_DETECT then with_stream s (snd (write_all (stream s) CHAIN_ACK))
    else count_unknown s
  end.

Definition single_iteration (tick : Tick) (s : Session) : Flow * Session :=
  match read_exact (stream s) COMMAND_HEADER_SIZE with
  | (Ok buf, st) =>
    let s := with_stream s st in
    if exit_flag tick then (Break ExitSet, s)
    else
      match rate_limiter_check (rate_limiter s) (now tick) with
      | (false, rl) => (Continue, with_limiter s rl)
      | (true, rl) => (Continue, single_dispatch buf (with_limiter s rl))
      end
  | (Err e, st) => (read_failed e, with_stream s st)
  | (Panic, st) => (Panicked, with_stream s st)
  | (Diverged, st) => (Blocked, with_stream s st)
  end.

Definition single_control_thread (epoch t0 t1 : Z) (ticks : list Tick) (st : TcpStream) (t : Tuner)
    : Flow * Session :=
  control_loop single_iteration ticks
    (mkSession st (rate_limiter_new epoch t0 t1 COMMAND_RATE_LIMIT_INTERVAL) t 0).

End commands.
