(* ===== verification/Protocol.v ===== *)
(** * The command protocol

    The abstract specification of the command channel: the commands, their
    five-byte encoding, the request each makes of the tuner (none when its
    argument is out of the documented range), and the machine that executes a
    sequence of commands behind a rate limiter.  [Interpreter] proves that the
    control threads implement it. *)

From S2P Require Import Prelude Bytes Io Error Control Commands.
#[local] Open Scope Z_scope.

Inductive Command : Type :=
| SetFrequency (freq : Z)
| SetSampleRate (rate : Z)
| SetGainMode (mode : Z)
| SetTunerGain (gain : Z)
| SetPpm (ppm : Z)
| SetAgc (agc : Z)
| ChainDetect (tag : list Z)
| Unsupported (op : Z) (payload : list Z).

Definition known_op (op : Z) : bool :=
  bool_decide (op ∈ [CMD_SET_FREQUENCY; CMD_SET_SAMPLE_RATE; CMD_SET_GAIN_MODE; CMD_SET_TUNER_GAIN;
                     CMD_SET_PPM; CMD_SET_AGC; CMD_CHAIN_DETECT]).

(** The arguments fit their fields. *)
Definition command_ok (c : Command) : Prop :=
  match c with
  | SetFrequency z | SetSampleRate z | SetAgc z => is_u32 z
  | SetGainMode z | SetTunerGain z | SetPpm z => is_i32 z
  | ChainDetect tag => length tag = 4%nat
  | Unsupported op payload => known_op op = false /\ length payload = 4%nat
  end.

Definition encode (c : Command) : list Z :=
  match c with
  | SetFrequency z => CMD_SET_FREQUENCY :: u32_to_be_bytes z
  | SetSampleRate z => CMD_SET_SAMPLE_RATE :: u32_to_be_bytes z
  | SetGainMode z => CMD_SET_GAIN_MODE :: be_bytes 4 z
  | SetTunerGain z => CMD_SET_TUNER_GAIN :: be_bytes 4 z
  | SetPpm z => CMD_SET_PPM :: be_bytes 4 z
  | SetAgc z => CMD_SET_AGC :: u32_to_be_bytes z
  | ChainDetect tag => CMD_CHAIN_DETECT :: tag
  | Unsupported op payload => op :: payload
  end.

Lemma length_encode c : command_ok c -> length (encode c) = COMMAND_HEADER_SIZE.
Proof.
  destruct c; simpl encode; unfold u32_to_be_bytes; rewrite ?length_cons, ?length_be_bytes; try done.
  - simpl. by intros ->.
  - intros [_ E]. simpl. by rewrite E.
Qed.

(** What a command asks of the tuner. *)
Inductive Request : Type :=
| TuneTo (freq : Z)
| SampleAt (rate : Z)
| AmplifyBy (gain : Z)
| CorrectBy (ppm : Z)
| AutoGain (on : bool).

Definition meaning (c : Command) : option Request :=
  match c with
  | SetFrequency z => if bool_decide (0 <= z <= 2200000000) then Some (TuneTo z) else None
  | SetSampleRate z => if bool_decide (0 <= z <= 3200000) then Some (SampleAt z) else None
  | SetGainMode z => Some (AutoGain (bool_decide (z <= 0)))
  | SetTunerGain z => if bool_decide (0 <= z <= 500) then Some (AmplifyBy z) else None
  | SetPpm z => if bool_decide (-200 <= z <= 200) then Some (CorrectBy z) else None
  | SetAgc z => Some (AutoGain (bool_decide (z = 1)))
  | ChainDetect _ | Unsupported _ _ => None
  end.

(** The requests a tuner may be given. *)
Definition permitted (r : Request) : Prop :=
  match r with
  | TuneTo z => 0 <= z <= 2200000000
  | SampleAt z => 0 <= z <= 3200000
  | AmplifyBy z => 0 <= z <= 500
  | CorrectBy z => -200 <= z <= 200
  | AutoGain _ => True
  end.

Lemma meaning_permitted c r : meaning c = Some r -> permitted r.
Proof. destruct c; simpl; repeat case_bool_decide; intros E; simplify_eq; done. Qed.

Section machine.
Context `{RtlSdrLib}.

Definition request (r : Request) (g : Controller) : res unit DeviceError * Controller :=
  match r with
  | TuneTo z => set_center_freq g z
  | SampleAt z => set_sample_rate g z
  | AmplifyBy z => set_tuner_gain g z
  | CorrectBy z => set_ppm g z
  | AutoGain on => if on then enable_agc g else disable_agc g
  end.

(** Performing a request: the call, skipped when the tuner's lock is poisoned,
    and the recorded AGC state. *)
Definition perform (r : Request) (t : Tuner) : Tuner :=
  mkTuner (with_control (ctl t) (fun g => snd (request r g)))
          (match r with AutoGain on => mkAgc on | _ => agc_state t end).

(** The machine: its tuner, its limiter, the unknown commands it counted and
    what it has answered. *)
Record Machine : Type := mkMachine {
  m_limiter : RateLimiter;
  m_tuner : Tuner;
  m_unknown : Z;
  m_answers : list Z
}.

Definition execute (c : Command) (m : Machine) : Machine :=
  mkMachine (m_limiter m)
    (match meaning c with Some r => perform r (m_tuner m) | None => m_tuner m end)
    (match c with Unsupported _ _ => as_u64 (m_unknown m + 1) | _ => m_unknown m end)
    (match c with ChainDetect _ => m_answers m ++ CHAIN_ACK | _ => m_answers m end).

Definition receive (at_ : Z) (c : Command) (m : Machine) : Machine :=
  match rate_limiter_check (m_limiter m) at_ with
  | (true, rl) => execute c (mkMachine rl (m_tuner m) (m_unknown m) (m_answers m))
  | (false, rl) => mkMachine rl (m_tuner m) (m_unknown m) (m_answers m)
  end.

Fixpoint receive_all (arrivals : list (Z * Command)) (m : Machine) : Machine :=
  match arrivals with
  | [] => m
  | (at_, c) :: rest => receive_all rest (receive at_ c m)
  end.

End machine.
