(* ===== verification/Interpreter.v ===== *)
(** * The control threads implement the command protocol

    The refinement of [Protocol] by the control threads of [Commands], what no
    client can make them do, and how they end. *)

From S2P Require Import Prelude Bytes Io Net Error Control Commands Protocol.
#[local] Open Scope Z_scope.

Section dispatch.
Context `{RtlSdrLib}.

Lemma is_err_validate_frequency z : is_err (validate_frequency z) = negb (bool_decide (0 <= z <= 2200000000)).
Proof.
  unfold validate_frequency, in_range, FREQ_MIN, FREQ_MAX.
  destruct (Z.leb_spec 0 z), (Z.leb_spec z 2200000000); cbn; case_bool_decide; done || lia.
Qed.
Lemma is_err_validate_sample_rate z : is_err (validate_sample_rate z) = negb (bool_decide (0 <= z <= 3200000)).
Proof.
  unfold validate_sample_rate, in_range, SAMPLE_RATE_MIN, SAMPLE_RATE_MAX.
  destruct (Z.leb_spec 0 z), (Z.leb_spec z 3200000); cbn; case_bool_decide; done || lia.
Qed.
Lemma is_err_validate_tuner_gain z : is_err (validate_tuner_gain z) = negb (bool_decide (0 <= z <= 500)).
Proof.
  unfold validate_tuner_gain, in_range, TUNER_GAIN_MIN, TUNER_GAIN_MAX.
  destruct (Z.leb_spec 0 z), (Z.leb_spec z 500); cbn; case_bool_decide; done || lia.
Qed.
Lemma is_err_validate_ppm z : is_err (validate_ppm z) = negb (bool_decide (-200 <= z <= 200)).
Proof.
  unfold validate_ppm, in_range, PPM_MIN, PPM_MAX.
  destruct (Z.leb_spec (-200) z), (Z.leb_spec z 200); cbn; case_bool_decide; done || lia.
Qed.

(** The arms of the match, by the command decoded. *)
Lemma device_command_meaning c t :
  command_ok c ->
  device_command (nth 0 (encode c) 0) (drop 1 (encode c)) t =
    match c with
    | ChainDetect _ | Unsupported _ _ => None
    | _ => Some (match meaning c with Some r => perform r t | None => t end)
    end.
Proof.
  assert (Hu : forall z, is_u32 z -> u32_from_be_bytes (u32_to_be_bytes z) = z)
    by (intros z Hz; by rewrite u32_be_roundtrip, as_u32_small).
  intros Hok; unfold device_command; destruct c as [z|z|z|z|z|z|tag|op payload];
    cbn [encode nth meaning command_ok skipn] in *; cbv zeta;
    try (unfold CMD_SET_FREQUENCY, CMD_SET_SAMPLE_RATE, CMD_SET_GAIN_MODE, CMD_SET_TUNER_GAIN,
           CMD_SET_PPM, CMD_SET_AGC, CMD_CHAIN_DETECT; cbn [Z.eqb Pos.eqb]; cbn iota);
    rewrite ?drop_0, ?Hu, ?i32_be_roundtrip, ?is_err_validate_frequency, ?is_err_validate_sample_rate,
      ?is_err_validate_tuner_gain, ?is_err_validate_ppm by done;
    try done; try (by case_bool_decide).
  - destruct (Z.ltb_spec 0 z); case_bool_decide; done || lia.
  - destruct (Z.eqb_spec z 1); case_bool_decide; done || lia.
  - destruct Hok as [Hop _]. unfold known_op in Hop. apply bool_decide_eq_false in Hop.
    repeat (apply not_elem_of_cons in Hop as [?%Z.eqb_neq Hop]).
    unfold CMD_SET_FREQUENCY, CMD_SET_SAMPLE_RATE, CMD_SET_GAIN_MODE, CMD_SET_TUNER_GAIN, CMD_SET_PPM, CMD_SET_AGC in *.
    by repeat match goal with E : (op =? _) = false |- _ => rewrite E; clear E end.
Qed.

(** ** The simulation *)

Definition abs (s : Session) : Machine :=
  mkMachine (rate_limiter s) (tuner s) (unknown_command_count s) (sent (stream s)).

Lemma write_all_tcp (st : TcpStream) buf :
  accepts st -> exists st', write_all st buf = (Ok tt, st') /\ sent st' = sent st ++ buf /\
    rx st' = rx st /\ accepts st' /\ rto st' = rto st /\ wto st' = wto st.
Proof. intros Ha. destruct (write_all_accepts st buf Ha) as (st' & -> & (? & ? & ? & ?) & ?). by exists st'. Qed.

Lemma single_dispatch_executes c s :
  command_ok c -> accepts (stream s) ->
  abs (single_dispatch (encode c) s) = execute c (abs s) /\
  rx (stream (single_dispatch (encode c) s)) = rx (stream s) /\
  accepts (stream (single_dispatch (encode c) s)).
Proof.
  intros Hok Ha. unfold single_dispatch, execute, abs. cbv zeta. rewrite device_command_meaning by done.
  destruct c as [z|z|z|z|z|z|tag|op payload]; try done.
  - cbn [encode nth]. rewrite Z.eqb_refl.
    destruct (write_all_tcp (stream s) CHAIN_ACK Ha) as (st' & E & Hs & Hr & Ha' & _). rewrite E. cbn. by rewrite Hs.
  - cbn [encode nth]. destruct Hok as [Hop _]. unfold known_op in Hop. apply bool_decide_eq_false in Hop.
    destruct (Z.eqb_spec op CMD_CHAIN_DETECT) as [->|_]; [|done]. exfalso. apply Hop. set_solver.
Qed.

Lemma read_command (st : TcpStream) c rest :
  command_ok c -> accepts st -> yields st (encode c ++ rest) ->
  exists st', read_exact st COMMAND_HEADER_SIZE = (Ok (encode c), st') /\ yields st' rest /\
    accepts st' /\ sent st' = sent st.
Proof.
  intros Hok Ha Hy. destruct (read_exact_yields st _ _ _ Hy (length_encode c Hok)) as (st' & E & Hy').
  exists st'. destruct (read_exact_sent _ _ _ _ E) as [Hs Ht]. split_and!; try done. simpl in *. by rewrite Ht.
Qed.

(** One iteration on a command that has arrived. *)
Lemma single_iteration_receives tick c s rest :
  command_ok c -> accepts (stream s) -> exit_flag tick = false -> yields (stream s) (encode c ++ rest) ->
  exists s', single_iteration tick s = (Continue, s') /\ abs s' = receive (now tick) c (abs s) /\
    yields (stream s') rest /\ accepts (stream s').
Proof.
  intros Hok Ha Hex Hy. unfold single_iteration.
  destruct (read_command _ _ _ Hok Ha Hy) as (st & -> & Hyr & Har & Hs). rewrite Hex.
  unfold receive. cbn [rate_limiter with_stream abs m_limiter].
  destruct (rate_limiter_check (rate_limiter s) (now tick)) as [[] rl].
  - eexists. split; [done|].
    destruct (single_dispatch_executes c (with_limiter (with_stream s st) rl) Hok Har) as (-> & Hrx & Hacc).
    split_and!; [unfold abs; cbn; by rewrite Hs | | done]. simpl in *. by rewrite Hrx.
  - eexists. split; [done|]. split_and!; [unfold abs; cbn; by rewrite Hs | done | done].
Qed.

Lemma control_loop_receives ticks cmds s rest :
  length ticks = length cmds -> Forall command_ok cmds -> Forall (fun tick => exit_flag tick = false) ticks ->
  accepts (stream s) -> yields (stream s) (concat (map encode cmds) ++ rest) ->
  exists s', control_loop single_iteration ticks s = (Continue, s') /\
    abs s' = receive_all (zip (map now ticks) cmds) (abs s) /\ yields (stream s') rest /\ accepts (stream s').
Proof.
  revert ticks s. induction cmds as [|c cmds IH]; intros [|tick ticks] s Hl Hok Hex Ha Hy; try done.
  { by exists s. }
  inversion Hok; subst. inversion Hex; subst. simpl in Hy. rewrite <- app_assoc in Hy.
  destruct (single_iteration_receives tick c s _ ltac:(done) Ha ltac:(done) Hy) as (s1 & E & Habs & Hy1 & Ha1).
  destruct (IH ticks s1) as (s2 & E2 & Habs2 & ?); [simpl in Hl; lia | done.. |].
  exists s2. cbn [control_loop]. rewrite E. split; [done|]. split; [|done].
  rewrite Habs2. cbn [map zip_with receive_all zip]. by rewrite Habs.
Qed.

Lemma control_loop_app {S} (iteration : Tick -> S -> Flow * S) ticks1 ticks2 s s' :
  control_loop iteration ticks1 s = (Continue, s') ->
  control_loop iteration (ticks1 ++ ticks2) s = control_loop iteration ticks2 s'.
Proof.
  revert s; induction ticks1 as [|tick ticks1 IH]; intros s; cbn [app control_loop].
  { intros E; by simplify_eq. }
  destruct (iteration tick s) as [[] s1]; try done. apply IH.
Qed.

(** ** What no client can do *)

(** A property of the hardware that permitted requests keep. *)
Definition kept (I : Controller -> Prop) : Prop :=
  forall r g, permitted r -> I g -> I (snd (request r g)).
Definition holds (I : Controller -> Prop) (t : Tuner) : Prop := I (guarded (ctl t)).

Lemma with_control_kept (I : Controller -> Prop) m op :
  (forall g, I g -> I (op g)) -> I (guarded m) -> I (guarded (with_control m op)).
Proof. unfold with_control. destruct (poisoned m); simpl; auto. Qed.

Lemma device_command_kept I cmd payload t t' :
  kept I -> holds I t -> device_command cmd payload t = Some t' -> holds I t'.
Proof.
  intros HI Ht. unfold device_command. cbv zeta.
  rewrite is_err_validate_frequency, is_err_validate_sample_rate, is_err_validate_tuner_gain, is_err_validate_ppm.
  assert (Hc : forall op a, (forall g, I g -> I (snd (op g))) -> holds I (call op (mkTuner (ctl t) a)))
    by (intros op a Hop; unfold holds, call; cbn [ctl]; by apply (with_control_kept I)).
  repeat case_match; intros E; simplify_eq; try done;
    repeat match goal with E : negb (bool_decide _) = false |- _ => apply negb_false_iff, bool_decide_eq_true in E end.
  - destruct t. apply Hc. intros g Hg. by apply (HI (TuneTo _)).
  - destruct t. apply Hc. intros g Hg. by apply (HI (SampleAt _)).
  - apply Hc. intros g Hg. by apply (HI (AutoGain false)).
  - apply Hc. intros g Hg. by apply (HI (AutoGain true)).
  - destruct t. apply Hc. intros g Hg. by apply (HI (AmplifyBy _)).
  - destruct t. apply Hc. intros g Hg. by apply (HI (CorrectBy _)).
  - apply Hc. intros g Hg. by apply (HI (AutoGain true)).
  - apply Hc. intros g Hg. by apply (HI (AutoGain false)).
Qed.

Lemma single_iteration_kept I tick s :
  kept I -> holds I (tuner s) -> holds I (tuner (snd (single_iteration tick s))).
Proof.
  intros HI Hs. unfold single_iteration, single_dispatch. cbv zeta.
  destruct (read_exact (stream s) COMMAND_HEADER_SIZE) as [[buf|e| |] st]; try done.
  destruct (exit_flag tick); [done|].
  destruct (rate_limiter_check (rate_limiter (with_stream s st)) (now tick)) as [[] rl]; [|done]. cbn [snd].
  destruct (device_command _ _ _) as [t|] eqn:E; [by eapply device_command_kept|].
  by destruct (_ =? _).
Qed.

(** ** How a control thread ends *)

(** What is left of the peer's script: its events and their bytes. *)
Definition rx_left (st : TcpStream) : nat :=
  sum_list_with (fun e => S (match e with Data bs => length bs | RErr _ => O end)) (rx st).

Lemma tcp_read_left (st st' : TcpStream) n r :
  read st n = (r, st') -> (0 < n)%nat -> r <> Ok [] -> (rx_left st' < rx_left st)%nat.
Proof.
  cbn. unfold tcp_read, rx_left. destruct (rx st) as [|[bs|e] evs] eqn:E; [by intros; simplify_eq| |].
  - destruct (Nat.leb_spec (length bs) n); intros Heq Hn Hr; simplify_eq; simpl; [lia|].
    rewrite length_drop. lia.
  - intros; simplify_eq; simpl; lia.
Qed.

Lemma read_exact_left (st st' : TcpStream) n r :
  read_exact st n = (r, st') -> (rx_left st' <= rx_left st)%nat /\
  ((0 < n)%nat -> r <> Err UnexpectedEof -> r <> Diverged -> (rx_left st' < rx_left st)%nat).
Proof.
  unfold read_exact. generalize (n + read_budget st)%nat as fuel. intros fuel. generalize (@nil Z) as acc.
  revert st n; induction fuel as [|fuel IH]; intros st n acc; (destruct n as [|n]; [intros E; simplify_eq/=; lia|]);
    [intros E; by simplify_eq/=|].
  cbn [read_exact_loop]. destruct (read st (S n)) as [q s1] eqn:Er.
  pose proof (tcp_read_left _ _ _ _ Er ltac:(lia)) as Hlt.
  destruct q as [[|b d]|e| |].
  - intros E; simplify_eq/=. split; [|done]. revert Er. cbn. unfold tcp_read, rx_left.
    destruct (rx st) as [|[bs|k] evs] eqn:Ex; [intros; by simplify_eq/=; rewrite Ex| |intros; by simplify_eq/=].
    destruct (length bs <=? S n)%nat; intros; simplify_eq/=; rewrite ?length_drop; lia.
  - intros E. apply IH in E as [E _]. specialize (Hlt ltac:(done)). split; intros; lia.
  - specialize (Hlt ltac:(done)). destruct e; intros E; try (simplify_eq/=; split; intros; lia).
    apply IH in E as [E _]. split; intros; lia.
  - specialize (Hlt ltac:(done)). intros E; simplify_eq/=. split; intros; lia.
  - specialize (Hlt ltac:(done)). intros E; simplify_eq/=. split; intros; lia.
Qed.

Lemma write_all_rx (st : TcpStream) buf : rx (snd (write_all st buf)) = rx st.
Proof.
  destruct (write_all st buf) as [r st'] eqn:E. apply write_all_wrote in E as (bs & _ & Hw & _). by destruct Hw as (_ & ? & _).
Qed.

Lemma single_iteration_left tick s s' :
  single_iteration tick s = (Continue, s') -> (rx_left (stream s') < rx_left (stream s))%nat.
Proof.
  unfold single_iteration. destruct (read_exact (stream s) COMMAND_HEADER_SIZE) as [q st] eqn:Er.
  apply read_exact_left in Er as [_ Hlt]. specialize (Hlt ltac:(unfold COMMAND_HEADER_SIZE; lia)).
  destruct q as [buf|e| |]; cbn zeta; [|unfold read_failed| by intros | by intros].
  - specialize (Hlt ltac:(done) ltac:(done)). destruct (exit_flag tick); [done|]. unfold single_dispatch.
    repeat case_match; intros E; simplify_eq/=; try done.
    unfold rx_left in *. by rewrite write_all_rx.
  - repeat case_match; intros E; simplify_eq/=. destruct e; try done; by apply Hlt.
Qed.

Lemma single_iteration_timeout tick s e st :
  read_exact (stream s) COMMAND_HEADER_SIZE = (Err e, st) -> is_timeout e = true ->
  single_iteration tick s = (Continue, with_stream s st).
Proof. intros E He. unfold single_iteration. rewrite E. unfold read_failed. by rewrite He. Qed.

(** A whole conversation: commands, then less than a command and the end. *)
Lemma control_loop_disconnects ticks last cmds tail s :
  length ticks = length cmds -> Forall command_ok cmds -> Forall (fun tick => exit_flag tick = false) ticks ->
  accepts (stream s) -> yields (stream s) (concat (map encode cmds) ++ tail) -> (length tail < COMMAND_HEADER_SIZE)%nat ->
  exists s', control_loop single_iteration (ticks ++ [last]) s = (Break Disconnected, s') /\
    abs s' = receive_all (zip (map now ticks) cmds) (abs s).
Proof.
  intros Hl Hok Hex Ha Hy Ht.
  destruct (control_loop_receives ticks cmds s tail Hl Hok Hex Ha Hy) as (s1 & E & Habs & Hy1 & _).
  rewrite (control_loop_app _ _ _ _ _ E). cbn [control_loop]. unfold single_iteration.
  destruct (read_exact_short (stream s1) tail _ Hy1 Ht) as (st & Er & _). rewrite Er.
  eexists. split; [reflexivity|]. rewrite <- Habs. unfold abs. cbn [stream with_stream].
  by destruct (read_exact_sent _ _ _ _ Er) as [-> _].
Qed.

(** ** Properties *)

(** C2. A control thread implements the protocol: for any commands a client
    sends, cut into any segments, followed by less than a command and the end
    of the connection, the thread ends as a disconnection, and its tuner, its
    count of unknown commands, its rate limiter and what it answered are those
    of the abstract machine receiving these commands at the instants the
    thread read its clock. *)
Theorem control_thread_implements_protocol (cmds : list Command) (ticks : list Tick) (last : Tick)
    (tail : list Z) (s : Session) :
  length ticks = length cmds -> Forall command_ok cmds -> Forall (fun tick => exit_flag tick = false) ticks ->
  accepts (stream s) -> yields (stream s) (concat (map encode cmds) ++ tail) -> (length tail < COMMAND_HEADER_SIZE)%nat ->
  exists s', control_loop single_iteration (ticks ++ [last]) s = (Break Disconnected, s') /\
    abs s' = receive_all (zip (map now ticks) cmds) (abs s).
Proof.
  apply control_loop_disconnects.
Qed.

(** No client can push the hardware out of its limits: whatever bytes
    arrive, whatever errors and timeouts interrupt them and for as long as the
    thread runs, a property of the tuner that requests within the documented
    ranges keep is kept. *)
Theorem control_thread_keeps_limits (I : Controller -> Prop) (ticks : list Tick) (s : Session) :
  kept I -> I (guarded (ctl (tuner s))) ->
  I (guarded (ctl (tuner (snd (control_loop single_iteration ticks s))))).
Proof.
  intros HI Hs. apply (control_loop_invariant single_iteration (fun s => holds I (tuner s))); [|done].
  intros tick s0 Hs0. by apply single_iteration_kept.
Qed.

(** A control thread ends: once the peer's traffic is exhausted (it closed,
    or the socket was shut down), after at most one iteration for each event
    and each byte of it. *)
Theorem control_thread_ends (ticks : list Tick) (s : Session) :
  (rx_left (stream s) < length ticks)%nat -> fst (control_loop single_iteration ticks s) <> Continue.
Proof.
  intros Hl. apply (control_loop_ends single_iteration (fun s => rx_left (stream s))); [|done].
  intros tick s0 s1 E. by apply single_iteration_left in E.
Qed.

(** The exit flag does not stop a control thread whose client is silent:
    as long as its reads time out it keeps looping, however often the flag is
    already set, and nothing else about it changes. *)
Theorem silent_client_keeps_thread (ticks : list Tick) (e : ErrorKind) (evs : list rx_event) (s : Session) :
  is_timeout e = true -> rx (stream s) = replicate (length ticks) (RErr e) ++ evs ->
  control_loop single_iteration ticks s = (Continue, with_stream s (with_rx (stream s) evs)).
Proof.
  intros He. revert s. induction ticks as [|tick ticks IH]; intros s Hrx.
  - cbn in *. unfold with_rx. rewrite <- Hrx. by destruct s as [[] ? ? ?].
  - cbn [control_loop].
    assert (Er : read_exact (stream s) COMMAND_HEADER_SIZE =
      (Err e, with_rx (stream s) (replicate (length ticks) (RErr e) ++ evs))).
    { unfold read_exact, COMMAND_HEADER_SIZE. cbn [Nat.add read_exact_loop read TcpStream_Read].
      unfold tcp_read. rewrite Hrx. cbn. by destruct e. }
    rewrite (single_iteration_timeout _ _ _ _ Er He).
    by rewrite (IH (with_stream s (with_rx (stream s) (replicate (length ticks) (RErr e) ++ evs)))).
Qed.

(** A command interrupted by a timeout is torn: the bytes that had arrived
    are dropped, and the thread frames what follows from the middle of the
    command. *)
Theorem timeout_tears_command (tick : Tick) (part : list Z) (e : ErrorKind) (evs : list rx_event) (s : Session) :
  is_timeout e = true -> (0 < length part < COMMAND_HEADER_SIZE)%nat -> rx (stream s) = Data part :: RErr e :: evs ->
  single_iteration tick s = (Continue, with_stream s (with_rx (stream s) evs)).
Proof.
  intros He Hp Hrx.
  assert (Er : read_exact (stream s) COMMAND_HEADER_SIZE = (Err e, with_rx (stream s) evs)).
  { unfold read_exact, COMMAND_HEADER_SIZE in *. cbn [Nat.add read_exact_loop read TcpStream_Read].
    unfold tcp_read at 1. rewrite Hrx. destruct (Nat.leb_spec (length part) 5); [|lia].
    destruct part as [|b part]; [simpl in Hp; lia|].
    destruct (5 - length (b :: part))%nat as [|k] eqn:Ek; [simpl in *; lia|].
    cbn [read_exact_loop read TcpStream_Read]. unfold tcp_read. cbn. by destruct e. }
  by apply (single_iteration_timeout _ _ _ _ Er).
Qed.

End dispatch.

(** A tuner for the witnesses: the requests it was given, newest first; it
    refuses gains above 496. *)
Definition log_tuner : RtlSdrLib :=
  {| Controller := list Request;
     DeviceError := unit;
     set_center_freq g z := (Ok tt, TuneTo z :: g);
     set_sample_rate g z := (Ok tt, SampleAt z :: g);
     set_tuner_gain g z := if 496 <? z then (Err tt, g) else (Ok tt, AmplifyBy z :: g);
     set_ppm g z := (Ok tt, CorrectBy z :: g);
     enable_agc g := (Ok tt, AutoGain true :: g);
     disable_agc g := (Ok tt, AutoGain false :: g);
     cancel_async_read g := g |}.

Definition tick_at (t : Z) (exit : bool) : Tick := mkTick exit t [] true.

Section witnesses.
#[local] Existing Instance log_tuner.

Definition idle_session (evs : list rx_event) : Session :=
  mkSession (mkTcp evs [] [] None None) (mkRateLimiter 0 COMMAND_RATE_LIMIT_INTERVAL)
    (mkTuner (mkMutex [] false) agc_new) 0.

Lemma control_thread_implements_protocol_witness :
  let cmds := [SetFrequency 100000000; SetTunerGain 501; ChainDetect [80; 82; 79; 88]; SetAgc 2; Unsupported 9 [0; 0; 0; 0]] in
  let ticks := map (fun t => tick_at (from_millis t) false) [50; 100; 149; 151; 201] in
  let bytes := concat (map encode cmds) ++ [1; 2] in
  let s := idle_session [Data (take 7 bytes); RErr Interrupted; Data (drop 7 bytes)] in
  exists s', control_loop single_iteration (ticks ++ [tick_at 0 true]) s = (Break Disconnected, s') /\
    abs s' = mkMachine (mkRateLimiter (from_millis 201) COMMAND_RATE_LIMIT_INTERVAL)
      (mkTuner (mkMutex [AutoGain false; TuneTo 100000000] false) (mkAgc false)) 1 [].
Proof.
  intros cmds ticks bytes s.
  destruct (control_thread_implements_protocol cmds ticks (tick_at 0 true) [1; 2] s) as (s' & E & Habs).
  - reflexivity.
  - repeat constructor; by vm_compute.
  - by repeat constructor.
  - constructor.
  - split; [|reflexivity]. by repeat constructor.
  - unfold COMMAND_HEADER_SIZE. simpl. lia.
  - exists s'. split; [exact E|]. rewrite Habs. by vm_compute.
Defined.

Definition log_ok (g : list Request) : Prop := Forall permitted g.

Lemma log_ok_kept : kept log_ok.
Proof. intros [z|z|z|z|[]] g Hp Hg; cbn [request log_tuner set_tuner_gain]; repeat case_match; simpl; by try constructor. Qed.

Lemma control_thread_keeps_limits_witness :
  let s := idle_session [Data [1; 255; 255; 255; 255; 1; 0]; RErr TimedOut; Data [5; 0; 0; 0; 200]] in
  let ticks := map (fun t => tick_at (from_millis t) false) [50; 100; 150; 200] in
  log_ok (guarded (ctl (tuner (snd (control_loop single_iteration ticks s))))) /\
  guarded (ctl (tuner (snd (control_loop single_iteration ticks s)))) = [CorrectBy 200].
Proof.
  intros s ticks. split; [|by vm_compute].
  apply (@control_thread_keeps_limits log_tuner log_ok ticks s); [exact log_ok_kept | constructor].
Defined.

Lemma control_thread_ends_witness :
  fst (control_loop single_iteration (replicate 9 (tick_at 0 false)) (idle_session [Data [1; 0; 0]; RErr TimedOut; Data [3; 2]])) <> Continue.
Proof.
  apply (control_thread_ends (replicate 9 (tick_at 0 false)) (idle_session [Data [1; 0; 0]; RErr TimedOut; Data [3; 2]])).
  vm_compute. lia.
Defined.

Lemma silent_client_keeps_thread_witness :
  let s := idle_session (replicate 3 (RErr WouldBlock)) in
  control_loop single_iteration (replicate 3 (tick_at 0 true)) s = (Continue, idle_session []).
Proof.
  intros s. apply (silent_client_keeps_thread (replicate 3 (tick_at 0 true)) WouldBlock [] s).
  - reflexivity.
  - reflexivity.
Defined.

Lemma timeout_tears_command_witness :
  let s := idle_session [Data [1; 0; 0]; RErr TimedOut; Data [0; 7; 5; 0; 0]; Data [0; 1]] in
  single_iteration (tick_at 0 false) s = (Continue, idle_session [Data [0; 7; 5; 0; 0]; Data [0; 1]]).
Proof.
  intros s. apply (timeout_tears_command (tick_at 0 false) [1; 0; 0] TimedOut [Data [0; 7; 5; 0; 0]; Data [0; 1]] s).
  - reflexivity.
  - unfold COMMAND_HEADER_SIZE. simpl. lia.
  - reflexivity.
Defined.

End witnesses.
