(* ===== verification/Master.v ===== *)
(** * The master's control thread

    Models [spawn_master_control_thread] of [src/main.rs]: the command loop of
    [Commands] with the chain handshake and the read cipher of an encrypted
    chain.  [encryption_nonces] is the slot shared with the thread that writes
    I/Q data to the master; a [Tick] says whether its lock can be taken. *)

From S2P Require Import Prelude Bytes Io Net Error Control Encryption Commands Protocol Interpreter.
#[local] Open Scope Z_scope.

Section master.
Context `{StreamCipherLib} `{RtlSdrLib}.
Context (encryption_key : option (list Z)).

Record MasterSession : Type := mkMaster {
  session : Session;
  read_cipher : option ChaCha20;
  _write_cipher : option ChaCha20;
  encryption_nonces : option (list Z * list Z)
}.

Definition with_session (m : MasterSession) (s : Session) : MasterSession :=
  mkMaster s (read_cipher m) (_write_cipher m) (encryption_nonces m).
Definition with_read_cipher (m : MasterSession) (c : option ChaCha20) : MasterSession :=
  mkMaster (session m) c (_write_cipher m) (encryption_nonces m).

(** The arm of [CMD_CHAIN_DETECT]. *)
Definition master_chain_detect (tick : Tick) (m : MasterSession) : Flow * MasterSession :=
  let st := snd (write_all (stream (session m)) CHAIN_ACK) in
  match encryption_key with
  | Some key =>
    match server_nonce_exchange st key (fresh_nonce tick) with
    | (Ok (my_nonce, peer_nonce), st') =>
      let s := with_stream (session m) st' in
      if nonces_free tick then
        (Continue, mkMaster s (Some (chacha20_new key peer_nonce)) (Some (chacha20_new key my_nonce))
                     (Some (my_nonce, peer_nonce)))
      else (Blocked, with_session m s)
    | (Err _, st') => (Continue, with_session m (with_stream (session m) st'))
    | (Panic, st') => (Panicked, with_session m (with_stream (session m) st'))
    | (Diverged, st') => (Blocked, with_session m (with_stream (session m) st'))
    end
  | None => (Continue, with_session m (with_stream (session m) st))
  end.

Definition master_dispatch (tick : Tick) (buf : list Z) (m : MasterSession) : Flow * MasterSession :=
  let cmd := nth 0 buf 0 in
  let payload := drop 1 buf in
  match device_command cmd payload (tuner (session m)) with
  | Some t => (Continue, with_session m (with_tuner (session m) t))
  | None =>
    if cmd =? CMD_CHAIN_DETECT then master_chain_detect tick m
    else (Continue, with_session m (count_unknown (session m)))
  end.

(** What follows the read: the exit flag, the rate limiter, the dispatch. *)
Definition master_received (tick : Tick) (buf : list Z) (m : MasterSession) : Flow * MasterSession :=
  if exit_flag tick then (Break ExitSet, m)
  else
    match rate_limiter_check (rate_limiter (session m)) (now tick) with
    | (false, rl) => (Continue, with_session m (with_limiter (session m) rl))
    | (true, rl) => master_dispatch tick buf (with_session m (with_limiter (session m) rl))
    end.

Definition master_iteration (tick : Tick) (m : MasterSession) : Flow * MasterSession :=
  match read_exact (stream (session m)) COMMAND_HEADER_SIZE with
  | (Ok buf, st) =>
    let m := with_session m (with_stream (session m) st) in
    match read_cipher m with
    | Some cipher =>
      match apply_keystream cipher buf with
      | Some (buf, cipher) => master_received tick buf (with_read_cipher m (Some cipher))
      | None => (Panicked, m)
      end
    | None => master_received tick buf m
    end
  | (Err e, st) => (read_failed e, with_session m (with_stream (session m) st))
  | (Panic, st) => (Panicked, with_session m (with_stream (session m) st))
  | (Diverged, st) => (Blocked, with_session m (with_stream (session m) st))
  end.

(** The thread: its read timeout, then the loop. *)
Definition master_control_thread (read_timeout epoch t0 t1 : Z) (ticks : list Tick) (st : TcpStream) (t : Tuner)
    (nonces : option (list Z * list Z)) : Flow * MasterSession :=
  control_loop master_iteration ticks
    (mkMaster
      (mkSession (snd (set_read_timeout st read_timeout)) (rate_limiter_new epoch t0 t1 COMMAND_RATE_LIMIT_INTERVAL) t 0)
      None None nonces).

End master.

Section lemmas.
Context `{StreamCipherLib} `{RtlSdrLib}.

Lemma master_iteration_plain tick s w n :
  master_iteration None tick (mkMaster s None w n) =
    (fst (single_iteration tick s), mkMaster (snd (single_iteration tick s)) None w n).
Proof.
  unfold master_iteration, single_iteration. cbn [session].
  destruct (read_exact (stream s) COMMAND_HEADER_SIZE) as [[buf|e| |] st]; try done. cbv zeta.
  unfold master_received, with_session. cbn [read_cipher session _write_cipher encryption_nonces].
  destruct (exit_flag tick); [done|].
  destruct (rate_limiter_check (rate_limiter (with_stream s st)) (now tick)) as [[] rl]; [|done].
  unfold master_dispatch, single_dispatch, master_chain_detect. cbn [session]. cbv zeta.
  destruct (device_command _ _ _); [done|]. by destruct (nth 0 buf 0 =? CMD_CHAIN_DETECT).
Qed.

Lemma master_loop_plain ticks s w n :
  control_loop (master_iteration None) ticks (mkMaster s None w n) =
    (fst (control_loop single_iteration ticks s), mkMaster (snd (control_loop single_iteration ticks s)) None w n).
Proof.
  revert s; induction ticks as [|tick ticks IH]; intros s; [done|]. cbn [control_loop].
  rewrite master_iteration_plain. destruct (single_iteration tick s) as [[| | |] s1]; cbn [fst snd]; [apply IH | done..].
Qed.

Lemma server_nonce_exchange_rx (st st' : TcpStream) key nonce r :
  server_nonce_exchange st key nonce = (r, st') -> (rx_left st' <= rx_left st)%nat.
Proof.
  unfold server_nonce_exchange. destruct (read_exact st NONCE_SIZE) as [q s1] eqn:Er.
  apply read_exact_left in Er as [Hle _].
  destruct q as [bs|e| |]; cbn [bind_st]; try (intros E; by simplify_eq).
  pose proof (write_all_rx s1 nonce) as Hrx. destruct (write_all s1 nonce) as [q2 s2]. cbn [snd] in Hrx.
  assert (rx_left s2 = rx_left s1) by (unfold rx_left; by rewrite Hrx).
  destruct q2; cbn [bind_st]; intros E; simplify_eq; lia.
Qed.

(** Executing a command that is not a probe. *)
Lemma master_dispatch_executes key tick c m :
  command_ok c -> (forall tag, c <> ChainDetect tag) ->
  exists s', master_dispatch key tick (encode c) m = (Continue, with_session m s') /\
    abs s' = execute c (abs (session m)) /\ stream s' = stream (session m).
Proof.
  intros Hok Hnp. unfold master_dispatch. cbv zeta. rewrite device_command_meaning by done.
  unfold execute, abs. destruct c as [z|z|z|z|z|z|tag|op payload]; try (eexists; split; [reflexivity|done]).
  { by destruct (Hnp tag). }
  cbn [encode nth]. destruct Hok as [Hop _]. unfold known_op in Hop. apply bool_decide_eq_false in Hop.
  destruct (Z.eqb_spec op CMD_CHAIN_DETECT) as [->|_].
  - exfalso. apply Hop. set_solver.
  - eexists. split; [reflexivity|done].
Qed.

(** One iteration of an encrypted session on a command that has arrived. *)
Lemma master_iteration_decrypts key tick c k n p m rest :
  command_ok c -> (forall tag, c <> ChainDetect tag) -> exit_flag tick = false ->
  accepts (stream (session m)) -> read_cipher m = Some (mkCipher k n p) -> p + 5 <= keystream_end ->
  yields (stream (session m)) (xor_from k n p (encode c) ++ rest) ->
  exists m', master_iteration key tick m = (Continue, m') /\
    abs (session m') = receive (now tick) c (abs (session m)) /\
    accepts (stream (session m')) /\ read_cipher m' = Some (mkCipher k n (p + 5)) /\
    yields (stream (session m')) rest.
Proof.
  intros Hok Hnp Hex Ha Hc Hend Hy. unfold master_iteration.
  assert (Hlen : zlen (encode c) = 5) by (unfold zlen; by rewrite length_encode).
  destruct (read_exact_yields (stream (session m)) _ _ COMMAND_HEADER_SIZE Hy) as (st & Er & Hyr);
    [by rewrite length_xor_from, length_encode|].
  rewrite Er. destruct (read_exact_sent _ _ _ _ Er) as [Hs Ht].
  assert (Hast : accepts st) by (simpl in *; by rewrite Ht).
  cbn [read_cipher with_session]. cbv zeta. rewrite Hc.
  rewrite apply_keystream_ok by (cbn [cpos]; rewrite zlen_xor_from; lia).
  cbn [ckey cnonce cpos]. rewrite xor_from_involutive, zlen_xor_from, Hlen.
  unfold master_received, receive. rewrite Hex. cbn [session with_read_cipher with_session with_stream rate_limiter abs m_limiter].
  destruct (rate_limiter_check (rate_limiter (session m)) (now tick)) as [[] rl].
  - destruct (master_dispatch_executes key tick c (with_session (with_read_cipher
      (with_session m (with_stream (session m) st)) (Some (mkCipher k n (p + 5)))) (with_limiter (with_stream (session m) st) rl)))
      as (s' & E & Habs & Hst); [done | done |].
    eexists. split; [exact E|]. cbn [session with_session read_cipher with_read_cipher]. rewrite Habs, Hst.
    split_and!; try done. unfold abs. cbn. by rewrite Hs.
  - eexists. split; [reflexivity|]. split_and!; try done. unfold abs. cbn. by rewrite Hs.
Qed.

Lemma master_loop_decrypts key ticks cmds k n p m rest :
  length ticks = length cmds -> Forall command_ok cmds -> (forall tag, ChainDetect tag ∉ cmds) ->
  Forall (fun tick => exit_flag tick = false) ticks -> accepts (stream (session m)) ->
  read_cipher m = Some (mkCipher k n p) -> p + 5 * zlen cmds <= keystream_end ->
  yields (stream (session m)) (xor_from k n p (concat (map encode cmds)) ++ rest) ->
  exists m', control_loop (master_iteration key) ticks m = (Continue, m') /\
    abs (session m') = receive_all (zip (map now ticks) cmds) (abs (session m)) /\
    read_cipher m' = Some (mkCipher k n (p + 5 * zlen cmds)) /\ yields (stream (session m')) rest /\
    accepts (stream (session m')).
Proof.
  revert ticks p m. induction cmds as [|c cmds IH]; intros [|tick ticks] p m Hl Hok Hnp Hex Ha Hc Hend Hy; try done.
  { exists m. rewrite Hc. split; [done|]. split; [done|]. split; [|by split]. by rewrite Z.add_0_r. }
  inversion Hok; subst. inversion Hex; subst. rewrite zlen_cons in *.
  assert (Hlen : zlen (encode c) = 5) by (unfold zlen; by rewrite length_encode).
  pose proof (zlen_nonneg cmds). cbn [map concat] in Hy. rewrite xor_from_app, <- app_assoc, Hlen in Hy.
  destruct (master_iteration_decrypts key tick c k n p m (xor_from k n (p + 5) (concat (map encode cmds)) ++ rest))
    as (m1 & E & Habs & Ha1 & Hc1 & Hy1); try done; [intros tag ->; apply (Hnp tag); by left | lia |].
  destruct (IH ticks (p + 5) m1) as (m2 & E2 & Habs2 & Hc2 & Hy2 & Ha2); try done;
    [simpl in Hl; lia | intros tag Hin; apply (Hnp tag); by right | lia |].
  exists m2. cbn [control_loop]. rewrite E. split; [done|]. split; [|split; [|by split]].
  - rewrite Habs2. cbn [map zip zip_with receive_all]. by rewrite Habs.
  - rewrite Hc2. do 2 f_equal. lia.
Qed.

Lemma master_iteration_kept key I tick m :
  kept I -> holds I (tuner (session m)) -> holds I (tuner (session (snd (master_iteration key tick m)))).
Proof.
  intros HI Hm. unfold master_iteration.
  destruct (read_exact (stream (session m)) COMMAND_HEADER_SIZE) as [[buf|e| |] st]; try done. cbv zeta.
  assert (Hrec : forall b c, holds I (tuner (session (snd (master_received key tick b
    (with_read_cipher (with_session m (with_stream (session m) st)) c)))))).
  { intros b c. unfold master_received, master_dispatch, master_chain_detect. cbv zeta.
    destruct (exit_flag tick); [done|].
    destruct (rate_limiter_check _ _) as [[] rl]; [|done].
    destruct (device_command _ _ _) as [t|] eqn:E; [by eapply device_command_kept|].
    repeat case_match; done. }
  destruct (read_cipher (with_session m (with_stream (session m) st))) as [c|] eqn:Ec.
  - destruct (apply_keystream c buf) as [[buf' c']|]; [apply Hrec | done].
  - specialize (Hrec buf None). cbn in Ec. unfold with_read_cipher in Hrec. cbn in Hrec. unfold with_session.
    by rewrite Ec.
Qed.

(** The answer to a probe, with a key: the acknowledgement, the twelve bytes
    that follow the probe, the server's nonce. *)
Lemma probe_answered (st : TcpStream) (key my_nonce peer_nonce rest : list Z) :
  accepts st -> length peer_nonce = NONCE_SIZE -> yields st (peer_nonce ++ rest) ->
  exists st', server_nonce_exchange (snd (write_all st CHAIN_ACK)) key my_nonce = (Ok (my_nonce, peer_nonce), st') /\
    sent st' = sent st ++ CHAIN_ACK ++ my_nonce /\ accepts st' /\ yields st' rest.
Proof.
  intros Ha Hpn Hy. destruct (write_all_tcp st CHAIN_ACK Ha) as (st2 & E2 & Hs2 & Hr2 & Ha2 & _). rewrite E2. cbn [snd].
  unfold server_nonce_exchange.
  assert (Hy2 : yields st2 (peer_nonce ++ rest)) by (simpl in *; by rewrite Hr2).
  destruct (read_exact_yields st2 _ _ NONCE_SIZE Hy2 Hpn) as (st3 & E3 & Hy3). rewrite E3. cbn [bind_st].
  destruct (read_exact_sent _ _ _ _ E3) as [Hs3 Ht3].
  assert (Ha3 : accepts st3) by (simpl in *; by rewrite Ht3).
  destruct (write_all_tcp st3 my_nonce Ha3) as (st4 & E4 & Hs4 & Hr4 & Ha4 & _). rewrite E4. cbn [bind_st].
  exists st4. split; [done|]. split; [by rewrite Hs4, Hs3, Hs2, <- app_assoc|]. split; [done|]. simpl in *. by rewrite Hr4.
Qed.

(** The probe of a peer that then sends its nonce. *)
Lemma master_handshake (key tag my_nonce peer_nonce rest : list Z) (tick0 : Tick) (rl : RateLimiter) (m : MasterSession) :
  length tag = 4%nat -> length peer_nonce = NONCE_SIZE ->
  fresh_nonce tick0 = my_nonce -> nonces_free tick0 = true -> exit_flag tick0 = false ->
  rate_limiter_check (rate_limiter (session m)) (now tick0) = (true, rl) ->
  accepts (stream (session m)) -> read_cipher m = None ->
  yields (stream (session m)) (encode (ChainDetect tag) ++ peer_nonce ++ rest) ->
  exists s1, master_iteration (Some key) tick0 m = (Continue,
      mkMaster s1 (Some (chacha20_new key peer_nonce)) (Some (chacha20_new key my_nonce)) (Some (my_nonce, peer_nonce))) /\
    abs s1 = mkMachine rl (tuner (session m)) (unknown_command_count (session m))
      (sent (stream (session m)) ++ CHAIN_ACK ++ my_nonce) /\ accepts (stream s1) /\
    yields (stream s1) (rest).
Proof.
  intros Htag Hpn Hfresh Hfree Hex Hrl Ha Hc Hy.
  unfold master_iteration. destruct (read_command _ _ _ (Htag : command_ok (ChainDetect tag)) Ha Hy) as (st & -> & Hy1 & Ha1 & Hs1).
  cbv zeta. cbn [read_cipher with_session]. rewrite Hc. unfold master_received. rewrite Hex.
  cbn [session with_session with_stream rate_limiter]. rewrite Hrl. unfold master_dispatch. cbv zeta.
  cbn [session with_session]. rewrite device_command_meaning by exact Htag. cbn [encode nth]. rewrite Z.eqb_refl.
  unfold master_chain_detect. cbn [session with_session with_limiter with_stream stream]. cbv zeta.
  destruct (probe_answered st key (fresh_nonce tick0) peer_nonce rest Ha1 Hpn Hy1) as (st4 & E4 & Hs4 & Ha4 & Hy4).
  rewrite E4, Hfree, Hfresh. eexists. split; [reflexivity|]. split_and!; [|done|done].
  unfold abs. cbn. by rewrite Hs4, Hs1, Hfresh.
Qed.

Lemma master_iteration_left key tick m m' :
  master_iteration key tick m = (Continue, m') -> (rx_left (stream (session m')) < rx_left (stream (session m)))%nat.
Proof.
  unfold master_iteration. destruct (read_exact (stream (session m)) COMMAND_HEADER_SIZE) as [q st] eqn:Er.
  apply read_exact_left in Er as [_ Hlt]. specialize (Hlt ltac:(unfold COMMAND_HEADER_SIZE; lia)).
  destruct q as [buf|e| |]; cbv zeta; [|unfold read_failed| by intros | by intros].
  - specialize (Hlt ltac:(done) ltac:(done)).
    assert (Hrec : forall b c m', master_received key tick b (with_read_cipher (with_session m (with_stream (session m) st)) c)
      = (Continue, m') -> (rx_left (stream (session m')) <= rx_left st)%nat).
    { intros b c m2. unfold master_received, master_dispatch, master_chain_detect. cbv zeta.
      destruct (exit_flag tick); [done|].
      pose proof (write_all_rx st CHAIN_ACK) as Hw.
      repeat case_match; intros E; simplify_eq/=; try done; unfold rx_left in *; try (rewrite Hw; done);
        match goal with E : server_nonce_exchange _ _ _ = _ |- _ => apply server_nonce_exchange_rx in E end;
        unfold rx_left in *; rewrite Hw in *; done. }
    cbn [read_cipher with_session]. destruct (read_cipher m) as [c|] eqn:Ec.
    + destruct (apply_keystream c buf) as [[b c']|]; [|done]. intros E. apply Hrec in E. lia.
    + intros E. specialize (Hrec buf None m'). unfold with_read_cipher, with_session in *. cbn in *.
      rewrite Ec in *. apply Hrec in E. lia.
  - repeat case_match; intros E; simplify_eq/=. destruct e; try done; by apply Hlt.
Qed.

(** ** Properties *)

(** C37. Without a key a master's control thread is [run_serve_single]'s: the
    same flow and the same session for every traffic and schedule, and the
    ciphers and the shared nonces are untouched; what [Interpreter] proves of
    the one holds of the other. *)
Theorem master_without_key (ticks : list Tick) (s : Session) (w : option ChaCha20) (n : option (list Z * list Z)) :
  control_loop (master_iteration None) ticks (mkMaster s None w n) =
    (fst (control_loop single_iteration ticks s), mkMaster (snd (control_loop single_iteration ticks s)) None w n).
Proof.
  apply master_loop_plain.
Qed.

(** With or without a key, and for any bytes (decrypted or garbled by a
    lost byte), a master cannot make the server give the tuner a request
    outside the documented ranges. *)
Theorem master_keeps_limits (key : option (list Z)) (I : Controller -> Prop) (ticks : list Tick) (m : MasterSession) :
  kept I -> I (guarded (ctl (tuner (session m)))) ->
  I (guarded (ctl (tuner (session (snd (control_loop (master_iteration key) ticks m)))))).
Proof.
  intros HI Hm. apply (control_loop_invariant (master_iteration key) (fun m => holds I (tuner (session m)))); [|done].
  intros tick m0 Hm0. by apply master_iteration_kept.
Qed.

(** C11. An encrypted chain carries commands: a peer that probes, sends its
    nonce and then encrypts its commands under it, in one stream cut into any
    segments, gets the acknowledgement and the server's nonce, and the server
    executes these commands as the protocol machine does; the shared slot holds
    the two nonces for the I/Q writer. *)
Theorem encrypted_chain_commands (key tag my_nonce peer_nonce rest : list Z) (cmds : list Command)
    (tick0 : Tick) (ticks : list Tick) (rl : RateLimiter) (m : MasterSession) :
  length tag = 4%nat -> length peer_nonce = NONCE_SIZE ->
  fresh_nonce tick0 = my_nonce -> nonces_free tick0 = true -> exit_flag tick0 = false ->
  rate_limiter_check (rate_limiter (session m)) (now tick0) = (true, rl) ->
  length ticks = length cmds -> Forall command_ok cmds -> (forall tag, ChainDetect tag ∉ cmds) ->
  Forall (fun tick => exit_flag tick = false) ticks ->
  accepts (stream (session m)) -> read_cipher m = None -> 5 * zlen cmds <= keystream_end ->
  yields (stream (session m))
    (encode (ChainDetect tag) ++ peer_nonce ++ xor_from key peer_nonce 0 (concat (map encode cmds)) ++ rest) ->
  exists m', control_loop (master_iteration (Some key)) (tick0 :: ticks) m = (Continue, m') /\
    encryption_nonces (snd (master_iteration (Some key) tick0 m)) = Some (my_nonce, peer_nonce) /\
    abs (session m') = receive_all (zip (map now ticks) cmds)
      (mkMachine rl (tuner (session m)) (unknown_command_count (session m))
         (sent (stream (session m)) ++ CHAIN_ACK ++ my_nonce)).
Proof.
  intros Htag Hpn Hfresh Hfree Hex Hrl Hl Hok Hnp Hexs Ha Hc Hend Hy.
  destruct (master_handshake key tag my_nonce peer_nonce (xor_from key peer_nonce 0 (concat (map encode cmds)) ++ rest)
    tick0 rl m) as (s1 & E & Habs & Ha1 & Hy1); try done.
  destruct (master_loop_decrypts (Some key) ticks cmds key peer_nonce 0
    (mkMaster s1 (Some (chacha20_new key peer_nonce)) (Some (chacha20_new key my_nonce)) (Some (my_nonce, peer_nonce))) rest)
    as (m2 & E2 & Habs2 & _ & _); try done.
  exists m2. cbn [control_loop]. rewrite E. split_and!; [done | done |]. rewrite Habs2. cbn [session]. by rewrite Habs.
Qed.

(** A master's control thread ends too, with or without a key, once the
    peer's traffic is exhausted. *)
Lemma master_control_loop_ends (key : option (list Z)) (ticks : list Tick) (m : MasterSession) :
  (rx_left (stream (session m)) < length ticks)%nat -> fst (control_loop (master_iteration key) ticks m) <> Continue.
Proof.
  intros Hl. apply (control_loop_ends (master_iteration key) (fun m => rx_left (stream (session m)))); [|done].
  intros tick m0 m1 E. by apply master_iteration_left in E.
Qed.

End lemmas.

Section witnesses.
#[local] Existing Instance log_tuner.
#[local] Existing Instance toy_cipher.

Lemma master_keeps_limits_witness :
  let m := mkMaster (idle_session [Data [1; 255; 255; 255; 255; 5; 0; 0; 0; 9]]) (Some (chacha20_new [1] [2])) None None in
  let ticks := map (fun t => tick_at (from_millis t) false) [50; 100] in
  log_ok (guarded (ctl (tuner (session (snd (control_loop (master_iteration (Some [1])) ticks m)))))).
Proof.
  intros m ticks.
  apply (@master_keeps_limits toy_cipher log_tuner (Some [1]) log_ok ticks m); [exact log_ok_kept | constructor].
Defined.

Lemma encrypted_chain_commands_witness :
  let peer := replicate 12 6 in let mine := replicate 12 5 in
  let cmds := [SetFrequency 100000000; SetPpm (-7)] in
  let bytes := encode (ChainDetect [80; 82; 79; 88]) ++ peer ++ xor_from [1] peer 0 (concat (map encode cmds)) ++ [9] in
  let m := mkMaster (idle_session [Data (take 13 bytes); RErr Interrupted; Data (drop 13 bytes)]) None None None in
  let tick0 := mkTick false (from_millis 50) mine true in
  let ticks := map (fun t => tick_at (from_millis t) false) [100; 150] in
  exists m', control_loop (master_iteration (Some [1])) (tick0 :: ticks) m = (Continue, m') /\
    encryption_nonces (snd (master_iteration (Some [1]) tick0 m)) = Some (mine, peer) /\
    abs (session m') = mkMachine (mkRateLimiter (from_millis 150) COMMAND_RATE_LIMIT_INTERVAL)
      (mkTuner (mkMutex [CorrectBy (-7); TuneTo 100000000] false) agc_new) 0 ([] ++ CHAIN_ACK ++ mine).
Proof.
  intros peer mine cmds bytes m tick0 ticks.
  apply (encrypted_chain_commands [1] [80; 82; 79; 88] mine peer [9] cmds tick0 ticks
    (mkRateLimiter (from_millis 50) COMMAND_RATE_LIMIT_INTERVAL) m); try reflexivity.
  - repeat constructor; by vm_compute.
  - intros tag Hin. repeat (apply elem_of_cons in Hin as [Hin|Hin]; [done|]). by apply not_elem_of_nil in Hin.
  - by repeat constructor.
  - constructor.
  - by vm_compute.
  - split; [|reflexivity]. by repeat constructor.
Defined.

End witnesses.
