(* ===== verification/Proxy.v ===== *)
(** * Connecting to the upstream server

    Models [src/proxy.rs]: the connection, the magic packet, the probe that
    detects a chain, and the handshake of an encrypted one.  [connect] is
    [TcpStream::connect] and [io_display] the text of an I/O error, both the
    operating system's; [nonce] is what [generate_nonce] draws. *)

From S2P Require Import Prelude Bytes Io Net Ip Error Control Encryption Commands.
From stdpp Require Import strings.
#[local] Open Scope Z_scope.

Section proxy.
Context `{StreamCipherLib} (io_display : ErrorKind -> string).

Record UpstreamConnection : Type := mkUpstream {
  up_stream : TcpStream;
  is_chain : bool;
  up_read_cipher : option ChaCha20;
  up_write_cipher : option ChaCha20;
  magic_packet : list Z
}.

(** The probe: the opcode and "PROX". *)
Definition CHAIN_PROBE : list Z := [CMD_CHAIN_DETECT; 0x50; 0x52; 0x4F; 0x58].

(** Whether the upstream acknowledges; whatever else happens to the read is a
    plain upstream, with the timeout of a plain connection. *)
Definition detect_chain (stream : TcpStream) : res bool RtlTcpError * TcpStream :=
  match read_exact stream 5 with
  | (Panic, stream) => (Panic, stream)
  | (Diverged, stream) => (Diverged, stream)
  | (Ok ack, stream) =>
    if nth 0 ack 0 =? CMD_CHAIN_DETECT then (Ok true, stream)
    else let? _ @ stream := lift_io (set_read_timeout stream (from_secs 30)) in (Ok false, stream)
  | (Err _, stream) =>
    let? _ @ stream := lift_io (set_read_timeout stream (from_secs 30)) in (Ok false, stream)
  end.

Definition network {A S} (what : string) (c : io A * S) : res A RtlTcpError * S :=
  (map_err (fun e => Network (what +:+ io_display e)) (fst c), snd c).

(** [connect_upstream] after the connection is open. *)
Definition upstream_session (key : option (list Z)) (timeout : Z) (nonce : list Z) (stream : TcpStream)
    : res UpstreamConnection RtlTcpError * TcpStream :=
  let? _ @ stream := lift_io (set_read_timeout stream timeout) in
  let? magic @ stream := network "failed to read upstream magic: " (read_exact stream 12) in
  let? _ @ stream := lift_io (write_all stream CHAIN_PROBE) in
  let? chain @ stream := detect_chain stream in
  let? encryption_key @ stream :=
    match chain, key with
    | true, Some enc_key =>
      let? nonces @ stream := network "nonce exchange failed: " (nonce_exchange stream enc_key nonce) in
      (Ok (Some (enc_key, fst nonces, snd nonces)), stream)
    | _, _ => (Ok None, stream)
    end in
  let? _ @ stream := lift_io (set_read_timeout stream (from_secs 30)) in
  let ciphers :=
    match encryption_key with
    | Some (enc_key, my_nonce, peer_nonce) =>
      (Some (chacha20_new enc_key peer_nonce), Some (chacha20_new enc_key my_nonce))
    | None => (None, None)
    end in
  (Ok (mkUpstream stream chain (fst ciphers) (snd ciphers) magic), stream).

Definition connect_upstream (connect : string -> io TcpStream) (host : string) (port : Z)
    (key : option (list Z)) (timeout : Z) (nonce : list Z) : res UpstreamConnection RtlTcpError :=
  let addr := (host +:+ ":" +:+ u16_to_string port)%string in
  let? stream := map_err (fun e => Network ("failed to connect upstream: " +:+ io_display e)) (connect addr) in
  fst (upstream_session key timeout nonce stream).

(** ** Lemmas *)

Lemma set_read_timeout_ok (st : TcpStream) d :
  d <> 0 -> set_read_timeout st d = (Ok tt, mkTcp (rx st) (tx st) (sent st) (Some d) (wto st)).
Proof. intros Hd. unfold set_read_timeout. by destruct (Z.eqb_spec d 0). Qed.

(** A step of the dialogue: the next [n] bytes of the upstream. *)
Lemma read_next (st : TcpStream) bs rest n :
  yields st (bs ++ rest) -> length bs = n -> accepts st ->
  exists st', read_exact st n = (Ok bs, st') /\ yields st' rest /\ accepts st' /\ sent st' = sent st.
Proof.
  intros Hy Hl Ha. destruct (read_exact_yields st bs rest n Hy Hl) as (st' & E & Hy').
  destruct (read_exact_sent _ _ _ _ E) as [Hs Ht]. exists st'. split_and!; try done. simpl in *. by rewrite Ht.
Qed.

Lemma say (st : TcpStream) buf rest :
  yields st rest -> accepts st ->
  exists st', write_all st buf = (Ok tt, st') /\ yields st' rest /\ accepts st' /\ sent st' = sent st ++ buf.
Proof.
  intros Hy Ha. destruct (write_all_accepts st buf Ha) as (st' & E & (Hs & Hr & _ & _) & Ha').
  exists st'. split_and!; try done. simpl in *. by rewrite Hr.
Qed.

(** The magic packet and the probe. *)
Lemma upstream_opening key timeout nonce (st : TcpStream) magic rest :
  timeout <> 0 -> length magic = 12%nat -> yields st (magic ++ rest) -> accepts st ->
  exists st', yields st' rest /\ accepts st' /\ sent st' = sent st ++ CHAIN_PROBE /\
    upstream_session key timeout nonce st =
      (let? chain @ stream := detect_chain st' in
       let? encryption_key @ stream :=
         match chain, key with
         | true, Some enc_key =>
           let? nonces @ stream := network "nonce exchange failed: " (nonce_exchange stream enc_key nonce) in
           (Ok (Some (enc_key, fst nonces, snd nonces)), stream)
         | _, _ => (Ok None, stream)
         end in
       let? _ @ stream := lift_io (set_read_timeout stream (from_secs 30)) in
       let ciphers :=
         match encryption_key with
         | Some (enc_key, my_nonce, peer_nonce) =>
           (Some (chacha20_new enc_key peer_nonce), Some (chacha20_new enc_key my_nonce))
         | None => (None, None)
         end in
       (Ok (mkUpstream stream chain (fst ciphers) (snd ciphers) magic), stream)).
Proof.
  intros Ht Hm Hy Ha. unfold upstream_session. rewrite set_read_timeout_ok by done. cbn [lift_io fst snd map_err bind_st].
  destruct (read_next (mkTcp (rx st) (tx st) (sent st) (Some timeout) (wto st)) magic rest 12 Hy Hm Ha)
    as (s1 & E1 & Hy1 & Ha1 & Hs1). rewrite E1. unfold network at 1. cbn [fst snd map_err bind_st].
  destruct (say s1 CHAIN_PROBE rest Hy1 Ha1) as (s2 & E2 & Hy2 & Ha2 & Hs2). rewrite E2.
  exists s2. split_and!; [done | done | by rewrite Hs2, Hs1 | reflexivity].
Qed.

(** An upstream that acknowledges the probe. *)
Lemma upstream_is_chain key timeout nonce (st : TcpStream) magic ack peer_nonce rest :
  timeout <> 0 -> accepts st -> length magic = 12%nat -> length ack = 5%nat -> nth 0 ack 0 = CMD_CHAIN_DETECT ->
  (key <> None -> length peer_nonce = NONCE_SIZE) -> yields st (magic ++ ack ++ peer_nonce ++ rest) ->
  exists conn st', upstream_session key timeout nonce st = (Ok conn, st') /\
    is_chain conn = true /\ magic_packet conn = magic /\ rto (up_stream conn) = Some (from_secs 30) /\
    accepts (up_stream conn) /\
    match key with
    | None => up_read_cipher conn = None /\ up_write_cipher conn = None /\
        sent (up_stream conn) = sent st ++ CHAIN_PROBE /\ yields (up_stream conn) (peer_nonce ++ rest)
    | Some k => up_read_cipher conn = Some (chacha20_new k peer_nonce) /\
        up_write_cipher conn = Some (chacha20_new k nonce) /\
        sent (up_stream conn) = sent st ++ CHAIN_PROBE ++ nonce /\ yields (up_stream conn) rest
    end.
Proof.
  intros Ht Ha Hm Hack Hf0 Hp Hy.
  destruct (upstream_opening key timeout nonce st magic _ Ht Hm Hy Ha) as (s1 & Hy1 & Ha1 & Hs1 & ->).
  unfold detect_chain. destruct (read_next s1 ack _ 5 Hy1 Hack Ha1) as (s2 & E2 & Hy2 & Ha2 & Hs2).
  rewrite E2, Hf0, Z.eqb_refl. cbn [bind_st]. destruct key as [k|].
  - unfold nonce_exchange. destruct (say s2 nonce _ Hy2 Ha2) as (s3 & E3 & Hy3 & Ha3 & Hs3). rewrite E3. cbn [bind_st].
    destruct (read_next s3 peer_nonce rest NONCE_SIZE Hy3 (Hp ltac:(done)) Ha3) as (s4 & E4 & Hy4 & Ha4 & Hs4). rewrite E4.
    cbn [bind_st network fst snd map_err]. rewrite set_read_timeout_ok by done. cbn.
    eexists _, _. split; [reflexivity|]. split_and!; try done; [| by destruct Hy4 | by destruct Hy4].
    cbn. by rewrite Hs4, Hs3, Hs2, Hs1, <- app_assoc.
  - cbn [bind_st]. rewrite set_read_timeout_ok by done. cbn. eexists _, _. split; [reflexivity|].
    split_and!; try done; [| by destruct Hy2 | by destruct Hy2]. cbn. by rewrite Hs2, Hs1.
Qed.

(** An upstream that answers the probe with something else. *)
Lemma upstream_is_plain key timeout nonce (st : TcpStream) magic five rest :
  timeout <> 0 -> accepts st -> length magic = 12%nat -> length five = 5%nat -> nth 0 five 0 <> CMD_CHAIN_DETECT ->
  yields st (magic ++ five ++ rest) ->
  exists conn st', upstream_session key timeout nonce st = (Ok conn, st') /\
    is_chain conn = false /\ magic_packet conn = magic /\ up_read_cipher conn = None /\ up_write_cipher conn = None /\
    sent (up_stream conn) = sent st ++ CHAIN_PROBE /\ rto (up_stream conn) = Some (from_secs 30) /\
    yields (up_stream conn) rest.
Proof.
  intros Ht Ha Hm Hack Hf0 Hy.
  destruct (upstream_opening key timeout nonce st magic _ Ht Hm Hy Ha) as (s1 & Hy1 & Ha1 & Hs1 & ->).
  unfold detect_chain. destruct (read_next s1 five _ 5 Hy1 Hack Ha1) as (s2 & E2 & Hy2 & Ha2 & Hs2).
  rewrite E2. destruct (Z.eqb_spec (nth 0 five 0) CMD_CHAIN_DETECT); [done|].
  rewrite set_read_timeout_ok by done. cbn. rewrite set_read_timeout_ok by done. cbn.
  eexists _, _. split; [reflexivity|]. split_and!; try done; [| by destruct Hy2 | by destruct Hy2]. cbn. by rewrite Hs2, Hs1.
Qed.

(** ** Properties *)

(** C34. A chain: an upstream that sends its magic packet and then five bytes
    that begin with the probe's opcode is taken for a chain. Without a key the
    connection is plain; with one, the next twelve bytes are taken for its
    nonce, ours is sent, and the ciphers are those of the two nonces. In both
    cases nothing else is sent, nothing more is consumed, and reads time out
    after 30 seconds. *)
Theorem connect_upstream_chain (connect : string -> io TcpStream) (host : string) (port timeout : Z) (key : option (list Z))
    (nonce magic ack peer_nonce rest : list Z) (st : TcpStream) :
  connect (host +:+ ":" +:+ u16_to_string port) = Ok st -> timeout <> 0 -> accepts st ->
  length magic = 12%nat -> length ack = 5%nat -> nth 0 ack 0 = CMD_CHAIN_DETECT ->
  length peer_nonce = NONCE_SIZE -> yields st (magic ++ ack ++ peer_nonce ++ rest) ->
  exists conn, connect_upstream connect host port key timeout nonce = Ok conn /\
    is_chain conn = true /\ magic_packet conn = magic /\ rto (up_stream conn) = Some (from_secs 30) /\
    match key with
    | None => up_read_cipher conn = None /\ up_write_cipher conn = None /\
        sent (up_stream conn) = sent st ++ CHAIN_PROBE /\ yields (up_stream conn) (peer_nonce ++ rest)
    | Some k => up_read_cipher conn = Some (chacha20_new k peer_nonce) /\
        up_write_cipher conn = Some (chacha20_new k nonce) /\
        sent (up_stream conn) = sent st ++ CHAIN_PROBE ++ nonce /\ yields (up_stream conn) rest
    end.
Proof.
  intros Hc Ht Ha Hm Hack Hf0 Hp Hy. unfold connect_upstream. cbv zeta. rewrite Hc. cbn [map_err bind].
  destruct (upstream_is_chain key timeout nonce st magic ack peer_nonce rest) as (conn & st' & -> & Hch & Hmp & Hto & _ & Hk); try done.
  exists conn. by split_and!.
Qed.

(** A plain upstream: the five bytes that answer the probe, when they are
    not an acknowledgement, are lost to the stream, and the connection goes on
    unencrypted even when a key was given. *)
Theorem connect_upstream_plain (connect : string -> io TcpStream) (host : string) (port timeout : Z) (key : option (list Z))
    (nonce magic five rest : list Z) (st : TcpStream) :
  connect (host +:+ ":" +:+ u16_to_string port) = Ok st -> timeout <> 0 -> accepts st ->
  length magic = 12%nat -> length five = 5%nat -> nth 0 five 0 <> CMD_CHAIN_DETECT ->
  yields st (magic ++ five ++ rest) ->
  exists conn, connect_upstream connect host port key timeout nonce = Ok conn /\
    is_chain conn = false /\ magic_packet conn = magic /\ up_read_cipher conn = None /\ up_write_cipher conn = None /\
    sent (up_stream conn) = sent st ++ CHAIN_PROBE /\ rto (up_stream conn) = Some (from_secs 30) /\
    yields (up_stream conn) rest.
Proof.
  intros Hc Ht Ha Hm Hack Hf0 Hy. unfold connect_upstream. cbv zeta. rewrite Hc. cbn [map_err bind].
  destruct (upstream_is_plain key timeout nonce st magic five rest) as (conn & st' & -> & Hplain); try done.
  by exists conn.
Qed.

(** A silent or unreachable upstream: one that answers the probe with at
    most four bytes before a read error is plain, its bytes lost; one that
    closes before the end of the magic packet, or refuses the connection, is a
    network error that says which. *)
Theorem connect_upstream_failures (connect : string -> io TcpStream) (host : string) (port timeout : Z) (key : option (list Z))
    (nonce magic part : list Z) (e : ErrorKind) (evs : list rx_event) (st : TcpStream) :
  connect (host +:+ ":" +:+ u16_to_string port) = Ok st -> timeout <> 0 -> accepts st ->
  (rx st = [Data magic; Data part; RErr e] ++ evs -> length magic = 12%nat -> (0 < length part < 5)%nat -> e <> Interrupted ->
   exists conn, connect_upstream connect host port key timeout nonce = Ok conn /\ is_chain conn = false /\
     up_write_cipher conn = None /\ rx (up_stream conn) = evs) /\
  (forall bs, yields st bs -> (length bs < 12)%nat ->
   connect_upstream connect host port key timeout nonce =
     Err (Network ("failed to read upstream magic: " +:+ io_display UnexpectedEof))) /\
  (forall k, connect_upstream (fun _ => Err k) host port key timeout nonce =
     Err (Network ("failed to connect upstream: " +:+ io_display k))).
Proof.
  intros Hc Ht Ha. unfold connect_upstream. cbv zeta. rewrite Hc. cbn [map_err bind]. split_and!; [| |done].
  - intros Hrx Hm Hp He. unfold upstream_session. rewrite set_read_timeout_ok by done. cbn [lift_io fst snd map_err bind_st].
    assert (E1 : read_exact (mkTcp (rx st) (tx st) (sent st) (Some timeout) (wto st)) 12 =
      (Ok magic, mkTcp (Data part :: RErr e :: evs) (tx st) (sent st) (Some timeout) (wto st))).
    { unfold read_exact. cbn [Nat.add read_exact_loop read TcpStream_Read]. unfold tcp_read at 1. cbn [rx].
      rewrite Hrx. cbn [app]. rewrite Hm. cbn [Nat.leb].
      destruct magic as [|b m]; [done|]. rewrite Hm. cbn [Nat.sub]. done. }
    rewrite E1. unfold network at 1. cbn [fst snd map_err bind_st].
    set (s1 := mkTcp _ _ _ _ _). assert (Ha1 : accepts s1) by exact Ha.
    destruct (write_all_accepts s1 CHAIN_PROBE Ha1) as (s2 & E2 & (Hs2 & Hr2 & _ & _) & Ha2). rewrite E2. cbn [lift_io fst snd map_err bind_st].
    cbn [rx s1] in Hr2. unfold detect_chain.
    assert (E3 : read_exact s2 5 = (Err e, with_rx s2 evs)).
    { unfold read_exact. cbn [Nat.add read_exact_loop read TcpStream_Read]. unfold tcp_read at 1. rewrite Hr2.
      destruct (Nat.leb_spec (length part) 5); [|lia]. destruct part as [|b part]; [simpl in Hp; lia|].
      destruct (5 - length (b :: part))%nat as [|n] eqn:En; [simpl in *; lia|].
      cbn [read_exact_loop read TcpStream_Read]. unfold tcp_read. cbn. by destruct e. }
    rewrite E3. rewrite set_read_timeout_ok by done. cbn. rewrite set_read_timeout_ok by done. cbn.
    eexists. split; [reflexivity|]. done.
  - intros bs Hy Hl. unfold upstream_session. rewrite set_read_timeout_ok by done. cbn [lift_io fst snd map_err bind_st].
    assert (Hy' : yields (mkTcp (rx st) (tx st) (sent st) (Some timeout) (wto st)) bs) by exact Hy.
    destruct (read_exact_short _ bs 12 Hy' Hl) as (s1 & E1 & _).
    by rewrite E1.
Qed.

End proxy.

Section witnesses.
#[local] Existing Instance toy_cipher.

Definition some_text (e : ErrorKind) : string := "error".
Definition upstream_of (evs : list rx_event) (addr : string) : io TcpStream :=
  if bool_decide (addr = "radio:1234") then Ok (mkTcp evs [] [] None None) else Err OtherError.

Lemma connect_upstream_chain_witness :
  let bytes := MAGIC_PACKET ++ CHAIN_ACK ++ replicate 12 6 ++ [1; 2] in
  let evs := [Data (take 15 bytes); RErr Interrupted; Data (drop 15 bytes)] in
  exists conn, connect_upstream some_text (upstream_of evs) "radio" 1234 (Some [7]) (from_millis 500) (replicate 12 5) = Ok conn /\
    is_chain conn = true /\ magic_packet conn = MAGIC_PACKET /\ rto (up_stream conn) = Some (from_secs 30) /\
    up_read_cipher conn = Some (chacha20_new [7] (replicate 12 6)) /\
    up_write_cipher conn = Some (chacha20_new [7] (replicate 12 5)) /\
    sent (up_stream conn) = [] ++ CHAIN_PROBE ++ replicate 12 5 /\ yields (up_stream conn) [1; 2].
Proof.
  intros bytes evs.
  apply (connect_upstream_chain some_text (upstream_of evs) "radio" 1234 (from_millis 500) (Some [7])
    (replicate 12 5) MAGIC_PACKET CHAIN_ACK (replicate 12 6) [1; 2] (mkTcp evs [] [] None None)); try reflexivity.
  - done.
  - constructor.
  - split; [|reflexivity]. by repeat constructor.
Defined.

Lemma connect_upstream_plain_witness :
  let evs := [Data MAGIC_PACKET; Data [127; 128; 127]; Data [129; 126; 127; 127]] in
  exists conn, connect_upstream some_text (upstream_of evs) "radio" 1234 (Some [7]) (from_millis 500) (replicate 12 5) = Ok conn /\
    is_chain conn = false /\ magic_packet conn = MAGIC_PACKET /\ up_read_cipher conn = None /\ up_write_cipher conn = None /\
    sent (up_stream conn) = [] ++ CHAIN_PROBE /\ rto (up_stream conn) = Some (from_secs 30) /\
    yields (up_stream conn) [127; 127].
Proof.
  intros evs.
  apply (connect_upstream_plain some_text (upstream_of evs) "radio" 1234 (from_millis 500) (Some [7])
    (replicate 12 5) MAGIC_PACKET [127; 128; 127; 129; 126] [127; 127] (mkTcp evs [] [] None None)); try reflexivity.
  - done.
  - constructor.
  - done.
  - split; [|reflexivity]. by repeat constructor.
Defined.

Lemma connect_upstream_failures_witness :
  let evs := [Data MAGIC_PACKET; Data [127; 128; 127]; RErr WouldBlock; Data [129; 126]] in
  exists conn, connect_upstream some_text (upstream_of evs) "radio" 1234 None (from_millis 500) [] = Ok conn /\
    is_chain conn = false /\ up_write_cipher conn = None /\ rx (up_stream conn) = [Data [129; 126]].
Proof.
  intros evs.
  apply (proj1 (connect_upstream_failures some_text (upstream_of evs) "radio" 1234 (from_millis 500) None [] MAGIC_PACKET
    [127; 128; 127] WouldBlock [Data [129; 126]] (mkTcp evs [] [] None None) eq_refl ltac:(done) ltac:(constructor)));
    try reflexivity; done || (simpl; lia).
Defined.

End witnesses.
