(* ===== verification/Relay.v ===== *)
(** * The proxy's relays

    Models the two threads of [run_proxy_multi] that carry data: the upstream
    reader, which broadcasts what it reads, and the master's control thread,
    which forwards the commands it admits, encrypted when the upstream is an
    encrypted chain. *)

From S2P Require Import Prelude Bytes Io Net Error Control Encryption Stream Commands Protocol Interpreter Master.
#[local] Open Scope Z_scope.

(** ** The upstream reader *)

Section upstream_reader.
Context `{BroadcastLib}.

Record Reader : Type := mkReader { upstream_reader_stream : TcpStream; tx_chan : Chan; signalled : bool }.

Inductive ReaderStop : Type := ReaderExit | UpstreamClosed | UpstreamError (e : ErrorKind) | ReaderPanic | ReaderHung.

Definition READ_BUFFER : nat := Z.to_nat (512 * 1024).

Lemma read_buffer_size : Z.of_nat READ_BUFFER = 524288.
Proof. unfold READ_BUFFER. by rewrite Z2Nat.id. Qed.

(** One iteration: the exit flag it loads, then the read. *)
Definition reader_iteration (exit : bool) (r : Reader) : option ReaderStop * Reader :=
  if exit then (Some ReaderExit, r)
  else
    match read (upstream_reader_stream r) READ_BUFFER with
    | (Ok [], st) => (Some UpstreamClosed, mkReader st (tx_chan r) (signalled r))
    | (Ok bs, st) => (None, mkReader st (send (tx_chan r) bs) (signalled r))
    | (Err e, st) =>
      if is_timeout e then (None, mkReader st (tx_chan r) (signalled r))
      else (Some (UpstreamError e), mkReader st (tx_chan r) true)
    | (Panic, st) => (Some ReaderPanic, mkReader st (tx_chan r) (signalled r))
    | (Diverged, st) => (Some ReaderHung, mkReader st (tx_chan r) (signalled r))
    end.

Fixpoint upstream_reader (exits : list bool) (r : Reader) : option ReaderStop * Reader :=
  match exits with
  | [] => (None, r)
  | exit :: rest =>
    match reader_iteration exit r with
    | (None, r') => upstream_reader rest r'
    | stop => stop
    end
  end.

(** The bytes the peer's script still holds. *)
Lemma tcp_read_bytes (st st' : TcpStream) n r :
  read st n = (r, st') ->
  rx_bytes (rx st) = (match r with Ok bs => bs | _ => [] end) ++ rx_bytes (rx st').
Proof.
  cbn. unfold tcp_read. destruct (rx st) as [|[bs|e] evs] eqn:E; [intros; simplify_eq; by rewrite E| |].
  - change (rx_bytes (Data bs :: evs)) with (bs ++ rx_bytes evs).
    destruct (length bs <=? n)%nat; intros; simplify_eq; [done|]. cbn [rx with_rx].
    change (rx_bytes (Data (drop n bs) :: evs)) with (drop n bs ++ rx_bytes evs). by rewrite app_assoc, take_drop.
  - intros; by simplify_eq.
Qed.

Lemma upstream_reader_relays exits r stop r' :
  upstream_reader exits r = (stop, r') ->
  exists ms, history (tx_chan r') = history (tx_chan r) ++ ms /\
    rx_bytes (rx (upstream_reader_stream r)) = concat ms ++ rx_bytes (rx (upstream_reader_stream r')).
Proof.
  revert r. induction exits as [|exit exits IH]; intros r; cbn [upstream_reader].
  { intros; simplify_eq. exists []. by rewrite app_nil_r. }
  unfold reader_iteration. destruct exit; [intros; simplify_eq; exists []; by rewrite app_nil_r|].
  destruct (read (upstream_reader_stream r) READ_BUFFER) as [q st] eqn:Er. apply tcp_read_bytes in Er. rewrite Er.
  destruct q as [[|b bs]|e| |]; try (intros; simplify_eq; exists []; by rewrite app_nil_r).
  - intros E. apply IH in E as (ms & Hh & Hb). cbn [tx_chan upstream_reader_stream] in *.
    rewrite (proj1 (send_law _ _)) in Hh. exists ((b :: bs) :: ms). rewrite Hh, Hb, <- app_assoc. split; [done|].
    cbn [concat]. by rewrite <- app_assoc.
  - destruct (is_timeout e); [|intros; simplify_eq; exists []; by rewrite app_nil_r].
    intros E. apply IH in E as (ms & Hh & Hb). by exists ms.
Qed.

End upstream_reader.

(** ** The forwarding control thread *)

Section forward.
Context `{StreamCipherLib}.

Record Forwarder : Type := mkForwarder {
  master_stream : TcpStream;
  rl : RateLimiter;
  write_cipher : Mutex (option ChaCha20);
  ustream : Mutex TcpStream
}.

(** The lock of the cipher is recovered when poisoned; that of the upstream is
    not. *)
Definition forward (buf : list Z) (f : Forwarder) : Flow * Forwarder :=
  let out :=
    match guarded (write_cipher f) with
    | Some cipher =>
      match apply_keystream cipher buf with
      | Some (enc, cipher) => Some (enc, Some cipher)
      | None => None
      end
    | None => Some (buf, None)
    end in
  match out with
  | None => (Panicked, mkForwarder (master_stream f) (rl f) (mkMutex (guarded (write_cipher f)) true) (ustream f))
  | Some (buf, cipher) =>
    let wc := mkMutex cipher (poisoned (write_cipher f)) in
    if poisoned (ustream f) then (Break LockPoisoned, mkForwarder (master_stream f) (rl f) wc (ustream f))
    else
      match write_all (guarded (ustream f)) buf with
      | (Ok _, u) => (Continue, mkForwarder (master_stream f) (rl f) wc (mkMutex u false))
      | (Err _, u) => (Break ForwardFailed, mkForwarder (master_stream f) (rl f) wc (mkMutex u false))
      | (Panic, u) => (Panicked, mkForwarder (master_stream f) (rl f) wc (mkMutex u true))
      | (Diverged, u) => (Blocked, mkForwarder (master_stream f) (rl f) wc (mkMutex u false))
      end
  end.

Definition forward_iteration (tick : Tick) (f : Forwarder) : Flow * Forwarder :=
  match read_exact (master_stream f) COMMAND_HEADER_SIZE with
  | (Ok buf, st) =>
    let f := mkForwarder st (rl f) (write_cipher f) (ustream f) in
    if exit_flag tick then (Break ExitSet, f)
    else
      match rate_limiter_check (rl f) (now tick) with
      | (false, rl) => (Continue, mkForwarder st rl (write_cipher f) (ustream f))
      | (true, rl) => forward buf (mkForwarder st rl (write_cipher f) (ustream f))
      end
  | (Err e, st) => (read_failed e, mkForwarder st (rl f) (write_cipher f) (ustream f))
  | (Panic, st) => (Panicked, mkForwarder st (rl f) (write_cipher f) (ustream f))
  | (Diverged, st) => (Blocked, mkForwarder st (rl f) (write_cipher f) (ustream f))
  end.

(** The blocks that pass a limiter. *)
Fixpoint admitted {A} (rl : RateLimiter) (arrivals : list (Z * A)) : list A :=
  match arrivals with
  | [] => []
  | (at_, a) :: rest =>
    match rate_limiter_check rl at_ with
    | (true, rl') => a :: admitted rl' rest
    | (false, rl') => admitted rl' rest
    end
  end.

Lemma admitted_map {A B} (g : A -> B) rl nows l : admitted rl (zip nows (map g l)) = map g (admitted rl (zip nows l)).
Proof.
  revert rl l; induction nows as [|n nows IH]; intros rl [|a l]; try done. cbn.
  destruct (rate_limiter_check rl n) as [[] rl']; cbn; by rewrite IH.
Qed.

Lemma admitted_sublist {A} rl nows (l : list A) : length nows = length l -> admitted rl (zip nows l) `sublist_of` l.
Proof.
  revert rl l; induction nows as [|n nows IH]; intros rl [|a l] Hl; try done. cbn. simpl in Hl.
  destruct (rate_limiter_check rl n) as [[] rl']; [apply sublist_skip | apply sublist_cons]; apply IH; lia.
Qed.

(** What the wire carries of a block: itself, or its encryption. *)
Definition on_wire (c : option ChaCha20) (bs : list Z) : list Z :=
  match c with Some c => xor_from (ckey c) (cnonce c) (cpos c) bs | None => bs end.
Definition advance (c : option ChaCha20) (n : Z) : option ChaCha20 :=
  match c with Some c => Some (mkCipher (ckey c) (cnonce c) (cpos c + n)) | None => None end.
Definition room (c : option ChaCha20) (n : Z) : Prop :=
  match c with Some c => cpos c + n <= keystream_end | None => True end.

Lemma forward_ok buf f :
  poisoned (ustream f) = false -> accepts (guarded (ustream f)) -> room (guarded (write_cipher f)) (zlen buf) ->
  exists u, forward buf f = (Continue, mkForwarder (master_stream f) (rl f)
      (mkMutex (advance (guarded (write_cipher f)) (zlen buf)) (poisoned (write_cipher f))) (mkMutex u false)) /\
    sent u = sent (guarded (ustream f)) ++ on_wire (guarded (write_cipher f)) buf /\ accepts u.
Proof.
  intros Hp Ha Hr. unfold forward. cbv zeta. destruct (guarded (write_cipher f)) as [c|]; cbn [room on_wire advance] in *.
  - rewrite apply_keystream_ok by done. rewrite Hp.
    destruct (write_all_tcp _ (xor_from (ckey c) (cnonce c) (cpos c) buf) Ha) as (u & -> & ? & _ & ? & _). by exists u.
  - rewrite Hp. destruct (write_all_tcp _ buf Ha) as (u & -> & ? & _ & ? & _). by exists u.
Qed.

Lemma advance_0 c : advance c 0 = c.
Proof. destruct c as [[k n p]|]; cbn; by rewrite ?Z.add_0_r. Qed.

Lemma advance_add c m n : advance (advance c m) n = advance c (m + n).
Proof. destruct c; cbn; by rewrite ?Z.add_assoc. Qed.

Lemma on_wire_app c bs cs : on_wire c (bs ++ cs) = on_wire c bs ++ on_wire (advance c (zlen bs)) cs.
Proof. destruct c; cbn; by rewrite ?xor_from_app. Qed.

Lemma room_advance c m n : room c (m + n) -> room (advance c m) n.
Proof. destruct c; cbn; lia. Qed.

Lemma room_le c m n : m <= n -> room c n -> room c m.
Proof. destruct c; cbn; lia. Qed.

(** The forwarder after it has forwarded the bytes [bs]. *)
Definition has_forwarded (f : Forwarder) (bs : list Z) (f' : Forwarder) : Prop :=
  sent (guarded (ustream f')) = sent (guarded (ustream f)) ++ on_wire (guarded (write_cipher f)) bs /\
  write_cipher f' = mkMutex (advance (guarded (write_cipher f)) (zlen bs)) (poisoned (write_cipher f)) /\
  poisoned (ustream f') = false /\ accepts (guarded (ustream f')).

Lemma has_forwarded_nil f st rl' :
  poisoned (ustream f) = false -> accepts (guarded (ustream f)) ->
  has_forwarded f [] (mkForwarder st rl' (write_cipher f) (ustream f)).
Proof.
  intros Hp Ha. split_and!; try done; cbn [write_cipher ustream].
  - destruct (guarded (write_cipher f)); by rewrite app_nil_r.
  - rewrite advance_0. by destruct (write_cipher f).
Qed.

Lemma has_forwarded_app f f1 f2 bs cs :
  has_forwarded f bs f1 -> has_forwarded f1 cs f2 -> has_forwarded f (bs ++ cs) f2.
Proof.
  intros (Hs1 & Hw1 & _ & _) (Hs2 & Hw2 & Hp & Ha). rewrite Hw1 in Hs2, Hw2. cbn [guarded poisoned] in *.
  split_and!; try done.
  - by rewrite Hs2, Hs1, <- app_assoc, <- on_wire_app.
  - by rewrite Hw2, advance_add, zlen_app.
Qed.

Lemma forward_loop ticks blocks tail f :
  length ticks = length blocks -> Forall (fun b => length b = COMMAND_HEADER_SIZE) blocks ->
  Forall (fun tick => exit_flag tick = false) ticks -> yields (master_stream f) (concat blocks ++ tail) ->
  poisoned (ustream f) = false -> accepts (guarded (ustream f)) ->
  room (guarded (write_cipher f)) (zlen (concat blocks)) ->
  exists f', control_loop forward_iteration ticks f = (Continue, f') /\
    has_forwarded f (concat (admitted (rl f) (zip (map now ticks) blocks))) f' /\ yields (master_stream f') tail.
Proof.
  revert ticks f. induction blocks as [|b blocks IH]; intros [|tick ticks] f Hl Hb Hex Hy Hp Ha Hr; try done.
  { exists f. split_and!; try done. destruct f. by apply has_forwarded_nil. }
  inversion Hb as [|? ? Hb1 Hb2]; subst. inversion Hex as [|? ? Hx1 Hx2]; subst. simpl in Hl.
  cbn [concat] in Hy, Hr. rewrite <- app_assoc in Hy. rewrite zlen_app in Hr.
  pose proof (zlen_nonneg b). pose proof (zlen_nonneg (concat blocks)).
  destruct (read_exact_yields (master_stream f) b _ COMMAND_HEADER_SIZE Hy Hb1) as (st & Er & Hy1).
  cbn [control_loop]. unfold forward_iteration at 1. rewrite Er. cbv zeta. rewrite Hx1.
  cbn [rl write_cipher ustream master_stream map zip zip_with admitted].
  destruct (rate_limiter_check (rl f) (now tick)) as [[] rl'].
  - destruct (forward_ok b (mkForwarder st rl' (write_cipher f) (ustream f))) as (u & E & Hs & Hau); [done | done | |].
    { eapply room_le; [|exact Hr]. lia. }
    rewrite E. cbn [write_cipher ustream master_stream rl] in *.
    destruct (IH ticks (mkForwarder st rl' (mkMutex (advance (guarded (write_cipher f)) (zlen b)) (poisoned (write_cipher f))) (mkMutex u false)))
      as (f' & E2 & Hf2 & Hy2); try done; [lia | by apply room_advance |].
    exists f'. split_and!; [exact E2 | | done]. cbn [concat]. eapply has_forwarded_app; [|exact Hf2]. by split_and!.
  - destruct (IH ticks (mkForwarder st rl' (write_cipher f) (ustream f))) as (f' & E2 & Hf2 & Hy2); try done; [lia | |].
    { eapply room_le; [|exact Hr]. lia. }
    by exists f'.
Qed.

(** A whole conversation of a local master. *)
Lemma forward_disconnects ticks last blocks tail f :
  length ticks = length blocks -> Forall (fun b => length b = COMMAND_HEADER_SIZE) blocks ->
  Forall (fun tick => exit_flag tick = false) ticks ->
  yields (master_stream f) (concat blocks ++ tail) -> (length tail < COMMAND_HEADER_SIZE)%nat ->
  poisoned (ustream f) = false -> accepts (guarded (ustream f)) ->
  room (guarded (write_cipher f)) (zlen (concat blocks)) ->
  exists f', control_loop forward_iteration (ticks ++ [last]) f = (Break Disconnected, f') /\
    has_forwarded f (concat (admitted (rl f) (zip (map now ticks) blocks))) f'.
Proof.
  intros Hl Hb Hex Hy Ht Hp Ha Hr.
  destruct (forward_loop ticks blocks tail f Hl Hb Hex Hy Hp Ha Hr) as (f1 & E & (Hs & Hw & Hp1 & Ha1) & Hy1).
  rewrite (control_loop_app _ _ _ _ _ E). cbn [control_loop]. unfold forward_iteration.
  destruct (read_exact_short (master_stream f1) tail _ Hy1 Ht) as (st & Er & _). rewrite Er.
  eexists. split; [reflexivity|]. by split_and!.
Qed.

End forward.

Section properties.
Context `{StreamCipherLib} `{RtlSdrLib} `{BroadcastLib}.

(** The proxy relays I/Q data unchanged: whatever the segmentation,
    timeouts and errors of the upstream, and however the thread stops, the
    buffers it has broadcast, in order, are exactly the bytes it has taken from
    the upstream; and it stops by itself only at the end of the upstream, at
    the exit flag, or at a read error that is not a timeout, which it signals. *)
Theorem upstream_reader_lossless (exits : list bool) (st : TcpStream) (ch : Chan) (stop : option ReaderStop) (r' : Reader) :
  upstream_reader exits (mkReader st ch false) = (stop, r') ->
  (exists ms, history (tx_chan r') = history ch ++ ms /\
     rx_bytes (rx st) = concat ms ++ rx_bytes (rx (upstream_reader_stream r'))) /\
  (signalled r' = true <-> exists e, stop = Some (UpstreamError e)) /\
  (stop = Some ReaderExit -> true ∈ exits).
Proof.
  intros E. split; [by apply (upstream_reader_relays _ _ _ _ E)|].
  enough (Hg : forall r, signalled r = false -> upstream_reader exits r = (stop, r') ->
    (signalled r' = true <-> exists e, stop = Some (UpstreamError e)) /\ (stop = Some ReaderExit -> true ∈ exits))
    by (by apply (Hg (mkReader st ch false))).
  clear E st ch. induction exits as [|exit exits IH]; intros r Hr; cbn [upstream_reader].
  { intros; simplify_eq. rewrite Hr. split; [|done]. split; [done | by intros [e ?]]. }
  assert (Hno : forall s r1, signalled r1 = false -> (forall e, s <> UpstreamError e) ->
      signalled r1 = true <-> exists e, Some s = Some (UpstreamError e)).
  { intros s r1 Hs1 Hs. rewrite Hs1. split; [done|]. intros [e [= ->]]. by destruct (Hs e). }
  unfold reader_iteration. destruct exit; [intros; simplify_eq; split; [by apply Hno | by left]|].
  assert (Hrec : forall r1, signalled r1 = false -> upstream_reader exits r1 = (stop, r') ->
    (signalled r' = true <-> exists e, stop = Some (UpstreamError e)) /\ (stop = Some ReaderExit -> true ∈ false :: exits)).
  { intros r1 Hs1 E1. destruct (IH r1 Hs1 E1) as [Ha Hb]. split; [done|]. intros. right. by apply Hb. }
  destruct (read (upstream_reader_stream r) READ_BUFFER) as [[[|b bs]|e| |] s1];
    try (intros; simplify_eq; split; [by apply Hno | done]); [by apply Hrec|].
  destruct (is_timeout e); [by apply Hrec|]. intros; simplify_eq. split; [|done]. split; [by exists e | done].
Qed.

(** The proxy's forwarding is transparent: of the five-byte blocks a local
    master sends (any bytes: they are not validated here), it forwards exactly
    those its rate limiter admits, in order, each whole, in plain when the
    upstream is plain and under one continuous keystream otherwise. *)
Theorem proxy_forwards (ticks : list Tick) (last : Tick) (blocks : list (list Z)) (tail : list Z) (f : Forwarder) :
  length ticks = length blocks -> Forall (fun b => length b = COMMAND_HEADER_SIZE) blocks ->
  Forall (fun tick => exit_flag tick = false) ticks ->
  yields (master_stream f) (concat blocks ++ tail) -> (length tail < COMMAND_HEADER_SIZE)%nat ->
  poisoned (ustream f) = false -> accepts (guarded (ustream f)) ->
  room (guarded (write_cipher f)) (zlen (concat blocks)) ->
  exists f' bs, control_loop forward_iteration (ticks ++ [last]) f = (Break Disconnected, f') /\
    bs `sublist_of` blocks /\ bs = admitted (rl f) (zip (map now ticks) blocks) /\
    sent (guarded (ustream f')) = sent (guarded (ustream f)) ++ on_wire (guarded (write_cipher f)) (concat bs).
Proof.
  intros Hl Hb Hex Hy Ht Hp Ha Hr.
  destruct (forward_disconnects ticks last blocks tail f Hl Hb Hex Hy Ht Hp Ha Hr) as (f' & E & (Hs & _)).
  eexists f', _. split_and!; [exact E | | reflexivity | exact Hs].
  apply admitted_sublist. by rewrite length_map.
Qed.

End properties.

Section witnesses.
#[local] Existing Instance list_broadcast.
#[local] Existing Instance log_tuner.
#[local] Existing Instance toy_cipher.

Lemma upstream_reader_lossless_witness :
  let st := mkTcp [Data [1; 2; 3]; RErr WouldBlock; Data [4]; RErr ConnectionReset; Data [5]] [] [] None None in
  let out := upstream_reader (replicate 9 false) (mkReader st (mkListChan [] 64 false) false) in
  out = (Some (UpstreamError ConnectionReset), mkReader (mkTcp [Data [5]] [] [] None None) (mkListChan [[1; 2; 3]; [4]] 64 false) true) /\
  (signalled (snd out) = true <-> exists e, fst out = Some (UpstreamError e)).
Proof.
  intros st out.
  assert (E : out = (Some (UpstreamError ConnectionReset),
    mkReader (mkTcp [Data [5]] [] [] None None) (mkListChan [[1; 2; 3]; [4]] 64 false) true)).
  { unfold out, st. cbn [replicate upstream_reader reader_iteration upstream_reader_stream read TcpStream_Read].
    unfold reader_iteration. cbn [read TcpStream_Read upstream_reader_stream]. unfold tcp_read. cbn [rx].
    reflexivity. }
  split; [exact E|].
  apply (@upstream_reader_lossless list_broadcast (replicate 9 false) st (mkListChan [] 64 false) (fst out) (snd out)).
  by rewrite E.
Defined.

Lemma proxy_forwards_witness :
  let blocks := [[1; 255; 255; 255; 255]; [2; 0; 0; 0; 1]; [7; 7; 7; 7; 7]] in
  let ticks := map (fun t => tick_at (from_millis t) false) [50; 60; 100] in
  let f := mkForwarder (mkTcp [Data (concat blocks ++ [3])] [] [] None None) (mkRateLimiter 0 COMMAND_RATE_LIMIT_INTERVAL)
    (mkMutex None false) (mkMutex (mkTcp [] [] [] None None) false) in
  exists f' bs, control_loop forward_iteration (ticks ++ [tick_at 0 false]) f = (Break Disconnected, f') /\
    bs `sublist_of` blocks /\ bs = [[1; 255; 255; 255; 255]; [7; 7; 7; 7; 7]] /\
    sent (guarded (ustream f')) = [] ++ concat bs.
Proof.
  intros blocks ticks f.
  apply (proxy_forwards ticks (tick_at 0 false) blocks [3] f); try reflexivity.
  - by repeat constructor.
  - by repeat constructor.
  - split; [|reflexivity]. by repeat constructor.
  - unfold COMMAND_HEADER_SIZE. simpl. lia.
  - constructor.
Defined.

End witnesses.
