(* ===== verification/Chain.v ===== *)
(** * An encrypted chain from end to end

    A proxy in front of a multi-client server with the same key: the proxy's
    connection ([Proxy]), its forwarding thread ([Relay]) and the server's
    control thread ([Master]) over the sockets between them, each end reading
    what the other sends. *)

From S2P Require Import Prelude Bytes Io Net Ip Error Control Encryption Stream Commands Protocol Interpreter Master Proxy Relay.
From stdpp Require Import strings.
#[local] Open Scope Z_scope.

Section chain.
Context `{StreamCipherLib} `{RtlSdrLib} (io_display : ErrorKind -> string).

(** What a sequence of commands does to the tuner when none is limited. *)
Definition performed (cmds : list Command) (t : Tuner) : Tuner :=
  fold_left (fun t c => match meaning c with Some r => perform r t | None => t end) cmds t.

Lemma receive_all_spaced nows cmds m :
  length nows = length cmds -> 0 <= min_interval (m_limiter m) ->
  spaced (min_interval (m_limiter m)) (last_command (m_limiter m) :: nows) ->
  m_tuner (receive_all (zip nows cmds) m) = performed cmds (m_tuner m).
Proof.
  revert cmds m; induction nows as [|now nows IH]; intros [|c cmds] m Hl Hi Hs; try done.
  inversion Hs as [|? ? Hs' Hall]; subst. inversion Hall; subst. cbn [zip zip_with receive_all].
  unfold receive. rewrite check_spaced by done. rewrite IH; [done | by injection Hl | done | done].
Qed.

Lemma receive_all_answers nows cmds m :
  (forall tag, ChainDetect tag ∉ cmds) -> m_answers (receive_all (zip nows cmds) m) = m_answers m.
Proof.
  revert cmds m; induction nows as [|now nows IH]; intros [|c cmds] m Hnp; try done. cbn [zip zip_with receive_all].
  rewrite IH by (intros tag Hin; apply (Hnp tag); by right). unfold receive.
  destruct (rate_limiter_check (m_limiter m) now) as [[] rl]; [|done].
  destruct c as [| | | | | |tag|]; try done. by destruct (Hnp tag); left.
Qed.

Lemma admitted_spaced {A} rl nows (l : list A) :
  length nows = length l -> 0 <= min_interval rl -> spaced (min_interval rl) (last_command rl :: nows) ->
  admitted rl (zip nows l) = l.
Proof.
  revert rl l; induction nows as [|now nows IH]; intros rl [|a l] Hl Hi Hs; try done.
  inversion Hs as [|? ? Hs' Hall]; subst. inversion Hall; subst. cbn [zip zip_with admitted].
  rewrite check_spaced by done. f_equal. apply IH; [by injection Hl | done | done].
Qed.

Lemma blocks_of_commands cmds :
  Forall command_ok cmds ->
  Forall (fun b => length b = COMMAND_HEADER_SIZE) (map encode cmds) /\ zlen (concat (map encode cmds)) = 5 * zlen cmds.
Proof.
  induction 1 as [|c cmds Hc Hok [IH1 IH2]]; [done|]. pose proof (length_encode c Hc) as Hl. split; [by constructor|].
  cbn [map concat]. rewrite zlen_app, IH2, zlen_cons. unfold zlen at 1. rewrite Hl. unfold COMMAND_HEADER_SIZE. lia.
Qed.

(** The forwarding thread of the connection [conn], for a new local master. *)
Definition forwarder (conn : UpstreamConnection) (rl : RateLimiter) (local : TcpStream) : Forwarder :=
  mkForwarder local rl (mkMutex (up_write_cipher conn) false) (mkMutex (up_stream conn) false).

(** The proxy's half: what it puts on the wire. *)
Lemma proxy_sends key timeout proxy_nonce server_nonce iq (up local : TcpStream) cmds pticks rl :
  timeout <> 0 -> accepts up -> length server_nonce = NONCE_SIZE ->
  yields up (MAGIC_PACKET ++ CHAIN_ACK ++ server_nonce ++ iq) ->
  length pticks = length cmds -> Forall command_ok cmds -> Forall (fun tick => exit_flag tick = false) pticks ->
  yields local (concat (map encode cmds)) -> 5 * zlen cmds <= keystream_end ->
  exists conn f', fst (upstream_session io_display (Some key) timeout proxy_nonce up) = Ok conn /\
    is_chain conn = true /\ magic_packet conn = MAGIC_PACKET /\ yields (up_stream conn) iq /\
    control_loop forward_iteration pticks (forwarder conn rl local) = (Continue, f') /\
    sent (guarded (ustream f')) = sent up ++ encode (ChainDetect (drop 1 CHAIN_PROBE)) ++ proxy_nonce ++
      xor_from key proxy_nonce 0 (concat (map encode (admitted rl (zip (map now pticks) cmds)))).
Proof.
  intros Ht Ha Hsn Hy Hl Hok Hex Hlocal Hend.
  destruct (upstream_is_chain io_display (Some key) timeout proxy_nonce up MAGIC_PACKET CHAIN_ACK server_nonce iq)
    as (conn & u & -> & Hch & Hmp & _ & Hau & _ & Hwc & Hsent & Hiq); try done.
  destruct (blocks_of_commands cmds Hok) as [Hblocks Hzl].
  destruct (forward_loop pticks (map encode cmds) [] (forwarder conn rl local)) as (f' & E & (Hs & _) & _); try done.
  { by rewrite length_map. }
  { by rewrite app_nil_r. }
  { cbn. rewrite Hwc. cbn. lia. }
  exists conn, f'. split_and!; try done. rewrite Hs. cbn [ustream forwarder guarded write_cipher].
  rewrite Hwc, Hsent, admitted_map, <- !app_assoc. done.
Qed.

(** ** Properties *)

(** C3. An encrypted chain from end to end: a proxy that connects to a server
    which answers with its magic packet, the acknowledgement and its nonce
    forwards a local master's commands; a server with the same key that reads
    what the proxy has put on the wire (its probe, its nonce and the encrypted
    commands, cut into any segments) answers with exactly the acknowledgement
    and the nonce the proxy was given, and executes the commands the proxy's
    limiter admits as the protocol machine does.  When they reach the server at
    least its interval apart, every one of them is performed on the tuner; and
    when the local master spaces them too, all of its commands are. *)
Theorem encrypted_chain (key proxy_nonce server_nonce iq : list Z) (timeout : Z) (up local : TcpStream)
    (cmds : list Command) (rl srl : RateLimiter) (pticks sticks : list Tick) (tick0 : Tick) (m : MasterSession) :
  timeout <> 0 -> accepts up -> length proxy_nonce = NONCE_SIZE -> length server_nonce = NONCE_SIZE ->
  yields up (MAGIC_PACKET ++ CHAIN_ACK ++ server_nonce ++ iq) ->
  length pticks = length cmds -> Forall command_ok cmds -> (forall tag, ChainDetect tag ∉ cmds) ->
  Forall (fun tick => exit_flag tick = false) pticks -> Forall (fun tick => exit_flag tick = false) sticks ->
  yields local (concat (map encode cmds)) -> 5 * zlen cmds <= keystream_end -> sent up = [] ->
  let executed := admitted rl (zip (map now pticks) cmds) in
  length sticks = length executed ->
  fresh_nonce tick0 = server_nonce -> nonces_free tick0 = true -> exit_flag tick0 = false ->
  rate_limiter_check (rate_limiter (session m)) (now tick0) = (true, srl) ->
  accepts (stream (session m)) -> read_cipher m = None ->
  exists conn f', fst (upstream_session io_display (Some key) timeout proxy_nonce up) = Ok conn /\
    yields (up_stream conn) iq /\
    control_loop forward_iteration pticks (forwarder conn rl local) = (Continue, f') /\
    (yields (stream (session m)) (sent (guarded (ustream f'))) ->
     exists m', control_loop (master_iteration (Some key)) (tick0 :: sticks) m = (Continue, m') /\
       sent (stream (session m')) = sent (stream (session m)) ++ CHAIN_ACK ++ server_nonce /\
       abs (session m') = receive_all (zip (map now sticks) executed)
         (mkMachine srl (tuner (session m)) (unknown_command_count (session m))
            (sent (stream (session m)) ++ CHAIN_ACK ++ server_nonce)) /\
       (0 <= min_interval srl -> spaced (min_interval srl) (last_command srl :: map now sticks) ->
        tuner (session m') = performed executed (tuner (session m)))) /\
    (0 <= min_interval rl -> spaced (min_interval rl) (last_command rl :: map now pticks) -> executed = cmds).
Proof.
  intros Ht Ha Hpn Hsn Hy Hl Hok Hnp Hpx Hsx Hlocal Hend Hs0 executed Hls Hfresh Hfree Hex Hrl Ham Hrc.
  assert (Hsub : executed `sublist_of` cmds) by (apply admitted_sublist; by rewrite length_map).
  destruct (proxy_sends key timeout proxy_nonce server_nonce iq up local cmds pticks rl)
    as (conn & f' & E & _ & _ & Hiq & Ef & Hsent); try done.
  exists conn, f'. split; [done|]. split; [done|]. split; [done|]. split; [|intros; apply admitted_spaced; by rewrite ?length_map].
  rewrite Hsent, Hs0. cbn [app]. fold executed. intros Hys.
  destruct (master_handshake key (drop 1 CHAIN_PROBE) server_nonce proxy_nonce
    (xor_from key proxy_nonce 0 (concat (map encode executed))) tick0 srl m) as (s1 & E1 & Habs & Ha1 & Hy1); try done.
  destruct (master_loop_decrypts (Some key) sticks executed key proxy_nonce 0
    (mkMaster s1 (Some (chacha20_new key proxy_nonce)) (Some (chacha20_new key server_nonce)) (Some (server_nonce, proxy_nonce))) [])
    as (m2 & E2 & Habs2 & _ & _); try done.
  - rewrite Forall_forall in *. intros c Hc. apply Hok. by eapply elem_of_sublist.
  - intros tag Hin. apply (Hnp tag). by eapply elem_of_sublist.
  - apply sublist_length in Hsub. unfold zlen in *. lia.
  - by rewrite app_nil_r.
  - exists m2. cbn [control_loop]. rewrite E1. split; [done|]. cbn [session] in Habs2. rewrite Habs in Habs2.
    split_and!; [|done|].
    + change (sent (stream (session m2))) with (m_answers (abs (session m2))). rewrite Habs2.
      apply receive_all_answers. intros tag Hin. apply (Hnp tag). by eapply elem_of_sublist.
    + intros Hi Hs. change (tuner (session m2)) with (m_tuner (abs (session m2))). rewrite Habs2.
      apply receive_all_spaced; [by rewrite length_map | done | done].
Qed.

End chain.

Section witnesses.
#[local] Existing Instance log_tuner.
#[local] Existing Instance toy_cipher.

Lemma encrypted_chain_witness :
  let cmds := [SetFrequency 4294967295; SetPpm 3; SetFrequency 7; SetAgc 1] in
  let pn := replicate 12 5 in let sn := replicate 12 6 in
  let bytes := MAGIC_PACKET ++ CHAIN_ACK ++ sn ++ [127; 128] in
  let up := mkTcp [Data (take 15 bytes); RErr Interrupted; Data (drop 15 bytes)] [Accept 3] [] None None in
  let local := mkTcp [Data (concat (map encode cmds))] [] [] None None in
  let rl := mkRateLimiter 0 COMMAND_RATE_LIMIT_INTERVAL in
  let pticks := map (fun t => tick_at (from_millis t) false) [50; 60; 110; 160] in
  let tick0 := mkTick false (from_millis 60) sn true in
  let sticks := map (fun t => tick_at (from_millis t) false) [120; 180; 240] in
  let wire := CHAIN_PROBE ++ pn ++ xor_from [1] pn 0 (concat (map encode [SetFrequency 4294967295; SetFrequency 7; SetAgc 1])) in
  let m := mkMaster (idle_session [Data (take 9 wire); Data (drop 9 wire)]) None None None in
  exists conn f' m', fst (upstream_session (fun _ => "error"%string) (Some [1]) 5 pn up) = Ok conn /\
    control_loop forward_iteration pticks (forwarder conn rl local) = (Continue, f') /\
    control_loop (master_iteration (Some [1])) (tick0 :: sticks) m = (Continue, m') /\
    tuner (session m') = mkTuner (mkMutex [AutoGain true; TuneTo 7] false) agc_new.
Proof.
  intros cmds pn sn bytes up local rl pticks tick0 sticks wire m.
  destruct (@encrypted_chain toy_cipher log_tuner (fun _ => "error"%string) [1] pn sn [127; 128] 5 up local cmds rl
    (mkRateLimiter (from_millis 60) COMMAND_RATE_LIMIT_INTERVAL) pticks sticks tick0 m)
    as (conn & f' & E & _ & Ef & Hexec & _); try reflexivity.
  - done.
  - by repeat constructor.
  - split; [|reflexivity]. by repeat constructor.
  - repeat constructor; by vm_compute.
  - intros tag Hin. repeat (apply elem_of_cons in Hin as [Hin|Hin]; [done|]). by apply not_elem_of_nil in Hin.
  - by repeat constructor.
  - by repeat constructor.
  - split; [|reflexivity]. by repeat constructor.
  - by vm_compute.
  - constructor.
  - assert (Hw : sent (guarded (ustream f')) = wire).
    { replace f' with (snd (control_loop forward_iteration pticks (forwarder conn rl local))) by (by rewrite Ef).
      assert (Hc : Ok conn = fst (upstream_session (fun _ => "error"%string) (Some [1]) 5 pn up)) by done.
      vm_compute in Hc. injection Hc as ->. by vm_compute. }
    destruct Hexec as (m' & Em & _ & _ & Hperf); [rewrite Hw; split; [by repeat constructor | by vm_compute]|].
    exists conn, f', m'. split_and!; try done. rewrite Hperf; [by vm_compute | done |].
    repeat constructor; by vm_compute.
Defined.

End witnesses.
