(* ===== verification/Reprobe.v ===== *)
(** * A local master's probe over an encrypted chain

    A proxy forwards every five-byte block its limiter admits, a chain probe
    among them ([forward_iteration] of [Relay]; [src/main.rs], line 1059).  The
    multi-client server takes the decrypted block for a new handshake: it
    answers in plain, reads the next twelve bytes, which are encrypted
    commands, as a nonce, and waits for the slot of the nonces, whose lock the
    writer of this session's I/Q data holds as long as it writes ([Nonces];
    line 564).  A [Tick] with [nonces_free] false is a moment at which it does. *)

From S2P Require Import Prelude Bytes Io Net Ip Error Control Encryption Stream Commands Protocol Interpreter Master Proxy Relay Chain.
From stdpp Require Import strings.
#[local] Open Scope Z_scope.

Section reprobe.
Context `{StreamCipherLib} `{RtlSdrLib} (io_display : ErrorKind -> string).

(** A limiter that admitted commands spaced by its interval admits one more. *)
Lemma receive_all_admits nows cmds m t :
  length nows = length cmds -> 0 <= min_interval (m_limiter m) ->
  spaced (min_interval (m_limiter m)) (last_command (m_limiter m) :: nows ++ [t]) ->
  exists rl, rate_limiter_check (m_limiter (receive_all (zip nows cmds) m)) t = (true, rl).
Proof.
  revert cmds m; induction nows as [|now nows IH]; intros [|c cmds] m Hl Hi Hs; try done;
    cbn [app] in Hs; inversion Hs as [|? ? Hs' Hall]; subst; inversion Hall; subst; cbn [zip zip_with receive_all].
  - eexists. by apply check_spaced.
  - unfold receive. rewrite (check_spaced (m_limiter m) now) by done. apply IH; [by injection Hl | done | done].
Qed.

Lemma spaced_prefix d a l1 l2 : spaced d (a :: l1 ++ l2) -> spaced d (a :: l1).
Proof.
  unfold spaced. rewrite app_comm_cons. generalize (a :: l1) as l. intros l. induction l as [|x l IH]; intros Hs; [constructor|].
  inversion Hs as [|? ? Hs' Hall]; subst. constructor; [by apply IH|]. by apply Forall_app in Hall as [? _].
Qed.

(** One iteration of an encrypted session on a probe, while the lock of the
    nonces is held. *)
Lemma master_reprobe_blocks key tick tag k n p m twelve rest rl :
  length tag = 4%nat -> length twelve = NONCE_SIZE -> exit_flag tick = false -> nonces_free tick = false ->
  rate_limiter_check (rate_limiter (session m)) (now tick) = (true, rl) ->
  accepts (stream (session m)) -> read_cipher m = Some (mkCipher k n p) -> p + 5 <= keystream_end ->
  yields (stream (session m)) (xor_from k n p (encode (ChainDetect tag)) ++ twelve ++ rest) ->
  exists m', master_iteration (Some key) tick m = (Blocked, m') /\
    tuner (session m') = tuner (session m) /\ encryption_nonces m' = encryption_nonces m /\
    sent (stream (session m')) = sent (stream (session m)) ++ CHAIN_ACK ++ fresh_nonce tick /\
    yields (stream (session m')) rest.
Proof.
  intros Htag Htw Hex Hbusy Hrl Ha Hc Hend Hy. unfold master_iteration.
  assert (Hlen : zlen (encode (ChainDetect tag)) = 5) by (unfold zlen; by rewrite length_encode).
  destruct (read_exact_yields (stream (session m)) _ _ COMMAND_HEADER_SIZE Hy) as (st & Er & Hy1);
    [by rewrite length_xor_from, length_encode|].
  rewrite Er. destruct (read_exact_sent _ _ _ _ Er) as [Hs1 Ht1].
  assert (Ha1 : accepts st) by (simpl in *; by rewrite Ht1).
  cbn [read_cipher with_session]. cbv zeta. rewrite Hc.
  rewrite apply_keystream_ok by (cbn [cpos]; rewrite zlen_xor_from; lia).
  cbn [ckey cnonce cpos]. rewrite xor_from_involutive.
  unfold master_received. rewrite Hex. cbn [session with_read_cipher with_session with_stream rate_limiter]. rewrite Hrl.
  unfold master_dispatch. cbv zeta. cbn [session with_session]. rewrite device_command_meaning by exact Htag.
  cbn [encode nth]. rewrite Z.eqb_refl.
  unfold master_chain_detect. cbn [session with_session with_limiter with_stream stream]. cbv zeta.
  destruct (probe_answered st key (fresh_nonce tick) twelve rest Ha1 Htw Hy1) as (st4 & E4 & Hs4 & _ & Hy4).
  rewrite E4, Hbusy. eexists. split; [reflexivity|]. split_and!; [done | done | | done].
  cbn. by rewrite Hs4, Hs1.
Qed.

(** Twelve bytes follow a probe that three commands follow. *)
Lemma three_commands_are_a_nonce k n p cmds :
  Forall command_ok cmds -> (3 <= length cmds)%nat ->
  exists twelve rest, xor_from k n p (concat (map encode cmds)) = twelve ++ rest /\ length twelve = NONCE_SIZE.
Proof.
  intros Hok Hl. destruct (blocks_of_commands cmds Hok) as [_ Hz].
  exists (take NONCE_SIZE (xor_from k n p (concat (map encode cmds)))), (drop NONCE_SIZE (xor_from k n p (concat (map encode cmds)))).
  split; [by rewrite take_drop|]. rewrite length_take, length_xor_from.
  unfold zlen in Hz. unfold NONCE_SIZE. lia.
Qed.

(** The server's half: its control thread on the handshake, the commands and
    the probe. *)
Lemma master_reprobed key peer_nonce tag before twelve rest srl sticks more tick0 probe m :
  length tag = 4%nat -> length peer_nonce = NONCE_SIZE -> length twelve = NONCE_SIZE ->
  Forall command_ok before -> (forall tag, ChainDetect tag ∉ before) -> 5 * (zlen before + 1) <= keystream_end ->
  nonces_free tick0 = true -> exit_flag tick0 = false ->
  rate_limiter_check (rate_limiter (session m)) (now tick0) = (true, srl) ->
  accepts (stream (session m)) -> read_cipher m = None ->
  length sticks = length before -> Forall (fun tick => exit_flag tick = false) sticks ->
  exit_flag probe = false -> nonces_free probe = false ->
  0 <= min_interval srl -> spaced (min_interval srl) (last_command srl :: map now (sticks ++ [probe])) ->
  yields (stream (session m)) (CHAIN_PROBE ++ peer_nonce ++ xor_from key peer_nonce 0 (concat (map encode before)) ++
    xor_from key peer_nonce (5 * zlen before) (encode (ChainDetect tag)) ++ twelve ++ rest) ->
  exists m', control_loop (master_iteration (Some key)) (tick0 :: sticks ++ probe :: more) m = (Blocked, m') /\
    tuner (session m') = performed before (tuner (session m)) /\
    sent (stream (session m')) = sent (stream (session m)) ++ CHAIN_ACK ++ fresh_nonce tick0 ++ CHAIN_ACK ++ fresh_nonce probe.
Proof.
  intros Htag Hpn Hl12 Hok Hnp Hend Hfree Hex Hrl Ha Hrc Hls Hsx Hpe Hbusy Hsi Hss Hy. pose proof (zlen_nonneg before).
  destruct (master_handshake key (drop 1 CHAIN_PROBE) (fresh_nonce tick0) peer_nonce
    _ tick0 srl m eq_refl Hpn eq_refl Hfree Hex Hrl Ha Hrc Hy) as (s1 & E1 & Habs & Ha1 & Hy1).
  set (m1 := mkMaster s1 (Some (chacha20_new key peer_nonce)) (Some (chacha20_new key (fresh_nonce tick0)))
    (Some (fresh_nonce tick0, peer_nonce))) in *.
  destruct (fun He => master_loop_decrypts (Some key) sticks before key peer_nonce 0 m1 _ Hls Hok Hnp Hsx Ha1 eq_refl He Hy1)
    as (m2 & E2 & Habs2 & Hc2 & Hy2 & Ha2); [lia|].
  cbn [session m1] in Habs2. rewrite Habs in Habs2. rewrite map_app in Hss. cbn [map] in Hss.
  assert (Hlim : exists rl', rate_limiter_check (m_limiter (abs (session m2))) (now probe) = (true, rl')).
  { rewrite Habs2. by apply receive_all_admits; rewrite ?length_map. }
  destruct Hlim as [rl' Hrl'].
  assert (Hs2 : m_answers (abs (session m2)) = sent (stream (session m)) ++ CHAIN_ACK ++ fresh_nonce tick0).
  { rewrite Habs2. by apply receive_all_answers. }
  assert (Ht2 : m_tuner (abs (session m2)) = performed before (tuner (session m))).
  { rewrite Habs2. apply receive_all_spaced; [by rewrite length_map | done |]. by apply spaced_prefix in Hss. }
  destruct (master_reprobe_blocks key probe tag key peer_nonce (5 * zlen before) m2 twelve rest rl')
    as (m3 & E3 & Ht3 & _ & Hs3 & _); try done; [lia|].
  exists m3. cbn [control_loop]. rewrite E1. fold m1. rewrite (control_loop_app _ _ _ _ _ E2). cbn [control_loop]. rewrite E3.
  split; [done|]. rewrite Ht3, Hs3. split; [exact Ht2|]. cbn [abs m_answers] in Hs2. rewrite Hs2. by rewrite <- !app_assoc.
Qed.

(** ** Properties *)


End reprobe.

Section witnesses.
#[local] Existing Instance log_tuner.
#[local] Existing Instance toy_cipher.


End witnesses.
