(* ===== verification/Args.v ===== *)
(** * Arguments, keys and the upstream address

    Models the command line of [src/main.rs]: the arguments [clap] has parsed,
    their validation, the encryption key, the address of the upstream, and the
    choice of a mode in [main].  [hex::decode] is a third-party crate and the
    file system is the operating system's: both are arguments. *)

From S2P Require Import Prelude Bytes Io Ip Error.
From Stdlib Require Import Ascii String.
From stdpp Require Import strings.
#[local] Open Scope Z_scope.

Record Args : Type := mkArgs {
  mode : string;
  address : string;
  master_port : Z;
  slave_port : option Z;
  max_slaves : nat;
  upstream : option string;
  key : option string;
  key_file : option string;
  device_index : Z;
  buffers : Z;
  tcp_buffers : Z;
  read_timeout : Z;
  write_timeout : Z;
  whitelist : list string
}.

Definition validate_args (args : Args) : res unit RtlTcpError :=
  if (buffers args =? 0) || (32 <? buffers args) then Err (Config "buffers must be between 1 and 32")
  else if (tcp_buffers args =? 0) || (10485760 <? tcp_buffers args) then
    Err (Config "tcp_buffers must be between 1 and 10485760 (10MB)")
  else if read_timeout args =? 0 then Err (Config "read_timeout must be greater than 0")
  else if write_timeout args =? 0 then Err (Config "write_timeout must be greater than 0")
  else
    match slave_port args with
    | Some sp => if sp =? master_port args then Err (Config "slave-port must differ from master-port") else Ok tt
    | None => Ok tt
    end.

Section key.
Context (hex_decode : string -> res (list Z) string) (fs_read : string -> io (list Z)) (io_display : ErrorKind -> string).

(** [copy_from_slice] into an array of 32 bytes, after the length check. *)
Definition key_of_bytes (bytes : list Z) : res (option (list Z)) RtlTcpError :=
  if negb (length bytes =? 32)%nat then Err (Config "key must be 32 bytes") else Ok (Some bytes).

Definition parse_encryption_key (args : Args) : res (option (list Z)) RtlTcpError :=
  match key args with
  | Some hex_key =>
    let? bytes := map_err (fun e => Config ("invalid hex key: " +:+ e)) (hex_decode hex_key) in
    key_of_bytes bytes
  | None =>
    match key_file args with
    | Some path =>
      let? bytes := map_err (fun e => Config ("failed to read key file " +:+ path +:+ ": " +:+ io_display e)) (fs_read path) in
      key_of_bytes bytes
    | None => Ok None
    end
  end.
End key.

(** [rsplit_once(':')]. *)
Fixpoint rsplit_once (c : ascii) (s : list ascii) : option (list ascii * list ascii) :=
  match s with
  | [] => None
  | x :: rest =>
    match rsplit_once c rest with
    | Some (before, after) => Some (x :: before, after)
    | None => if Ascii.eqb x c then Some ([], rest) else None
    end
  end.

(** The host and port of [--upstream], as [run_proxy_multi] computes them. *)
Definition parse_upstream (args : Args) : res (string * Z) RtlTcpError :=
  match upstream args with
  | None => Err (Config "--upstream required in proxy mode")
  | Some upstream =>
    match rsplit_once ":"%char (list_ascii_of_string upstream) with
    | None => Err (Config ("invalid upstream: " +:+ upstream))
    | Some (upstream_host, upstream_port_str) =>
      match parse_u16_chars upstream_port_str with
      | None => Err (Config ("invalid upstream port: " +:+ string_of_list_ascii upstream_port_str))
      | Some upstream_port => Ok (string_of_list_ascii upstream_host, upstream_port)
      end
    end
  end.

(** [main], given its modes. *)
Definition main {A} (run_proxy_multi run_serve_multi run_serve_single : Args -> res A RtlTcpError) (args : Args)
    : res A RtlTcpError :=
  let? _ := validate_args args in
  if bool_decide (mode args = "proxy") then run_proxy_multi args
  else if bool_decide (mode args = "serve") then
    match slave_port args with
    | Some _ => run_serve_multi args
    | None => run_serve_single args
    end
  else Err (Config ("unknown mode: " +:+ mode args)).

(** Whether [run_serve_single] and [run_serve_multi] warn that the server is
    bound to all interfaces. *)
Definition is_all_interfaces (args : Args) : bool :=
  bool_decide (address args = "0.0.0.0") || bool_decide (address args = "::") || bool_decide (address args = "[::]") ||
  bool_decide (address args = "").

Definition is_all (args : Args) : bool :=
  bool_decide (address args = "0.0.0.0") || bool_decide (address args = "::") || bool_decide (address args = "[::]") ||
  bool_decide (address args = "").

(** ** Lemmas *)

Lemma list_ascii_of_string_app (s t : string) :
  list_ascii_of_string (s +:+ t) = (list_ascii_of_string s ++ list_ascii_of_string t)%list.
Proof. induction s as [|c s IH]; [done|]. change (String c s +:+ t) with (String c (s +:+ t)). cbn [list_ascii_of_string]. by rewrite IH. Qed.

Lemma rsplit_once_last c before after : c ∉ after -> rsplit_once c (before ++ c :: after) = Some (before, after).
Proof.
  intros Hc. assert (Hn : rsplit_once c after = None).
  { induction after as [|x after IH]; [done|]. apply not_elem_of_cons in Hc as [Hx Hc]. cbn. rewrite IH by done.
    by destruct (Ascii.eqb_spec x c) as [->|]. }
  induction before as [|x before IH]; cbn; [|by rewrite IH]. by rewrite Hn, Ascii.eqb_refl.
Qed.

Lemma rsplit_once_none c s : rsplit_once c s = None <-> c ∉ s.
Proof.
  induction s as [|x s IH]; cbn; [split; [intros _; apply not_elem_of_nil | done]|].
  rewrite not_elem_of_cons. destruct (rsplit_once c s) as [[b a]|].
  - split; [done|]. intros [_ Hs]. by apply IH in Hs.
  - destruct (Ascii.eqb_spec x c) as [->|Hne]; [split; [done | by intros []]|].
    split; [|done]. intros _. split; [congruence | by apply IH].
Qed.

Definition args_ok (args : Args) : Prop :=
  1 <= buffers args <= 32 /\ 1 <= tcp_buffers args <= 10485760 /\
  0 < read_timeout args /\ 0 < write_timeout args /\ slave_port args <> Some (master_port args).

(** The unspecified addresses, on which a listener takes connections from every
    interface, and the text of an address without the brackets of an IPv6 one. *)
Definition unspecified (ip : IpAddr) : bool := bool_decide (ip = V4 0 0 0 0) || bool_decide (ip = V6 (replicate 8 0)).
Definition unbracket (s : string) : list ascii :=
  match list_ascii_of_string s with
  | "["%char :: rest =>
    match rsplit_once "]"%char rest with Some (inner, []) => inner | _ => "["%char :: rest end
  | s => s
  end.

(** ** Properties *)

(** Validation accepts exactly the arguments in range (its inputs are
    unsigned), and refuses the others with a configuration error, before any
    mode runs. *)
Theorem main_validates {A} (proxy multi single : Args -> res A RtlTcpError) (args : Args) :
  0 <= buffers args -> 0 <= tcp_buffers args -> 0 <= read_timeout args -> 0 <= write_timeout args ->
  (args_ok args -> main proxy multi single args =
     if bool_decide (mode args = "proxy") then proxy args
     else if bool_decide (mode args = "serve") then
       if bool_decide (slave_port args = None) then single args else multi args
     else Err (Config ("unknown mode: " +:+ mode args))) /\
  (~ args_ok args -> exists msg, forall p' m' s' : Args -> res A RtlTcpError, main p' m' s' args = Err (Config msg)).
Proof.
  intros Hb Ht Hr Hw. unfold main, validate_args, args_ok.
  destruct (Z.eqb_spec (buffers args) 0), (Z.ltb_spec 32 (buffers args)); cbn [orb];
    try (split; [intros (? & _); lia | intros _; by eexists]).
  destruct (Z.eqb_spec (tcp_buffers args) 0), (Z.ltb_spec 10485760 (tcp_buffers args)); cbn [orb];
    try (split; [intros (_ & ? & _); lia | intros _; by eexists]).
  destruct (Z.eqb_spec (read_timeout args) 0); [split; [intros (_ & _ & ? & _); lia | intros _; by eexists]|].
  destruct (Z.eqb_spec (write_timeout args) 0); [split; [intros (_ & _ & _ & ? & _); lia | intros _; by eexists]|].
  destruct (slave_port args) as [sp|] eqn:Es.
  - destruct (Z.eqb_spec sp (master_port args)) as [->|].
    + split; [intros (_ & _ & _ & _ & ?); done | intros _; by eexists].
    + split; [done|]. intros Hn. exfalso. apply Hn. split_and!; try lia. congruence.
  - split; [done|]. intros Hn. exfalso. apply Hn. split_and!; try lia. done.
Qed.

Definition sample_args : Args :=
  mkArgs "serve" "127.0.0.1" 1234 (Some 1235) 10 None None None 0 15 512000 30 30 [].

Lemma main_validates_witness :
  main (fun _ => Ok 1) (fun _ => Ok 2) (fun _ => Ok 3) sample_args = Ok 2.
Proof.
  apply (proj1 (main_validates (fun _ => Ok 1) (fun _ => Ok 2) (fun _ => Ok 3) sample_args ltac:(done) ltac:(done) ltac:(done) ltac:(done))).
  unfold args_ok. split_and!; done || (by vm_compute).
Defined.

(** The upstream address: any host (an IPv6 one with colons too) and any
    port print to an argument that parses back to them, an argument without a
    colon is a configuration error, and a port that parsed fits a [u16]. *)
Theorem upstream_address_roundtrip (args : Args) :
  (forall host port, is_u16 port -> upstream args = Some (host +:+ ":" +:+ u16_to_string port) ->
     parse_upstream args = Ok (host, port)) /\
  (forall s, upstream args = Some s -> ":"%char ∉ list_ascii_of_string s ->
     parse_upstream args = Err (Config ("invalid upstream: " +:+ s))) /\
  (forall host port, parse_upstream args = Ok (host, port) -> port < 65536).
Proof.
  unfold parse_upstream. split_and!.
  - intros host port Hp ->. unfold u16_to_string.
    assert (E : list_ascii_of_string (host +:+ ":" +:+ string_of_list_ascii (fmt_radix 10 5 port)) =
      list_ascii_of_string host ++ ":"%char :: fmt_radix 10 5 port).
    { by rewrite !list_ascii_of_string_app, list_ascii_of_string_of_list_ascii. }
    rewrite E, rsplit_once_last by (by apply fmt_u16_no_colon). rewrite parse_u16_to_string by done.
    by rewrite string_of_list_ascii_of_string.
  - intros s -> Hs. apply rsplit_once_none in Hs. by rewrite Hs.
  - intros host port. unfold parse_u16_chars. repeat case_match; intros E; simplify_eq;
    match goal with E : (_ <? 65536) = true |- _ => by apply Z.ltb_lt in E end.
Qed.

Lemma upstream_address_roundtrip_witness :
  parse_upstream (mkArgs "proxy" "127.0.0.1" 1234 None 10 (Some "fe80::1:4000") None None 0 15 512000 30 30 []) = Ok ("fe80::1", 4000).
Proof.
  apply (proj1 (upstream_address_roundtrip (mkArgs "proxy" "127.0.0.1" 1234 None 10 (Some "fe80::1:4000") None None 0 15 512000 30 30 []))).
  - split; by vm_compute.
  - reflexivity.
Defined.

(** The warning about a binding to all interfaces is the same in both serving
    modes, is given for an unspecified or empty address only, and never misses
    the IPv4 one, which has a single spelling; of the IPv6 one it knows one
    spelling of several. *)
Theorem all_interfaces_warning (args : Args) :
  is_all args = is_all_interfaces args /\
  (is_all_interfaces args = true -> address args = "" \/
     exists ip, parse_ip_chars (unbracket (address args)) = Some ip /\ unspecified ip = true) /\
  (parse_ip (address args) = Some (V4 0 0 0 0) -> is_all_interfaces args = true) /\
  (address args = "[0::0]" \/ address args = "[::0.0.0.0]" ->
     parse_ip_chars (unbracket (address args)) = Some (V6 (replicate 8 0)) /\ is_all_interfaces args = false).
Proof.
  split; [done|]. unfold is_all_interfaces. split_and!.
  - intros E. repeat apply orb_prop in E as [E|E]; apply bool_decide_eq_true in E; rewrite E; [right..|by left];
      eexists; (split; [by vm_compute | reflexivity]).
  - unfold parse_ip, parse_ip_chars. intros E.
    assert (Er : read_ipv4_addr (list_ascii_of_string (address args)) = Some ([0; 0; 0; 0], [])).
    { repeat case_match; by simplify_eq. }
    apply read_ipv4_unspecified, (f_equal string_of_list_ascii) in Er.
    rewrite string_of_list_ascii_of_string in Er. by rewrite Er.
  - intros [-> | ->]; by vm_compute.
Qed.
