(* ===== verification/Cidr.v ===== *)
(** * Networks in CIDR notation

    What the whitelist means once [ipnet] ([IpNetLib] in [Control]) behaves as
    documented: [IpNetLaws] states that "address/prefix" parses to the network
    of the addresses of the same family that share the first bits, and that
    text without a slash does not parse.  [cidr_lib] is a small library with
    these laws, written on the parsers of [Ip]. *)

From S2P Require Import Prelude Bytes Io Ip Error Control Args.
From Stdlib Require Import Ascii String.
From stdpp Require Import strings.
#[local] Open Scope Z_scope.

Definition ip_width (ip : IpAddr) : Z := match ip with V4 _ _ _ _ => 32 | V6 _ => 128 end.
Definition ip_value (ip : IpAddr) : Z :=
  match ip with
  | V4 a b c d => ((a * 256 + b) * 256 + c) * 256 + d
  | V6 segs => fold_left (fun acc seg => acc * 65536 + seg) segs 0
  end.

(** [ip] is in the network of [net] with a prefix of [p] bits. *)
Definition same_prefix (net : IpAddr) (p : Z) (ip : IpAddr) : bool :=
  (ip_width net =? ip_width ip) &&
  (Z.shiftr (ip_value net) (ip_width net - p) =? Z.shiftr (ip_value ip) (ip_width net - p)).

Definition cidr_text (net : IpAddr) (p : Z) : string := ip_to_string net +:+ "/" +:+ u16_to_string p.

Class IpNetLaws `{IpNetLib} : Prop := {
  ipnet_parses : forall net p, ip_ok net -> to_canonical net = net -> 0 <= p <= ip_width net ->
    exists n, parse_ipnet (cidr_text net p) = Some n /\
      forall ip, ip_ok ip -> ipnet_contains n ip = same_prefix net p ip;
  ipnet_needs_slash : forall s, "/"%char ∉ list_ascii_of_string s -> parse_ipnet s = None
}.

(** ** A library with these laws *)

Definition cidr_parse (s : string) : option (IpAddr * Z) :=
  match rsplit_once "/"%char (list_ascii_of_string s) with
  | Some (addr, len) =>
    match parse_ip_chars addr, parse_u16_chars len with
    | Some net, Some p => if p <=? ip_width net then Some (net, p) else None
    | _, _ => None
    end
  | None => None
  end.

Definition cidr_lib : IpNetLib :=
  {| IpNet := IpAddr * Z; parse_ipnet := cidr_parse; ipnet_contains n ip := same_prefix (fst n) (snd n) ip |}.

Lemma digit_char_not_slash d : 0 <= d < 10 -> digit_char d <> "/"%char.
Proof.
  intros Hd. assert (E : Ascii.eqb (digit_char d) "/"%char = false).
  { apply negb_true_iff. revert d Hd.
    apply (Z_range_forallb 10 (fun d => negb (Ascii.eqb (digit_char d) "/"%char))). by vm_compute. }
  by apply Ascii.eqb_neq in E.
Qed.

Lemma fmt_u16_no_slash n : is_u16 n -> "/"%char ∉ fmt_radix 10 5 n.
Proof.
  intros Hn. destruct (fmt_radix_digits 10 5 n) as (ds & -> & Hok); [lia | lia | unfold is_u16 in Hn; lia |].
  intros Hin. apply list_elem_of_In, in_map_iff in Hin as (d & Hd & Hin).
  unfold digits_ok in Hok. rewrite List.Forall_forall in Hok. by apply (digit_char_not_slash d) in Hd; [|apply Hok].
Qed.

#[export] Instance cidr_laws : @IpNetLaws cidr_lib.
Proof.
  constructor.
  - intros net p Hok Hcan Hp. exists (net, p). split; [|done]. cbn [parse_ipnet cidr_lib]. unfold cidr_parse, cidr_text.
    assert (Hu : is_u16 p) by (unfold is_u16; destruct net; simpl in Hp; lia).
    assert (E : list_ascii_of_string (ip_to_string net +:+ "/" +:+ u16_to_string p) =
      (fmt_ip net ++ "/"%char :: fmt_radix 10 5 p)%list).
    { unfold ip_to_string, u16_to_string. by rewrite !list_ascii_of_string_app, !list_ascii_of_string_of_list_ascii. }
    rewrite E, rsplit_once_last by (by apply fmt_u16_no_slash).
    pose proof (parse_ip_to_string net Hok) as Hparse. rewrite Hcan in Hparse. unfold parse_ip, ip_to_string in Hparse.
    rewrite list_ascii_of_string_of_list_ascii in Hparse. rewrite Hparse, parse_u16_to_string by done.
    destruct (Z.leb_spec p (ip_width net)); [done | lia].
  - intros s Hs. cbn. unfold cidr_parse. apply rsplit_once_none in Hs. by rewrite Hs.
Qed.

(** ** The whitelist *)

Section whitelist.
Context `{IpNetLaws}.

Lemma any_entry_cidr net p rest ip :
  ip_ok net -> to_canonical net = net -> 0 <= p <= ip_width net -> ip_ok ip ->
  any_entry_contains (cidr_text net p :: rest) ip = same_prefix net p ip || any_entry_contains rest ip.
Proof.
  intros Hok Hcan Hp Hip. cbn [any_entry_contains]. destruct (ipnet_parses net p Hok Hcan Hp) as (n & -> & Hn).
  rewrite Hn by done. by destruct (same_prefix net p ip).
Qed.

Lemma any_entry_no_slash s rest ip :
  "/"%char ∉ list_ascii_of_string s -> any_entry_contains (s :: rest) ip = any_entry_contains rest ip.
Proof. intros Hs. cbn [any_entry_contains]. by rewrite ipnet_needs_slash. Qed.

(** The networks an entry stands for. *)
Definition entry_ok (e : IpAddr * Z) : Prop :=
  ip_ok (fst e) /\ to_canonical (fst e) = fst e /\ 0 <= snd e <= ip_width (fst e).

Lemma any_entry_cidrs (entries : list (IpAddr * Z)) ip :
  Forall entry_ok entries -> ip_ok ip ->
  any_entry_contains (map (fun e => cidr_text (fst e) (snd e)) entries) ip =
    existsb (fun e => same_prefix (fst e) (snd e) ip) entries.
Proof.
  intros He Hip. induction He as [|[net p] entries (Hok & Hcan & Hp) _ IH]; [done|].
  cbn [map existsb fst snd] in *. by rewrite any_entry_cidr, IH.
Qed.

(** ** Properties *)

(** C28. A whitelist of networks in CIDR notation admits exactly the peers whose
    canonical address shares the prefix of one of them, for IPv4 and IPv6
    networks of every prefix length; an IPv4-mapped IPv6 peer is judged as the
    IPv4 address it stands for, never by an IPv6 network; an entry without a
    slash (a bare address) admits nobody. *)
Theorem cidr_whitelist (entries : list (IpAddr * Z)) (bare : list string) (peer : IpAddr) :
  Forall entry_ok entries -> Forall (fun s => "/"%char ∉ list_ascii_of_string s) bare -> ip_ok peer ->
  entries <> [] ->
  check_whitelist (ip_to_string (to_canonical peer)) (map (fun e => cidr_text (fst e) (snd e)) entries ++ bare) =
    if existsb (fun e => same_prefix (fst e) (snd e) (to_canonical peer)) entries then Ok tt
    else Err (Network "connection rejected: IP not in whitelist").
Proof.
  intros He Hb Hp Hne. unfold check_whitelist, is_ip_in_whitelist.
  rewrite bool_decide_false by (by destruct entries). rewrite parse_ip_to_string, to_canonical_idem by done.
  assert (Hbare : any_entry_contains bare (to_canonical peer) = false).
  { induction Hb as [|s bare Hs _ IH]; [done|]. by rewrite any_entry_no_slash. }
  assert (Happ : forall l, any_entry_contains (l ++ bare) (to_canonical peer) = any_entry_contains l (to_canonical peer)).
  { induction l as [|s l IH]; [done|]. cbn [app any_entry_contains]. rewrite IH. done. }
  rewrite Happ, any_entry_cidrs by (try done; by apply to_canonical_ok). by destruct (existsb _ _).
Qed.

End whitelist.

Lemma cidr_whitelist_witness :
  let entries := [(V4 192 168 1 0, 24); (V6 [0xfe80; 0; 0; 0; 0; 0; 0; 0], 10)] in
  let whitelist := ["192.168.1.0/24"%string; "fe80::/10"%string; "10.0.0.7"%string] in
  @check_whitelist cidr_lib "192.168.1.77" whitelist = Ok tt /\
  @check_whitelist cidr_lib "10.0.0.7" whitelist = Err (Network "connection rejected: IP not in whitelist").
Proof.
  intros entries whitelist.
  assert (He : Forall entry_ok entries) by (repeat constructor; done || by vm_compute).
  assert (Hb : Forall (fun s => "/"%char ∉ list_ascii_of_string s) ["10.0.0.7"%string]).
  { constructor; [|constructor]. by apply (bool_decide_unpack _). }
  split.
  - apply (@cidr_whitelist cidr_lib cidr_laws entries ["10.0.0.7"%string] (V6 [0; 0; 0; 0; 0; 0xffff; 0xc0a8; 0x014d]));
      [exact He | exact Hb | split; [done | repeat constructor; by vm_compute] | done].
  - apply (@cidr_whitelist cidr_lib cidr_laws entries ["10.0.0.7"%string] (V4 10 0 0 7));
      [exact He | exact Hb | repeat split; by vm_compute | done].
Defined.
