(* ===== verification/Serve.v ===== *)
(** * Serving a single client

    Models [bind_master_port] and [run_serve_single] of [src/main.rs]: the
    admission of the client, the magic packet and the callback that sends the
    I/Q data.  The control thread is in [Commands], the threads' shutdown in
    [Shutdown].  What the operating system, the tuner and the signal handler
    answer is the record [ServeEnv]. *)

From S2P Require Import Prelude Bytes Io Net Ip Error Control Encryption Commands Interpreter Args.
From stdpp Require Import strings.
#[local] Open Scope Z_scope.

Section serve.
Context `{RtlSdrLib} `{IpNetLib}.

(** [systemd] is [None] without the feature; with it, the socket passed by the
    environment and the answer to the notification. *)
Record ServeEnv : Type := mkServeEnv {
  Listener : Type;
  bind_address : string -> io Listener;
  systemd : option (res (option Listener) string * io unit);
  accept : Listener -> io (TcpStream * IpAddr);
  try_clone : io unit;
  open_device : Z -> res Controller string;
  set_handler : res unit string
}.

Definition bind_master_port (env : ServeEnv) (args : Args) : res (Listener env) RtlTcpError :=
  let addr := (address args +:+ ":" +:+ u16_to_string (master_port args))%string in
  match systemd env with
  | Some (fds, notified) =>
    let? listener := map_err (fun e => Config ("could not get fd from env: " +:+ e)) fds in
    match listener with
    | Some listener => let? _ := map_err from_io notified in Ok listener
    | None => map_err from_io (bind_address env addr)
    end
  | None => map_err from_io (bind_address env addr)
  end.

(** From the whitelist check to the opened device, on the accepted stream. *)
Definition admit_client (env : ServeEnv) (args : Args) (addr : IpAddr) (stream : TcpStream)
    : res Controller RtlTcpError * TcpStream :=
  let client_ip := ip_to_string (to_canonical addr) in
  let? _ @ stream := (check_whitelist client_ip (whitelist args), stream) in
  let? _ @ stream := lift_io (set_read_timeout stream (from_secs (read_timeout args))) in
  let? _ @ stream := lift_io (set_write_timeout stream (from_secs (write_timeout args))) in
  let? _ @ stream := (map_err from_io (try_clone env), stream) in
  let? ctl @ stream := (map_err (fun e => Device ("could not open RTL-SDR device: " +:+ e)) (open_device env (device_index args)), stream) in
  let? _ @ stream := (map_err (fun e => Config ("could not set signal handler: " +:+ e)) (set_handler env), stream) in
  let? _ @ stream := (map_err from_io (try_clone env), stream) in
  (Ok ctl, stream).

(** The magic packet. *)
Definition send_magic (tcp_buffers : nat) (stream : TcpStream) : res unit RtlTcpError * BufWriter TcpStream :=
  let buf_write_stream := bufwriter_with_capacity tcp_buffers stream in
  let? _ @ b := lift_io (bufwriter_write_all buf_write_stream MAGIC_PACKET) in
  let? _ @ b := lift_io (bufwriter_flush b) in
  (Ok tt, b).

(** [run_serve_single] up to its reading loop: the writer it will use and the
    tuner; on a failure, what became of the accepted stream. *)
Definition serve_single_setup (env : ServeEnv) (args : Args)
    : res (BufWriter TcpStream * Controller) RtlTcpError * option TcpStream :=
  let? listener @ s := (bind_master_port env args, None) in
  let? conn @ s := (map_err from_io (accept env listener), None) in
  match admit_client env args (snd conn) (fst conn) with
  | (Ok ctl, stream) =>
    match send_magic (Z.to_nat (tcp_buffers args)) stream with
    | (Ok _, b) => (Ok (b, ctl), Some (inner b))
    | (Err e, b) => (Err e, Some (inner b))
    | (Panic, b) => (Panic, Some (inner b))
    | (Diverged, b) => (Diverged, Some (inner b))
    end
  | (Err e, stream) => (Err e, Some stream)
  | (Panic, stream) => (Panic, Some stream)
  | (Diverged, stream) => (Diverged, Some stream)
  end.

(** ** The I/Q path *)

(** The state of [read_async]'s callback: the writer, the byte count and how
    many times it asked for a shutdown ([sender.try_send]). *)
Record Pump : Type := mkPump {
  buf_write_stream : BufWriter TcpStream;
  total_bytes_sent : Z;
  shutdown_requests : nat
}.

Definition on_iq (bytes : list Z) (p : Pump) : Pump :=
  let total := as_u64 (total_bytes_sent p + zlen bytes) in
  match bufwriter_write_all (buf_write_stream p) bytes with
  | (Ok _, b) =>
    match bufwriter_flush b with
    | (Err _, b) => mkPump b total (S (shutdown_requests p))
    | (_, b) => mkPump b total (shutdown_requests p)
    end
  | (Err _, b) => mkPump b total (S (shutdown_requests p))
  | (_, b) => mkPump b total (shutdown_requests p)
  end.

Definition read_async (blocks : list (list Z)) (p : Pump) : Pump := fold_left (fun p bytes => on_iq bytes p) blocks p.

(** ** Lemmas *)

Lemma tcp_flush (w : TcpStream) : flush w = (Ok tt, w).
Proof. done. Qed.

Lemma bufwriter_flush_buf_accepts (b : BufWriter TcpStream) :
  accepts (inner b) -> exists b', bufwriter_flush_buf b = (Ok tt, b') /\ accepts (inner b') /\ cap b' = cap b /\ pending b' = [].
Proof.
  intros Ha. unfold bufwriter_flush_buf.
  destruct (write_loop_accepts (length (pending b) + write_budget (inner b)) (inner b) (pending b) Ha) as (w' & E & Ha').
  { lia. }
  rewrite E. by eexists.
Qed.

Lemma bufwriter_write_all_accepts (b : BufWriter TcpStream) buf :
  accepts (inner b) -> exists b', bufwriter_write_all b buf = (Ok tt, b') /\ accepts (inner b').
Proof.
  intros Ha. unfold bufwriter_write_all. destruct (_ <? _)%nat; [by eexists|].
  assert (H1 : exists b1, (if (cap b - length (pending b) <? length buf)%nat then bufwriter_flush_buf b else (Ok tt, b)) = (Ok tt, b1)
    /\ accepts (inner b1)).
  { destruct (_ <? _)%nat; [|by eexists]. destruct (bufwriter_flush_buf_accepts b Ha) as (b1 & -> & ? & _). by eexists. }
  destruct H1 as (b1 & -> & Ha1). cbn [bind_st]. destruct (_ <=? _)%nat; [|by eexists].
  destruct (write_all_accepts (inner b1) buf Ha1) as (w & -> & _ & ?). by eexists.
Qed.

Lemma bufwriter_flush_accepts (b : BufWriter TcpStream) :
  accepts (inner b) -> exists b', bufwriter_flush b = (Ok tt, b') /\ accepts (inner b').
Proof.
  intros Ha. unfold bufwriter_flush. destruct (bufwriter_flush_buf_accepts b Ha) as (b1 & -> & ? & _). cbn. by eexists.
Qed.

(** The bytes since [w0] are all on the wire. *)
Definition settled (w0 : TcpStream) (bs : list Z) (b : BufWriter TcpStream) : Prop :=
  wrote w0 bs (inner b) /\ pending b = [].

Lemma settled_buffered w0 bs b : settled w0 bs b -> buffered w0 bs b.
Proof. intros [Hw Hp]. split; rewrite Hp; [simpl; lia|]. exists bs. by rewrite app_nil_r. Qed.

Lemma settled_write w0 bs b buf b1 b2 :
  settled w0 bs b -> bufwriter_write_all b buf = (Ok tt, b1) -> bufwriter_flush b1 = (Ok tt, b2) ->
  settled w0 (bs ++ buf) b2.
Proof.
  intros Hs E1 E2. apply settled_buffered in Hs. apply (buffered_write_all _ _ _ _ _ Hs) in E1 as [E1 _].
  by apply (buffered_flush _ _ _ _ tcp_flush E1) in E2 as (? & ? & _).
Qed.

Lemma on_iq_requests bytes p : (shutdown_requests p <= shutdown_requests (on_iq bytes p))%nat.
Proof. unfold on_iq. repeat case_match; simpl; lia. Qed.

Lemma read_async_requests blocks p : (shutdown_requests p <= shutdown_requests (read_async blocks p))%nat.
Proof.
  unfold read_async. revert p; induction blocks as [|b blocks IH]; intros p; simpl; [lia|].
  pose proof (on_iq_requests b p). specialize (IH (on_iq b p)). lia.
Qed.

Lemma tcp_write_loop_outcome (w : TcpStream) buf :
  exists r rest w', write_loop (length buf + write_budget w) w buf = (r, rest, w') /\ (r = Ok tt \/ exists e, r = Err e).
Proof.
  destruct (write_loop (length buf + write_budget w) w buf) as [[r rest] w'] eqn:E. exists r, rest, w'. split; [done|].
  pose proof (write_loop_returns (length buf + write_budget w) w buf _ (le_n _)) as Hr. rewrite E in Hr.
  assert (Hp : fst (fst (write_loop (length buf + write_budget w) w buf)) <> Panic).
  { apply write_loop_no_panic. intros w0 b0. cbn. unfold tcp_write. by destruct (tx w0) as [|[]]. }
  rewrite E in Hp. destruct r as [[]|e| |]; [by left | right; by eexists | done | done].
Qed.

Definition outcome (c : io unit * BufWriter TcpStream) : Prop := fst c = Ok tt \/ exists e, fst c = Err e.

Lemma bufwriter_flush_buf_outcome (b : BufWriter TcpStream) : outcome (bufwriter_flush_buf b).
Proof.
  unfold bufwriter_flush_buf. by destruct (tcp_write_loop_outcome (inner b) (pending b)) as (r & rest & w & -> & ?).
Qed.

Lemma bufwriter_flush_outcome (b : BufWriter TcpStream) : outcome (bufwriter_flush b).
Proof.
  unfold bufwriter_flush. pose proof (bufwriter_flush_buf_outcome b) as Ho.
  destruct (bufwriter_flush_buf b) as [r b1]. destruct Ho as [Ho|[e Ho]]; cbn in Ho; subst r; [by left | right; by exists e].
Qed.

Lemma bufwriter_write_all_outcome (b : BufWriter TcpStream) buf : outcome (bufwriter_write_all b buf).
Proof.
  unfold bufwriter_write_all. destruct (_ <? _)%nat; [by left|].
  assert (H1 : outcome (if (cap b - length (pending b) <? length buf)%nat then bufwriter_flush_buf b else (Ok tt, b))).
  { destruct (_ <? _)%nat; [apply bufwriter_flush_buf_outcome | by left]. }
  destruct (if (_ <? _)%nat then _ else _) as [r b1]. destruct H1 as [Ho|[e Ho]]; cbn in Ho; subst r; cbn [bind_st];
    [|right; by exists e].
  destruct (_ <=? _)%nat; [|by left]. unfold write_all.
  by destruct (tcp_write_loop_outcome (inner b1) buf) as (r & rest & w & -> & ?).
Qed.

(** A callback that asks for nothing has put its block on the wire. *)
Lemma on_iq_settled w0 bs bytes p :
  settled w0 bs (buf_write_stream p) -> shutdown_requests (on_iq bytes p) = shutdown_requests p ->
  settled w0 (bs ++ bytes) (buf_write_stream (on_iq bytes p)).
Proof.
  intros Hs. unfold on_iq. cbv zeta.
  pose proof (bufwriter_write_all_outcome (buf_write_stream p) bytes) as Ho.
  destruct (bufwriter_write_all (buf_write_stream p) bytes) as [r b1] eqn:E1.
  destruct Ho as [Ho|[e Ho]]; cbn in Ho; subst r; [|simpl; lia].
  pose proof (bufwriter_flush_outcome b1) as Ho2. destruct (bufwriter_flush b1) as [r b2] eqn:E2.
  destruct Ho2 as [Ho2|[e Ho2]]; cbn in Ho2; subst r; [|simpl; lia].
  intros _. by eapply settled_write.
Qed.

Lemma on_iq_accepts bytes p :
  accepts (inner (buf_write_stream p)) ->
  accepts (inner (buf_write_stream (on_iq bytes p))) /\ shutdown_requests (on_iq bytes p) = shutdown_requests p.
Proof.
  intros Ha. unfold on_iq. cbv zeta. destruct (bufwriter_write_all_accepts (buf_write_stream p) bytes Ha) as (b1 & -> & Ha1).
  by destruct (bufwriter_flush_accepts b1 Ha1) as (b2 & -> & Ha2).
Qed.

Lemma read_async_settled w0 blocks bs p :
  settled w0 bs (buf_write_stream p) -> shutdown_requests (read_async blocks p) = shutdown_requests p ->
  settled w0 (bs ++ concat blocks) (buf_write_stream (read_async blocks p)).
Proof.
  revert bs p; induction blocks as [|b blocks IH]; intros bs p Hs Hr; [by rewrite app_nil_r|].
  cbn [concat]. rewrite app_assoc. change (read_async (b :: blocks) p) with (read_async blocks (on_iq b p)) in *.
  pose proof (on_iq_requests b p). pose proof (read_async_requests blocks (on_iq b p)).
  apply IH; [apply on_iq_settled; [done | lia] | lia].
Qed.

Lemma read_async_total blocks p :
  total_bytes_sent (read_async blocks p) = fold_left (fun n b => as_u64 (n + zlen b)) blocks (total_bytes_sent p).
Proof.
  revert p; induction blocks as [|b blocks IH]; intros p; [done|].
  change (read_async (b :: blocks) p) with (read_async blocks (on_iq b p)). rewrite IH. cbn [fold_left]. f_equal.
  unfold on_iq. by repeat case_match.
Qed.

Lemma send_magic_accepts n (st : TcpStream) :
  accepts st -> exists b, send_magic n st = (Ok tt, b) /\ wrote st MAGIC_PACKET (inner b) /\ accepts (inner b).
Proof.
  intros Ha. unfold send_magic. cbv zeta. set (b0 := bufwriter_with_capacity n st).
  assert (Hs0 : settled st [] b0) by (split; [apply wrote_nil | done]).
  destruct (bufwriter_write_all_accepts b0 MAGIC_PACKET Ha) as (b1 & E1 & Ha1).
  destruct (bufwriter_flush_accepts b1 Ha1) as (b2 & E2 & Ha2).
  pose proof (settled_write _ _ _ _ _ _ Hs0 E1 E2) as [Hw _]. rewrite E1. cbn. rewrite E2. cbn. by exists b2.
Qed.

Lemma magic_then_blocks (tcp_buffers : nat) (st : TcpStream) (b : BufWriter TcpStream) (blocks : list (list Z)) :
  send_magic tcp_buffers st = (Ok tt, b) ->
  let p := read_async blocks (mkPump b 0 0) in
  (shutdown_requests p = O ->
     sent (inner (buf_write_stream p)) = sent st ++ MAGIC_PACKET ++ concat blocks /\ pending (buf_write_stream p) = []) /\
  (accepts (inner b) -> shutdown_requests p = O).
Proof.
  unfold send_magic. cbv zeta. set (b0 := bufwriter_with_capacity tcp_buffers st).
  assert (Hs0 : settled st [] b0) by (split; [apply wrote_nil | done]).
  pose proof (bufwriter_write_all_outcome b0 MAGIC_PACKET) as Ho.
  destruct (bufwriter_write_all b0 MAGIC_PACKET) as [r b1] eqn:E1.
  destruct Ho as [Ho|[e Ho]]; cbn in Ho; subst r; cbn [lift_io fst snd map_err bind_st]; [|done].
  pose proof (bufwriter_flush_outcome b1) as Ho2. destruct (bufwriter_flush b1) as [r b2] eqn:E2.
  destruct Ho2 as [Ho2|[e Ho2]]; cbn in Ho2; subst r; cbn [lift_io fst snd map_err bind_st]; [|done].
  intros [= <-]. pose proof (settled_write _ _ _ _ _ _ Hs0 E1 E2) as Hs. split.
  - intros Hr. destruct (read_async_settled st blocks MAGIC_PACKET (mkPump b2 0 0) Hs Hr) as [(Hw & _) Hp]. done.
  - intros Ha. enough (Hg : forall p, accepts (inner (buf_write_stream p)) ->
      shutdown_requests (read_async blocks p) = shutdown_requests p) by (by apply (Hg (mkPump b2 0 0))).
    clear. induction blocks as [|x blocks IH]; intros p Ha; [done|].
    change (read_async (x :: blocks) p) with (read_async blocks (on_iq x p)).
    destruct (on_iq_accepts x p Ha) as [Ha1 <-]. by apply IH.
Qed.

(** ** Properties *)

(** C32. The client of a single-client server gets the magic packet and then
    every block of the device, in order, whatever the buffer capacity and the
    way the kernel splits the writes: either a shutdown was requested, or all
    of it is on the wire; and on a connection whose writes do not fail none is
    ever requested. *)
Theorem single_client_stream (tcp_buffers : nat) (st : TcpStream) (b : BufWriter TcpStream) (blocks : list (list Z)) :
  send_magic tcp_buffers st = (Ok tt, b) ->
  let p := read_async blocks (mkPump b 0 0) in
  (shutdown_requests p = O ->
     sent (inner (buf_write_stream p)) = sent st ++ MAGIC_PACKET ++ concat blocks /\ pending (buf_write_stream p) = []) /\
  (accepts (inner b) -> shutdown_requests p = O).
Proof. apply magic_then_blocks. Qed.

(** A client that is not on the whitelist costs nothing: the server
    returns a network error, the connection is dropped as it was accepted
    (nothing sent, nothing read), and neither the tuner nor the signal handler
    is touched, whatever they would answer. *)
Theorem refused_client (env : ServeEnv) (args : Args) (l : Listener env) (st : TcpStream) (addr : IpAddr) :
  bind_master_port env args = Ok l -> accept env l = Ok (st, addr) ->
  check_whitelist (ip_to_string (to_canonical addr)) (whitelist args) <> Ok tt ->
  forall open handler,
    serve_single_setup (mkServeEnv (Listener env) (bind_address env) (systemd env) (accept env) (try_clone env) open handler) args =
      (Err (Network "connection rejected: IP not in whitelist"), Some st).
Proof.
  intros Hb Hacc Hw open handler. unfold serve_single_setup.
  change (bind_master_port (mkServeEnv (Listener env) (bind_address env) (systemd env) (accept env) (try_clone env) open handler) args)
    with (bind_master_port env args).
  rewrite Hb. cbn [bind_st]. cbn [accept]. rewrite Hacc. cbn [map_err bind_st fst snd].
  unfold admit_client. cbv zeta. unfold check_whitelist in *.
  destruct (bool_decide (whitelist args = [])); [done|].
  by destruct (is_ip_in_whitelist _ _).
Qed.

End serve.

Section witnesses.
#[local] Existing Instance ten_net.
#[local] Existing Instance log_tuner.

Lemma single_client_stream_witness :
  let st := mkTcp [] [Accept 5; WErr Interrupted; Accept 4] [] None None in
  let out := send_magic 16 st in
  let p := read_async [[1; 2; 3]; replicate 20 7; [4]] (mkPump (snd out) 0 0) in
  shutdown_requests p = O /\
  sent (inner (buf_write_stream p)) = [] ++ MAGIC_PACKET ++ [1; 2; 3] ++ replicate 20 7 ++ [4].
Proof.
  intros st out p. split; [by vm_compute|].
  apply (single_client_stream 16 st (snd out) [[1; 2; 3]; replicate 20 7; [4]]); by vm_compute.
Defined.

Lemma refused_client_witness :
  let st := mkTcp [Data [1]] [] [] None None in
  let args := mkArgs "serve" "0.0.0.0" 1234 None 10 None None None 0 15 512000 30 30 ["10.0.0.0/8"] in
  let env := mkServeEnv unit (fun _ => Ok tt) None (fun _ => Ok (st, V4 192 168 0 1)) (Ok tt) (fun _ => Panic) Panic in
  serve_single_setup env args = (Err (Network "connection rejected: IP not in whitelist"), Some st).
Proof.
  intros st args env.
  apply (refused_client env args tt st (V4 192 168 0 1)).
  - reflexivity.
  - reflexivity.
  - by vm_compute.
Defined.

End witnesses.
