(* ===== verification/Fanout.v ===== *)
(** * Many clients of one broadcast

    The multi-client server and the proxy as distributors of data: one producer
    (the device's callback, or the upstream reader) sends to the broadcast
    channel, and each client has a writer thread ([Stream]) with a receiver of
    its own.  A run is a sequence of events in any order: a block is sent, a
    client joins, a writer does one iteration, the exit flag is set.

    [Feed] is what this promises: one log of blocks, and for each client a
    cursor that moves forward over it. *)

From S2P Require Import Prelude Bytes Io Net Error Control Stream Serve.
From stdpp Require Import gmap relations.
#[local] Open Scope Z_scope.

#[local] Create HintDb feed.

(** ** The threads *)

Section fanout.
Context `{BroadcastLib}.

(** A client's socket, its writer's receiver, and why the writer ended. *)
Record Client : Type := mkClient { cl_stream : TcpStream; cl_rx : Receiver; cl_stop : option WriterStop }.

Record Fanout : Type := mkFanout { fan_tx : Chan; fan_exit : bool; clients : gmap nat Client }.

Inductive FanEvent : Type :=
| Publish (block : list Z)
| Arrive (id : nat) (stream : TcpStream)
| Poll (id : nat)
| RequestExit.

(** Connections are numbered; a number is used once. *)
Definition fan_event (e : FanEvent) (s : Fanout) : Fanout :=
  match e with
  | Publish block => mkFanout (send (fan_tx s) block) (fan_exit s) (clients s)
  | Arrive id stream =>
    match clients s !! id with
    | Some _ => s
    | None => mkFanout (fan_tx s) (fan_exit s) (<[id := mkClient stream (subscribe (fan_tx s)) None]> (clients s))
    end
  | Poll id =>
    match clients s !! id with
    | Some (mkClient stream rx None) =>
      let '(stop, stream, rx) := client_step (fan_exit s) (fan_tx s) stream rx in
      mkFanout (fan_tx s) (fan_exit s) (<[id := mkClient stream rx stop]> (clients s))
    | _ => s
    end
  | RequestExit => mkFanout (fan_tx s) true (clients s)
  end.

Fixpoint fan_run (events : list FanEvent) (s : Fanout) : Fanout :=
  match events with
  | [] => s
  | e :: events => fan_run events (fan_event e s)
  end.

Definition fan_start (capacity : nat) : Fanout := mkFanout (fst (new_broadcast capacity)) false ∅.

(** The blocks a run sends. *)
Fixpoint published (events : list FanEvent) : list (list Z) :=
  match events with
  | [] => []
  | Publish block :: events => block :: published events
  | _ :: events => published events
  end.

(** The socket client [i] joins with and how many of the [n] and more blocks
    are sent by then. *)
Fixpoint joined (i n : nat) (events : list FanEvent) : option (TcpStream * nat) :=
  match events with
  | [] => None
  | Publish _ :: events => joined i (S n) events
  | Arrive j stream :: events => if (j =? i)%nat then Some (stream, n) else joined i n events
  | _ :: events => joined i n events
  end.

(** The writer of client [i] never falls behind what the channel retains. *)
Definition keeps_up_at (i : nat) (e : FanEvent) (s : Fanout) : Prop :=
  match e with
  | Poll j => j = i -> match clients s !! i with Some c => (oldest (fan_tx s) <= position (cl_rx c))%nat | None => True end
  | _ => True
  end.
Fixpoint keeps_up (i : nat) (events : list FanEvent) (s : Fanout) : Prop :=
  match events with
  | [] => True
  | e :: events => keeps_up_at i e s /\ keeps_up i events (fan_event e s)
  end.

(** ** The specification *)

(** [opening] is what was on the socket when the client joined, [got] what came
    after; [lost] whether blocks were skipped. *)
Record Cursor : Type := mkCursor {
  opening : list Z;
  from : nat;
  upto : nat;
  got : list Z;
  lost : bool;
  ended : bool
}.

Record Feed : Type := mkFeed { log : list (list Z); cursors : gmap nat Cursor }.

Inductive feed_step : Feed -> Feed -> Prop :=
| feed_publish block l cs : feed_step (mkFeed l cs) (mkFeed (l ++ [block]) cs)
| feed_join i o l cs :
    cs !! i = None -> feed_step (mkFeed l cs) (mkFeed l (<[i := mkCursor o (length l) (length l) [] false false]> cs))
| feed_take i o f n g x block l cs :
    cs !! i = Some (mkCursor o f n g x false) -> l !! n = Some block ->
    feed_step (mkFeed l cs) (mkFeed l (<[i := mkCursor o f (S n) (g ++ block) x false]> cs))
| feed_cut i o f n g x block part l cs :
    cs !! i = Some (mkCursor o f n g x false) -> l !! n = Some block -> part `prefix_of` block ->
    feed_step (mkFeed l cs) (mkFeed l (<[i := mkCursor o f (S n) (g ++ part) x true]> cs))
| feed_skip i o f n m g x l cs :
    cs !! i = Some (mkCursor o f n g x false) -> (n < m <= length l)%nat ->
    feed_step (mkFeed l cs) (mkFeed l (<[i := mkCursor o f m g true false]> cs))
| feed_end i o f n g x l cs :
    cs !! i = Some (mkCursor o f n g x false) ->
    feed_step (mkFeed l cs) (mkFeed l (<[i := mkCursor o f n g x true]> cs)).

(** What a run shows of a feed.  [carries o g w] relates what was on a client's
    socket when it joined, what it got and what is on the socket; when nobody
    but its writer writes to it, these are [o], [g] and [o ++ g]. *)
Definition exactly (o g w : list Z) : Prop := w = o ++ g.

Definition shows_client_by (carries : list Z -> list Z -> list Z -> Prop) (c : Client) (k : Cursor) : Prop :=
  position (cl_rx c) = upto k /\ carries (opening k) (got k) (sent (cl_stream c)) /\
  ended k = (match cl_stop c with Some _ => true | None => false end).
Definition shows_client : Client -> Cursor -> Prop := shows_client_by exactly.

Definition shows_by (carries : nat -> list Z -> list Z -> list Z -> Prop) (s : Fanout) (f : Feed) : Prop :=
  history (fan_tx s) = log f /\ map_Forall2 (fun i => shows_client_by (carries i)) (clients s) (cursors f).
Definition shows (s : Fanout) (f : Feed) : Prop :=
  history (fan_tx s) = log f /\ map_Forall2 (fun _ => shows_client) (clients s) (cursors f).

(** ** What the specification gives *)

Definition cursor_ok (l : list (list Z)) (k : Cursor) : Prop :=
  (from k <= upto k <= length l)%nat /\
  exists ms part, got k = concat ms ++ part /\ ms `sublist_of` take (upto k - from k) (drop (from k) l) /\
    (ended k = false -> part = []) /\ (exists m, m ∈ [] :: l /\ part `prefix_of` m) /\
    (lost k = false -> ended k = false -> ms = take (upto k - from k) (drop (from k) l)).

Definition feed_ok (f : Feed) : Prop := map_Forall (fun _ => cursor_ok (log f)) (cursors f).

(** ** Lemmas: the specification *)

Lemma take_next (l : list (list Z)) f n block :
  (f <= n)%nat -> l !! n = Some block -> take (S n - f) (drop f l) = take (n - f) (drop f l) ++ [block].
Proof.
  intros Hf Hl. replace (S n - f)%nat with (S (n - f)) by lia. apply take_S_r.
  rewrite lookup_drop. by replace (f + (n - f))%nat with n by lia.
Qed.

Lemma sublist_take_next (ms l : list (list Z)) f n m :
  (f <= n <= m)%nat -> ms `sublist_of` take (n - f) (drop f l) -> ms `sublist_of` take (m - f) (drop f l).
Proof.
  intros Hf Hs. etrans; [exact Hs|].
  replace (m - f)%nat with ((n - f) + (m - n))%nat by lia. rewrite <- take_drop_split. by apply sublist_inserts_r.
Qed.

Lemma cursor_ok_publish l block k : cursor_ok l k -> cursor_ok (l ++ [block]) k.
Proof.
  intros (Hle & ms & part & Hg & Hs & Hp & (m & Hm & Hpm) & Hall).
  assert (E : take (upto k - from k) (drop (from k) l) = take (upto k - from k) (drop (from k) (l ++ [block]))).
  { apply prefix_take_drop; [by eexists | lia]. }
  rewrite E in Hs, Hall. split; [rewrite length_app; simpl; lia|]. exists ms, part. split_and!; try done.
  exists m. split; [|done]. apply elem_of_cons in Hm as [->|Hm]; [by left | right]. apply elem_of_app. by left.
Qed.

Lemma cursor_ok_join l o : cursor_ok l (mkCursor o (length l) (length l) [] false false).
Proof.
  split; [done|]. exists [], []. cbn [from upto]. rewrite Nat.sub_diag, take_0. split_and!; try done.
  exists []. split; [by left | done].
Qed.

Lemma cursor_ok_take l o f n g x block :
  cursor_ok l (mkCursor o f n g x false) -> l !! n = Some block -> cursor_ok l (mkCursor o f (S n) (g ++ block) x false).
Proof.
  intros (Hle & ms & part & Hg & Hs & Hp & _ & Hall) Hl. cbn [from upto got lost ended] in *.
  apply lookup_lt_Some in Hl as Hlt. split; [cbn; lia|]. exists (ms ++ [block]), []. cbn [from upto got lost ended].
  rewrite (take_next l f n block) by (done || lia). rewrite Hp, app_nil_r in Hg by done. split_and!; try done.
  - rewrite Hg, concat_app. cbn. by rewrite !app_nil_r.
  - by apply sublist_app.
  - exists []. split; [by left | done].
  - intros Hx _. by rewrite Hall.
Qed.

Lemma cursor_ok_cut l o f n g x block part :
  cursor_ok l (mkCursor o f n g x false) -> l !! n = Some block -> part `prefix_of` block ->
  cursor_ok l (mkCursor o f (S n) (g ++ part) x true).
Proof.
  intros (Hle & ms & p & Hg & Hs & Hp & _ & _) Hl Hpre. cbn [from upto got lost ended] in *.
  apply lookup_lt_Some in Hl as Hlt. split; [cbn; lia|]. exists ms, part. cbn [from upto got lost ended].
  rewrite Hp, app_nil_r in Hg by done. split_and!; try done.
  - by rewrite Hg.
  - apply (sublist_take_next _ _ _ n); [lia | done].
  - exists block. split; [|done]. right. by eapply list_elem_of_lookup_2.
Qed.

Lemma cursor_ok_skip l o f n m g x :
  cursor_ok l (mkCursor o f n g x false) -> (n < m <= length l)%nat -> cursor_ok l (mkCursor o f m g true false).
Proof.
  intros (Hle & ms & p & Hg & Hs & Hp & Hm & _) Hlt. cbn [from upto got lost ended] in *.
  split; [cbn; lia|]. exists ms, p. cbn [from upto got lost ended]. split_and!; try done.
  apply (sublist_take_next _ _ _ n); [lia | done].
Qed.

Lemma cursor_ok_end l o f n g x : cursor_ok l (mkCursor o f n g x false) -> cursor_ok l (mkCursor o f n g x true).
Proof. intros (Hle & ms & p & Hg & Hs & Hp & Hm & _). split; [done|]. exists ms, p. by split_and!. Qed.

#[local] Hint Resolve cursor_ok_publish cursor_ok_join cursor_ok_take cursor_ok_cut cursor_ok_skip cursor_ok_end : feed.

Lemma feed_ok_step f f' : feed_step f f' -> feed_ok f -> feed_ok f'.
Proof.
  unfold feed_ok. intros Hs Hok. destruct Hs; cbn [log cursors] in *;
    [eapply map_Forall_impl; [exact Hok|]; eauto with feed | apply map_Forall_insert_2; eauto with feed..].
Qed.

Lemma feed_reachable f : rtc feed_step (mkFeed [] ∅) f -> feed_ok f.
Proof. apply (rtc_preserves _ _ feed_ok_step). apply map_Forall_empty. Qed.

(** Cursors keep where they began. *)
Definition same_start (k k' : Cursor) : Prop := opening k' = opening k /\ from k' = from k.
Definition keeps_starts (f f' : Feed) : Prop :=
  forall i k, cursors f !! i = Some k -> exists k', cursors f' !! i = Some k' /\ same_start k k'.

Lemma keeps_starts_refl f : keeps_starts f f.
Proof. intros i k Hk. by exists k. Qed.

Lemma keeps_starts_trans f1 f2 f3 : keeps_starts f1 f2 -> keeps_starts f2 f3 -> keeps_starts f1 f3.
Proof.
  intros H12 H23 i k Hk. destruct (H12 i k Hk) as (k2 & Hk2 & [Ho Hf]).
  destruct (H23 i k2 Hk2) as (k3 & Hk3 & [Ho' Hf']). exists k3. split; [done|]. split; congruence.
Qed.

Lemma keeps_starts_update i k k' l l' cs :
  cs !! i = Some k -> same_start k k' -> keeps_starts (mkFeed l cs) (mkFeed l' (<[i:=k']> cs)).
Proof.
  intros Hk Hs j kj Hj. cbn [cursors] in *. destruct (decide (i = j)) as [->|Hne].
  - rewrite lookup_insert_eq. simplify_eq. by exists k'.
  - rewrite lookup_insert_ne by done. by exists kj.
Qed.

(** ** Lemmas: the simulation *)

(** What one iteration of a writer does. *)
Lemma client_step_feeds b ch (st st' : TcpStream) rcv rcv' stop :
  (position rcv <= length (history ch))%nat -> client_step b ch st rcv = (stop, st', rcv') ->
  (sent st' = sent st /\ position rcv' = position rcv) \/
  (exists block part, history ch !! position rcv = Some block /\ position rcv' = S (position rcv) /\
     sent st' = sent st ++ part /\ part `prefix_of` block /\ (stop = None -> part = block)) \/
  ((position rcv < oldest ch)%nat /\ stop = None /\ sent st' = sent st /\ position rcv' = oldest ch).
Proof.
  intros Hpos. unfold client_step. destruct b; [intros; simplify_eq; by left|].
  pose proof (try_recv_law ch rcv Hpos) as Hlaw. destruct (try_recv ch rcv) as [[block| | |n] r].
  - destruct Hlaw as (_ & Hl & Hr). destruct (write_all st block) as [q s1] eqn:Ew.
    apply write_all_wrote in Ew as (part & Hpre & (Hw & _) & Hok). intros E. right. left. exists block, part.
    destruct q as [[]|e| |]; simplify_eq; split_and!; try done; intros _; by apply Hok.
  - destruct Hlaw as (_ & _ & ->). intros; simplify_eq. by left.
  - destruct Hlaw as (_ & _ & ->). intros; simplify_eq. by left.
  - destruct Hlaw as (Hlt & _ & Hr). intros; simplify_eq. right. right. by split_and!.
Qed.

(** The feed loses nothing of client [i]. *)
Definition complete (i : nat) (f : Feed) : Prop := forall k, cursors f !! i = Some k -> lost k = false.

Lemma complete_update i j k k' l l' cs :
  cs !! j = Some k -> (j = i -> lost k' = lost k) -> complete i (mkFeed l cs) -> complete i (mkFeed l' (<[j:=k']> cs)).
Proof.
  unfold complete. cbn [cursors]. intros Hk Hl Hc x. destruct (decide (j = i)) as [->|Hne].
  - rewrite lookup_insert_eq. intros [= <-]. rewrite Hl by done. by apply Hc.
  - rewrite lookup_insert_ne by done. apply Hc.
Qed.

(** One event is some steps of the feed; a client that joins begins with its
    socket as it is, at the end of the log. *)
Definition starts (e : FanEvent) (f f' : Feed) : Prop :=
  match e with
  | Arrive i st => cursors f !! i = None ->
      exists k, cursors f' !! i = Some k /\ opening k = sent st /\ from k = length (log f)
  | _ => True
  end.

Section by_events.
Context (carries : nat -> list Z -> list Z -> list Z -> Prop).
Hypothesis carries_more : forall i o g w part, carries i o g w -> carries i o (g ++ part) (w ++ part).
Abbreviation shown := (shows_by carries).

Definition simulates (e : FanEvent) (s : Fanout) (f : Feed) : Prop :=
  exists f', rtc feed_step f f' /\ shown (fan_event e s) f' /\ keeps_starts f f' /\
    (forall i, keeps_up_at i e s -> complete i f -> complete i f') /\ starts e f f'.

Lemma join_simulates id st s f :
  shown s f -> clients s !! id = None -> carries id (sent st) [] (sent st) ->
  let f' := mkFeed (log f) (<[id := mkCursor (sent st) (length (log f)) (length (log f)) [] false false]> (cursors f)) in
  feed_step f f' /\ shown (fan_event (Arrive id st) s) f' /\ keeps_starts f f' /\ (forall i, complete i f -> complete i f') /\
  starts (Arrive id st) f f'.
Proof.
  intros [Hh Hm] Hn Hcar f'. destruct f as [l cs]. cbn [log cursors] in *.
  assert (Hc : cs !! id = None) by (pose proof (Hm id) as Hid; rewrite Hn in Hid; by inversion Hid).
  split; [by constructor|].
  cbn [fan_event]. rewrite Hn. refine (conj (conj Hh _) (conj _ (conj _ _))).
  - cbn [clients cursors]. apply map_Forall2_insert_2; [|done].
    split_and!; cbn; [by rewrite subscribe_law, Hh | done | done].
  - intros j k Hk. cbn [cursors f'] in *. exists k. rewrite lookup_insert_ne by congruence. done.
  - intros j Hj k. cbn [cursors f']. destruct (decide (id = j)) as [->|Hne].
    + rewrite lookup_insert_eq. by intros [= <-].
    + rewrite lookup_insert_ne by done. apply Hj.
  - intros _. cbn [cursors f']. rewrite lookup_insert_eq. eexists. by split_and!.
Qed.

Lemma poll_simulates id s f : shown s f -> feed_ok f -> simulates (Poll id) s f.
Proof.
  intros [Hh Hm] Hok. unfold simulates. destruct f as [l cs]. cbn [fan_event log cursors] in *.
  pose proof (Hm id) as Hid.
  assert (Hstay : exists f', rtc feed_step (mkFeed l cs) f' /\ shown s f' /\ keeps_starts (mkFeed l cs) f' /\
    (forall i, keeps_up_at i (Poll id) s -> complete i (mkFeed l cs) -> complete i f') /\ True).
  { exists (mkFeed l cs). refine (conj _ (conj _ (conj (keeps_starts_refl _) (conj _ I)))); done. }
  destruct (clients s !! id) as [[st rx [stop|]]|] eqn:Ec; [exact Hstay | | exact Hstay]. clear Hstay.
  destruct (cs !! id) as [[o fr n g x en]|] eqn:E2; [|by inversion Hid].
  assert (Hk : shows_client_by (carries id) (mkClient st rx None) (mkCursor o fr n g x en)) by (by inversion Hid).
  destruct Hk as (Hp & Hs & He). cbn in Hp, Hs, He. subst en.
  destruct (map_Forall_lookup_1 _ _ _ _ Hok E2) as [[_ Hle] _]. cbn [upto log] in Hle.
  destruct (client_step (fan_exit s) (fan_tx s) st rx) as [[stop st'] rx'] eqn:Es.
  assert (Hshow : forall k, shows_client_by (carries id) (mkClient st' rx' stop) k ->
    shown (mkFanout (fan_tx s) (fan_exit s) (<[id:=mkClient st' rx' stop]> (clients s))) (mkFeed l (<[id:=k]> cs))).
  { intros k Hk. split; [done|]. by apply map_Forall2_insert_2. }
  assert (Hstep : forall k, rtc feed_step (mkFeed l cs) (mkFeed l (<[id:=k]> cs)) -> same_start (mkCursor o fr n g x false) k ->
    shows_client_by (carries id) (mkClient st' rx' stop) k -> (keeps_up_at id (Poll id) s -> lost k = x) ->
    exists f', rtc feed_step (mkFeed l cs) f' /\
      shown (mkFanout (fan_tx s) (fan_exit s) (<[id:=mkClient st' rx' stop]> (clients s))) f' /\
      keeps_starts (mkFeed l cs) f' /\
      (forall i, keeps_up_at i (Poll id) s -> complete i (mkFeed l cs) -> complete i f') /\ True).
  { intros k Hr Hss Hsc Hl. exists (mkFeed l (<[id:=k]> cs)). refine (conj Hr (conj (Hshow k Hsc) (conj _ (conj _ I)))).
    - by eapply keeps_starts_update.
    - intros i Hi. eapply complete_update; [done|]. intros <-. by apply Hl. }
  apply client_step_feeds in Es as [(Hs' & Hp')|[(block & part & Hl & Hp' & Hs' & Hpre & Hw)|(Hlt & -> & Hs' & Hp')]];
    [| | |rewrite Hp, Hh; exact Hle].
  - destruct stop as [stop|].
    + apply (Hstep (mkCursor o fr n g x true)); try done; [by apply rtc_once; econstructor|].
      split_and!; cbn; congruence.
    + apply (Hstep (mkCursor o fr n g x false)); try done; [by rewrite insert_id|]. split_and!; cbn; congruence.
  - rewrite Hh, Hp in Hl. destruct stop as [stop|].
    + apply (Hstep (mkCursor o fr (S n) (g ++ part) x true)); try done; [by apply rtc_once; eapply feed_cut|].
      split_and!; cbn; [congruence | rewrite Hs'; by apply carries_more | done].
    + rewrite (Hw eq_refl) in *. apply (Hstep (mkCursor o fr (S n) (g ++ block) x false)); try done; [by apply rtc_once; eapply feed_take|].
      split_and!; cbn; [congruence | rewrite Hs'; by apply carries_more | done].
  - pose proof (oldest_law (fan_tx s)). rewrite Hh in *.
    apply (Hstep (mkCursor o fr (oldest (fan_tx s)) g true false)); try done.
    + apply rtc_once. eapply feed_skip; [done|]. lia.
    + split_and!; cbn; congruence.
    + intros Hk. specialize (Hk eq_refl). rewrite Ec in Hk. cbn in Hk. lia.
Qed.

Definition joins_with (e : FanEvent) : Prop :=
  match e with Arrive i st => carries i (sent st) [] (sent st) | _ => True end.

Lemma event_simulates e s f : joins_with e -> shown s f -> feed_ok f -> simulates e s f.
Proof.
  intros Hcar Hs Hok. destruct e as [block|id st|id|]; [| | by apply poll_simulates |].
  - destruct Hs as [Hh Hm], f as [l cs]. exists (mkFeed (l ++ [block]) cs). refine (conj _ (conj (conj _ Hm) (conj _ (conj _ I)))).
    + apply rtc_once. constructor.
    + cbn in *. by rewrite (proj1 (send_law _ _)), Hh.
    + intros i k Hk. by exists k.
    + done.
  - destruct (clients s !! id) as [c|] eqn:Ec.
    + exists f. cbn [fan_event]. rewrite Ec. refine (conj _ (conj Hs (conj (keeps_starts_refl _) (conj _ _)))); try done.
      intros Hn. pose proof (proj2 Hs id) as Hid. rewrite Ec, Hn in Hid. by inversion Hid.
    + destruct (join_simulates id st s f Hs Ec Hcar) as (Hstep & Hsh & Hk & Hc & Hst). eexists.
      refine (conj (rtc_once _ _ Hstep) (conj Hsh (conj Hk (conj _ Hst)))). intros i _. apply Hc.
  - exists f. refine (conj _ (conj Hs (conj (keeps_starts_refl _) (conj _ I)))); done.
Qed.

(** An event leaves a client that has not joined out. *)
Lemma event_absent e s f i f' :
  shown s f -> shown (fan_event e s) f' -> cursors f !! i = None -> (forall st, e <> Arrive i st) -> cursors f' !! i = None.
Proof.
  intros Hs Hs' Hn He. assert (Hc : clients s !! i = None) by (pose proof (proj2 Hs i) as Hi; rewrite Hn in Hi; by inversion Hi).
  enough (Hc' : clients (fan_event e s) !! i = None) by (pose proof (proj2 Hs' i) as Hi; rewrite Hc' in Hi; by inversion Hi).
  destruct e as [block|id st|id|]; cbn [fan_event]; try done.
  - assert (id <> i) by (intros ->; by apply (He st)). destruct (clients s !! id); [done|].
    cbn [clients]. by rewrite lookup_insert_ne.
  - destruct (clients s !! id) as [[st rx [stop|]]|] eqn:E; try done.
    destruct (client_step _ _ _ _) as [[stop st'] rx']. cbn [clients]. rewrite lookup_insert_ne; [done|]. congruence.
Qed.

End by_events.

Lemma exactly_more (i : nat) (o g w part : list Z) : exactly o g w -> exactly o (g ++ part) (w ++ part).
Proof. unfold exactly. intros ->. by rewrite app_assoc. Qed.

Lemma exactly_joins e : joins_with (fun _ => exactly) e.
Proof. destruct e as [| id st | |]; try done. unfold joins_with, exactly. by rewrite app_nil_r. Qed.

(** A whole run. *)
Lemma run_simulates events s f :
  shows s f -> feed_ok f ->
  exists f', rtc feed_step f f' /\ shows (fan_run events s) f' /\ feed_ok f' /\ keeps_starts f f' /\
    (forall i, keeps_up i events s -> complete i f -> complete i f') /\
    (forall i st n, cursors f !! i = None -> joined i (length (log f)) events = Some (st, n) ->
       exists k, cursors f' !! i = Some k /\ opening k = sent st /\ from k = n).
Proof.
  revert s f. induction events as [|e events IH]; intros s f Hs Hok.
  { exists f. refine (conj _ (conj Hs (conj Hok (conj (keeps_starts_refl _) (conj _ _))))); done. }
  destruct (event_simulates (fun _ => exactly) exactly_more e s f (exactly_joins e) Hs Hok) as (f1 & Hr1 & Hs1 & Hk1 & Hc1 & Hst).
  assert (Hok1 : feed_ok f1) by exact (rtc_preserves _ _ feed_ok_step _ _ Hok Hr1).
  destruct (IH _ _ Hs1 Hok1) as (f2 & Hr2 & Hs2 & Hok2 & Hk2 & Hc2 & Hj2). exists f2.
  refine (conj _ (conj Hs2 (conj Hok2 (conj (keeps_starts_trans _ _ _ Hk1 Hk2) (conj _ _))))); [by etrans| |].
  - intros i [Hi1 Hi2] Hc. apply Hc2; [done|]. by apply Hc1.
  - intros i st n Hn Hj. assert (Hlog : log f1 = history (fan_tx (fan_event e s))) by (by symmetry; apply Hs1).
    assert (Hlog0 : history (fan_tx s) = log f) by apply Hs.
    destruct e as [block|id st'|id|].
    + apply Hj2; [by apply (event_absent (fun _ => exactly) _ s f _ _ Hs Hs1)|]. rewrite Hlog. cbn [fan_event fan_tx].
      rewrite (proj1 (send_law _ _)), Hlog0, length_app, Nat.add_comm. exact Hj.
    + cbn [joined] in Hj. destruct (Nat.eqb_spec id i) as [->|Hne].
      * injection Hj as -> <-. destruct (Hst Hn) as (k1 & Hk & Ho & Hf).
        destruct (Hk2 i k1 Hk) as (k2 & Hk' & [Ho' Hf']). exists k2. split_and!; congruence.
      * apply Hj2; [apply (event_absent (fun _ => exactly) _ s f _ _ Hs Hs1); congruence|]. rewrite Hlog. cbn [fan_event].
        destruct (clients s !! id); cbn [fan_tx]; by rewrite Hlog0.
    + apply Hj2; [by apply (event_absent (fun _ => exactly) _ s f _ _ Hs Hs1)|]. rewrite Hlog. cbn [fan_event].
      destruct (clients s !! id) as [[? ? [?|]]|]; rewrite ?Hlog0; try done.
      destruct (client_step _ _ _ _) as [[? ?] ?]. cbn [fan_tx]. by rewrite Hlog0.
    + apply Hj2; [by apply (event_absent (fun _ => exactly) _ s f _ _ Hs Hs1)|]. rewrite Hlog. cbn [fan_event fan_tx]. by rewrite Hlog0.
Qed.

Lemma run_history events s : history (fan_tx (fan_run events s)) = history (fan_tx s) ++ published events.
Proof.
  revert s. induction events as [|e events IH]; intros s; [by rewrite app_nil_r|]. cbn [fan_run]. rewrite IH.
  destruct e as [block|id st|id|]; cbn [fan_event published]; try done.
  - cbn [fan_tx]. by rewrite (proj1 (send_law _ _)), <- app_assoc.
  - by destruct (clients s !! id).
  - destruct (clients s !! id) as [[st rx [stop|]]|]; try done. by destruct (client_step _ _ _ _) as [[? ?] ?].
Qed.

Lemma complete_start i : complete i (mkFeed [] ∅).
Proof. intros k E. cbn in E. by rewrite lookup_empty in E. Qed.

Lemma start_shows capacity : shows (fan_start capacity) (mkFeed [] ∅).
Proof.
  unfold fan_start, new_broadcast. pose proof (channel_law capacity) as Hc. destruct (channel capacity) as [ch rcv].
  destruct Hc as (Hh & _ & _). split; [exact Hh | apply map_Forall2_empty].
Qed.

(** ** What a client has *)

(** The data of the blocks [f] to [n] of a run. *)
Definition segment (events : list FanEvent) (f n : nat) : list Z := concat (take (n - f) (drop f (published events))).

(** A client that has kept up and whose writer runs. *)
Definition up_with (capacity i : nat) (events : list FanEvent) (c : Client) : Prop :=
  clients (fan_run events (fan_start capacity)) !! i = Some c /\ cl_stop c = None /\
  keeps_up i events (fan_start capacity).

Lemma up_with_data capacity i events c st f :
  joined i 0 events = Some (st, f) -> up_with capacity i events c ->
  (f <= position (cl_rx c) <= length (published events))%nat /\
  sent (cl_stream c) = sent st ++ segment events f (position (cl_rx c)).
Proof.
  intros Hj (Hc & Hr & Hup).
  destruct (run_simulates events (fan_start capacity) (mkFeed [] ∅)) as (fd & _ & [Hh Hm] & Hok & _ & Hl & Hjn);
    [apply start_shows | apply map_Forall_empty |].
  destruct (Hjn i st f (lookup_empty _) Hj) as (k & Hk & Ho & Hf).
  assert (Hlost : lost k = false) by (by apply (Hl i Hup); [apply complete_start|]).
  pose proof (Hm i) as Hi. rewrite Hc, Hk in Hi. assert (Hsc : shows_client c k) by (by inversion Hi). clear Hi.
  destruct Hsc as (Hp & Hs & He). rewrite Hr in He.
  destruct (map_Forall_lookup_1 _ _ _ _ Hok Hk) as (Hle & ms & part & Hg & _ & Hpart & _ & Hall).
  rewrite run_history in Hh. rewrite (proj1 (start_shows capacity)) in Hh. cbn [app log] in Hh.
  rewrite <- Hh in *. rewrite Hall, (Hpart He), app_nil_r in Hg by done. rewrite Hp, <- Hf, Hs, Ho, Hg. done.
Qed.

Lemma segment_split events f n m :
  (f <= n <= m)%nat -> segment events f m = segment events f n ++ segment events n m.
Proof.
  intros Hle. unfold segment. rewrite <- concat_app. f_equal.
  replace (m - f)%nat with ((n - f) + (m - n))%nat by lia. rewrite <- take_drop_split. do 3 f_equal. lia.
Qed.

(** ** Properties *)

(** C9. Every run of a producer and any number of clients, in any order of
    sends, joins and iterations, with whatever the sockets do, is a run of a
    feed: one log, and for each client a cursor that starts at the log's end
    when it joins, moves only forward, hands over whole blocks while the client
    lives, and skips only what the channel has discarded. *)
Theorem fanout_refines_feed (capacity : nat) (events : list FanEvent) :
  exists f, rtc feed_step (mkFeed [] ∅) f /\ shows (fan_run events (fan_start capacity)) f /\
    log f = published events /\ map_Forall (fun _ => cursor_ok (published events)) (cursors f) /\
    (forall i st n, joined i 0 events = Some (st, n) ->
       exists k, cursors f !! i = Some k /\ opening k = sent st /\ from k = n /\
         (keeps_up i events (fan_start capacity) -> lost k = false)).
Proof.
  destruct (run_simulates events (fan_start capacity) (mkFeed [] ∅)) as (f & Hr & Hs & Hok & _ & Hl & Hj);
    [apply start_shows | apply map_Forall_empty |].
  assert (Hlog : log f = published events).
  { rewrite <- (proj1 Hs), run_history. by rewrite (proj1 (start_shows capacity)). }
  exists f. unfold feed_ok in Hok. rewrite Hlog in Hok. refine (conj Hr (conj Hs (conj Hlog (conj Hok _)))).
  intros i st n Hi. destruct (Hj i st n (lookup_empty _) Hi) as (k & Hk & Ho & Hf). exists k. split_and!; try done.
  intros Hup. by apply (Hl i Hup); [apply complete_start|].
Qed.

(** C10. All clients hear the same: of any two that have kept up, whatever the
    schedule of their writers, the sends and the joins, and however their
    sockets split the writes, the data of the one that is behind and that of
    the other agree on all blocks sent since both had joined; once both are up
    to date, what the later one has is the end of what the earlier one has. *)
Theorem clients_agree (capacity i j : nat) (events : list FanEvent) (ci cj : Client) (sti stj : TcpStream) (fi fj : nat) :
  joined i 0 events = Some (sti, fi) -> joined j 0 events = Some (stj, fj) -> (fi <= fj)%nat ->
  up_with capacity i events ci -> up_with capacity j events cj ->
  exists before both di dj,
    sent (cl_stream ci) = sent sti ++ before ++ both ++ di /\ sent (cl_stream cj) = sent stj ++ both ++ dj /\
    (di = [] \/ dj = []) /\
    ((fj <= position (cl_rx ci))%nat -> before = segment events fi fj) /\
    (position (cl_rx ci) = position (cl_rx cj) -> di = [] /\ dj = []).
Proof.
  intros Hi Hj Hle Hui Huj.
  destruct (up_with_data _ _ _ _ _ _ Hi Hui) as [Hpi Hsi]. destruct (up_with_data _ _ _ _ _ _ Hj Huj) as [Hpj Hsj].
  rewrite Hsi, Hsj. set (pi := position (cl_rx ci)) in *. set (pj := position (cl_rx cj)) in *.
  destruct (decide (fj <= pi)%nat) as [Hin|Hout].
  - rewrite (segment_split events fi fj pi) by lia. destruct (decide (pi <= pj)%nat) as [Hp|Hp].
    + rewrite (segment_split events fj pi pj) by lia.
      exists (segment events fi fj), (segment events fj pi), [], (segment events pi pj).
      rewrite app_nil_r. split_and!; try done; [by left|]. intros <-. split; [done|].
      unfold segment. by rewrite Nat.sub_diag, take_0.
    + rewrite (segment_split events fj pj pi) by lia.
      exists (segment events fi fj), (segment events fj pj), (segment events pj pi), [].
      rewrite app_nil_r. split_and!; try done; [by right|]. lia.
  - exists (segment events fi pi), [], [], (segment events fj pj). rewrite app_nil_r.
    split_and!; try done; try (by left); lia.
Qed.

(** The multi-client server is as good as the single-client one: a client
    that joins before the first block, keeps up and is up to date has on its
    socket, whatever other clients join and however they lag, exactly what the
    client of a single-client server has that was given the same blocks. *)
Theorem one_of_many_as_single (capacity tcp_buffers i : nat) (events : list FanEvent) (c : Client) (st single : TcpStream)
    (b : BufWriter TcpStream) :
  joined i 0 events = Some (st, 0%nat) -> sent st = MAGIC_PACKET ->
  up_with capacity i events c -> position (cl_rx c) = length (published events) ->
  sent single = [] -> accepts single -> send_magic tcp_buffers single = (Ok tt, b) -> accepts (inner b) ->
  sent (cl_stream c) = sent (inner (buf_write_stream (read_async (published events) (mkPump b 0 0)))).
Proof.
  intros Hj Hm Hup Hp Hs0 Ha Hsm Hab. destruct (up_with_data _ _ _ _ _ _ Hj Hup) as [_ Hs].
  destruct (magic_then_blocks tcp_buffers single b (published events) Hsm) as [Hdata Hnone].
  destruct (Hdata (Hnone Hab)) as [E _]. rewrite E, Hs, Hs0, Hm, Hp. unfold segment.
  by rewrite Nat.sub_0_r, drop_0, take_ge.
Qed.

End fanout.

Section witnesses.
#[local] Existing Instance list_broadcast.

(** Two clients: the second joins after a block, the first one's kernel splits
    its writes, and they are polled out of step. *)
Definition two_clients : list FanEvent :=
  [Arrive 0 (mkTcp [] [Accept 1; WErr Interrupted; Accept 2] MAGIC_PACKET None None); Publish [1; 2; 3]; Poll 0;
   Arrive 1 (mkTcp [] [] MAGIC_PACKET None None); Publish [4; 5]; Poll 1; Publish [6]; Poll 0; Poll 0; Poll 1].

Definition client_at (i : nat) : Client :=
  default (mkClient (mkTcp [] [] [] None None) 0%nat None) (clients (fan_run two_clients (fan_start 64)) !! i).

Lemma two_clients_up : up_with 64 0 two_clients (client_at 0) /\ up_with 64 1 two_clients (client_at 1).
Proof. split; (split; [by vm_compute | split; [by vm_compute |]]); vm_compute; repeat split; intros; lia. Qed.

Lemma fanout_refines_feed_witness :
  exists f k, log f = published two_clients /\ cursors f !! 1%nat = Some k /\ opening k = MAGIC_PACKET /\ from k = 1%nat /\
    lost k = false.
Proof.
  destruct (@fanout_refines_feed list_broadcast 64 two_clients) as (f & _ & _ & Hl & _ & Hj).
  destruct (Hj 1%nat (mkTcp [] [] MAGIC_PACKET None None) 1%nat eq_refl) as (k & Hk & Ho & Hf & Hlost).
  exists f, k. split_and!; try done. apply Hlost. exact (proj2 (proj2 (proj2 two_clients_up))).
Defined.

Lemma clients_agree_witness :
  sent (cl_stream (client_at 0)) = MAGIC_PACKET ++ [1; 2; 3] ++ [4; 5; 6] /\
  exists before both, sent (cl_stream (client_at 0)) = MAGIC_PACKET ++ before ++ both /\
    sent (cl_stream (client_at 1)) = MAGIC_PACKET ++ both /\ before = [1; 2; 3].
Proof.
  split; [by vm_compute|].
  destruct (@clients_agree list_broadcast 64 0 1 two_clients (client_at 0) (client_at 1)
    (mkTcp [] [Accept 1; WErr Interrupted; Accept 2] MAGIC_PACKET None None) (mkTcp [] [] MAGIC_PACKET None None) 0 1)
    as (before & both & di & dj & Hi & Hj & _ & Hb & He); [reflexivity | reflexivity | lia | exact (proj1 two_clients_up) | exact (proj2 two_clients_up) |].
  destruct (He eq_refl) as [-> ->]. rewrite app_nil_r in Hi, Hj. exists before, both. split_and!; [done | done |].
  rewrite Hb by (vm_compute; lia). by vm_compute.
Defined.

Lemma one_of_many_as_single_witness :
  let single := mkTcp [] [Accept 5] [] None None in
  sent (cl_stream (client_at 0)) =
    sent (inner (buf_write_stream (read_async [[1; 2; 3]; [4; 5]; [6]] (mkPump (snd (send_magic 16 single)) 0 0)))).
Proof.
  intros single.
  apply (@one_of_many_as_single list_broadcast 64 16 0 two_clients (client_at 0)
    (mkTcp [] [Accept 1; WErr Interrupted; Accept 2] MAGIC_PACKET None None) single (snd (send_magic 16 single)));
    [reflexivity | reflexivity | exact (proj1 two_clients_up) | reflexivity.. | | reflexivity |].
  - by repeat constructor.
  - by repeat constructor.
Defined.

End witnesses.
