(* ===== verification/Acceptor.v ===== *)
(** * The slave acceptor

    Models [spawn_slave_acceptor] of [src/main.rs].  Sockets cloned into
    [all_streams] are handles to the same connection: the list holds their
    descriptors.  An iteration meets a [SlaveTick]: the exit flag, what
    [accept] answers (with whether its two clones succeed) and the broadcast
    channel as it is then. *)

From S2P Require Import Prelude Bytes Io Net Ip Error Control Stream Serve.
#[local] Open Scope Z_scope.

Section acceptor.
Context `{IpNetLib} `{BroadcastLib}.
Context (magic : list Z) (whitelist : list string) (max_slaves tcp_buffers : nat).

Inductive SlaveAccept : Type :=
| SlaveAccepted (fd : nat) (stream : TcpStream) (addr : IpAddr) (clone1 clone2 : bool)
| SlaveAcceptErr (e : ErrorKind).

Record SlaveTick : Type := mkSlaveTick { slave_exit : bool; slave_accept : SlaveAccept; slave_tx : Chan }.

(** A slave whose writer thread was started: its socket and its receiver. *)
Record Slave : Type := mkSlave { slave_fd : nat; slave_addr : IpAddr; slave_stream : TcpStream; slave_rx : Receiver }.

Record Acceptor : Type := mkAcceptor {
  count : nat;
  all_streams : Mutex (list nat);
  slaves : list Slave
}.

Inductive AcceptorStop : Type := AcceptorExit | AcceptorPanic.

(** The magic packet through a [BufWriter] whose results are ignored, and the
    flush of its drop. *)
Definition greet (stream : TcpStream) : TcpStream :=
  let bw := bufwriter_with_capacity tcp_buffers stream in
  let bw := snd (bufwriter_write_all bw magic) in
  let bw := snd (bufwriter_flush bw) in
  inner (snd (bufwriter_flush_buf bw)).

Definition acceptor_iteration (tick : SlaveTick) (a : Acceptor) : option AcceptorStop * Acceptor :=
  if slave_exit tick then (Some AcceptorExit, a)
  else if (max_slaves <=? count a)%nat then (None, a)
  else
    match slave_accept tick with
    | SlaveAccepted fd stream addr clone1 clone2 =>
      let ip := ip_to_string (to_canonical addr) in
      if negb (is_ok (check_whitelist ip whitelist)) then (None, a)
      else
        let stream := snd (set_write_timeout stream (from_secs 30)) in
        if poisoned (all_streams a) then (Some AcceptorPanic, a)
        else if negb clone1 then
          (Some AcceptorPanic, mkAcceptor (count a) (mkMutex (guarded (all_streams a)) true) (slaves a))
        else
          let streams := mkMutex (guarded (all_streams a) ++ [fd]) false in
          if negb clone2 then (Some AcceptorPanic, mkAcceptor (count a) streams (slaves a))
          else
            let rx := subscribe (slave_tx tick) in
            (None, mkAcceptor (S (count a)) streams (slaves a ++ [mkSlave fd addr (greet stream) rx]))
    | SlaveAcceptErr _ => (None, a)
    end.

Fixpoint slave_acceptor (ticks : list SlaveTick) (a : Acceptor) : option AcceptorStop * Acceptor :=
  match ticks with
  | [] => (None, a)
  | tick :: rest =>
    match acceptor_iteration tick a with
    | (None, a') => slave_acceptor rest a'
    | stop => stop
    end
  end.

(** The state the thread starts in, given the streams already registered. *)
Definition acceptor_start (streams : Mutex (list nat)) : Acceptor := mkAcceptor 0 streams [].

(** What holds of every slave that was let in during [ticks]. *)
Definition welcomed (ticks : list SlaveTick) (s : Slave) : Prop :=
  exists tick st c1 c2, tick ∈ ticks /\ slave_accept tick = SlaveAccepted (slave_fd s) st (slave_addr s) c1 c2 /\
    check_whitelist (ip_to_string (to_canonical (slave_addr s))) whitelist = Ok tt /\
    position (slave_rx s) = length (history (slave_tx tick)) /\
    slave_stream s = greet (snd (set_write_timeout st (from_secs 30))).

Definition acceptor_inv (ticks : list SlaveTick) (a : Acceptor) : Prop :=
  count a = length (slaves a) /\ (count a <= max_slaves)%nat /\
  Forall (welcomed ticks) (slaves a) /\ Forall (fun s => slave_fd s ∈ guarded (all_streams a)) (slaves a).

Lemma acceptor_iteration_inv ticks tick a :
  tick ∈ ticks -> acceptor_inv ticks a -> acceptor_inv ticks (snd (acceptor_iteration tick a)).
Proof.
  intros Hin (Hc & Hm & Hw & Hf). unfold acceptor_iteration.
  destruct (slave_exit tick); [done|]. destruct (Nat.leb_spec max_slaves (count a)) as [|Hlt]; [done|].
  destruct (slave_accept tick) as [fd st addr c1 c2|e] eqn:Ea; [|done]. cbv zeta.
  destruct (is_ok (check_whitelist _ whitelist)) eqn:Ew; [|done]. cbn [negb].
  destruct (poisoned (all_streams a)); [done|]. destruct c1; [|done]. cbn [negb].
  assert (Hf' : Forall (fun s => slave_fd s ∈ guarded (all_streams a) ++ [fd]) (slaves a)).
  { eapply Forall_impl; [exact Hf|]. intros s Hs. apply elem_of_app. by left. }
  destruct c2; [|done]. cbn [negb snd]. split_and!; cbn [count slaves guarded all_streams].
  - rewrite length_app, Hc. simpl. lia.
  - lia.
  - apply Forall_app. split; [done|]. constructor; [|constructor].
    exists tick, st, true, true. split_and!; try done; [|apply subscribe_law].
    destruct (check_whitelist _ whitelist) as [[]| | |]; done.
  - apply Forall_app. split; [done|]. constructor; [|constructor]. apply elem_of_app. right. by left.
Qed.

Lemma slave_acceptor_inv ticks0 ticks a :
  (forall tick, tick ∈ ticks -> tick ∈ ticks0) -> acceptor_inv ticks0 a -> acceptor_inv ticks0 (snd (slave_acceptor ticks a)).
Proof.
  revert a; induction ticks as [|tick ticks IH]; intros a Hin Ha; [done|]. cbn [slave_acceptor].
  pose proof (acceptor_iteration_inv ticks0 tick a (Hin tick ltac:(by left)) Ha) as H1.
  destruct (acceptor_iteration tick a) as [[stop|] a1]; [done|]. apply IH; [|done]. intros t Ht. apply Hin. by right.
Qed.

Lemma greet_accepts (st : TcpStream) : accepts st -> sent (greet st) = sent st ++ magic.
Proof.
  intros Ha. unfold greet. cbv zeta. set (b0 := bufwriter_with_capacity tcp_buffers st).
  assert (Hb0 : buffered st [] b0) by apply buffered_new.
  destruct (bufwriter_write_all_accepts b0 magic Ha) as (b1 & E1 & Ha1). rewrite E1. cbn [snd].
  apply (buffered_write_all _ _ _ _ _ Hb0) in E1 as [Hb1 _].
  destruct (bufwriter_flush_accepts b1 Ha1) as (b2 & E2 & Ha2). rewrite E2. cbn [snd].
  apply (buffered_flush _ _ _ _ tcp_flush Hb1) in E2 as ((Hs & _) & Hp & _).
  unfold bufwriter_flush_buf. rewrite Hp, write_loop_nil. cbn. by rewrite Hs.
Qed.

Lemma greet_keeps (st : TcpStream) : accepts st -> accepts (greet st).
Proof.
  intros Ha. unfold greet. cbv zeta. set (b0 := bufwriter_with_capacity tcp_buffers st).
  destruct (bufwriter_write_all_accepts b0 magic Ha) as (b1 & -> & Ha1). cbn [snd].
  destruct (bufwriter_flush_accepts b1 Ha1) as (b2 & -> & Ha2). cbn [snd].
  by destruct (bufwriter_flush_buf_accepts b2 Ha2) as (b3 & -> & Ha3 & _).
Qed.

(** ** Properties *)

(** What the acceptor lets in: whatever connects, at most [max_slaves]
    slaves are ever given a writer, each of an address the whitelist passes,
    each registered for the shutdown, and each reading the broadcast from the
    buffers published after it was let in; on a connection that takes writes it
    has first been sent the magic packet. *)
Theorem acceptor_admits (ticks : list SlaveTick) (streams : Mutex (list nat)) :
  let a := snd (slave_acceptor ticks (acceptor_start streams)) in
  (length (slaves a) <= max_slaves)%nat /\
  Forall (fun s => slave_fd s ∈ guarded (all_streams a)) (slaves a) /\
  forall s, s ∈ slaves a -> exists tick st c1 c2, tick ∈ ticks /\
    slave_accept tick = SlaveAccepted (slave_fd s) st (slave_addr s) c1 c2 /\
    check_whitelist (ip_to_string (to_canonical (slave_addr s))) whitelist = Ok tt /\
    position (slave_rx s) = length (history (slave_tx tick)) /\
    (accepts st -> sent (slave_stream s) = sent st ++ magic).
Proof.
  intros a. destruct (slave_acceptor_inv ticks ticks (acceptor_start streams)) as (Hc & Hm & Hw & Hf); [done | |].
  { split_and!; cbn; try done; lia. }
  fold a in Hc, Hm, Hw, Hf. split_and!; [lia | done |].
  intros s Hs. rewrite Forall_forall in Hw. destruct (Hw s Hs) as (tick & st & c1 & c2 & ? & ? & ? & ? & Hg).
  exists tick, st, c1, c2. split_and!; try done. intros Ha. rewrite Hg.
  assert (Ht : snd (set_write_timeout st (from_secs 30)) = mkTcp (rx st) (tx st) (sent st) (rto st) (Some (from_secs 30))) by done.
  rewrite Ht. by rewrite greet_accepts.
Qed.

(** The limit is on the slaves over the life of the process, not on those
    connected: once [max_slaves] have been let in, nothing that happens
    afterwards (slaves leaving included) makes the acceptor take another
    connection, and it stops only at the exit flag. *)
Theorem acceptor_full (ticks : list SlaveTick) (a : Acceptor) :
  (max_slaves <= count a)%nat ->
  slave_acceptor ticks a = (if existsb slave_exit ticks then Some AcceptorExit else None, a).
Proof.
  intros Hm. induction ticks as [|tick ticks IH]; [done|]. cbn [slave_acceptor existsb]. unfold acceptor_iteration.
  destruct (slave_exit tick); [done|]. destruct (Nat.leb_spec max_slaves (count a)); [exact IH | lia].
Qed.

End acceptor.

Section witnesses.
#[local] Existing Instance ten_net.
#[local] Existing Instance list_broadcast.

Lemma acceptor_full_witness :
  let ch := mkListChan [[1]] 64 false in
  let tick fd := mkSlaveTick false (SlaveAccepted fd (mkTcp [] [] [] None None) (V4 10 0 0 1) true true) ch in
  let a := snd (slave_acceptor MAGIC_PACKET ["10.0.0.0/8"] 1 16 [tick 3%nat] (acceptor_start (mkMutex [] false))) in
  length (slaves a) = 1%nat /\
  slave_acceptor MAGIC_PACKET ["10.0.0.0/8"] 1 16 [tick 4%nat; tick 5%nat] a = (None, a).
Proof.
  intros ch tick a. split; [by vm_compute|].
  apply (acceptor_full MAGIC_PACKET ["10.0.0.0/8"] 1 16 [tick 4%nat; tick 5%nat] a).
  vm_compute. lia.
Defined.

End witnesses.
