(* ===== verification/Hops.v ===== *)
(** * The data path through proxies

    What a local client of a proxy hears: the upstream connection ([Proxy]),
    the upstream reader ([Relay]) and the distribution to the local clients
    ([Fanout]) put together, and chains of proxies, each the upstream of the
    next. *)

From S2P Require Import Prelude Bytes Io Net Ip Error Control Encryption Stream Commands Interpreter Proxy Relay Serve Acceptor Fanout.
From stdpp Require Import gmap strings.
#[local] Open Scope Z_scope.

Section hops.
Context `{StreamCipherLib} `{BroadcastLib} (io_display : ErrorKind -> string).

(** A run of a proxy whose upstream is [up], to the end of the upstream's data,
    seen by a slave that joined before the first buffer, has kept up and is up
    to date: what is on its socket. *)
Definition proxied (key : option (list Z)) (timeout : Z) (nonce : list Z) (up : TcpStream) (out : list Z) : Prop :=
  exists conn st exits r events i tcp_buffers socket c,
    upstream_session io_display key timeout nonce up = (Ok conn, st) /\
    upstream_reader exits (mkReader (up_stream conn) (fst (new_broadcast DEFAULT_BROADCAST_CAPACITY)) false) =
      (Some UpstreamClosed, r) /\
    published events = history (tx_chan r) /\
    sent socket = [] /\ accepts socket /\ joined i 0 events = Some (greet (magic_packet conn) tcp_buffers socket, 0%nat) /\
    up_with DEFAULT_BROADCAST_CAPACITY i events c /\ position (cl_rx c) = length (published events) /\
    out = sent (cl_stream c).

(** A chain of [n] proxies in front of a server that sends [bs]: what a slave
    of the last one hears.  Each proxy is a client of the one before it. *)
Inductive hops : nat -> list Z -> list Z -> Prop :=
| hops_none bs : hops 0 bs bs
| hops_next n bs mid up timeout nonce out :
    hops n bs mid -> timeout <> 0 -> accepts up -> yields up mid -> proxied None timeout nonce up out ->
    hops (S n) bs out.

(** ** Lemmas *)

Lemma tcp_read_good (st st' : TcpStream) n bs :
  (0 < n)%nat -> Forall rx_good (rx st) -> read st n = (Ok bs, st') ->
  Forall rx_good (rx st') /\ (bs = [] -> rx st' = []).
Proof.
  intros Hn Hg. cbn. unfold tcp_read. destruct (rx st) as [|[d|e] evs] eqn:E.
  - intros [= <- <-]. by rewrite E.
  - inversion Hg as [|? ? Hd Hg']; subst. cbn in Hd.
    destruct (Nat.leb_spec (length d) n) as [Hle|Hgt]; intros [= <- <-]; cbn [rx with_rx].
    + split; [done|]. by intros ->.
    + split; [constructor; [|done] | intros Et].
      * cbn. intros Ed. apply (f_equal length) in Ed. rewrite length_drop in Ed. simpl in Ed. lia.
      * destruct d, n; simpl in *; done || lia.
  - intros; by simplify_eq.
Qed.

(** A reader that has seen the upstream close has sent all of its data. *)
Lemma reader_sends_all exits r r' :
  Forall rx_good (rx (upstream_reader_stream r)) -> upstream_reader exits r = (Some UpstreamClosed, r') ->
  exists ms, history (tx_chan r') = history (tx_chan r) ++ ms /\ concat ms = rx_bytes (rx (upstream_reader_stream r)).
Proof.
  intros Hg E. destruct (upstream_reader_relays _ _ _ _ E) as (ms & Hh & Hb). exists ms. split; [done|].
  enough (Hend : rx (upstream_reader_stream r') = []) by (rewrite Hb, Hend; by rewrite app_nil_r).
  clear ms Hh Hb. revert r Hg E. induction exits as [|exit exits IH]; intros r Hg; [done|]. cbn [upstream_reader].
  unfold reader_iteration. destruct exit; [done|]. pose proof read_buffer_size.
  assert (Hn : (0 < READ_BUFFER)%nat) by lia. revert Hn. generalize READ_BUFFER. intros n Hn.
  destruct (read (upstream_reader_stream r) n) as [q st] eqn:Er. destruct q as [[|b bs]|e| |]; [| | |discriminate..].
  - apply tcp_read_good in Er as [_ Hend]; [|done..]. intros [= <-]. by apply Hend.
  - apply tcp_read_good in Er as [Hg' _]; [|done..]. by apply IH.
  - destruct (is_timeout e) eqn:Et; [|discriminate]. apply IH. cbn [upstream_reader_stream].
    revert Er. cbn. unfold tcp_read. destruct (rx (upstream_reader_stream r)) as [|[d|k] evs] eqn:Erx; [discriminate| |].
    + destruct (length d <=? n)%nat; discriminate.
    + inversion Hg as [|? ? Hk Hg']; subst. intros [= <- <-]. exact Hg'.
Qed.

(** What the slave hears, from what the connection has left to give. *)
Lemma proxied_rest key timeout nonce up out conn st rest :
  upstream_session io_display key timeout nonce up = (Ok conn, st) -> yields (up_stream conn) rest ->
  proxied key timeout nonce up out -> out = magic_packet conn ++ rest.
Proof.
  intros Hc [Hg Hb] (conn' & st' & exits & r & events & i & n & socket & c & Hc' & Hr & Hpub & Hs0 & Ha & Hj & Hup & Hp & ->).
  rewrite Hc in Hc'. injection Hc' as <- <-.
  destruct (up_with_data _ _ _ _ _ _ Hj Hup) as [_ ->]. rewrite greet_accepts, Hs0 by done. cbn [app]. f_equal.
  unfold segment. rewrite Hp, Nat.sub_0_r, drop_0, take_ge by done. rewrite Hpub.
  destruct (reader_sends_all exits (mkReader (up_stream conn) (fst (new_broadcast DEFAULT_BROADCAST_CAPACITY)) false) r Hg Hr) as (ms & Hh & Hms). cbn [tx_chan upstream_reader_stream] in *.
  assert (Hnew : history (fst (new_broadcast DEFAULT_BROADCAST_CAPACITY)) = []).
  { unfold new_broadcast. pose proof (channel_law DEFAULT_BROADCAST_CAPACITY) as Hl.
    destruct (channel DEFAULT_BROADCAST_CAPACITY) as [ch rcv]. by destruct Hl. }
  rewrite Hh, Hnew. cbn [app]. by rewrite Hms.
Qed.

(** One hop without a key: the five bytes after the magic packet are gone. *)
Lemma hop_drops_five timeout nonce up out magic five rest :
  timeout <> 0 -> accepts up -> length magic = 12%nat -> length five = 5%nat ->
  yields up (magic ++ five ++ rest) -> proxied None timeout nonce up out -> out = magic ++ rest.
Proof.
  intros Ht Ha Hm Hf Hy Hpr. destruct (decide (nth 0 five 0 = CMD_CHAIN_DETECT)) as [Hc|Hc].
  - destruct (upstream_is_chain io_display None timeout nonce up magic five [] rest)
      as (conn & st & E & _ & Hmp & _ & _ & _ & _ & _ & Hrest); try done.
    rewrite <- Hmp. by eapply proxied_rest.
  - destruct (upstream_is_plain io_display None timeout nonce up magic five rest)
      as (conn & st & E & _ & Hmp & _ & _ & _ & _ & Hrest); try done.
    rewrite <- Hmp. by eapply proxied_rest.
Qed.

(** The proxy's control threads write nothing to their local masters. *)
Lemma forward_iteration_silent tick f : sent (master_stream (snd (forward_iteration tick f))) = sent (master_stream f).
Proof.
  unfold forward_iteration. destruct (read_exact (master_stream f) COMMAND_HEADER_SIZE) as [q st] eqn:Er.
  apply read_exact_sent in Er as [Hs _]. destruct q as [buf|e| |]; cbn [snd master_stream]; try done. cbv zeta.
  destruct (exit_flag tick); [done|]. destruct (rate_limiter_check _ _) as [[] rl']; [|done].
  unfold forward. cbv zeta. cbn [write_cipher ustream master_stream Relay.rl]. repeat case_match; done.
Qed.

(** ** Properties *)

(** C15. What a slave of a proxy hears: without an encrypted chain the
    upstream's magic packet and then all of its data but the five bytes after
    the magic packet, acknowledgement or not (answers to later probes, which
    any local master can send, included).  Over an encrypted chain it hears
    the ciphertext: its data is the upstream's only where the keystream is
    zero. *)
Theorem proxied_stream (key : option (list Z)) (timeout : Z) (nonce : list Z) (up : TcpStream) (out magic five : list Z) :
  timeout <> 0 -> accepts up -> length magic = 12%nat -> length five = 5%nat -> proxied key timeout nonce up out ->
  (forall rest, key = None \/ nth 0 five 0 <> CMD_CHAIN_DETECT -> yields up (magic ++ five ++ rest) -> out = magic ++ rest) /\
  (forall k peer_nonce iq, key = Some k -> nth 0 five 0 = CMD_CHAIN_DETECT -> length peer_nonce = NONCE_SIZE ->
     yields up (magic ++ five ++ peer_nonce ++ xor_from k peer_nonce 0 iq) ->
     out = magic ++ xor_from k peer_nonce 0 iq /\
     (out = magic ++ iq <-> xor_from k peer_nonce 0 iq = iq)).
Proof.
  intros Ht Ha Hm Hf Hpr. split.
  - intros rest [->|Hn] Hy; [by eapply hop_drops_five|].
    destruct (upstream_is_plain io_display key timeout nonce up magic five rest)
      as (conn & st & E & _ & Hmp & _ & _ & _ & _ & Hrest); try done.
    rewrite <- Hmp. by eapply proxied_rest.
  - intros k peer iq -> Hc Hpn Hy.
    destruct (upstream_is_chain io_display (Some k) timeout nonce up magic five peer (xor_from k peer 0 iq))
      as (conn & st & E & _ & Hmp & _ & _ & _ & _ & _ & Hrest); try done.
    assert (Ho : out = magic ++ xor_from k peer 0 iq) by (rewrite <- Hmp; by eapply proxied_rest).
    split; [done|]. rewrite Ho. split; [apply app_inv_head | by intros ->].
Qed.

(** C16. Chains of proxies lose data: a slave at the end of [n] proxies hears
    the server's stream without the [5 * n] bytes after the magic packet,
    since every proxy takes five bytes for the answer to its probe and none
    sends one (a local master's probe is forwarded).  Behind a server that
    acknowledges the first proxy, the data starts [5 * (n - 1)] bytes late, so
    for even [n] every I sample is taken for a Q sample. *)
Theorem hops_lose_data (n : nat) (bs out : list Z) :
  hops n bs out -> (12 + 5 * n <= length bs)%nat ->
  out = take 12 bs ++ drop (12 + 5 * n) bs /\
  (forall iq, bs = MAGIC_PACKET ++ CHAIN_ACK ++ iq -> (0 < n)%nat ->
     out = MAGIC_PACKET ++ drop (5 * (n - 1)) iq /\ (Nat.Even n -> Nat.Odd (5 * (n - 1)))) /\
  (forall ticks f, sent (master_stream (snd (control_loop forward_iteration ticks f))) = sent (master_stream f)).
Proof.
  intros Hh Hl. assert (Hout : out = take 12 bs ++ drop (12 + 5 * n) bs).
  { revert Hl. induction Hh as [bs|n bs mid up timeout nonce out Hh IH Ht Ha Hy Hpr]; intros Hl; [by rewrite take_drop|].
    rewrite IH in Hy by lia.
    rewrite <- (take_drop 5 (drop (12 + 5 * n) bs)), drop_drop in Hy.
    replace (12 + 5 * S n)%nat with (12 + 5 * n + 5)%nat by lia.
    eapply hop_drops_five; [exact Ht | exact Ha | | | exact Hy | exact Hpr].
    - rewrite length_take. lia.
    - rewrite length_take, length_drop. lia. }
  split_and!; [done | |].
  - intros iq -> Hn. split; [|intros [m ->]; exists (5 * m - 3)%nat; lia].
    rewrite Hout, take_app_length' by done. f_equal.
    rewrite <- drop_drop, (drop_app_length' MAGIC_PACKET) by done.
    replace (5 * n)%nat with (5 + 5 * (n - 1))%nat by lia. by rewrite <- drop_drop, (drop_app_length' CHAIN_ACK).
  - intros ticks f. apply (control_loop_invariant forward_iteration (fun f' => sent (master_stream f') = sent (master_stream f))); [|done].
    intros tick f' <-. apply forward_iteration_silent.
Qed.

End hops.

Section witnesses.
#[local] Existing Instance list_broadcast.
#[local] Existing Instance toy_cipher.

Definition no_text (e : ErrorKind) : string := "error".

(** A proxy whose upstream sends [bs] in one segment, the data of which goes to
    one slave in one buffer. *)
Definition quiet_up (bs : list Z) : TcpStream := mkTcp [Data bs] [] [] None None.
Definition one_buffer_run (magic rest : list Z) : list FanEvent :=
  [Arrive 0 (greet magic 16 (quiet_up [])); Publish rest; Poll 0].

(** A run of [proxied] from the connection and its data: what is left computes. *)
Ltac proxied_run conn stream rest :=
  exists conn, stream, [false; false],
    (@mkReader list_broadcast (mkTcp [] [] (sent stream) (rto stream) None) (mkListChan [rest] 64 false) false),
    (one_buffer_run (magic_packet conn) rest), 0%nat, 16%nat, (quiet_up []),
    (default (@mkClient list_broadcast stream 0%nat None) (clients (fan_run (one_buffer_run (magic_packet conn) rest) (fan_start 64)) !! 0%nat));
  split; [by vm_compute | split; [by vm_compute | split; [by vm_compute | split; [by vm_compute | split; [by vm_compute |
    split; [by vm_compute | split; [| split; by vm_compute]]]]]]];
  split; [by vm_compute | split; [by vm_compute | vm_compute; repeat split; intros; lia]].

Lemma first_hop :
  proxied no_text None 5 [] (quiet_up (MAGIC_PACKET ++ CHAIN_ACK ++ [1; 2; 3; 4; 5; 6; 7])) (MAGIC_PACKET ++ [1; 2; 3; 4; 5; 6; 7]).
Proof.
  set (u := mkTcp [Data [1; 2; 3; 4; 5; 6; 7]] [] CHAIN_PROBE (Some (from_secs 30)) None).
  proxied_run (mkUpstream u true None None MAGIC_PACKET) u [1; 2; 3; 4; 5; 6; 7].
Qed.

Lemma second_hop : proxied no_text None 5 [] (quiet_up (MAGIC_PACKET ++ [1; 2; 3; 4; 5; 6; 7])) (MAGIC_PACKET ++ [6; 7]).
Proof.
  set (u := mkTcp [Data [6; 7]] [] CHAIN_PROBE (Some (from_secs 30)) None).
  proxied_run (mkUpstream u false None None MAGIC_PACKET) u [6; 7].
Qed.

Lemma encrypted_hop :
  proxied no_text (Some [1]) 5 (replicate 12 5) (quiet_up (MAGIC_PACKET ++ CHAIN_ACK ++ replicate 12 6 ++ [9; 15; 9])) (MAGIC_PACKET ++ [9; 15; 9]).
Proof.
  set (u := mkTcp [Data [9; 15; 9]] [] (CHAIN_PROBE ++ replicate 12 5) (Some (from_secs 30)) None).
  proxied_run (mkUpstream u true (Some (chacha20_new [1] (replicate 12 6))) (Some (chacha20_new [1] (replicate 12 5))) MAGIC_PACKET) u [9; 15; 9].
Qed.

Lemma quiet_yields bs : bs <> [] -> yields (quiet_up bs) bs.
Proof. intros Hne. split; [by repeat constructor | apply app_nil_r]. Qed.

Lemma proxied_stream_witness :
  MAGIC_PACKET ++ [1; 2; 3; 4; 5; 6; 7] = MAGIC_PACKET ++ [1; 2; 3; 4; 5; 6; 7] /\
  (MAGIC_PACKET ++ [9; 15; 9] = MAGIC_PACKET ++ [9; 8; 7] <-> [9; 15; 9] = [9; 8; 7]).
Proof.
  split.
  - apply (proj1 (@proxied_stream toy_cipher list_broadcast no_text None 5 []
      (quiet_up (MAGIC_PACKET ++ CHAIN_ACK ++ [1; 2; 3; 4; 5; 6; 7])) _ MAGIC_PACKET CHAIN_ACK
      ltac:(done) ltac:(constructor) eq_refl eq_refl first_hop)); [by left|]. by apply quiet_yields.
  - apply (proj2 (@proxied_stream toy_cipher list_broadcast no_text (Some [1]) 5 (replicate 12 5)
      (quiet_up (MAGIC_PACKET ++ CHAIN_ACK ++ replicate 12 6 ++ [9; 15; 9])) _ MAGIC_PACKET CHAIN_ACK
      ltac:(done) ltac:(constructor) eq_refl eq_refl encrypted_hop) [1] (replicate 12 6) [9; 8; 7]);
      [done | done | done | by apply quiet_yields].
Defined.

Lemma hops_lose_data_witness :
  let bs := MAGIC_PACKET ++ CHAIN_ACK ++ [1; 2; 3; 4; 5; 6; 7] in
  hops no_text 2 bs (MAGIC_PACKET ++ [6; 7]) /\ MAGIC_PACKET ++ [6; 7] = take 12 bs ++ drop 22 bs.
Proof.
  intros bs. assert (Hh : hops no_text 2 bs (MAGIC_PACKET ++ [6; 7])).
  { eapply hops_next; [| | | | exact second_hop]; [| done | constructor | by apply quiet_yields].
    eapply hops_next; [| | | | exact first_hop]; [constructor | done | constructor | by apply quiet_yields]. }
  split; [exact Hh|]. apply (@hops_lose_data toy_cipher list_broadcast no_text 2 bs _ Hh). vm_compute. lia.
Defined.

End witnesses.
