(* ===== verification/Shutdown.v ===== *)
(** * How the servers shut down

    The threads of [run_serve_single] and of [run_serve_multi] ([src/main.rs])
    as labelled transition systems: the signal handler, the channel of one
    message ([sync_channel(1)]), the cancel thread, the reading of the device,
    the control thread and the main thread's joins.  [single_thread_step] and [multi_thread_step] are what the
    program's threads do by themselves, [single_env_step] and [multi_env_step] what happens to it (a
    signal, the client, the device); a read that times out leaves the control
    thread where it was, so it is not a step. *)

From S2P Require Import Prelude.
From stdpp Require Import relations.

(** The cancel thread: waiting for the message, cancelling the read, storing
    the exit flag, ended. *)
Inductive CancelPc : Type := Waiting | Cancelling | Storing | CancelEnded.
Inductive CtlPc : Type := Looping | CtlEnded.

Definition cancel_rank (pc : CancelPc) : nat :=
  match pc with Waiting => 3 | Cancelling => 2 | Storing => 1 | CancelEnded => 0 end.
Definition ctl_rank (pc : CtlPc) : nat := match pc with Looping => 1 | CtlEnded => 0 end.

(** ** [run_serve_single] *)

Module Single.

Inductive SingleMainPc : Type := Reading | SendExit | JoinCancel | JoinCtl | Done.

(** [inbox] counts the commands that have arrived, [eof] that no more will
    (the client closed, or the handler shut the socket down), [handled] that
    the signal handler has run. *)
Record SingleState : Type := mkSingleState {
  should_exit : bool;
  channel : bool;
  cancelled : bool;
  eof : bool;
  inbox : nat;
  handled : bool;
  main_pc : SingleMainPc;
  cancel_pc : CancelPc;
  ctl_pc : CtlPc
}.

Definition single_start : SingleState := mkSingleState false false false false 0 false Reading Waiting Looping.

(** [try_send(())]: whether the message is in the channel afterwards; nothing
    when it is full, or when the receiver is gone. *)
Definition single_try_send (s : SingleState) : bool :=
  match cancel_pc s with CancelEnded => channel s | _ => true end.

(** The sender's view: the message was taken. *)
Definition single_try_send_ok (s : SingleState) : bool :=
  negb (channel s) && match cancel_pc s with CancelEnded => false | _ => true end.

Inductive single_thread_step : SingleState -> SingleState -> Prop :=
| cancel_recv e c d f n h m k :
    c = true ->
    single_thread_step (mkSingleState e c d f n h m Waiting k) (mkSingleState e false d f n h m Cancelling k)
| cancel_read e c d f n h m k :
    single_thread_step (mkSingleState e c d f n h m Cancelling k) (mkSingleState e c true f n h m Storing k)
| cancel_store e c d f n h m k :
    single_thread_step (mkSingleState e c d f n h m Storing k) (mkSingleState true c d f n h m CancelEnded k)
| read_cancelled e c f n h x k :
    single_thread_step (mkSingleState e c true f n h Reading x k) (mkSingleState e c true f n h SendExit x k)
| main_send e c d f n h x k :
    single_thread_step (mkSingleState e c d f n h SendExit x k)
                (mkSingleState e (single_try_send (mkSingleState e c d f n h SendExit x k)) d f n h JoinCancel x k)
| main_join_cancel e c d f n h k :
    single_thread_step (mkSingleState e c d f n h JoinCancel CancelEnded k) (mkSingleState e c d f n h JoinCtl CancelEnded k)
| main_join_ctl e c d f n h x :
    single_thread_step (mkSingleState e c d f n h JoinCtl x CtlEnded) (mkSingleState e c d f n h Done x CtlEnded)
| ctl_command e c d f n h m x :
    single_thread_step (mkSingleState e c d f (S n) h m x Looping)
                (mkSingleState e c d f n h m x (if e then CtlEnded else Looping))
| ctl_disconnected e c d h m x :
    single_thread_step (mkSingleState e c d true 0 h m x Looping) (mkSingleState e c d true 0 h m x CtlEnded).

Inductive single_env_step : SingleState -> SingleState -> Prop :=
| signal e c d f n h m x k :
    single_env_step (mkSingleState e c d f n h m x k)
      (mkSingleState (if single_try_send_ok (mkSingleState e c d f n h m x k) then e else true)
         (single_try_send (mkSingleState e c d f n h m x k)) d true n true m x k)
| client_sends e c d n h m x k :
    single_env_step (mkSingleState e c d false n h m x k) (mkSingleState e c d false (S n) h m x k)
| client_closes e c d f n h m x k :
    single_env_step (mkSingleState e c d f n h m x k) (mkSingleState e c d true n h m x k)
| write_fails e c d f n h x k :
    single_env_step (mkSingleState e c d f n h Reading x k)
      (mkSingleState e (single_try_send (mkSingleState e c d f n h Reading x k)) d f n h Reading x k)
| device_ends e c d f n h x k :
    single_env_step (mkSingleState e c d f n h Reading x k) (mkSingleState e c d f n h SendExit x k).

Definition single_step (s s' : SingleState) : Prop := single_thread_step s s' \/ single_env_step s s'.

Definition single_main_rank (pc : SingleMainPc) : nat :=
  match pc with Reading => 4 | SendExit => 3 | JoinCancel => 2 | JoinCtl => 1 | Done => 0 end.
Definition single_rank (s : SingleState) : nat :=
  (single_main_rank (main_pc s) + cancel_rank (cancel_pc s) + ctl_rank (ctl_pc s) + inbox s)%nat.

Definition past (pc : SingleMainPc) : bool := match pc with JoinCtl | Done => true | _ => false end.

Record single_inv (s : SingleState) : Prop := {
  inv_store : cancel_pc s = CancelEnded -> should_exit s = true /\ cancelled s = true;
  inv_cancelled : cancel_pc s = Storing -> cancelled s = true;
  inv_join : main_pc s = JoinCancel -> channel s = true \/ cancel_pc s <> Waiting;
  inv_past : past (main_pc s) = true -> cancel_pc s = CancelEnded;
  inv_done : main_pc s = Done -> ctl_pc s = CtlEnded;
  inv_handled : handled s = true -> eof s = true /\ (channel s = true \/ cancel_pc s <> Waiting)
}.

Lemma single_inv_start : single_inv single_start.
Proof. by constructor. Qed.

Lemma single_inv_step s s' : single_step s s' -> single_inv s -> single_inv s'.
Proof.
  intros [Hs|Hs] [H1 H2 H3 H4 H5 H6]; destruct Hs; constructor; cbn in *; intros; subst;
    unfold single_try_send, single_try_send_ok in *; cbn in *;
    repeat match goal with |- context [match ?x with _ => _ end] => is_var x; destruct x end;
    cbn in *; rewrite ?andb_false_r; try discriminate; intuition (discriminate || congruence || auto).
Qed.

Lemma single_rtc_inv s : rtc single_step single_start s -> single_inv s.
Proof.
  apply (rtc_preserves single_step single_inv single_inv_step). apply single_inv_start.
Qed.

Lemma single_thread_step_rank s s' : single_thread_step s s' -> (single_rank s' < single_rank s)%nat.
Proof. destruct 1; unfold single_rank; cbn; try lia. by destruct e; cbn; lia. Qed.

Lemma single_thread_step_handled s s' : single_thread_step s s' -> handled s' = handled s.
Proof. by destruct 1. Qed.

Lemma single_nsteps_rank n s s' : nsteps single_thread_step n s s' -> (n + single_rank s' <= single_rank s)%nat.
Proof. induction 1 as [|n x y z Hxy _ IH]; [lia|]. apply single_thread_step_rank in Hxy. lia. Qed.

Lemma single_rtc_thread s s' : rtc single_thread_step s s' -> rtc single_step s s'.
Proof. apply rtc_subrel. intros x y Hxy. by left. Qed.

Lemma single_rtc_thread_handled s s' : rtc single_thread_step s s' -> handled s' = handled s.
Proof. induction 1 as [|x y z Hxy _ IH]; [done|]. rewrite IH. by apply single_thread_step_handled. Qed.

(** Once the handler has run, a state in which no thread can move is the end. *)
Lemma single_handled_progress s :
  single_inv s -> handled s = true -> main_pc s = Done \/ exists s', single_thread_step s s'.
Proof.
  destruct s as [e c d f n h m x k]. intros [H1 H2 H3 H4 H5 H6] Hh. cbn in *. subst h.
  destruct (H6 eq_refl) as [-> Hx].
  destruct k; [right; destruct n; [eexists; apply ctl_disconnected | eexists; apply ctl_command]|].
  destruct x; [right; eexists; apply cancel_recv; destruct Hx; done | right; eexists; apply cancel_read
    | right; eexists; apply cancel_store |].
  destruct (H1 eq_refl) as [-> ->].
  destruct m; [right; eexists; apply read_cancelled | right; eexists; apply main_send
    | right; eexists; apply main_join_cancel | right; eexists; apply main_join_ctl | by left].
Qed.

(** ** Properties *)


(** Without a signal the server can hang: when the device stops delivering
    by itself and the client stays connected and silent, the server reaches a
    state in which the exit flag is set and everything else has ended, but the
    main thread joins a control thread that no step of the program ends. *)
Theorem single_hangs_on_silent_client :
  exists s, rtc single_step single_start s /\ should_exit s = true /\ main_pc s = JoinCtl /\ cancel_pc s = CancelEnded /\
    forall s', ~ single_thread_step s s'.
Proof.
  exists (mkSingleState true false true false 0 false JoinCtl CancelEnded Looping). split_and!; try done.
  - eapply rtc_l; [right; apply device_ends|].
    eapply rtc_l; [left; apply main_send|]. cbn.
    eapply rtc_l; [left; by apply cancel_recv|].
    eapply rtc_l; [left; apply cancel_read|].
    eapply rtc_l; [left; apply cancel_store|].
    eapply rtc_l; [left; apply main_join_cancel|]. reflexivity.
  - intros s' Hs. inversion Hs.
Qed.


End Single.

(** ** [run_serve_multi] *)

Module Multi.

(** Accepting a master; joining its control thread; the shutdown. *)
Inductive MultiMainPc : Type := Accepting | Serving | SendExit | JoinCancel | JoinRead | ShutStreams | Done.

(** [eof] and [inbox] are of the current master's connection; the handler of
    this mode stores the flag and does not touch the streams. *)
Record MultiState : Type := mkMultiState {
  should_exit : bool;
  channel : bool;
  cancelled : bool;
  read_ended : bool;
  streams_shut : bool;
  eof : bool;
  inbox : nat;
  handled : bool;
  main_pc : MultiMainPc;
  cancel_pc : CancelPc;
  ctl_pc : CtlPc
}.

Definition multi_start : MultiState := mkMultiState false false false false false true 0 false Accepting Waiting CtlEnded.

Definition multi_try_send (c : bool) (x : CancelPc) : bool := match x with CancelEnded => c | _ => true end.

Inductive multi_thread_step : MultiState -> MultiState -> Prop :=
| cancel_recv e d r t f n h m k :
    multi_thread_step (mkMultiState e true d r t f n h m Waiting k) (mkMultiState e false d r t f n h m Cancelling k)
| cancel_read e c d r t f n h m k :
    multi_thread_step (mkMultiState e c d r t f n h m Cancelling k) (mkMultiState e c true r t f n h m Storing k)
| cancel_store e c d r t f n h m k :
    multi_thread_step (mkMultiState e c d r t f n h m Storing k) (mkMultiState true c d r t f n h m CancelEnded k)
| read_cancelled e c t f n h m x k :
    multi_thread_step (mkMultiState e c true false t f n h m x k) (mkMultiState e c true true t f n h m x k)
| loop_exit c d r t f n h x k :
    multi_thread_step (mkMultiState true c d r t f n h Accepting x k) (mkMultiState true c d r t f n h SendExit x k)
| session_ended e c d r t f n h x :
    multi_thread_step (mkMultiState e c d r t f n h Serving x CtlEnded)
                (mkMultiState e c d r t f n h (if e then SendExit else Accepting) x CtlEnded)
| main_send e c d r t f n h x k :
    multi_thread_step (mkMultiState e c d r t f n h SendExit x k) (mkMultiState e (multi_try_send c x) d r t f n h JoinCancel x k)
| main_join_cancel e c d r t f n h k :
    multi_thread_step (mkMultiState e c d r t f n h JoinCancel CancelEnded k) (mkMultiState e c d r t f n h JoinRead CancelEnded k)
| main_join_read e c d t f n h x k :
    multi_thread_step (mkMultiState e c d true t f n h JoinRead x k) (mkMultiState e c d true t f n h ShutStreams x k)
| main_shut e c d r t f n h x k :
    multi_thread_step (mkMultiState e c d r t f n h ShutStreams x k) (mkMultiState e c d r true f n h Done x k)
| ctl_command e c d r t f n h m x :
    multi_thread_step (mkMultiState e c d r t f (S n) h m x Looping)
                (mkMultiState e c d r t f n h m x (if e then CtlEnded else Looping))
| ctl_disconnected e c d r t h m x :
    multi_thread_step (mkMultiState e c d r t true 0 h m x Looping) (mkMultiState e c d r t true 0 h m x CtlEnded).

Inductive multi_env_step : MultiState -> MultiState -> Prop :=
| signal e c d r t f n h m x k :
    multi_env_step (mkMultiState e c d r t f n h m x k) (mkMultiState true (multi_try_send c x) d r t f n true m x k)
| master_connects c d r t f n h x k :
    multi_env_step (mkMultiState false c d r t f n h Accepting x k) (mkMultiState false c d r t false 0 h Serving x Looping)
| master_sends e c d r t n h m x k :
    multi_env_step (mkMultiState e c d r t false n h m x k) (mkMultiState e c d r t false (S n) h m x k)
| master_leaves e c d r t f n h m x k :
    multi_env_step (mkMultiState e c d r t f n h m x k) (mkMultiState e c d r t true n h m x k)
| device_ends e c d t f n h m x k :
    multi_env_step (mkMultiState e c d false t f n h m x k) (mkMultiState e c d true t f n h m x k).

Definition multi_step (s s' : MultiState) : Prop := multi_thread_step s s' \/ multi_env_step s s'.

Definition multi_main_rank (pc : MultiMainPc) : nat :=
  match pc with Serving => 6 | Accepting => 5 | SendExit => 4 | JoinCancel => 3 | JoinRead => 2 | ShutStreams => 1 | Done => 0 end.
Definition multi_rank (s : MultiState) : nat :=
  (multi_main_rank (main_pc s) + cancel_rank (cancel_pc s) + ctl_rank (ctl_pc s) + inbox s + (if read_ended s then 0 else 1))%nat.

(** A master that is connected, silent and not leaving. *)
Definition silent (s : MultiState) : Prop :=
  main_pc s = Serving /\ ctl_pc s = Looping /\ eof s = false /\ inbox s = O.

Record multi_inv (s : MultiState) : Prop := {
  inv_store : cancel_pc s = CancelEnded -> should_exit s = true /\ cancelled s = true;
  inv_cancelled : cancel_pc s = Storing -> cancelled s = true;
  inv_join : main_pc s = JoinCancel -> channel s = true \/ cancel_pc s <> Waiting;
  inv_past : (main_pc s = JoinRead \/ main_pc s = ShutStreams \/ main_pc s = Done) -> cancel_pc s = CancelEnded;
  inv_read : (main_pc s = ShutStreams \/ main_pc s = Done) -> read_ended s = true;
  inv_done : main_pc s = Done -> streams_shut s = true;
  inv_handled : handled s = true -> should_exit s = true /\ (channel s = true \/ cancel_pc s <> Waiting);
  inv_ctl : main_pc s <> Serving -> ctl_pc s = CtlEnded;
  inv_exit : main_pc s <> Accepting -> main_pc s <> Serving -> should_exit s = true
}.

Lemma multi_inv_start : multi_inv multi_start.
Proof. constructor; cbn; intuition discriminate. Qed.

Lemma multi_inv_step s s' : multi_step s s' -> multi_inv s -> multi_inv s'.
Proof.
  intros [Hs|Hs] [H1 H2 H3 H4 H5 H6 H7 H8 H9]; destruct Hs; constructor; cbn in *; intros; subst;
    unfold multi_try_send in *; cbn in *;
    repeat match goal with
    | |- context [match ?x with _ => _ end] => is_var x; destruct x
    | E : context [match ?x with _ => _ end] |- _ => is_var x; destruct x
    end;
    cbn in *; try discriminate; intuition (discriminate || congruence || auto).
Qed.

Lemma multi_thread_step_rank s s' : multi_thread_step s s' -> (multi_rank s' < multi_rank s)%nat.
Proof. destruct 1; unfold multi_rank; cbn; try lia; destruct e; cbn; lia. Qed.

Lemma multi_thread_step_handled s s' : multi_thread_step s s' -> handled s' = handled s.
Proof. by destruct 1. Qed.

Lemma multi_nsteps_rank n s s' : nsteps multi_thread_step n s s' -> (n + multi_rank s' <= multi_rank s)%nat.
Proof. induction 1 as [|n x y z Hxy _ IH]; [lia|]. apply multi_thread_step_rank in Hxy. lia. Qed.

Lemma multi_rtc_thread s s' : rtc multi_thread_step s s' -> rtc multi_step s s'.
Proof. apply rtc_subrel. intros x y Hxy. by left. Qed.

Lemma multi_rtc_thread_handled s s' : rtc multi_thread_step s s' -> handled s' = handled s.
Proof. induction 1 as [|x y z Hxy _ IH]; [done|]. rewrite IH. by apply multi_thread_step_handled. Qed.

Lemma multi_handled_progress s :
  multi_inv s -> handled s = true -> main_pc s = Done \/ silent s \/ exists s', multi_thread_step s s'.
Proof.
  destruct s as [e c d r t f n h m x k]. intros [H1 H2 H3 H4 H5 H6 H7 H8 H9] Hh. cbn in *. subst h.
  destruct (H7 eq_refl) as [-> Hx].
  destruct x; [right; right; eexists; destruct Hx as [->|]; [apply cancel_recv | done]
    | right; right; eexists; apply cancel_read | right; right; eexists; apply cancel_store |].
  destruct (H1 eq_refl) as [_ ->].
  destruct r; [|right; right; eexists; apply read_cancelled].
  destruct m; [right; right; eexists; apply loop_exit | | right; right; eexists; apply main_send
    | right; right; eexists; apply main_join_cancel | right; right; eexists; apply main_join_read
    | right; right; eexists; apply main_shut | by left].
  destruct k; [|right; right; eexists; apply session_ended].
  destruct n; [|right; right; eexists; apply ctl_command].
  destruct f; [right; right; eexists; apply ctl_disconnected | right; left; by split_and!].
Qed.

(** ** Properties *)


(** C35. A silent master does block the shutdown: the server reaches a state in
    which the signal was handled, the flag is set, the device cancelled and its
    reader ended, no stream was shut down, and no step of the program is left:
    only the master can end it. *)
Theorem multi_hangs_on_silent_master :
  exists s, rtc multi_step multi_start s /\ handled s = true /\ should_exit s = true /\ cancelled s = true /\ read_ended s = true /\
    streams_shut s = false /\ silent s /\ forall s', ~ multi_thread_step s s'.
Proof.
  exists (mkMultiState true false true true false false 0 true Serving CancelEnded Looping). split_and!; try done.
  - eapply rtc_l; [right; apply master_connects|].
    eapply rtc_l; [right; apply signal|]. cbn.
    eapply rtc_l; [left; apply cancel_recv|].
    eapply rtc_l; [left; apply cancel_read|].
    eapply rtc_l; [left; apply cancel_store|].
    eapply rtc_l; [left; apply read_cancelled|]. reflexivity.
  - intros s' Hs. inversion Hs.
Qed.


End Multi.
