(* ===== verification/Opening.v ===== *)
(** * What a client reads first

    Several threads write to one connection ([src/main.rs]): the thread that
    accepted it sends the magic packet, a writer (the pump) the I/Q data, and
    the control thread the acknowledgement of a chain probe and, with a key,
    its nonce.  Each calls [write_all] on its own clone of the socket, and the
    kernel takes one segment of one of them at a time.  This is a transition
    system of one connection, from its acceptance to its first failed write;
    the four places that open a connection differ in the order in which they
    send the magic packet and start the other threads ([single_plan],
    [multi_plan], [slave_plan], [proxy_plan]). *)

From S2P Require Import Prelude Bytes Io Net Ip Error Control Encryption Commands Proxy Shutdown.
From stdpp Require Import relations list strings.
#[local] Open Scope Z_scope.

Inductive Act : Type := StartPump | StartControl | SendMagic.
Inductive Origin : Type := Magic | Iq | Answer.

#[export] Instance Act_eq_dec : EqDecision Act.
Proof. solve_decision. Defined.
#[export] Instance Origin_eq_dec : EqDecision Origin.
Proof. solve_decision. Defined.

(** The control thread: not running, waiting for a command, in the three parts
    of its answer (what is left to write), before storing the nonces. *)
Inductive CtlAt : Type := CtlOff | CtlIdle | Acking (rest : list Z) | Exchanging | Noncing (rest : list Z) | StoringNonces.

Definition single_plan : list Act := [StartControl; SendMagic; StartPump].
Definition multi_plan : list Act := [StartPump; SendMagic; StartControl].
Definition slave_plan : list Act := [SendMagic; StartPump].
Definition proxy_plan : list Act := [SendMagic; StartPump].

(** [todo] and [magic_rest] are the opening thread's; [iq_rest] what the pump
    has left of the buffer it is writing, [produced] all it was given;
    [nonces] whether the slot of the nonces is full; [unread] the probes the
    control thread has not read, [probed] those sent. *)
Record Opening : Type := mkOpening {
  todo : list Act;
  magic_rest : list Z;
  pumping : bool;
  iq_rest : list Z;
  produced : list Z;
  ctl_at : CtlAt;
  nonces : bool;
  unread : nat;
  probed : nat;
  segments : list (Origin * list Z)
}.

Definition opening_start (plan : list Act) (slot : bool) : Opening :=
  mkOpening plan MAGIC_PACKET false [] [] CtlOff slot 0 0 [].

(** The bytes on the connection, and those of one origin. *)
Definition bytes_of (w : list (Origin * list Z)) : list Z := concat (map snd w).
Definition on_socket (s : Opening) : list Z := bytes_of (segments s).
Definition written_by (o : Origin) (w : list (Origin * list Z)) : list Z := bytes_of (filter (fun p => fst p = o) w).

Section opening.
(** [keyed]: an encryption key is set, and [my_nonce] is what the handshake
    draws.  [waits]: the peer reads the magic packet before it sends. *)
Context (keyed waits : bool) (my_nonce : list Z).

(** A pump with a key waits for the nonces, and encrypts the rest of a buffer
    again after a short write ([Encryption]). *)
Inductive opening_step : Opening -> Opening -> Prop :=
| main_starts_pump t m b i pd k n u pr w :
    opening_step (mkOpening (StartPump :: t) m b i pd k n u pr w) (mkOpening t m true i pd k n u pr w)
| main_starts_control t m b i pd n u pr w :
    opening_step (mkOpening (StartControl :: t) m b i pd CtlOff n u pr w) (mkOpening t m b i pd CtlIdle n u pr w)
| magic_segment t x m b i pd k n u pr w :
    x <> [] ->
    opening_step (mkOpening (SendMagic :: t) (x ++ m) b i pd k n u pr w)
                 (mkOpening (SendMagic :: t) m b i pd k n u pr (w ++ [(Magic, x)]))
| magic_sent t b i pd k n u pr w :
    opening_step (mkOpening (SendMagic :: t) [] b i pd k n u pr w) (mkOpening t [] b i pd k n u pr w)
| pump_block block t m pd k n u pr w :
    block <> [] -> (keyed = true -> n = true) ->
    opening_step (mkOpening t m true [] pd k n u pr w) (mkOpening t m true block (pd ++ block) k n u pr w)
| pump_segment t m b x i i' pd k n u pr w :
    x <> [] -> (if keyed then length i' = length i else i' = i) ->
    opening_step (mkOpening t m b (x ++ i) pd k n u pr w) (mkOpening t m b i' pd k n u pr (w ++ [(Iq, x)]))
| probe_limited t m b i pd n u pr w :
    opening_step (mkOpening t m b i pd CtlIdle n (S u) pr w) (mkOpening t m b i pd CtlIdle n u pr w)
| probe_received t m b i pd n u pr w :
    opening_step (mkOpening t m b i pd CtlIdle n (S u) pr w) (mkOpening t m b i pd (Acking CHAIN_ACK) n u pr w)
| ack_segment t m b i pd x r n u pr w :
    x <> [] ->
    opening_step (mkOpening t m b i pd (Acking (x ++ r)) n u pr w) (mkOpening t m b i pd (Acking r) n u pr (w ++ [(Answer, x)]))
| ack_sent t m b i pd n u pr w :
    opening_step (mkOpening t m b i pd (Acking []) n u pr w)
                 (mkOpening t m b i pd (if keyed then Exchanging else CtlIdle) n u pr w)
| exchange_read t m b i pd n u pr w :
    opening_step (mkOpening t m b i pd Exchanging n u pr w) (mkOpening t m b i pd (Noncing my_nonce) n u pr w)
| exchange_failed t m b i pd n u pr w :
    opening_step (mkOpening t m b i pd Exchanging n u pr w) (mkOpening t m b i pd CtlIdle n u pr w)
| nonce_segment t m b i pd x r n u pr w :
    x <> [] ->
    opening_step (mkOpening t m b i pd (Noncing (x ++ r)) n u pr w) (mkOpening t m b i pd (Noncing r) n u pr (w ++ [(Answer, x)]))
| nonce_sent t m b i pd n u pr w :
    opening_step (mkOpening t m b i pd (Noncing []) n u pr w) (mkOpening t m b i pd StoringNonces n u pr w)
| nonces_stored t m b i pd n u pr w :
    opening_step (mkOpening t m b i pd StoringNonces n u pr w) (mkOpening t m b i pd CtlIdle true u pr w)
| control_ends t m b i pd n u pr w :
    opening_step (mkOpening t m b i pd CtlIdle n u pr w) (mkOpening t m b i pd CtlOff n u pr w)
| peer_probes t m b i pd k n u pr w :
    (waits = true -> (length MAGIC_PACKET <= length (bytes_of w))%nat) ->
    opening_step (mkOpening t m b i pd k n u pr w) (mkOpening t m b i pd k n (S u) (S pr) w).

(** ** Lemmas *)

Lemma bytes_of_app w v : bytes_of (w ++ v) = bytes_of w ++ bytes_of v.
Proof. unfold bytes_of. by rewrite map_app, concat_app. Qed.

Lemma bytes_of_one o x : bytes_of [(o, x)] = x.
Proof. unfold bytes_of. cbn. by rewrite app_nil_r. Qed.

Lemma written_by_same o w x : written_by o (w ++ [(o, x)]) = written_by o w ++ x.
Proof.
  unfold written_by. rewrite filter_app, bytes_of_app. f_equal.
  rewrite filter_cons, filter_nil. cbn [fst]. rewrite decide_True by done. apply bytes_of_one.
Qed.

Lemma written_by_other o w o' x : o' <> o -> written_by o (w ++ [(o', x)]) = written_by o w.
Proof.
  intros Hne. unfold written_by. rewrite filter_app, bytes_of_app.
  rewrite filter_cons, filter_nil. cbn [fst]. rewrite decide_False by done. apply app_nil_r.
Qed.

(** Each thread's bytes are on the connection in the order it wrote them. *)
Definition threads_in_order (s : Opening) : Prop :=
  written_by Magic (segments s) ++ magic_rest s = MAGIC_PACKET /\
  (keyed = false -> written_by Iq (segments s) ++ iq_rest s = produced s).

Lemma threads_in_order_step s s' : opening_step s s' -> threads_in_order s -> threads_in_order s'.
Proof.
  intros Hs. unfold threads_in_order.
  destruct Hs; cbn [magic_rest iq_rest produced segments]; intros [Hm Hi];
    rewrite ?written_by_same, ?written_by_other, ?app_nil_r, <- ?app_assoc by done; try (split; done).
  - by rewrite app_nil_r in Hm.
  - split; [done|]. intros Hk. by rewrite <- (Hi Hk), app_nil_r.
  - split; [done|]. intros Hk. rewrite Hk in *. subst i'. by apply Hi.
Qed.

(** With a peer that waits for the magic packet, or no control thread, and a
    pump started after the magic packet, everything else follows it. *)
Fixpoint magic_before_pump (plan : list Act) : bool :=
  match plan with
  | SendMagic :: _ => true
  | StartControl :: plan => magic_before_pump plan
  | _ => false
  end.

Definition quiet (s : Opening) : Prop := ctl_at s = CtlOff \/ ctl_at s = CtlIdle.

Definition only (o : Origin) (w : list (Origin * list Z)) : Prop := Forall (fun p => fst p = o) w.
Definition none (o : Origin) (w : list (Origin * list Z)) : Prop := Forall (fun p => fst p <> o) w.

Definition before_magic (s : Opening) : Prop :=
  magic_before_pump (todo s) = true /\ pumping s = false /\ iq_rest s = [] /\ only Magic (segments s) /\
  on_socket s ++ magic_rest s = MAGIC_PACKET /\
  ((waits = true /\ unread s = O /\ quiet s) \/ ((StartControl ∉ todo s) /\ ctl_at s = CtlOff)).
Definition after_magic (s : Opening) : Prop :=
  magic_rest s = [] /\ exists ms os, segments s = ms ++ os /\ only Magic ms /\ bytes_of ms = MAGIC_PACKET /\ none Magic os.

Lemma after_magic_segment s s' o x :
  after_magic s -> magic_rest s' = magic_rest s -> segments s' = segments s ++ [(o, x)] -> o <> Magic -> after_magic s'.
Proof.
  intros (Hm & ms & os & Hw & Hms & Hb & Hos) Hm' Hw' Ho. split; [congruence|].
  exists ms, (os ++ [(o, x)]). rewrite Hw', Hw, app_assoc. split_and!; try done.
  apply Forall_app. by split; [|repeat constructor].
Qed.

Lemma after_magic_step s s' : opening_step s s' -> after_magic s -> after_magic s'.
Proof.
  destruct 1; intros Ha; try exact Ha; try (by eapply after_magic_segment).
  destruct Ha as [Hm _]. cbn in Hm. by destruct x.
Qed.

Lemma magic_complete s :
  on_socket s ++ magic_rest s = MAGIC_PACKET -> only Magic (segments s) ->
  (length MAGIC_PACKET <= length (on_socket s))%nat -> after_magic s.
Proof.
  intros E Ho Hl. assert (Hm : magic_rest s = []).
  { apply length_zero_iff_nil. apply (f_equal length) in E. rewrite length_app in E. lia. }
  split; [done|]. rewrite Hm, app_nil_r in E. exists (segments s), []. rewrite app_nil_r.
  split_and!; [done | done | done | by constructor].
Qed.

Lemma magic_first_step s s' :
  opening_step s s' -> before_magic s \/ after_magic s -> before_magic s' \/ after_magic s'.
Proof.
  intros Hs [(Ht & Hb & Hi & Ho & Hw & Hc)|Ha]; [|right; by eapply after_magic_step].
  destruct Hs; unfold before_magic, quiet in *;
    cbn [todo pumping iq_rest magic_rest unread ctl_at segments magic_before_pump] in *; try discriminate.
  all: try (left; split_and!; try done; intuition congruence).
  - destruct Hc as [(? & ? & _)|[Hsc _]]; [|by apply not_elem_of_cons in Hsc as [? _]].
    left. split_and!; try done. left. split_and!; try done. by right.
  - left. split_and!; try done; [by apply Forall_app; split; [|repeat constructor]|].
    unfold on_socket in *. cbn [segments] in *. by rewrite bytes_of_app, bytes_of_one, <- app_assoc.
  - right. apply magic_complete; try done. cbn [magic_rest] in Hw. rewrite app_nil_r in Hw.
    unfold on_socket in *. cbn [segments] in *. by rewrite Hw.
  - destruct x; [done|]. by destruct i.
  - destruct Hc as [(Hwt & Hu & Hk)|Hc]; [|left; by split_and!; try right].
    right. apply magic_complete; try done. auto.
Qed.

Lemma only_bytes o w : only o w -> written_by o w = bytes_of w.
Proof.
  unfold only, written_by. induction 1 as [|[o' x] w Ho _ IH]; [done|]. cbn in Ho. subst o'.
  rewrite filter_cons, decide_True by done. change (x ++ bytes_of (filter (fun p => fst p = o) w) = x ++ bytes_of w).
  by rewrite IH.
Qed.

Lemma none_bytes o w : none o w -> written_by o w = [].
Proof.
  unfold none, written_by. induction 1 as [|[o' x] w Ho _ IH]; [done|]. by rewrite filter_cons, decide_False.
Qed.

Lemma written_by_app o w v : written_by o (w ++ v) = written_by o w ++ written_by o v.
Proof. unfold written_by. by rewrite filter_app, bytes_of_app. Qed.

(** Segments without an answer: the magic packet's, then the pump's. *)
Lemma magic_then_iq w :
  none Answer w -> none Magic w -> only Iq w.
Proof.
  unfold none, only. intros Ha Hm. induction Ha as [|[o x] w Ho Ha IH]; [done|]. inversion Hm; subst.
  constructor; [cbn in *; by destruct o | by apply IH].
Qed.

End opening.

(** ** Properties *)

(** C18. The magic packet comes first: on a connection whose opening thread
    sends the magic packet before it starts the pump (a proxy's master, a
    slave, a single client), with a peer that waits for it before it probes or
    with no control thread that answers, the peer reads, under every
    interleaving and every splitting of the writes, a part of the magic packet
    or the whole of it and then what the other threads wrote; without answers
    and without a key that is the I/Q data in order, none missing but what the
    pump is still writing. *)
Theorem magic_comes_first (keyed waits slot : bool) (my_nonce : list Z) (plan : list Act) (s : Opening) :
  magic_before_pump plan = true -> waits = true \/ (StartControl ∉ plan) ->
  rtc (opening_step keyed waits my_nonce) (opening_start plan slot) s ->
  on_socket s ++ magic_rest s = MAGIC_PACKET \/
  exists os, on_socket s = MAGIC_PACKET ++ os /\
    (keyed = false -> none Answer (segments s) -> os ++ iq_rest s = produced s).
Proof.
  intros Hp Hc Hr.
  assert (Hord : threads_in_order keyed s).
  { eapply (rtc_preserves _ _ (threads_in_order_step keyed waits my_nonce)); [|exact Hr]. by split. }
  assert (Hm : before_magic waits s \/ after_magic s).
  { eapply (rtc_preserves _ (fun s => before_magic waits s \/ after_magic s) (magic_first_step keyed waits my_nonce)); [|exact Hr].
    left. split_and!; try done; [by constructor|]. destruct Hc as [Hc|Hc]; [left | right]; split_and!; try done. by left. }
  destruct Hm as [(_ & _ & _ & _ & Hw & _)|(_ & ms & os & Hw & Hms & Hb & Hos)]; [by left|right].
  exists (bytes_of os). split; [unfold on_socket; by rewrite Hw, bytes_of_app, Hb|]. intros Hk Hna.
  destruct Hord as [_ Hiq]. rewrite <- (Hiq Hk), Hw, written_by_app.
  rewrite Hw in Hna. apply Forall_app in Hna as [_ Hna].
  rewrite (none_bytes Iq ms), (only_bytes Iq os (magic_then_iq _ Hna Hos)); [done|].
  eapply Forall_impl; [exact Hms|]. cbn. by intros [? ?] ->.
Qed.

(** ** The races *)

(** One thread's whole [write_all] in one segment. *)
Lemma whole_segment {A} (x : list A) : x = x ++ [].
Proof. by rewrite app_nil_r. Qed.

Section races.
Context `{StreamCipherLib} (io_display : ErrorKind -> string).

(** In the multi-client server the pump is started before the magic packet
    is sent, so any I/Q data can come first, without a key or with the nonces
    of an earlier master still in their slot; a proxy that connects then takes
    twelve bytes of it for the magic packet. *)
Theorem iq_before_magic (keyed waits slot : bool) (my_nonce iq : list Z) :
  iq <> [] -> keyed = false \/ slot = true ->
  exists s, rtc (opening_step keyed waits my_nonce) (opening_start multi_plan slot) s /\
    on_socket s = iq ++ MAGIC_PACKET /\
    ((17 <= length iq)%nat -> nth 12 iq 0 <> CMD_CHAIN_DETECT ->
     forall key timeout nonce rest (st : TcpStream), timeout <> 0 -> accepts st -> yields st (on_socket s ++ rest) ->
     exists conn st', upstream_session io_display key timeout nonce st = (Ok conn, st') /\
       magic_packet conn = take 12 iq /\ is_chain conn = false).
Proof.
  intros Hiq Hk.
  set (w := [(Iq, iq); (Magic, MAGIC_PACKET)]).
  exists (mkOpening [StartControl] [] true [] iq CtlOff slot 0 0 w). split_and!.
  - eapply rtc_l; [apply main_starts_pump|].
    eapply rtc_l; [apply (pump_block _ _ _ iq); [done|]; intros ->; by destruct Hk|]. cbn [app].
    rewrite (whole_segment iq) at 1. eapply rtc_l; [apply (pump_segment _ _ _ _ _ _ iq [] []); by destruct keyed|].
    change MAGIC_PACKET with (MAGIC_PACKET ++ []) at 1. eapply rtc_l; [by apply magic_segment|].
    eapply rtc_l; [apply magic_sent|]. reflexivity.
  - unfold on_socket, w. cbn [segments]. change (iq ++ MAGIC_PACKET ++ [] = iq ++ MAGIC_PACKET). by rewrite app_nil_r.
  - intros Hl Hn key timeout nonce rest st Ht Ha Hy. unfold on_socket, w in Hy. cbn [segments bytes_of map snd concat] in Hy.
    assert (Hsplit : iq = take 12 iq ++ take 5 (drop 12 iq) ++ drop 17 iq).
    { change 17%nat with (12 + 5)%nat. by rewrite <- drop_drop, !take_drop. }
    rewrite Hsplit, <- !app_assoc in Hy.
    edestruct (upstream_is_plain io_display key timeout nonce st) as (conn & st' & E & Hch & Hmp & _); [done | done | | | | exact Hy |].
    + rewrite length_take. lia.
    + rewrite length_take, length_drop. lia.
    + rewrite Hsplit in Hn. rewrite app_nth2 in Hn by (rewrite length_take; lia).
      rewrite length_take, Nat.min_l in Hn by lia. change (12 - 12)%nat with O in Hn.
      rewrite app_nth1 in Hn by (rewrite length_take, length_drop; lia). done.
    + exists conn, st'. by split_and!.
Qed.

(** Whether a single-client server is seen as a chain is a race between its
    acknowledgement and its I/Q data: with one probe, sent by a peer that waits
    for the magic packet, and the same I/Q data, the two orders are both
    possible. In one the proxy finds a chain; in the other it finds a plain
    upstream, loses the five bytes it took for the answer, and later finds the
    five bytes of the acknowledgement in the middle of its I/Q data. *)
Theorem chain_probe_races (my_nonce iq : list Z) :
  (5 <= length iq)%nat -> nth 0 iq 0 <> CMD_CHAIN_DETECT ->
  exists s1 s2, let run := rtc (opening_step false true my_nonce) (opening_start single_plan false) in
    run s1 /\ run s2 /\ probed s1 = 1%nat /\ probed s2 = 1%nat /\ produced s1 = iq /\ produced s2 = iq /\
    forall timeout nonce rest (st1 st2 : TcpStream),
      timeout <> 0 -> accepts st1 -> accepts st2 ->
      yields st1 (on_socket s1 ++ rest) -> yields st2 (on_socket s2 ++ rest) ->
      exists conn1 conn2,
        fst (upstream_session io_display None timeout nonce st1) = Ok conn1 /\
        fst (upstream_session io_display None timeout nonce st2) = Ok conn2 /\
        magic_packet conn1 = MAGIC_PACKET /\ magic_packet conn2 = MAGIC_PACKET /\
        is_chain conn1 = true /\ is_chain conn2 = false /\
        yields (up_stream conn1) (iq ++ rest) /\ yields (up_stream conn2) (drop 5 iq ++ CHAIN_ACK ++ rest).
Proof.
  intros Hl Hn. assert (Hne : iq <> []) by (intros ->; simpl in Hl; lia).
  exists (mkOpening [] [] true [] iq CtlIdle false 0 1 [(Magic, MAGIC_PACKET); (Answer, CHAIN_ACK); (Iq, iq)]),
         (mkOpening [] [] true [] iq CtlIdle false 0 1 [(Magic, MAGIC_PACKET); (Iq, iq); (Answer, CHAIN_ACK)]).
  assert (Hopen : rtc (opening_step false true my_nonce) (opening_start single_plan false)
    (mkOpening [] [] true [] [] (Acking CHAIN_ACK) false 0 1 [(Magic, MAGIC_PACKET)])).
  { eapply rtc_l; [apply main_starts_control|].
    change MAGIC_PACKET with (MAGIC_PACKET ++ []) at 1. eapply rtc_l; [by apply magic_segment|].
    eapply rtc_l; [apply magic_sent|]. eapply rtc_l; [apply main_starts_pump|].
    eapply rtc_l; [by apply peer_probes|]. eapply rtc_l; [apply probe_received|]. reflexivity. }
  cbv zeta. split_and!; [| | done | done | done | done |].
  - etrans; [exact Hopen|]. change CHAIN_ACK with (CHAIN_ACK ++ []) at 1.
    eapply rtc_l; [by apply ack_segment|]. eapply rtc_l; [apply ack_sent|].
    eapply rtc_l; [by apply (pump_block _ _ _ iq)|]. cbn [app]. rewrite (whole_segment iq) at 1.
    eapply rtc_l; [by apply (pump_segment _ _ _ _ _ _ iq [] [])|]. reflexivity.
  - etrans; [exact Hopen|].
    eapply rtc_l; [by apply (pump_block _ _ _ iq)|]. cbn [app]. rewrite (whole_segment iq) at 1.
    eapply rtc_l; [by apply (pump_segment _ _ _ _ _ _ iq [] [])|].
    change CHAIN_ACK with (CHAIN_ACK ++ []) at 1.
    eapply rtc_l; [by apply ack_segment|]. eapply rtc_l; [apply ack_sent|]. reflexivity.
  - intros timeout nonce rest st1 st2 Ht Ha1 Ha2 Hy1 Hy2. unfold on_socket, bytes_of in Hy1, Hy2. cbn [segments map snd concat] in Hy1, Hy2.
    rewrite app_nil_r, <- !app_assoc in Hy1, Hy2.
    destruct (upstream_is_chain io_display None timeout nonce st1 MAGIC_PACKET CHAIN_ACK [] (iq ++ rest))
      as (conn1 & u1 & -> & Hc1 & Hm1 & _ & _ & _ & _ & _ & Hr1); try done.
    rewrite <- (take_drop 5 iq), <- app_assoc in Hy2.
    edestruct (upstream_is_plain io_display None timeout nonce st2) as (conn2 & u2 & -> & Hc2 & Hm2 & _ & _ & _ & _ & Hr2);
      [done | done | | | | exact Hy2 |]; [done | rewrite length_take; lia | |].
    + rewrite <- (take_drop 5 iq) in Hn. rewrite app_nth1 in Hn by (rewrite length_take; lia). done.
    + exists conn1, conn2. by split_and!.
Qed.

End races.

(** ** The opening of an encrypted chain *)

Section encrypted.
Context (waits : bool) (my_nonce : list Z).

(** What the opening thread of the multi-client server still has to do. *)
Definition multi_todo (s : Opening) : Prop :=
  (todo s = multi_plan \/ todo s = tail multi_plan) /\ ctl_at s = CtlOff \/
  todo s = [StartControl] /\ magic_rest s = [] /\ ctl_at s = CtlOff \/
  todo s = [] /\ magic_rest s = [].

(** What is on the connection while the nonces are not there yet. *)
Definition answering (s : Opening) : Prop :=
  match ctl_at s with
  | CtlOff | CtlIdle =>
    unread s = probed s /\ on_socket s ++ magic_rest s = MAGIC_PACKET \/
    unread s = O /\ probed s = 1%nat /\ magic_rest s = [] /\
      (on_socket s = MAGIC_PACKET \/ on_socket s = MAGIC_PACKET ++ CHAIN_ACK)
  | Acking r => unread s = O /\ probed s = 1%nat /\ magic_rest s = [] /\ on_socket s ++ r = MAGIC_PACKET ++ CHAIN_ACK
  | Exchanging => unread s = O /\ probed s = 1%nat /\ magic_rest s = [] /\ on_socket s = MAGIC_PACKET ++ CHAIN_ACK
  | Noncing r => unread s = O /\ probed s = 1%nat /\ magic_rest s = [] /\ on_socket s ++ r = MAGIC_PACKET ++ CHAIN_ACK ++ my_nonce
  | StoringNonces => unread s = O /\ probed s = 1%nat /\ magic_rest s = [] /\ on_socket s = MAGIC_PACKET ++ CHAIN_ACK ++ my_nonce
  end.

Definition handshaking (s : Opening) : Prop := nonces s = false /\ (iq_rest s = [] /\ produced s = []) /\ answering s.
Definition chained (s : Opening) : Prop :=
  nonces s = true /\ magic_rest s = [] /\ prefix (MAGIC_PACKET ++ CHAIN_ACK ++ my_nonce) (on_socket s).

Lemma multi_todo_step s s' : opening_step true waits my_nonce s s' -> multi_todo s -> multi_todo s'.
Proof.
  unfold multi_todo, multi_plan. destruct 1; cbn [todo magic_rest ctl_at tail]; intuition (simplify_eq/=; auto).
Qed.

Lemma probed_step s s' : opening_step true waits my_nonce s s' -> (probed s <= probed s')%nat.
Proof. destruct 1; cbn; lia. Qed.

Lemma chained_step s s' : opening_step true waits my_nonce s s' -> chained s -> chained s'.
Proof.
  unfold chained, on_socket. intros Hs (Hn & Hm & Ha).
  destruct Hs; cbn [nonces magic_rest segments] in *; rewrite ?bytes_of_app; split_and!; try done; try (by apply prefix_app_r).
  by destruct x.
Qed.

Lemma handshaking_step s s' :
  opening_step true waits my_nonce s s' -> multi_todo s -> (probed s' <= 1)%nat -> handshaking s ->
  handshaking s' \/ chained s'.
Proof.
  intros Hs Ht Hp (Hn & [Hi Hpd] & Ha). destruct Hs; cbn [nonces iq_rest produced] in *; subst; try discriminate.
  all: unfold handshaking, chained, answering, on_socket, multi_todo, multi_plan in *;
    cbn [nonces iq_rest produced ctl_at unread probed magic_rest segments todo tail] in *; rewrite ?bytes_of_app, ?bytes_of_one, <- ?app_assoc.
  all: try (left; split; [done|split; [by split|]]; try exact Ha).
  - destruct Ht as [[_ ->]|[(? & _)|(? & _)]]; [|done|done].
    destruct Ha as [Ha|(_ & _ & Hm & _)]; [by left|]. by destruct x.
  - by specialize (H0 eq_refl).
  - by destruct x.
  - destruct Ht as [[_ ?]|[(_ & _ & ?)|(_ & ->)]]; [done..|]. rewrite app_nil_r in Ha.
    destruct Ha as [[? ?]|[? _]]; [|done]. right. split_and!; try lia; [done|]. by left.
  - destruct Ht as [[_ ?]|[(_ & _ & ?)|(_ & ->)]]; [done..|]. rewrite app_nil_r in Ha.
    destruct Ha as [[? ->]|[? _]]; [|done]. split_and!; try lia; done.
  - by rewrite app_nil_r in Ha.
  - destruct Ha as (? & ? & ? & ->). by rewrite <- app_assoc.
  - right. destruct Ha as (? & ? & ? & ->). split_and!; try done. by right.
  - by rewrite app_nil_r in Ha.
  - right. destruct Ha as (_ & _ & -> & ->). by split_and!.
  - destruct k; try (destruct Ha as (_ & -> & _); lia); destruct Ha as [[-> ?]|(_ & -> & _)]; try lia; by left.
Qed.

Lemma answering_prefix s : answering s -> prefix (on_socket s) (MAGIC_PACKET ++ CHAIN_ACK ++ my_nonce).
Proof.
  assert (Hlift : forall a b c, a ++ b = MAGIC_PACKET ++ c -> prefix c (CHAIN_ACK ++ my_nonce) ->
    prefix a (MAGIC_PACKET ++ CHAIN_ACK ++ my_nonce)).
  { intros a b c E Hc. etrans; [|by apply prefix_app]. exists b. by symmetry. }
  assert (Hack : prefix CHAIN_ACK (CHAIN_ACK ++ my_nonce)) by (by eexists).
  unfold answering. destruct (ctl_at s).
  1,2: intros [[_ E]|(_ & _ & _ & [E|E])];
    [apply (Hlift _ (magic_rest s) []) | apply (Hlift _ [] []) | apply (Hlift _ [] CHAIN_ACK)];
    rewrite ?app_nil_r; try done; apply prefix_nil.
  - intros (_ & _ & _ & E). by apply (Hlift _ rest CHAIN_ACK).
  - intros (_ & _ & _ & E). apply (Hlift _ [] CHAIN_ACK); by rewrite ?app_nil_r.
  - intros (_ & _ & _ & E). by apply (Hlift _ rest (CHAIN_ACK ++ my_nonce)).
  - intros (_ & _ & _ & E). apply (Hlift _ [] (CHAIN_ACK ++ my_nonce)); by rewrite ?app_nil_r.
Qed.

Lemma encrypted_reachable s :
  rtc (opening_step true waits my_nonce) (opening_start multi_plan false) s -> (probed s <= 1)%nat ->
  handshaking s \/ chained s.
Proof.
  intros Hr Hp.
  assert (Hall : multi_todo s /\ ((probed s <= 1)%nat -> handshaking s \/ chained s)); [|by apply Hall].
  eapply (rtc_preserves _ (fun s => multi_todo s /\ ((probed s <= 1)%nat -> handshaking s \/ chained s))); [|..|exact Hr].
  - intros x y Hxy [Ht Hs]. split; [by eapply multi_todo_step|]. intros Hy.
    assert (Hx : (probed x <= 1)%nat) by (pose proof (probed_step _ _ Hxy); lia).
    destruct (Hs Hx); [by eapply handshaking_step | right; by eapply chained_step].
  - split; [left; split; [by left | done]|]. intros _. left. split; [done|]. split; [done|]. left. by split.
Qed.

End encrypted.

Section encrypted_properties.
Context `{StreamCipherLib} (io_display : ErrorKind -> string).

(** C17. With a key the opening is orderly: a multi-client server whose slot of
    nonces is empty puts on the connection of a master that probes once, under
    every interleaving, a part of "magic packet, acknowledgement, server nonce"
    or all of it, and I/Q data only after all of it; so a proxy with the key
    that reads such a connection finds an encrypted chain, with ciphers of
    exactly the nonce the server stored and of its own. *)
Theorem encrypted_opening (waits : bool) (my_nonce : list Z) (s : Opening) :
  length my_nonce = NONCE_SIZE ->
  rtc (opening_step true waits my_nonce) (opening_start multi_plan false) s -> (probed s <= 1)%nat ->
  let opening := MAGIC_PACKET ++ CHAIN_ACK ++ my_nonce in
  (produced s <> [] -> prefix opening (on_socket s)) /\
  (prefix (on_socket s) opening \/ prefix opening (on_socket s)) /\
  (forall key timeout proxy_nonce rest (st : TcpStream),
     timeout <> 0 -> accepts st -> prefix opening (on_socket s) -> yields st (on_socket s ++ rest) ->
     exists conn, fst (upstream_session io_display (Some key) timeout proxy_nonce st) = Ok conn /\
       is_chain conn = true /\ magic_packet conn = MAGIC_PACKET /\
       up_read_cipher conn = Some (chacha20_new key my_nonce) /\
       up_write_cipher conn = Some (chacha20_new key proxy_nonce) /\
       yields (up_stream conn) (drop (length opening) (on_socket s) ++ rest)).
Proof.
  intros Hl Hr Hp opening. pose proof (encrypted_reachable waits my_nonce s Hr Hp) as Hst. split_and!.
  - intros Hiq. by destruct Hst as [(_ & [_ ?] & _)|(_ & _ & ?)].
  - destruct Hst as [(_ & _ & Ha)|(_ & _ & ?)]; [left; by apply answering_prefix | by right].
  - intros key timeout proxy_nonce rest st Ht Ha [more Hw] Hy. rewrite Hw, drop_app_length.
    rewrite Hw in Hy. unfold opening in Hy. rewrite <- !app_assoc in Hy.
    destruct (upstream_is_chain io_display (Some key) timeout proxy_nonce st MAGIC_PACKET CHAIN_ACK my_nonce (more ++ rest))
      as (conn & u & -> & Hc & Hm & _ & _ & Hrc & Hwc & _ & Hyr); try done.
    exists conn. by split_and!.
Qed.

End encrypted_properties.

Section witnesses.
#[local] Existing Instance toy_cipher.

Lemma magic_comes_first_witness :
  let s := mkOpening [] [] true [3] [1; 2; 3] CtlOff false 1 1 [(Magic, take 5 MAGIC_PACKET); (Magic, drop 5 MAGIC_PACKET); (Iq, [1; 2])] in
  on_socket s ++ magic_rest s = MAGIC_PACKET \/
  exists os, on_socket s = MAGIC_PACKET ++ os /\ (false = false -> none Answer (segments s) -> os ++ iq_rest s = produced s).
Proof.
  intros s. apply (magic_comes_first false false false [] proxy_plan s); [done| |].
  - right. apply (bool_decide_unpack _). by vm_compute.
  - eapply rtc_l; [apply (magic_segment _ _ _ _ (take 5 MAGIC_PACKET) (drop 5 MAGIC_PACKET)); done|].
    eapply rtc_l; [apply (magic_segment _ _ _ _ (drop 5 MAGIC_PACKET) []); done|].
    eapply rtc_l; [apply magic_sent|]. eapply rtc_l; [apply main_starts_pump|].
    eapply rtc_l; [by apply (pump_block _ _ _ [1; 2; 3])|].
    eapply rtc_l; [by apply (pump_segment _ _ _ _ _ _ [1; 2] [3] [3])|].
    eapply rtc_l; [by apply peer_probes|]. reflexivity.
Defined.

Lemma iq_before_magic_witness :
  exists s, rtc (opening_step true true (replicate 12 9)) (opening_start multi_plan true) s /\
    on_socket s = replicate 20 127 ++ MAGIC_PACKET.
Proof.
  destruct (iq_before_magic (fun _ => "error"%string) true true true (replicate 12 9) (replicate 20 127)) as (s & Hr & Hw & _).
  - done.
  - by right.
  - by exists s.
Defined.

Lemma chain_probe_races_witness :
  exists s1 s2, let run := rtc (opening_step false true []) (opening_start single_plan false) in
    run s1 /\ run s2 /\ produced s1 = [127; 128; 127; 128; 127; 128] /\ produced s2 = produced s1.
Proof.
  destruct (chain_probe_races (fun _ => "error"%string) [] [127; 128; 127; 128; 127; 128]) as (s1 & s2 & H1 & H2 & _ & _ & H3 & H4 & _).
  - simpl. lia.
  - done.
  - exists s1, s2. by rewrite H3, H4.
Defined.

Lemma encrypted_opening_witness :
  let n := replicate 12 9 in
  let s := mkOpening [] [] true [] [4] CtlIdle true 0 1
    [(Magic, MAGIC_PACKET); (Answer, CHAIN_ACK); (Answer, n); (Iq, [4])] in
  let st := mkTcp [Data (on_socket s)] [] [] None None in
  rtc (opening_step true true n) (opening_start multi_plan false) s /\
  exists conn, fst (upstream_session (fun _ => "error"%string) (Some [7]) 5 (replicate 12 8) st) = Ok conn /\
    is_chain conn = true /\ magic_packet conn = MAGIC_PACKET /\
    up_read_cipher conn = Some (chacha20_new [7] n) /\
    up_write_cipher conn = Some (chacha20_new [7] (replicate 12 8)) /\ yields (up_stream conn) ([4] ++ []).
Proof.
  intros n s st.
  assert (Hr : rtc (opening_step true true n) (opening_start multi_plan false) s).
  { eapply rtc_l; [apply main_starts_pump|].
    eapply rtc_l; [apply (magic_segment _ _ _ _ MAGIC_PACKET []); done|].
    eapply rtc_l; [apply magic_sent|]. eapply rtc_l; [apply main_starts_control|].
    eapply rtc_l; [by apply peer_probes|]. eapply rtc_l; [apply probe_received|].
    eapply rtc_l; [apply (ack_segment _ _ _ _ _ _ _ _ CHAIN_ACK []); done|]. eapply rtc_l; [apply ack_sent|].
    eapply rtc_l; [apply exchange_read|]. eapply rtc_l; [apply (nonce_segment _ _ _ _ _ _ _ _ n []); done|].
    eapply rtc_l; [apply nonce_sent|]. eapply rtc_l; [apply nonces_stored|].
    eapply rtc_l; [by apply (pump_block _ _ _ [4])|].
    eapply rtc_l; [by apply (pump_segment _ _ _ _ _ _ [4] [] [])|]. reflexivity. }
  split; [exact Hr|].
  destruct (encrypted_opening (fun _ => "error"%string) true n s eq_refl Hr) as (_ & _ & Hconn); [done|].
  apply (Hconn [7] 5 (replicate 12 8) [] st); [done | by constructor | by exists [4] |].
  split; [by repeat constructor | reflexivity].
Defined.

End witnesses.
