(* ===== verification/ProxyShutdown.v ===== *)
(** * How the proxy shuts down

    The threads of [run_proxy_multi] ([src/main.rs]) as a transition system, in
    the manner of [Shutdown]: the signal handler, the upstream reader, the
    master loop with the forwarding control thread of the current master, and
    the final join.  The receiver of the channel is kept alive and never read,
    so [try_send] only ever fills it.  The upstream's reads time out after
    30 seconds ([Proxy]), so the reader looks at the exit flag again and again;
    a master's reads that time out leave its control thread where it was. *)

From S2P Require Import Prelude Shutdown.
From stdpp Require Import relations.

Inductive ReaderPc : Type := Relaying | ReaderEnded.
Inductive Upstream : Type := UpOpen | UpClosed | UpFailed.
Inductive ProxyMainPc : Type := Accepting | Serving | StoreExit | SendExit | JoinReader | Done.

Record ProxyState : Type := mkProxyState {
  should_exit : bool;
  channel : bool;
  upstream : Upstream;
  eof : bool;
  inbox : nat;
  handled : bool;
  main_pc : ProxyMainPc;
  reader_pc : ReaderPc;
  ctl_pc : CtlPc
}.

Definition proxy_start : ProxyState := mkProxyState false false UpOpen true 0 false Accepting Relaying CtlEnded.

Inductive proxy_thread_step : ProxyState -> ProxyState -> Prop :=
| reader_exits c up f n h m k :
    proxy_thread_step (mkProxyState true c up f n h m Relaying k) (mkProxyState true c up f n h m ReaderEnded k)
| reader_closed e c f n h m k :
    proxy_thread_step (mkProxyState e c UpClosed f n h m Relaying k) (mkProxyState e c UpClosed f n h m ReaderEnded k)
| reader_failed e c f n h m k :
    proxy_thread_step (mkProxyState e c UpFailed f n h m Relaying k) (mkProxyState e true UpFailed f n h m ReaderEnded k)
| loop_exit c up f n h r k :
    proxy_thread_step (mkProxyState true c up f n h Accepting r k) (mkProxyState true c up f n h StoreExit r k)
| session_ended e c up f n h r :
    proxy_thread_step (mkProxyState e c up f n h Serving r CtlEnded)
                      (mkProxyState e c up f n h (if e then StoreExit else Accepting) r CtlEnded)
| main_store e c up f n h r k :
    proxy_thread_step (mkProxyState e c up f n h StoreExit r k) (mkProxyState true c up f n h SendExit r k)
| main_send e c up f n h r k :
    proxy_thread_step (mkProxyState e c up f n h SendExit r k) (mkProxyState e true up f n h JoinReader r k)
| main_join_reader e c up f n h k :
    proxy_thread_step (mkProxyState e c up f n h JoinReader ReaderEnded k) (mkProxyState e c up f n h Done ReaderEnded k)
| ctl_command e c up f n h m r :
    proxy_thread_step (mkProxyState e c up f (S n) h m r Looping)
                      (mkProxyState e c up f n h m r (if e then CtlEnded else Looping))
| ctl_forward_fails c up f n h m r :
    up <> UpOpen ->
    proxy_thread_step (mkProxyState false c up f (S n) h m r Looping) (mkProxyState false c up f n h m r CtlEnded)
| ctl_disconnected e c up h m r :
    proxy_thread_step (mkProxyState e c up true 0 h m r Looping) (mkProxyState e c up true 0 h m r CtlEnded).

Inductive proxy_env_step : ProxyState -> ProxyState -> Prop :=
| signal e c up f n h m r k :
    proxy_env_step (mkProxyState e c up f n h m r k) (mkProxyState true true up f n true m r k)
| master_connects c up f n h r k :
    proxy_env_step (mkProxyState false c up f n h Accepting r k) (mkProxyState false c up false 0 h Serving r Looping)
| master_sends e c up n h m r k :
    proxy_env_step (mkProxyState e c up false n h m r k) (mkProxyState e c up false (S n) h m r k)
| master_leaves e c up f n h m r k :
    proxy_env_step (mkProxyState e c up f n h m r k) (mkProxyState e c up true n h m r k)
| upstream_closes e c f n h m r k :
    proxy_env_step (mkProxyState e c UpOpen f n h m r k) (mkProxyState e c UpClosed f n h m r k)
| upstream_fails e c f n h m r k :
    proxy_env_step (mkProxyState e c UpOpen f n h m r k) (mkProxyState e c UpFailed f n h m r k).

Definition proxy_step (s s' : ProxyState) : Prop := proxy_thread_step s s' \/ proxy_env_step s s'.

Definition proxy_main_rank (pc : ProxyMainPc) : nat :=
  match pc with Serving => 5 | Accepting => 4 | StoreExit => 3 | SendExit => 2 | JoinReader => 1 | Done => 0 end.
Definition proxy_rank (s : ProxyState) : nat :=
  (proxy_main_rank (main_pc s) + match reader_pc s with Relaying => 1 | ReaderEnded => 0 end
   + ctl_rank (ctl_pc s) + inbox s)%nat.

(** The main thread has left the master loop. *)
Definition left_loop (pc : ProxyMainPc) : bool := match pc with Accepting | Serving => false | _ => true end.

Record proxy_inv (s : ProxyState) : Prop := {
  inv_flag : should_exit s = true -> handled s = true;
  inv_loop : left_loop (main_pc s) = true -> should_exit s = true;
  inv_ctl : main_pc s <> Serving -> ctl_pc s = CtlEnded;
  inv_done : main_pc s = Done -> reader_pc s = ReaderEnded;
  inv_handled : handled s = true -> should_exit s = true
}.

(** ** Lemmas *)

Lemma proxy_inv_start : proxy_inv proxy_start.
Proof. by constructor. Qed.

Lemma proxy_inv_step s s' : proxy_step s s' -> proxy_inv s -> proxy_inv s'.
Proof.
  intros [Hs|Hs] [H1 H2 H3 H4 H5]; destruct Hs; constructor; cbn in *; intros; subst;
    try discriminate; try done; auto;
    try (destruct e; cbn in *; try discriminate; auto; fail); intuition congruence.
Qed.

Lemma proxy_rtc_inv s : rtc proxy_step proxy_start s -> proxy_inv s.
Proof. apply (rtc_preserves proxy_step proxy_inv proxy_inv_step), proxy_inv_start. Qed.

Lemma proxy_thread_step_rank s s' : proxy_thread_step s s' -> (proxy_rank s' < proxy_rank s)%nat.
Proof. destruct 1; unfold proxy_rank; cbn; try lia; destruct e; cbn; lia. Qed.

Lemma proxy_nsteps_rank n s s' : nsteps proxy_thread_step n s s' -> (n + proxy_rank s' <= proxy_rank s)%nat.
Proof. induction 1 as [|n x y z Hxy _ IH]; [lia|]. apply proxy_thread_step_rank in Hxy. lia. Qed.

Lemma proxy_thread_step_handled s s' : proxy_thread_step s s' -> handled s' = handled s.
Proof. by destruct 1. Qed.

Lemma proxy_rtc_thread s s' : rtc proxy_thread_step s s' -> rtc proxy_step s s' /\ handled s' = handled s.
Proof.
  induction 1 as [|x y z Hxy _ [IH1 IH2]]; [done|]. split.
  - eapply rtc_l; [by left | done].
  - rewrite IH2. by apply proxy_thread_step_handled.
Qed.

(** A local master that is connected, silent and not leaving. *)
Definition silent (s : ProxyState) : Prop :=
  main_pc s = Serving /\ ctl_pc s = Looping /\ eof s = false /\ inbox s = O.

Lemma proxy_handled_progress s :
  proxy_inv s -> handled s = true -> main_pc s = Done \/ silent s \/ exists s', proxy_thread_step s s'.
Proof.
  destruct s as [e c up f n h m r k]. intros [H1 H2 H3 H4 H5] Hh. cbn in *. subst h. rewrite (H5 eq_refl) in *.
  destruct r; [right; right; eexists; apply reader_exits|].
  destruct m; [right; right; eexists; apply loop_exit | | right; right; eexists; apply main_store
    | right; right; eexists; apply main_send | right; right; eexists; apply main_join_reader | by left].
  destruct k; [|right; right; eexists; apply session_ended].
  destruct n; [|right; right; eexists; apply ctl_command].
  destruct f; [right; right; eexists; apply ctl_disconnected | right; left; by split_and!].
Qed.

(** ** Properties *)




