(* ===== verification/Nonces.v ===== *)
(** * The shared nonces of an encrypted multi-client server

    [run_serve_multi] ([src/main.rs]) starts, for each master, a thread that
    waits for the nonces of the handshake in a slot behind a mutex and then
    writes the encrypted I/Q data, and a control thread that performs the
    handshake and stores the nonces.  The writer's
    [if let Some(..) = *enonces.lock().unwrap()] keeps the guard for the whole
    of its body, so a writer holds the lock as long as it writes.  Sessions
    follow each other (the control thread is joined before the next master is
    accepted) and share the slot.  A [Z] stands for a nonce.  A writer that
    panics, and so poisons the lock, is left out. *)

From S2P Require Import Prelude Shutdown.
From stdpp Require Import relations list.
#[local] Open Scope Z_scope.

Inductive NonceWriter : Type := Polling | Writing (nonce : Z) | WriterEnded (nonce : Z).
Inductive NonceCtl : Type := Plain | Storing (my peer : Z) | Encrypted (my : Z) | CtlOver.

Record NonceState : Type := mkNonceState {
  slot : option (Z * Z);
  holder : option nat;
  writers : list NonceWriter;
  controls : list NonceCtl
}.

Definition no_sessions : NonceState := mkNonceState None None [] [].

Inductive nonce_step : NonceState -> NonceState -> Prop :=
| session_starts sl h ws cs :
    Forall (fun c => c = CtlOver) cs ->
    nonce_step (mkNonceState sl h ws cs) (mkNonceState sl h (ws ++ [Polling]) (cs ++ [Plain]))
| writer_starts my peer ws cs i :
    ws !! i = Some Polling ->
    nonce_step (mkNonceState (Some (my, peer)) None ws cs)
               (mkNonceState (Some (my, peer)) (Some i) (<[i := Writing my]> ws) cs)
| writer_stops sl ws cs i my :
    ws !! i = Some (Writing my) ->
    nonce_step (mkNonceState sl (Some i) ws cs) (mkNonceState sl None (<[i := WriterEnded my]> ws) cs)
| handshake sl h ws cs i c my peer :
    cs !! i = Some c -> c = Plain \/ (exists m, c = Encrypted m) ->
    nonce_step (mkNonceState sl h ws cs) (mkNonceState sl h ws (<[i := Storing my peer]> cs))
| nonces_stored sl ws cs i my peer :
    cs !! i = Some (Storing my peer) ->
    nonce_step (mkNonceState sl None ws cs) (mkNonceState (Some (my, peer)) None ws (<[i := Encrypted my]> cs))
| master_leaves sl h ws cs i c :
    cs !! i = Some c -> c = Plain \/ (exists m, c = Encrypted m) ->
    nonce_step (mkNonceState sl h ws cs) (mkNonceState sl h ws (<[i := CtlOver]> cs)).

(** The holder of the lock is the one writer that writes, under the nonce the
    slot has. *)
Definition lock_inv (s : NonceState) : Prop :=
  forall i, holder s = Some i <-> exists my, writers s !! i = Some (Writing my).
Definition nonce_inv (s : NonceState) : Prop :=
  forall i my, writers s !! i = Some (Writing my) -> exists peer, slot s = Some (my, peer).

Lemma lock_inv_step s s' : nonce_step s s' -> lock_inv s -> lock_inv s'.
Proof.
  intros Hs Hi. destruct Hs as [sl h ws cs Hc|my peer ws cs i Hw|sl ws cs i my Hw|sl h ws cs i c my peer Hl Hc|sl ws cs i my peer Hl|sl h ws cs i c Hl Hc];
    intros j; specialize (Hi j); cbn [holder writers] in *; try exact Hi.
  - rewrite Hi. split; intros [my Hm].
    + exists my. by apply lookup_app_l_Some.
    + exists my. apply lookup_app_Some in Hm as [Hm|[_ Hm]]; [done|]. apply list_lookup_singleton_Some in Hm as [_ [=]].
  - destruct (decide (i = j)) as [->|Hne].
    + split; [|done]. intros _. exists my. apply list_lookup_insert_eq. by eapply lookup_lt_Some.
    + split; [congruence|]. intros [m Hm]. rewrite list_lookup_insert_ne in Hm by done.
      assert (Hn : None = Some j) by (apply Hi; by exists m). done.
  - split; [done|]. intros [m Hm]. exfalso. destruct (decide (i = j)) as [->|Hne].
    + rewrite list_lookup_insert_eq in Hm by (by eapply lookup_lt_Some). done.
    + rewrite list_lookup_insert_ne in Hm by done. assert (Hn : Some i = Some j) by (apply Hi; by exists m). congruence.
Qed.

Lemma nonce_inv_step s s' : nonce_step s s' -> lock_inv s -> nonce_inv s -> nonce_inv s'.
Proof.
  intros Hs Hl Hi. destruct Hs as [sl h ws cs Hc|my peer ws cs i Hw|sl ws cs i my Hw|sl h ws cs i c my peer Hc1 Hc|sl ws cs i my peer Hc|sl h ws cs i c Hc1 Hc];
    intros j m Hm; cbn [slot writers holder] in *.
  - apply lookup_app_Some in Hm as [Hm|[_ Hm]]; [by eapply Hi|]. apply list_lookup_singleton_Some in Hm as [_ [=]].
  - destruct (decide (i = j)) as [->|Hne].
    + rewrite list_lookup_insert_eq in Hm by (by eapply lookup_lt_Some). simplify_eq. by exists peer.
    + rewrite list_lookup_insert_ne in Hm by done. by eapply Hi.
  - destruct (decide (i = j)) as [->|Hne].
    + rewrite list_lookup_insert_eq in Hm by (by eapply lookup_lt_Some). done.
    + rewrite list_lookup_insert_ne in Hm by done. by eapply Hi.
  - by eapply Hi.
  - assert (Hn : None = Some j) by (apply (Hl j); by exists m). done.
  - by eapply Hi.
Qed.

Lemma nonces_reachable s : rtc nonce_step no_sessions s -> lock_inv s /\ nonce_inv s.
Proof.
  apply (rtc_preserves nonce_step (fun s => lock_inv s /\ nonce_inv s)).
  - intros x y Hxy [Hl Hn]. split; [by eapply lock_inv_step | by eapply nonce_inv_step].
  - split; intros i; cbn; [split; [done|]; intros [m Hm]|intros m Hm]; by rewrite lookup_nil in Hm.
Qed.

(** What stays true of the [k]-th session once its writer has started under the
    nonce [my]: until the writer ends, it holds the lock, the slot is unchanged
    and the control thread has not established an encrypted session. *)
Definition captured (k : nat) (my peer : Z) (s : NonceState) : Prop :=
  writers s !! k = Some (WriterEnded my) \/
  (writers s !! k = Some (Writing my) /\ holder s = Some k /\ slot s = Some (my, peer) /\
   forall m, controls s !! k <> Some (Encrypted m)).

Lemma captured_step k my peer s s' : nonce_step s s' -> captured k my peer s -> captured k my peer s'.
Proof.
  intros Hs Hc. unfold captured in *.
  destruct Hs as [sl h ws cs Hcs|m p ws cs i Hw|sl ws cs i m Hw|sl h ws cs i c m p Hc1 Hc2|sl ws cs i m p Hc1|sl h ws cs i c Hc1 Hc2];
    cbn [slot writers holder controls] in *.
  - destruct Hc as [Hc|(H1 & H2 & H3 & H4)]; [left; by apply lookup_app_l_Some|].
    right. split_and!; try done; [by apply lookup_app_l_Some|]. intros m Hm.
    apply lookup_app_Some in Hm as [Hm|[_ Hm]]; [by eapply H4|]. apply list_lookup_singleton_Some in Hm as [_ [=]].
  - destruct Hc as [Hc|(_ & [=] & _)]. left. rewrite list_lookup_insert_ne; [done|]. intros ->. congruence.
  - destruct (decide (i = k)) as [->|Hne].
    + left. rewrite list_lookup_insert_eq by (by eapply lookup_lt_Some). destruct Hc as [Hc|(Hc & _)]; congruence.
    + rewrite list_lookup_insert_ne by done. destruct Hc as [Hc|(_ & [=] & _)]; [by left | done].
  - destruct Hc as [Hc|(H1 & H2 & H3 & H4)]; [by left|]. right. split_and!; try done. intros m' Hm.
    destruct (decide (i = k)) as [->|Hne].
    + rewrite list_lookup_insert_eq in Hm by (by eapply lookup_lt_Some). done.
    + rewrite list_lookup_insert_ne in Hm by done. by eapply H4.
  - destruct Hc as [Hc|(_ & [=] & _)]. by left.
  - destruct Hc as [Hc|(H1 & H2 & H3 & H4)]; [by left|]. right. split_and!; try done. intros m' Hm.
    destruct (decide (i = k)) as [->|Hne].
    + rewrite list_lookup_insert_eq in Hm by (by eapply lookup_lt_Some). done.
    + rewrite list_lookup_insert_ne in Hm by done. by eapply H4.
Qed.

(** ** Properties *)

(** In every reachable state at most one thread writes encrypted data, it
    is the one that holds the lock of the nonces, and its nonce is the one the
    slot has. *)
Theorem one_encrypted_writer (s : NonceState) (i j : nat) (my my' : Z) :
  rtc nonce_step no_sessions s -> writers s !! i = Some (Writing my) -> writers s !! j = Some (Writing my') ->
  i = j /\ holder s = Some i /\ exists peer, slot s = Some (my, peer).
Proof.
  intros Hr Hi Hj. destruct (nonces_reachable s Hr) as [Hl Hn].
  assert (H1 : holder s = Some i) by (apply Hl; by exists my).
  assert (H2 : holder s = Some j) by (apply Hl; by exists my').
  split_and!; [congruence | done | by eapply Hn].
Qed.

(** C20. A second encrypted session reuses the first one's nonce: when the
    master of an encrypted session has left and its writer has ended, the next
    session's writer can start before any handshake, under the same nonce (so
    the same keystream from its start), and then, for as long as it writes,
    whatever happens, the slot keeps the old nonces and the new control thread
    does not get past storing its own. *)
Theorem second_session_reuses_nonce (s : NonceState) (j : nat) (my peer : Z) :
  rtc nonce_step no_sessions s -> slot s = Some (my, peer) -> writers s !! j = Some (WriterEnded my) ->
  holder s = None -> Forall (fun c => c = CtlOver) (controls s) -> length (writers s) = length (controls s) ->
  exists s', rtc nonce_step s s' /\ writers s' !! j = Some (WriterEnded my) /\
    writers s' !! length (writers s) = Some (Writing my) /\ controls s' !! length (writers s) = Some Plain /\
    forall s'', rtc nonce_step s' s'' -> writers s'' !! length (writers s) = Some (Writing my) ->
      slot s'' = Some (my, peer) /\ forall m, controls s'' !! length (writers s) <> Some (Encrypted m).
Proof.
  destruct s as [sl h ws cs]. cbn [slot holder writers controls]. intros _ -> Hj -> Hcs Hlen.
  assert (Hk : (ws ++ [Polling]) !! length ws = Some Polling) by (by apply list_lookup_middle).
  assert (Hck : (cs ++ [Plain]) !! length ws = Some Plain) by (rewrite Hlen; by apply list_lookup_middle).
  assert (Hjk : j <> length ws) by (apply lookup_lt_Some in Hj; lia).
  exists (mkNonceState (Some (my, peer)) (Some (length ws)) (<[length ws := Writing my]> (ws ++ [Polling])) (cs ++ [Plain])).
  cbn [slot holder writers controls]. split_and!; [| | | done |].
  - eapply rtc_l; [by apply session_starts|]. eapply rtc_l; [by apply writer_starts|]. reflexivity.
  - rewrite list_lookup_insert_ne by done. by apply lookup_app_l_Some.
  - apply list_lookup_insert_eq. by eapply lookup_lt_Some.
  - intros s'' Hr Hw.
    assert (Hcap : captured (length ws) my peer s'').
    { eapply (rtc_preserves nonce_step (captured (length ws) my peer) (captured_step _ _ _)); [|exact Hr].
      right. cbn [slot holder writers controls]. split_and!; try done; [|intros m Hm; congruence].
      apply list_lookup_insert_eq. by eapply lookup_lt_Some. }
    destruct Hcap as [Hc|(_ & _ & H3 & H4)]; [congruence | done].
Qed.

Definition first_session_over : NonceState := mkNonceState (Some (5, 6)) None [WriterEnded 5] [CtlOver].

Lemma first_session_reachable : rtc nonce_step no_sessions first_session_over.
Proof.
  eapply rtc_l; [by apply session_starts|].
  eapply rtc_l; [eapply (handshake _ _ _ _ O _ 5 6); [done | by left]|].
  eapply rtc_l; [eapply (nonces_stored _ _ _ O 5 6); done|].
  eapply rtc_l; [eapply (writer_starts 5 6 _ _ O); done|].
  eapply rtc_l; [eapply (master_leaves _ _ _ _ O); [done | right; by exists 5]|].
  eapply rtc_l; [eapply (writer_stops _ _ _ O 5); done|]. reflexivity.
Qed.

Lemma one_encrypted_writer_witness :
  let s := mkNonceState (Some (5, 6)) (Some 1%nat) [WriterEnded 5; Writing 5] [CtlOver; Plain] in
  1%nat = 1%nat /\ holder s = Some 1%nat /\ exists peer, slot s = Some (5, peer).
Proof.
  intros s. apply (one_encrypted_writer s 1 1 5 5); try reflexivity.
  etrans; [apply first_session_reachable|].
  eapply rtc_l; [apply session_starts; by repeat constructor|].
  eapply rtc_l; [eapply (writer_starts 5 6 _ _ 1%nat); done|]. reflexivity.
Defined.

Lemma second_session_reuses_nonce_witness :
  exists s', rtc nonce_step first_session_over s' /\ writers s' !! O = Some (WriterEnded 5) /\
    writers s' !! 1%nat = Some (Writing 5) /\ controls s' !! 1%nat = Some Plain.
Proof.
  destruct (second_session_reuses_nonce first_session_over 0 5 6) as (s' & H1 & H2 & H3 & H4 & _);
    [exact first_session_reachable | reflexivity | reflexivity | reflexivity | by repeat constructor | reflexivity |].
  by exists s'.
Defined.
