(* ===== verification/ServeMulti.v ===== *)
(** * Serving a master and its slaves

    Models the setup and the master loop of [run_serve_multi] ([src/main.rs]):
    the masters follow each other, sharing the tuner, the nonces and the list
    of streams to shut down.  An iteration meets a [MasterTick]: the exit flag
    at both of its checks, what [accept] answers, whether each clone of the
    socket succeeds, the broadcast channel, and the schedule of the control
    thread it joins.  The socket is seen from the main and the control thread;
    the I/Q data a writer thread puts on it are in [Stream], and how the
    writers share the nonces in [Nonces]. *)

From S2P Require Import Prelude Bytes Io Net Ip Error Control Encryption Stream Commands Protocol Interpreter Master Args Serve.
From stdpp Require Import strings.
#[local] Open Scope Z_scope.

Section serve_multi.
Context `{StreamCipherLib} `{RtlSdrLib} `{IpNetLib} `{BroadcastLib} (io_display : ErrorKind -> string).

(** ** The setup *)

Definition serve_multi_setup (env : ServeEnv) (hex_decode : string -> res (list Z) string) (fs_read : string -> io (list Z))
    (bind_slave : string -> io (Listener env)) (args : Args)
    : res (Controller * option (list Z) * Listener env * Listener env) RtlTcpError :=
  let? ctl := map_err (fun e => Device ("could not open RTL-SDR device: " +:+ e)) (open_device env (device_index args)) in
  let? encryption_key := parse_encryption_key hex_decode fs_read io_display args in
  let? _ := map_err (fun e => Config ("could not set signal handler: " +:+ e)) (set_handler env) in
  let? master_listener := bind_master_port env args in
  match slave_port args with
  | Some slave_port =>
    let? slave_listener := map_err from_io (bind_slave (address args +:+ ":" +:+ u16_to_string slave_port)%string) in
    Ok (ctl, encryption_key, master_listener, slave_listener)
  | None => Panic
  end.

(** ** The master loop *)

Inductive MasterAccept : Type :=
| MasterConnected (fd : nat) (stream : TcpStream) (addr : IpAddr)
| MasterAcceptErr (e : ErrorKind).

Record MasterTick : Type := mkMasterTick {
  exit_before : bool;
  master_accept : MasterAccept;
  clones : nat -> io unit;
  master_tx : Chan;
  clock : Z * Z * Z;
  ctl_ticks : list Tick;
  exit_after : bool
}.

Record MultiServer : Type := mkMultiServer {
  server_tuner : Tuner;
  server_streams : Mutex (list nat);
  server_nonces : option (list Z * list Z);
  subscribers : list (nat * Receiver)
}.

Inductive LoopEnd : Type :=
| Looped
| LoopBreak
| LoopFailed (e : RtlTcpError)
| LoopPanic
| LoopJoining.

Definition on_stream {A} (c : res A RtlTcpError * TcpStream) (s : MultiServer) : res A RtlTcpError * (TcpStream * MultiServer) :=
  (fst c, (snd c, s)).
Definition pure {A} (r : res A RtlTcpError) (p : TcpStream * MultiServer) : res A RtlTcpError * (TcpStream * MultiServer) := (r, p).

(** From the accepted connection to the start of its control thread. *)
Definition master_setup (args : Args) (fd : nat) (addr : IpAddr) (clones : nat -> io unit) (tx : Chan)
    (p : TcpStream * MultiServer) : res unit RtlTcpError * (TcpStream * MultiServer) :=
  let client_ip := ip_to_string (to_canonical addr) in
  let? _ @ p := pure (check_whitelist client_ip (whitelist args)) p in
  let? _ @ p := on_stream (lift_io (set_read_timeout (fst p) (from_secs (read_timeout args)))) (snd p) in
  let? _ @ p := on_stream (lift_io (set_write_timeout (fst p) (from_secs (write_timeout args)))) (snd p) in
  if poisoned (server_streams (snd p)) then (Panic, p)
  else
    let? _ @ p := pure (map_err from_io (clones 0%nat)) p in
    let s := snd p in
    let s := mkMultiServer (server_tuner s) (mkMutex (guarded (server_streams s) ++ [fd]) false) (server_nonces s) (subscribers s) in
    let mrx := subscribe tx in
    let? _ @ p := pure (map_err from_io (clones 1%nat)) (fst p, s) in
    let s := snd p in
    let s := mkMultiServer (server_tuner s) (server_streams s) (server_nonces s) (subscribers s ++ [(fd, mrx)]) in
    let? _ @ p := pure (map_err from_io (clones 2%nat)) (fst p, s) in
    let '(r, b) := send_magic (Z.to_nat (tcp_buffers args)) (fst p) in
    let? _ @ p := on_stream (r, inner b) (snd p) in
    pure (map_err from_io (clones 3%nat)) p.

(** The session: the control thread and its join. *)
Definition master_session (args : Args) (key : option (list Z)) (tick : MasterTick) (stream : TcpStream) (s : MultiServer)
    : Flow * MasterSession :=
  let '(epoch, t0, t1) := clock tick in
  master_control_thread key (from_secs (read_timeout args)) epoch t0 t1 (ctl_ticks tick) stream (server_tuner s) (server_nonces s).

Definition serve_multi_iteration (args : Args) (key : option (list Z)) (tick : MasterTick) (s : MultiServer)
    : LoopEnd * MultiServer :=
  if exit_before tick then (LoopBreak, s)
  else
    match master_accept tick with
    | MasterAcceptErr WouldBlock => (Looped, s)
    | MasterAcceptErr e => (LoopFailed (Network ("master accept error: " +:+ io_display e)), s)
    | MasterConnected fd stream addr =>
      match master_setup args fd addr (clones tick) (master_tx tick) (stream, s) with
      | (Ok _, (stream, s)) =>
        let '(flow, m) := master_session args key tick stream s in
        let s := mkMultiServer (tuner (session m)) (server_streams s) (encryption_nonces m) (subscribers s) in
        match flow with
        | Continue | Blocked => (LoopJoining, s)
        | Break _ | Panicked => if exit_after tick then (LoopBreak, s) else (Looped, s)
        end
      | (Err e, (_, s)) => (LoopFailed e, s)
      | (Panic, (_, s)) => (LoopPanic, s)
      | (Diverged, (_, s)) => (LoopJoining, s)
      end
    end.

Fixpoint serve_multi_loop (args : Args) (key : option (list Z)) (ticks : list MasterTick) (s : MultiServer)
    : LoopEnd * MultiServer :=
  match ticks with
  | [] => (Looped, s)
  | tick :: rest =>
    match serve_multi_iteration args key tick s with
    | (Looped, s') => serve_multi_loop args key rest s'
    | stop => stop
    end
  end.

(** ** Lemmas *)

Lemma master_setup_ok args fd addr clones ch (st : TcpStream) (s : MultiServer) :
  check_whitelist (ip_to_string (to_canonical addr)) (whitelist args) = Ok tt ->
  0 < read_timeout args -> 0 < write_timeout args -> poisoned (server_streams s) = false ->
  (forall i, clones i = Ok tt) -> accepts st ->
  exists st', master_setup args fd addr clones ch (st, s) = (Ok tt, (st',
      mkMultiServer (server_tuner s) (mkMutex (guarded (server_streams s) ++ [fd]) false) (server_nonces s)
        (subscribers s ++ [(fd, subscribe ch)]))) /\
    sent st' = sent st ++ MAGIC_PACKET /\ rx st' = rx st /\ accepts st'.
Proof.
  intros Hw Hr Hwt Hp Hc Ha. unfold master_setup. cbv zeta. rewrite Hw. cbn [pure bind_st fst snd].
  unfold set_read_timeout, set_write_timeout, from_secs. destruct (Z.eqb_spec (read_timeout args * 1000000000) 0); [lia|].
  cbn [on_stream lift_io bind_st fst snd map_err].
  destruct (Z.eqb_spec (write_timeout args * 1000000000) 0); [lia|].
  cbn [on_stream lift_io bind_st fst snd map_err]. rewrite Hp, !Hc. cbn [pure bind_st fst snd map_err].
  destruct (send_magic_accepts (Z.to_nat (tcp_buffers args)) (mkTcp (rx st) (tx st) (sent st)
    (Some (read_timeout args * 1000000000)) (Some (write_timeout args * 1000000000))) Ha) as (b & E & (Hs & Hrx & _) & Ha').
  cbn [Net.rx Net.tx Net.sent Net.rto Net.wto] in *. rewrite E. cbn [on_stream bind_st fst snd pure map_err].
  by exists (inner b).
Qed.

Lemma master_setup_tuner args fd addr clones ch p :
  server_tuner (snd (snd (master_setup args fd addr clones ch p))) = server_tuner (snd p).
Proof.
  unfold master_setup. cbv zeta. destruct p as [st s].
  destruct (check_whitelist _ _); cbn [pure bind_st fst snd]; try done.
  destruct (lift_io (set_read_timeout _ _)) as [[] st1]; cbn [on_stream bind_st fst snd]; try done.
  destruct (lift_io (set_write_timeout _ _)) as [[] st2]; cbn [on_stream bind_st fst snd]; try done.
  destruct (poisoned _); [done|].
  destruct (clones 0%nat); cbn [pure bind_st fst snd map_err]; try done.
  destruct (clones 1%nat); cbn [pure bind_st fst snd map_err]; try done.
  destruct (clones 2%nat); cbn [pure bind_st fst snd map_err]; try done.
  by destruct (send_magic _ _) as [[] b].
Qed.

Lemma serve_multi_iteration_kept I args key tick s :
  kept I -> holds I (server_tuner s) -> holds I (server_tuner (snd (serve_multi_iteration args key tick s))).
Proof.
  intros HI Hs. unfold serve_multi_iteration. destruct (exit_before tick); [done|].
  destruct (master_accept tick) as [fd st addr|e]; [|by destruct e].
  pose proof (master_setup_tuner args fd addr (clones tick) (master_tx tick) (st, s)) as E.
  destruct (master_setup _ _ _ _ _ _) as [r [st1 s1]]. cbn [snd] in E.
  destruct r as [[]|e| |]; cbn [snd]; try (by rewrite E).
  unfold master_session. destruct (clock tick) as [[epoch t0] t1]. unfold master_control_thread.
  set (m0 := mkMaster _ _ _ _).
  assert (Hm : holds I (tuner (session (snd (control_loop (master_iteration key) (ctl_ticks tick) m0))))).
  { apply (control_loop_invariant (master_iteration key) (fun m => holds I (tuner (session m)))).
    - intros t m Hm. by apply master_iteration_kept.
    - unfold m0. cbn [session tuner]. by rewrite E. }
  destruct (control_loop _ _ m0) as [flow m]. cbn [snd] in Hm. destruct flow; try done; by destruct (exit_after tick).
Qed.

(** ** Properties *)

(** C1. Whatever masters connect, in any number and with or without a key, and
    whatever they send, the tuner never gets a request outside the documented
    ranges. *)
Theorem multi_keeps_limits (I : Controller -> Prop) (args : Args) (key : option (list Z)) (ticks : list MasterTick) (s : MultiServer) :
  kept I -> I (guarded (ctl (server_tuner s))) ->
  I (guarded (ctl (server_tuner (snd (serve_multi_loop args key ticks s))))).
Proof.
  intros HI. revert s; induction ticks as [|tick ticks IH]; intros s Hs; [done|]. cbn [serve_multi_loop].
  pose proof (serve_multi_iteration_kept I args key tick s HI Hs) as Hkept.
  destruct (serve_multi_iteration args key tick s) as [[] s1]; try done. by apply IH.
Qed.

(** A master's visit: a master that passes the whitelist is registered,
    subscribed, sent the magic packet, and has its commands executed from the
    tuner's present state, with a fresh rate limiter, until it disconnects;
    then the loop goes on with the tuner as its commands left it. *)
Theorem master_visit (args : Args) (tick : MasterTick) (fd : nat) (st : TcpStream) (addr : IpAddr)
    (epoch t0 t1 : Z) (cmds : list Command) (cticks : list Tick) (last : Tick) (tail : list Z) (s : MultiServer) :
  exit_before tick = false -> exit_after tick = false -> master_accept tick = MasterConnected fd st addr ->
  (forall i, clones tick i = Ok tt) -> clock tick = (epoch, t0, t1) -> ctl_ticks tick = cticks ++ [last] ->
  check_whitelist (ip_to_string (to_canonical addr)) (whitelist args) = Ok tt ->
  0 < read_timeout args -> 0 < write_timeout args -> poisoned (server_streams s) = false ->
  length cticks = length cmds -> Forall command_ok cmds -> Forall (fun t => exit_flag t = false) cticks ->
  accepts st -> yields st (concat (map encode cmds) ++ tail) -> (length tail < COMMAND_HEADER_SIZE)%nat ->
  serve_multi_iteration args None tick s = (Looped, mkMultiServer
    (m_tuner (receive_all (zip (map now cticks) cmds)
       (mkMachine (rate_limiter_new epoch t0 t1 COMMAND_RATE_LIMIT_INTERVAL) (server_tuner s) 0 (sent st ++ MAGIC_PACKET))))
    (mkMutex (guarded (server_streams s) ++ [fd]) false) (server_nonces s) (subscribers s ++ [(fd, subscribe (master_tx tick))])).
Proof.
  intros Hb Hafter Hacc Hcl Hclock Hticks Hw Hr Hwt Hp Hl Hok Hex Ha Hy Ht.
  unfold serve_multi_iteration. rewrite Hb, Hacc, Hafter.
  destruct (master_setup_ok args fd addr (clones tick) (master_tx tick) st s Hw Hr Hwt Hp Hcl Ha) as (st1 & -> & Hs1 & Hrx1 & Ha1).
  unfold master_session. rewrite Hclock. unfold master_control_thread. rewrite Hticks, master_loop_plain.
  unfold set_read_timeout, from_secs. destruct (Z.eqb_spec (read_timeout args * 1000000000) 0); [lia|]. cbn [snd server_tuner server_nonces].
  set (s0 := mkSession _ _ _ _).
  assert (Hy1 : yields (stream s0) (concat (map encode cmds) ++ tail)) by (unfold s0; simpl in *; by rewrite Hrx1).
  destruct (control_loop_disconnects cticks last cmds tail s0 Hl Hok Hex Ha1 Hy1 Ht) as (s2 & E & Habs).
  rewrite E. cbn [fst snd session encryption_nonces server_streams subscribers]. do 2 f_equal.
  unfold s0 in Habs. unfold abs at 2 in Habs. cbn [stream rate_limiter tuner unknown_command_count Net.sent] in Habs.
  by rewrite <- Hs1, <- Habs.
Qed.

(** A master that is not on the whitelist does not just get refused: it
    ends the whole server with a network error, slaves included; nothing is
    sent to it and the tuner is left alone. *)
Theorem refused_master_stops_server (args : Args) (key : option (list Z)) (tick : MasterTick) (rest : list MasterTick)
    (fd : nat) (st : TcpStream) (addr : IpAddr) (s : MultiServer) :
  exit_before tick = false -> master_accept tick = MasterConnected fd st addr ->
  check_whitelist (ip_to_string (to_canonical addr)) (whitelist args) <> Ok tt ->
  serve_multi_loop args key (tick :: rest) s =
    (LoopFailed (Network "connection rejected: IP not in whitelist"), s).
Proof.
  intros Hb Hacc Hw. cbn [serve_multi_loop]. unfold serve_multi_iteration. rewrite Hb, Hacc.
  unfold master_setup. cbv zeta. unfold check_whitelist in *.
  destruct (bool_decide (whitelist args = [])); [done|]. by destruct (is_ip_in_whitelist _ _).
Qed.

End serve_multi.

Section witnesses.
#[local] Existing Instance ten_net.
#[local] Existing Instance list_broadcast.
#[local] Existing Instance log_tuner.
#[local] Existing Instance toy_cipher.

Definition multi_args : Args := mkArgs "serve" "0.0.0.0" 1234 (Some 1235) 10 None None None 0 15 16 30 30 ["10.0.0.0/8"].
Definition fresh_server : MultiServer := mkMultiServer (mkTuner (mkMutex [] false) agc_new) (mkMutex [] false) None [].
Definition visit (bytes : list Z) (addr : IpAddr) : MasterTick :=
  mkMasterTick false (MasterConnected 3 (mkTcp [Data bytes] [Accept 4] [] None None) addr) (fun _ => Ok tt)
    (mkListChan [] 64 false) (0, from_secs 1, from_secs 1)
    (map (fun t => tick_at (from_secs 1 + from_millis t) false) [1; 60; 61]) false.
Definition no_text (e : ErrorKind) : string := "".

Lemma multi_keeps_limits_witness :
  let s := snd (serve_multi_loop no_text multi_args (Some [1]) [visit [1; 255; 255; 255; 255] (V4 10 0 0 1); visit [5; 0; 0; 0; 4] (V4 10 0 0 2)] fresh_server) in
  log_ok (guarded (ctl (server_tuner s))).
Proof.
  intros s. apply (@multi_keeps_limits toy_cipher log_tuner ten_net list_broadcast no_text log_ok multi_args (Some [1])
    [visit [1; 255; 255; 255; 255] (V4 10 0 0 1); visit [5; 0; 0; 0; 4] (V4 10 0 0 2)] fresh_server).
  - exact log_ok_kept.
  - constructor.
Defined.

Lemma master_visit_witness :
  let cmds := [SetFrequency 5000; SetPpm 201] in
  let tick := visit (concat (map encode cmds)) (V4 10 0 0 1) in
  serve_multi_iteration no_text multi_args None tick fresh_server =
    (Looped, mkMultiServer (mkTuner (mkMutex [TuneTo 5000] false) agc_new) (mkMutex [3%nat] false) None [(3%nat, O)]).
Proof.
  intros cmds tick.
  apply (master_visit no_text multi_args tick 3 (mkTcp [Data (concat (map encode cmds))] [Accept 4] [] None None) (V4 10 0 0 1)
    0 (from_secs 1) (from_secs 1) cmds (map (fun t => tick_at (from_secs 1 + from_millis t) false) [1; 60])
    (tick_at (from_secs 1 + from_millis 61) false) [] fresh_server); try reflexivity.
  - repeat constructor; by vm_compute.
  - by repeat constructor.
  - repeat constructor.
  - split; [|reflexivity]. by repeat constructor.
  - unfold COMMAND_HEADER_SIZE. simpl. lia.
Defined.

Lemma refused_master_stops_server_witness :
  serve_multi_loop no_text multi_args None [visit [] (V4 192 168 0 1); visit [] (V4 10 0 0 1)] fresh_server =
    (LoopFailed (Network "connection rejected: IP not in whitelist"), fresh_server).
Proof.
  apply (refused_master_stops_server no_text multi_args None (visit [] (V4 192 168 0 1)) [visit [] (V4 10 0 0 1)] 3
    (mkTcp [Data []] [Accept 4] [] None None) (V4 192 168 0 1) fresh_server).
  - reflexivity.
  - reflexivity.
  - by vm_compute.
Defined.

End witnesses.
