(* ===== verification/Server.v ===== *)
(** * The multi-client server as a whole

    The threads of [run_serve_multi] ([src/main.rs], without a key) over what
    they share: the device's callback, the slave acceptor ([Acceptor]), the
    master loop ([ServeMulti]) with the control thread it joins ([Master]), and
    the writer of every client ([Fanout]).  A run is a sequence of turns in any
    order; a turn is one iteration of a thread's loop, so a socket is shared by
    its writer and the control thread turn by turn (how their writes mix inside
    a turn is in [Opening]; the threads' end after a signal in [Shutdown]). *)

From S2P Require Import Prelude Bytes Io Net Ip Error Control Encryption Stream Commands Protocol Interpreter Master Args Serve Fanout Acceptor ServeMulti.
From stdpp Require Import gmap relations strings.
#[local] Open Scope Z_scope.

(** ** Two writers on one socket *)

(** [merged l r m]: [m] has the elements of [l] and those of [r], each in order. *)
Inductive merged {A} : list A -> list A -> list A -> Prop :=
| merged_nil : merged [] [] []
| merged_left x l r m : merged l r m -> merged (x :: l) r (x :: m)
| merged_right x l r m : merged l r m -> merged l (x :: r) (x :: m).

Lemma merged_app {A} (l r m l' r' m' : list A) : merged l r m -> merged l' r' m' -> merged (l ++ l') (r ++ r') (m ++ m').
Proof. intros Hm Hm'. induction Hm; cbn [app]; [done | by constructor..]. Qed.

Lemma merged_only_left {A} (l : list A) : merged l [] l.
Proof. induction l; by constructor. Qed.

Lemma merged_only_right {A} (r : list A) : merged [] r r.
Proof. induction r; by constructor. Qed.

Lemma merged_more_left {A} (l r m p : list A) : merged l r m -> merged (l ++ p) r (m ++ p).
Proof. intros Hm. rewrite <- (app_nil_r r). by apply merged_app; [|apply merged_only_left]. Qed.

Lemma merged_more_right {A} (l r m p : list A) : merged l r m -> merged l (r ++ p) (m ++ p).
Proof. intros Hm. rewrite <- (app_nil_r l). by apply merged_app; [|apply merged_only_right]. Qed.

Lemma merged_nil_right {A} (l m : list A) : merged l [] m -> m = l.
Proof. remember [] as r eqn:Er. induction 1; [done | by rewrite IHmerged | done]. Qed.

Section server.
Context `{StreamCipherLib} `{RtlSdrLib} `{IpNetLib} `{BroadcastLib} (io_display : ErrorKind -> string) (args : Args).

(** [net] holds the channel, the exit flag and every client's socket and
    writer; [shared] the tuner, the streams to shut down; [visit] the master
    whose control thread the main thread joins; [main_at] where that is. *)
Record Server : Type := mkServer {
  net : Fanout;
  shared : MultiServer;
  admission : Acceptor;
  admission_end : option AcceptorStop;
  visit : option (nat * Session);
  main_at : LoopEnd
}.

Inductive ServerEvent : Type :=
| DeviceBlock (block : list Z)
| WriterTurn (id : nat)
| Signal
| SlaveTurn (answer : SlaveAccept)
| MasterTurn (answer : MasterAccept) (clones : nat -> io unit) (clock : Z * Z * Z)
| ControlTurn (now : Z).

Definition with_net (s : Server) (n : Fanout) : Server :=
  mkServer n (shared s) (admission s) (admission_end s) (visit s) (main_at s).
Definition with_main (s : Server) (at_ : LoopEnd) : Server :=
  mkServer (net s) (shared s) (admission s) (admission_end s) (visit s) at_.

(** Connections are numbered; a number is used once. *)
Definition known (fd : nat) (s : Server) : bool := bool_decide (is_Some (clients (net s) !! fd)).

(** A slave the acceptor lets in gets its writer. *)
Definition start_writer (n : Fanout) (sl : Slave) : Fanout := fan_event (Arrive (slave_fd sl) (slave_stream sl)) n.

Definition slave_turn (answer : SlaveAccept) (s : Server) : Server :=
  match admission_end s with
  | Some _ => s
  | None =>
    if match answer with SlaveAccepted fd _ _ _ _ => known fd s | SlaveAcceptErr _ => false end then s
    else
      let a := mkAcceptor (count (admission s)) (server_streams (shared s)) (slaves (admission s)) in
      let '(stop, a') := acceptor_iteration MAGIC_PACKET (whitelist args) (max_slaves args) (Z.to_nat (tcp_buffers args))
        (mkSlaveTick (fan_exit (net s)) answer (fan_tx (net s))) a in
      mkServer (fold_left start_writer (drop (length (slaves a)) (slaves a')) (net s))
        (mkMultiServer (server_tuner (shared s)) (all_streams a') (server_nonces (shared s)) (subscribers (shared s)))
        a' stop (visit s) (main_at s)
  end.

(** The master loop up to the start of the control thread. *)
Definition master_turn (answer : MasterAccept) (clones : nat -> io unit) (clock : Z * Z * Z) (s : Server) : Server :=
  match main_at s, visit s with
  | Looped, None =>
    if fan_exit (net s) then with_main s LoopBreak
    else
      match answer with
      | MasterAcceptErr WouldBlock => s
      | MasterAcceptErr e => with_main s (LoopFailed (Network ("master accept error: " +:+ io_display e)))
      | MasterConnected fd st addr =>
        if known fd s then s
        else
          let '(r, (st, sh)) := master_setup args fd addr clones (fan_tx (net s)) (st, shared s) in
          let s := mkServer (net s) sh (admission s) (admission_end s) None Looped in
          match r with
          | Ok _ =>
            let '(epoch, t0, t1) := clock in
            let st := snd (set_read_timeout st (from_secs (read_timeout args))) in
            let session := mkSession st (rate_limiter_new epoch t0 t1 COMMAND_RATE_LIMIT_INTERVAL) (server_tuner sh) 0 in
            mkServer (fan_event (Arrive fd st) (net s)) sh (admission s) (admission_end s) (Some (fd, session)) Looped
          | Err e => with_main s (LoopFailed e)
          | Panic => with_main s LoopPanic
          | Diverged => with_main s LoopJoining
          end
      end
  | _, _ => s
  end.

(** One iteration of the control thread, on the socket it shares with the
    writer; when the thread ends, the main thread goes on. *)
Definition control_turn (now : Z) (s : Server) : Server :=
  match main_at s, visit s with
  | Looped, Some (fd, session) =>
    match clients (net s) !! fd with
    | Some (mkClient st rcv stop) =>
      let tick := mkTick (fan_exit (net s)) now [] true in
      let '(flow, m) := master_iteration None tick (mkMaster (with_stream session st) None None (server_nonces (shared s))) in
      let n := mkFanout (fan_tx (net s)) (fan_exit (net s)) (<[fd := mkClient (stream (Master.session m)) rcv stop]> (clients (net s))) in
      match flow with
      | Continue => mkServer n (shared s) (admission s) (admission_end s) (Some (fd, Master.session m)) Looped
      | Blocked => mkServer n (shared s) (admission s) (admission_end s) (Some (fd, Master.session m)) LoopJoining
      | Break _ | Panicked =>
        let sh := mkMultiServer (tuner (Master.session m)) (server_streams (shared s)) (encryption_nonces m) (subscribers (shared s)) in
        mkServer n sh (admission s) (admission_end s) None (if fan_exit (net s) then LoopBreak else Looped)
      end
    | None => s
    end
  | _, _ => s
  end.

(** The process ends with its main thread. *)
Definition over (s : Server) : bool :=
  match main_at s with LoopFailed _ | LoopPanic => true | _ => false end.

Definition server_event (e : ServerEvent) (s : Server) : Server :=
  if over s then s
  else
    match e with
    | DeviceBlock block => with_net s (fan_event (Publish block) (net s))
    | WriterTurn id => with_net s (fan_event (Poll id) (net s))
    | Signal => with_net s (fan_event RequestExit (net s))
    | SlaveTurn answer => slave_turn answer s
    | MasterTurn answer clones clock => master_turn answer clones clock s
    | ControlTurn now => control_turn now s
    end.

Fixpoint server_run (events : list ServerEvent) (s : Server) : Server :=
  match events with
  | [] => s
  | e :: events => server_run events (server_event e s)
  end.

(** The threads as [run_serve_multi] starts them. *)
Definition server_start (ctl : Controller) : Server :=
  mkServer (fan_start DEFAULT_BROADCAST_CAPACITY)
    (mkMultiServer (mkTuner (mkMutex ctl false) agc_new) (mkMutex [] false) None [])
    (acceptor_start (mkMutex [] false)) None None Looped.

(** The tuner, wherever it is. *)
Definition tuner_of (s : Server) : Tuner :=
  match visit s with Some (_, session) => tuner session | None => server_tuner (shared s) end.

End server.

(** ** Lemmas: one turn of a thread *)

Section turns.
Context `{StreamCipherLib} `{RtlSdrLib} `{IpNetLib} `{BroadcastLib}.

(** A writer leaves what its client sends alone. *)
Lemma client_step_frame b ch (st st' : TcpStream) rcv rcv' stop :
  accepts st -> client_step b ch st rcv = (stop, st', rcv') ->
  accepts st' /\ rx st' = rx st /\ exists part, sent st' = sent st ++ part.
Proof.
  intros Ha. assert (Hno : exists part, sent st = sent st ++ part) by (exists []; by rewrite app_nil_r).
  unfold client_step. destruct b; [by intros [= <- <- <-]|].
  destruct (try_recv ch rcv) as [[buf| | |n] r1]; try by intros [= <- <- <-].
  destruct (write_all_tcp st buf Ha) as (st1 & -> & Hs & Hr & Ha1 & _). intros [= <- <- <-]. split_and!; [done | done | by exists buf].
Qed.

(** The exit flag ends it before it writes. *)
Lemma client_step_exits ch (st : TcpStream) rcv : client_step true ch st rcv = (Some ExitFlag, st, rcv).
Proof. done. Qed.

(** The control thread writes whole acknowledgements, none once it has seen
    the flag. *)
Lemma single_iteration_writes tick s flow s' :
  accepts (stream s) -> single_iteration tick s = (flow, s') ->
  accepts (stream s') /\
  (sent (stream s') = sent (stream s) \/ (exit_flag tick = false /\ sent (stream s') = sent (stream s) ++ CHAIN_ACK)) /\
  (exit_flag tick = true -> tuner s' = tuner s).
Proof.
  intros Ha. unfold single_iteration. destruct (read_exact (stream s) COMMAND_HEADER_SIZE) as [q st] eqn:Er.
  destruct (read_exact_sent _ _ _ _ Er) as [Hs Ht]. assert (Hast : accepts st) by (simpl in *; by rewrite Ht).
  destruct q as [buf|e| |]; cbv zeta;
    [|intros [= <- <-]; cbn [stream with_stream tuner]; (split; [done | split; [by left | done]])..].
  destruct (exit_flag tick); [intros [= <- <-]; cbn [stream with_stream tuner]; (split; [done | split; [by left | done]])|].
  destruct (rate_limiter_check _ _) as [[] rl];
    [|intros [= <- <-]; cbn [stream with_stream with_limiter]; (split; [done | split; [by left | done]])].
  intros [= <- <-]. unfold single_dispatch. cbv zeta. cbn [tuner with_limiter with_stream].
  destruct (device_command _ _ _); [cbn [stream with_tuner with_limiter with_stream]; (split; [done | split; [by left | done]])|].
  destruct (_ =? CMD_CHAIN_DETECT); [|cbn [stream count_unknown with_limiter with_stream]; (split; [done | split; [by left | done]])].
  cbn [stream with_limiter with_stream].
  destruct (write_all_tcp st CHAIN_ACK Hast) as (st1 & -> & Hs1 & _ & Ha1 & _). cbn [snd stream].
  split; [done|]. split; [right; by rewrite Hs1, Hs | done].
Qed.

(** The acceptor's turn: nobody let in, or one slave. *)
Lemma acceptor_turn magic wl max tcp tick a stop a' :
  acceptor_iteration magic wl max tcp tick a = (stop, a') ->
  (slaves a' = slaves a /\ count a' = count a /\ guarded (all_streams a) `prefix_of` guarded (all_streams a')) \/
  (exists fd st addr, slave_exit tick = false /\ (count a < max)%nat /\ slave_accept tick = SlaveAccepted fd st addr true true /\
     check_whitelist (ip_to_string (to_canonical addr)) wl = Ok tt /\
     a' = mkAcceptor (S (count a)) (mkMutex (guarded (all_streams a) ++ [fd]) false)
       (slaves a ++ [mkSlave fd addr (greet magic tcp (snd (set_write_timeout st (from_secs 30)))) (subscribe (slave_tx tick))])).
Proof.
  unfold acceptor_iteration. destruct (slave_exit tick); [intros [= <- <-]; left; by split_and!|].
  destruct (Nat.leb_spec max (count a)) as [|Hlt]; [intros [= <- <-]; left; by split_and!|].
  destruct (slave_accept tick) as [fd st addr c1 c2|e]; [|intros [= <- <-]; left; by split_and!]. cbv zeta.
  destruct (check_whitelist (ip_to_string (to_canonical addr)) wl) as [[]|e| |] eqn:Ew; cbn [is_ok negb];
    [|intros [= <- <-]; left; by split_and!..].
  destruct (poisoned (all_streams a)); [intros [= <- <-]; left; by split_and!|].
  destruct c1; [|intros [= <- <-]; left; by split_and!]. cbn [negb].
  destruct c2; [|intros [= <- <-]; left; split_and!; cbn; try done; by eexists]. cbn [negb].
  intros [= <- <-]. right. by exists fd, st, addr.
Qed.

(** The master's setup: what it leaves when it succeeds. *)
Lemma master_setup_done args fd addr clones ch (st st' : TcpStream) (sh sh' : MultiServer) :
  master_setup args fd addr clones ch (st, sh) = (Ok tt, (st', sh')) -> accepts st ->
  check_whitelist (ip_to_string (to_canonical addr)) (whitelist args) = Ok tt /\
  sh' = mkMultiServer (server_tuner sh) (mkMutex (guarded (server_streams sh) ++ [fd]) false) (server_nonces sh)
    (subscribers sh ++ [(fd, subscribe ch)]) /\
  sent st' = sent st ++ MAGIC_PACKET /\ rx st' = rx st /\ accepts st'.
Proof.
  intros E Ha. revert E. unfold master_setup. cbv zeta.
  destruct (check_whitelist _ _) as [[]|e| |]; cbn [pure bind_st fst snd]; [|discriminate..].
  unfold set_read_timeout, set_write_timeout. destruct (from_secs (read_timeout args) =? 0); [discriminate|].
  cbn [on_stream lift_io bind_st fst snd map_err]. destruct (from_secs (write_timeout args) =? 0); [discriminate|].
  cbn [on_stream lift_io bind_st fst snd map_err]. destruct (poisoned (server_streams sh)); [discriminate|].
  destruct (clones 0%nat) as [[]|e| |]; cbn [pure bind_st fst snd map_err]; [|discriminate..].
  destruct (clones 1%nat) as [[]|e| |]; cbn [pure bind_st fst snd map_err]; [|discriminate..].
  destruct (clones 2%nat) as [[]|e| |]; cbn [pure bind_st fst snd map_err]; [|discriminate..].
  destruct (send_magic_accepts (Z.to_nat (tcp_buffers args)) (mkTcp (rx st) (tx st) (sent st)
    (Some (from_secs (read_timeout args))) (Some (from_secs (write_timeout args)))) Ha) as (b & Eb & (Hs & Hrx & _) & Ha').
  cbn [Net.rx Net.tx Net.sent Net.rto Net.wto] in *. rewrite Eb. cbn [on_stream bind_st fst snd pure map_err].
  destruct (clones 3%nat) as [[]|e| |]; cbn [map_err]; [|discriminate..]. intros [= <- <-]. done.
Qed.

(** Whatever becomes of it, the streams to shut down stay registered. *)
Lemma master_setup_registers args fd addr clones ch (st : TcpStream) (sh : MultiServer) :
  let sh' := snd (snd (master_setup args fd addr clones ch (st, sh))) in
  guarded (server_streams sh) `prefix_of` guarded (server_streams sh') /\ server_tuner sh' = server_tuner sh.
Proof.
  cbv zeta. split; [|apply (master_setup_tuner args fd addr clones ch (st, sh))].
  unfold master_setup. cbv zeta.
  destruct (check_whitelist _ _); cbn [pure bind_st fst snd]; try done.
  destruct (lift_io (set_read_timeout _ _)) as [[] st1]; cbn [on_stream bind_st fst snd]; try done.
  destruct (lift_io (set_write_timeout _ _)) as [[] st2]; cbn [on_stream bind_st fst snd]; try done.
  destruct (poisoned _); [done|].
  destruct (clones 0%nat); cbn [pure bind_st fst snd map_err]; try done.
  destruct (clones 1%nat); cbn [pure bind_st fst snd map_err server_streams guarded]; try (by eexists).
  destruct (clones 2%nat); cbn [pure bind_st fst snd map_err server_streams guarded]; try (by eexists).
  destruct (send_magic _ _) as [[] b]; cbn [on_stream bind_st fst snd server_streams guarded pure]; by eexists.
Qed.

(** A turn of the control thread is one of [single_iteration], on the socket
    as its writer left it. *)
Lemma control_turn_spec now s :
  control_turn now s = s \/
  exists fd ss st rcv stop ss' flow, main_at s = Looped /\ visit s = Some (fd, ss) /\
    clients (net s) !! fd = Some (mkClient st rcv stop) /\
    single_iteration (mkTick (fan_exit (net s)) now [] true) (with_stream ss st) = (flow, ss') /\
    control_turn now s = mkServer
      (mkFanout (fan_tx (net s)) (fan_exit (net s)) (<[fd := mkClient (stream ss') rcv stop]> (clients (net s))))
      (match flow with
       | Continue | Blocked => shared s
       | _ => mkMultiServer (tuner ss') (server_streams (shared s)) (server_nonces (shared s)) (subscribers (shared s))
       end) (admission s) (admission_end s)
      (match flow with Continue | Blocked => Some (fd, ss') | _ => None end)
      (match flow with Continue => Looped | Blocked => LoopJoining | _ => if fan_exit (net s) then LoopBreak else Looped end).
Proof.
  unfold control_turn. destruct (main_at s) eqn:Em; try by left. destruct (visit s) as [[fd ss]|] eqn:Ev; [|by left].
  destruct (clients (net s) !! fd) as [[st rcv stop]|] eqn:Ec; [|by left]. right. cbv zeta. rewrite master_iteration_plain.
  destruct (single_iteration _ _) as [flow ss'] eqn:Es. cbn [fst snd Master.session encryption_nonces].
  exists fd, ss, st, rcv, stop, ss', flow. do 4 (split; [done|]). by destruct flow.
Qed.

(** Who is a client after an event. *)
Lemma fan_event_known e n i :
  is_Some (clients (fan_event e n) !! i) -> is_Some (clients n !! i) \/ exists st, e = Arrive i st.
Proof.
  destruct e as [block|id st|id|]; cbn [fan_event]; try (by left).
  - destruct (clients n !! id) eqn:E; [by left|]. cbn [clients]. destruct (decide (id = i)) as [->|]; [right; by eexists|].
    rewrite lookup_insert_ne by done. by left.
  - destruct (clients n !! id) as [[st rcv [stop|]]|] eqn:E; try by left.
    destruct (client_step _ _ _ _) as [[stop st'] rcv']. cbn [clients]. destruct (decide (id = i)) as [->|].
    + intros _. left. by rewrite E.
    + rewrite lookup_insert_ne by done. by left.
Qed.

End turns.

(** ** Lemmas: the data of the clients *)

Section distribution.
Context `{StreamCipherLib} `{RtlSdrLib} `{IpNetLib} `{BroadcastLib} (io_display : ErrorKind -> string) (args : Args).
Abbreviation server_event := (server_event io_display args).
Abbreviation server_run := (server_run io_display args).

(** Connections as they are accepted: nothing sent yet, and taking writes. *)
Definition fresh (e : ServerEvent) : Prop :=
  match e with
  | SlaveTurn (SlaveAccepted _ st _ _ _) | MasterTurn (MasterConnected _ st _) _ _ => sent st = [] /\ accepts st
  | _ => True
  end.

Definition master_id (e : ServerEvent) : option nat :=
  match e with MasterTurn (MasterConnected fd _ _) _ _ => Some fd | _ => None end.
Definition master_ids (events : list ServerEvent) : list nat := omap master_id events.

Definition device_block (e : ServerEvent) : option (list Z) := match e with DeviceBlock block => Some block | _ => None end.
Definition device_blocks (events : list ServerEvent) : list (list Z) := omap device_block events.

(** The writer of client [i] never falls behind what the channel retains. *)
Definition keeping_up_at (i : nat) (e : ServerEvent) (s : Server) : Prop :=
  match e with WriterTurn j => keeps_up_at i (Poll j) (net s) | _ => True end.
Fixpoint keeping_up (i : nat) (events : list ServerEvent) (s : Server) : Prop :=
  match events with
  | [] => True
  | e :: events => keeping_up_at i e s /\ keeping_up i events (server_event e s)
  end.

(** What is on a client's socket: the magic packet, then its data, among which
    acknowledgements if it is a master that probed. *)
Definition wire (masters : list nat) (i : nat) (o g w : list Z) : Prop :=
  o = MAGIC_PACKET /\ exists n t, w = o ++ t /\ merged g (concat (replicate n CHAIN_ACK)) t /\ (i ∉ masters -> n = 0%nat).

Lemma wire_more masters i o g w part : wire masters i o g w -> wire masters i o (g ++ part) (w ++ part).
Proof.
  intros (Ho & n & t & -> & Hm & Hn). split; [done|]. exists n, (t ++ part). rewrite <- app_assoc.
  split_and!; [done | by apply merged_more_left | done].
Qed.

Lemma wire_ack masters i o g w : i ∈ masters -> wire masters i o g w -> wire masters i o g (w ++ CHAIN_ACK).
Proof.
  intros Hi (Ho & n & t & -> & Hm & _). split; [done|]. exists (S n), (t ++ CHAIN_ACK). rewrite <- app_assoc.
  split_and!; [done | | done]. rewrite replicate_S_end, concat_app. cbn [concat app]. rewrite app_nil_r. by apply merged_more_right.
Qed.

Lemma wire_start masters i (st : TcpStream) : sent st = MAGIC_PACKET -> wire masters i (sent st) [] (sent st).
Proof. intros E. split; [done|]. exists 0%nat, []. rewrite app_nil_r. split_and!; [done | constructor | done]. Qed.

Definition taking (n : Fanout) : Prop := map_Forall (fun _ c => accepts (cl_stream c)) (clients n).

Lemma fan_event_taking e n :
  taking n -> (forall i st, e = Arrive i st -> accepts st) -> taking (fan_event e n).
Proof.
  intros Ht He. unfold taking. destruct e as [block|id st|id|]; cbn [fan_event]; try done.
  - destruct (clients n !! id); [done|]. cbn [clients]. apply map_Forall_insert_2; [by eapply He | done].
  - destruct (clients n !! id) as [[st rcv [stop|]]|] eqn:Ec; try done.
    destruct (client_step _ _ _ _) as [[stop st'] rcv'] eqn:Es. cbn [clients]. apply map_Forall_insert_2; [|done].
    cbn [cl_stream]. apply client_step_frame in Es as [Ha _]; [done|]. exact (Ht _ _ Ec).
Qed.

(** The state of the server and that of the feed. *)
Definition feeds (masters : list nat) (s : Server) (f : Feed) : Prop :=
  shows_by (wire masters) (net s) f /\ feed_ok f /\ taking (net s) /\ (forall fd ss, visit s = Some (fd, ss) -> fd ∈ masters).

Definition fed (masters : list nat) (e : ServerEvent) (s : Server) (f : Feed) (s' : Server) : Prop :=
  exists f', rtc feed_step f f' /\ feeds masters s' f' /\ (forall i, keeping_up_at i e s -> complete i f -> complete i f').

Lemma fed_same masters e s f s' :
  feeds masters s f -> net s' = net s -> (visit s' = visit s \/ visit s' = None) -> fed masters e s f s'.
Proof.
  intros (Hs & Hok & Ht & Hv) Hn Hvis. exists f. split; [done|]. split; [|done]. split_and!; rewrite ?Hn; try done.
  destruct Hvis as [-> | ->]; [done | by intros].
Qed.

(** A turn that is an event of the distribution. *)
Lemma fed_event masters e s f fe s' :
  feeds masters s f -> net s' = fan_event fe (net s) -> (forall fd ss, visit s' = Some (fd, ss) -> fd ∈ masters) ->
  (forall i st, fe = Arrive i st -> sent st = MAGIC_PACKET /\ accepts st) ->
  (forall i, keeping_up_at i e s -> keeps_up_at i fe (net s)) -> fed masters e s f s'.
Proof.
  intros (Hs & Hok & Ht & Hv) Hn Hvis Hj Hk.
  destruct (event_simulates (wire masters) (wire_more masters) fe (net s) f) as (f' & Hr & Hs' & _ & Hc & _); [|done..|].
  { destruct fe as [|i st| |]; try done. apply wire_start. by eapply Hj. }
  exists f'. split; [done|]. split; [|intros i Hi; apply Hc; by apply Hk]. split_and!; rewrite ?Hn; try done.
  - exact (rtc_preserves _ _ feed_ok_step _ _ Hok Hr).
  - apply fan_event_taking; [done|]. intros i st ->. by apply (Hj i st).
Qed.

Lemma fed_slave masters answer s f :
  fresh (SlaveTurn answer) -> feeds masters s f -> fed masters (SlaveTurn answer) s f (slave_turn args answer s).
Proof.
  intros Hf Hs. unfold slave_turn. destruct (admission_end s); [by apply fed_same; [..|left]|].
  destruct (match answer with SlaveAccepted _ _ _ _ _ => _ | _ => _ end); [by apply fed_same; [..|left]|]. cbv zeta.
  destruct (acceptor_iteration _ _ _ _ _ _) as [stop a'] eqn:Ea.
  apply acceptor_turn in Ea as [(Hsl & _ & _)|(fd & st & addr & _ & _ & Hans & _ & ->)].
  - apply fed_same; [done | | by left]. cbn [net slaves]. cbn [slaves] in Hsl. by rewrite Hsl, drop_all.
  - cbn [slave_accept] in Hans. subst answer. destruct Hf as [Hsent Hacc].
    eapply (fed_event _ _ _ _ (Arrive fd _)); [done | | by apply Hs | | done].
    + cbn [net slaves]. rewrite drop_app_length. cbn [fold_left]. unfold start_writer. cbn [slave_fd slave_stream]. reflexivity.
    + intros i st' [= <- <-]. cbn [slave_accept] in *.
      assert (Ha' : accepts (snd (set_write_timeout st (from_secs 30)))) by exact Hacc.
      split; [rewrite greet_accepts by done; cbn; by rewrite Hsent | by apply greet_keeps].
Qed.

Lemma fed_master masters answer clones clock s f :
  fresh (MasterTurn answer clones clock) -> (forall fd st addr, answer = MasterConnected fd st addr -> fd ∈ masters) ->
  feeds masters s f -> fed masters (MasterTurn answer clones clock) s f (master_turn io_display args answer clones clock s).
Proof.
  intros Hf Hm Hs. unfold master_turn. destruct (main_at s); try by apply fed_same; [..|left].
  destruct (visit s) as [v|] eqn:Ev; [apply fed_same; [done | done | by left]|].
  destruct (fan_exit (net s)); [by apply fed_same; [..|left]|].
  destruct answer as [fd st addr|e]; [|by destruct e; (apply fed_same; [..|left])].
  destruct (known fd s); [by apply fed_same; [..|left]|].
  destruct (master_setup _ _ _ _ _ _) as [r [st' sh']] eqn:Es. cbv zeta.
  destruct r as [[]|e| |]; try (apply fed_same; [done | done | by right]).
  destruct Hf as [Hsent Hacc]. apply master_setup_done in Es as (_ & _ & Hs' & Hrx & Ha'); [|done].
  destruct clock as [[epoch t0] t1].
  assert (Hto : sent (snd (set_read_timeout st' (from_secs (read_timeout args)))) = sent st' /\
    accepts (snd (set_read_timeout st' (from_secs (read_timeout args))))).
  { unfold set_read_timeout. by destruct (_ =? 0). }
  destruct Hto as [Hto1 Hto2].
  eapply (fed_event _ _ _ _ (Arrive fd _)); [done | reflexivity | | | done].
  - intros fd' ss [= <- _]. by eapply Hm.
  - intros i st2 [= <- <-]. split; [|done]. by rewrite Hto1, Hs', Hsent.
Qed.

Lemma fed_control masters now s f :
  feeds masters s f -> fed masters (ControlTurn now) s f (control_turn now s).
Proof.
  intros Hs. destruct (control_turn_spec now s) as [->|(fd & ss & st & rcv & stop & ss' & flow & _ & Hv & Hc & Hi & ->)];
    [by apply fed_same; [..|left]|].
  destruct Hs as ([Hh Hm] & Hok & Ht & Hvis). assert (Hfd : fd ∈ masters) by (by eapply Hvis).
  assert (Hast : accepts st) by exact (Ht _ _ Hc).
  apply single_iteration_writes in Hi as (Ha' & Hsent & _); [|exact Hast].
  assert (Hcur : exists k, cursors f !! fd = Some k /\ shows_client_by (wire masters fd) (mkClient st rcv stop) k).
  { pose proof (Hm fd) as Hfdm. rewrite Hc in Hfdm. destruct (cursors f !! fd) as [k|]; inversion Hfdm; by exists k. }
  destruct Hcur as (k & Hk & Hp & Hw & He).
  exists f. split; [done|]. split; [|done]. split; [|split; [done | split]].
  - split; [done|]. cbn [net clients cursors]. rewrite <- (insert_id _ _ _ Hk). apply map_Forall2_insert_2; [|done].
    split; [exact Hp|]. split; [|exact He]. cbn [cl_stream] in *. cbn [stream with_stream] in Hsent.
    destruct Hsent as [->|[_ ->]]; [exact Hw | by apply wire_ack].
  - unfold taking. cbn [net clients]. by apply map_Forall_insert_2.
  - cbn [visit]. intros fd' s2. destruct flow; intros [= <- _]; done.
Qed.

Lemma fed_by masters e s f :
  fresh e -> (forall i, master_id e = Some i -> i ∈ masters) -> feeds masters s f -> fed masters e s f (server_event e s).
Proof.
  intros Hf Hm Hs. unfold Server.server_event. destruct (over s); [by apply fed_same; [..|left]|].
  destruct e as [block|id| |answer|answer clones clock|now].
  - apply (fed_event _ _ _ _ (Publish block)); [done | done | apply Hs | done | done].
  - apply (fed_event _ _ _ _ (Poll id)); [done | done | apply Hs | done | done].
  - apply (fed_event _ _ _ _ RequestExit); [done | done | apply Hs | done | done].
  - by apply fed_slave.
  - apply fed_master; [done | | done]. intros fd st addr ->. by apply Hm.
  - by apply fed_control.
Qed.

Lemma run_feeds masters events s f :
  Forall fresh events -> (forall i, i ∈ master_ids events -> i ∈ masters) -> feeds masters s f ->
  exists f', rtc feed_step f f' /\ feeds masters (server_run events s) f' /\
    (forall i, keeping_up i events s -> complete i f -> complete i f').
Proof.
  revert s f. induction events as [|e events IH]; intros s f Hf Hm Hs.
  { exists f. split; [done|]. by split. }
  apply Forall_cons in Hf as [He Hf].
  destruct (fed_by masters e s f He) as (f1 & Hr1 & Hs1 & Hc1); [|done|].
  { intros i Hi. apply Hm. unfold master_ids. cbn [omap list_omap]. rewrite Hi. by left. }
  destruct (IH (server_event e s) f1 Hf) as (f2 & Hr2 & Hs2 & Hc2); [|done|].
  { intros i Hi. apply Hm. unfold master_ids. cbn [omap list_omap]. destruct (master_id e); [by right | done]. }
  exists f2. split; [by etrans|]. split; [done|]. intros i [Hi1 Hi2] Hc. apply Hc2; [done|]. by apply Hc1.
Qed.

Lemma start_feeds masters ctl : feeds masters (server_start ctl) (mkFeed [] ∅).
Proof.
  split; [|split; [apply map_Forall_empty | split; [apply map_Forall_empty | done]]].
  destruct (start_shows DEFAULT_BROADCAST_CAPACITY) as [Hh _]. split; [exact Hh | apply map_Forall2_empty].
Qed.

(** The log is what the device delivered while the process ran. *)
Lemma event_history e s :
  history (fan_tx (net (server_event e s))) = history (fan_tx (net s)) ++ (if over s then [] else option_list (device_block e)).
Proof.
  unfold Server.server_event. destruct (over s); [by rewrite app_nil_r|].
  destruct e as [block|id| |answer|answer clones clock|now]; cbn [device_block option_list].
  - cbn [net with_net fan_event fan_tx]. by rewrite (proj1 (send_law _ _)).
  - rewrite app_nil_r. cbn [net with_net fan_event]. destruct (clients (net s) !! id) as [[st rcv [stop|]]|]; try done.
    by destruct (client_step _ _ _ _) as [[stop st'] rcv'].
  - by rewrite app_nil_r.
  - rewrite app_nil_r. unfold slave_turn. destruct (admission_end s); [done|]. destruct (match answer with SlaveAccepted _ _ _ _ _ => _ | _ => _ end); [done|].
    cbv zeta. destruct (acceptor_iteration _ _ _ _ _ _) as [stop a'] eqn:Ea. cbn [net].
    apply acceptor_turn in Ea as [(Hsl & _ & _)|(fd & st & addr & _ & _ & _ & _ & ->)]; cbn [slaves] in *.
    + by rewrite Hsl, drop_all.
    + rewrite drop_app_length. cbn [fold_left]. unfold start_writer. cbn [fan_event slave_fd]. by destruct (clients (net s) !! fd).
  - rewrite app_nil_r. unfold master_turn. destruct (main_at s); try done. destruct (visit s); [done|].
    destruct (fan_exit (net s)); [done|]. destruct answer as [fd st addr|err]; [|by destruct err].
    destruct (known fd s); [done|]. destruct (master_setup _ _ _ _ _ _) as [r [st' sh']]. cbv zeta.
    destruct r as [[]|e| |]; try done. destruct clock as [[epoch t0] t1]. cbn [net fan_event]. by destruct (clients (net s) !! fd).
  - rewrite app_nil_r. by destruct (control_turn_spec now s) as [->|(fd & ss & st & rcv & stop & ss' & flow & _ & _ & _ & _ & ->)].
Qed.

Lemma over_stays e s : over s = true -> server_event e s = s.
Proof. unfold Server.server_event. by intros ->. Qed.

Lemma run_over events s : over s = true -> server_run events s = s.
Proof. intros Ho. induction events as [|e events IH]; [done|]. cbn [Server.server_run]. by rewrite over_stays. Qed.

Lemma run_history_blocks events s :
  over (server_run events s) = false ->
  history (fan_tx (net (server_run events s))) = history (fan_tx (net s)) ++ device_blocks events.
Proof.
  revert s. induction events as [|e events IH]; intros s Ho; [by rewrite app_nil_r|]. cbn [Server.server_run] in *.
  rewrite IH, event_history by done. destruct (over s) eqn:Es.
  { rewrite over_stays in Ho by done. rewrite run_over in Ho by done. congruence. }
  rewrite <- app_assoc. f_equal. unfold device_blocks. cbn [omap list_omap]. by destruct (device_block e).
Qed.

End distribution.

(** ** Lemmas: who is let in, and what happens after a signal *)

Section admission.
Context `{StreamCipherLib} `{RtlSdrLib} `{IpNetLib} `{BroadcastLib} (io_display : ErrorKind -> string) (args : Args).
Abbreviation server_event := (server_event io_display args).
Abbreviation server_run := (server_run io_display args).

(** The event is connection [i] coming from [addr]. *)
Definition connects (i : nat) (addr : IpAddr) (e : ServerEvent) : Prop :=
  match e with
  | SlaveTurn (SlaveAccepted fd _ a _ _) => fd = i /\ a = addr
  | MasterTurn (MasterConnected fd _ a) _ _ => fd = i /\ a = addr
  | _ => False
  end.

Definition let_in (s : Server) (all : list ServerEvent) (i : nat) : Prop :=
  i ∈ guarded (server_streams (shared s)) /\
  exists e addr, e ∈ all /\ connects i addr e /\ check_whitelist (ip_to_string (to_canonical addr)) (whitelist args) = Ok tt.

Definition admission_ok (all : list ServerEvent) (s : Server) : Prop :=
  count (admission s) = length (slaves (admission s)) /\ (count (admission s) <= max_slaves args)%nat /\
  forall i, is_Some (clients (net s) !! i) -> let_in s all i.

Lemma let_in_more s s' all i :
  guarded (server_streams (shared s)) `prefix_of` guarded (server_streams (shared s')) -> let_in s all i -> let_in s' all i.
Proof. intros [more E] (Hi & Hex). split; [rewrite E; apply elem_of_app; by left | done]. Qed.

(** A turn that adds no client. *)
Lemma admission_same all s s' :
  admission s' = admission s -> (forall i, is_Some (clients (net s') !! i) -> is_Some (clients (net s) !! i)) ->
  guarded (server_streams (shared s)) `prefix_of` guarded (server_streams (shared s')) ->
  admission_ok all s -> admission_ok all s'.
Proof.
  intros Ha Hn Hp (Hc & Hm & Hl). unfold admission_ok. rewrite Ha. split_and!; try done.
  intros i Hi. apply (let_in_more s); [exact Hp|]. by apply Hl, Hn.
Qed.

Lemma fan_known_same e n i :
  (forall st, e <> Arrive i st) -> is_Some (clients (fan_event e n) !! i) -> is_Some (clients n !! i).
Proof. intros He Hi. destruct (fan_event_known e n i Hi) as [|[st ->]]; [done | by destruct (He st)]. Qed.

(** The newcomer [fd], registered by the turn. *)
Lemma admission_new all e s s' fd st addr :
  e ∈ all -> connects fd addr e -> check_whitelist (ip_to_string (to_canonical addr)) (whitelist args) = Ok tt ->
  net s' = fan_event (Arrive fd st) (net s) ->
  guarded (server_streams (shared s')) = guarded (server_streams (shared s)) ++ [fd] ->
  (forall i, is_Some (clients (net s) !! i) -> let_in s all i) -> forall i, is_Some (clients (net s') !! i) -> let_in s' all i.
Proof.
  intros He Hc Hw Hn Hg Hl i Hi. rewrite Hn in Hi. apply fan_event_known in Hi as [Hi|[st' [= <- <-]]].
  - apply (let_in_more s); [rewrite Hg; by eexists|]. by apply Hl.
  - split; [rewrite Hg; apply elem_of_app; right; by left|]. by exists e, addr.
Qed.

Lemma slave_turn_admission all answer s :
  SlaveTurn answer ∈ all -> admission_ok all s -> admission_ok all (slave_turn args answer s).
Proof.
  intros Hin Hok. unfold slave_turn. destruct (admission_end s); [done|].
  destruct (match answer with SlaveAccepted _ _ _ _ _ => _ | _ => _ end); [done|]. cbv zeta.
  destruct (acceptor_iteration _ _ _ _ _ _) as [stop a'] eqn:Ea. destruct Hok as (Hc & Hm & Hl).
  apply acceptor_turn in Ea as [(Hsl & Hcnt & Hpre)|(fd & st & addr & _ & Hlt & Hans & Hw & ->)]; cbn [slaves count all_streams slave_accept] in *.
  - unfold admission_ok. cbn [admission]. rewrite Hsl, Hcnt. split_and!; try done.
    rewrite drop_all. cbn [net fold_left]. intros i Hi. apply (let_in_more s); [exact Hpre | by apply Hl].
  - subst answer. unfold admission_ok. cbn [admission count slaves]. split_and!; [rewrite length_app, Hc; simpl; lia | lia |].
    eapply (admission_new _ _ s); [exact Hin | done | exact Hw | | reflexivity | exact Hl].
    cbn [net]. rewrite drop_app_length. reflexivity.
Qed.

Lemma master_turn_admission all answer clones clock s :
  Forall fresh all -> MasterTurn answer clones clock ∈ all -> admission_ok all s ->
  admission_ok all (master_turn io_display args answer clones clock s).
Proof.
  intros Hf Hin Hok. unfold master_turn. destruct (main_at s); try done. destruct (visit s); [done|].
  destruct (fan_exit (net s)); [done|]. destruct answer as [fd st addr|err]; [|by destruct err].
  destruct (known fd s); [done|].
  pose proof (master_setup_registers args fd addr clones (fan_tx (net s)) st (shared s)) as [Hreg _].
  destruct (master_setup _ _ _ _ _ _) as [r [st' sh']] eqn:Es. cbv zeta. cbn [snd] in Hreg.
  destruct r as [[]|e| |]; try (by apply (admission_same all s)).
  rewrite Forall_forall in Hf. specialize (Hf _ Hin). destruct Hf as [_ Hacc].
  apply master_setup_done in Es as (Hw & -> & _); [|done]. destruct clock as [[epoch t0] t1].
  destruct Hok as (Hc & Hm & Hl). split_and!; [done | done |].
  eapply (admission_new _ _ s); [exact Hin | by split | exact Hw | reflexivity | reflexivity | exact Hl].
Qed.

Lemma server_event_admission all e s :
  Forall fresh all -> e ∈ all -> admission_ok all s -> admission_ok all (server_event e s).
Proof.
  intros Hf Hin Hok. unfold Server.server_event. destruct (over s); [done|].
  destruct e as [block|id| |answer|answer clones clock|now].
  - eapply (admission_same all s); [done | | done | exact Hok]. intros i. by apply fan_known_same.
  - eapply (admission_same all s); [done | | done | exact Hok]. intros i. by apply fan_known_same.
  - eapply (admission_same all s); [done | | done | exact Hok]. intros i. by apply fan_known_same.
  - by apply slave_turn_admission.
  - by apply master_turn_admission.
  - destruct (control_turn_spec now s) as [->|(fd & ss & st & rcv & stop & ss' & flow & _ & _ & Hc & _ & ->)]; [done|].
    eapply (admission_same all s); [done | | | exact Hok].
    + cbn [net clients]. intros i. destruct (decide (fd = i)) as [->|]; [by rewrite Hc|]. by rewrite lookup_insert_ne.
    + cbn [shared]. by destruct flow.
Qed.

Lemma run_admission all events s :
  Forall fresh all -> (forall e, e ∈ events -> e ∈ all) -> admission_ok all s -> admission_ok all (server_run events s).
Proof.
  intros Hf. revert s. induction events as [|e events IH]; intros s Hin Hok; [done|]. cbn [Server.server_run].
  apply IH; [intros e' He'; apply Hin; by right|]. apply server_event_admission; [done | apply Hin; by left | done].
Qed.

(** After the flag: nothing is written or executed, nobody is let in. *)
Definition stopped_at (s s' : Server) : Prop :=
  fan_exit (net s') = true /\ over s' = false /\ taking (net s') /\ tuner_of s' = tuner_of s /\ slaves (admission s') = slaves (admission s) /\
  (forall i, sent ∘ cl_stream <$> clients (net s') !! i = sent ∘ cl_stream <$> clients (net s) !! i) /\
  (forall i c, clients (net s) !! i = Some c -> cl_stop c <> None -> exists c', clients (net s') !! i = Some c' /\ cl_stop c' <> None) /\
  (admission_end s <> None -> admission_end s' <> None).

Lemma stopped_refl s : fan_exit (net s) = true -> over s = false -> taking (net s) -> stopped_at s s.
Proof. intros Hx Ho Ht. refine (conj Hx (conj Ho (conj Ht _))). split_and!; try done. intros i c Hc Hst. by exists c. Qed.

Lemma stopped_trans s1 s2 s3 : stopped_at s1 s2 -> stopped_at s2 s3 -> stopped_at s1 s3.
Proof.
  intros (_ & _ & _ & Ht & Hl & Hs & Hst & Ha) (Hx' & Ho' & Htk & Ht' & Hl' & Hs' & Hst' & Ha').
  refine (conj Hx' (conj Ho' (conj Htk _))). refine (conj _ (conj _ (conj _ (conj _ _)))); [congruence | congruence | | |].
  - intros i. etrans; [apply Hs' | apply Hs].
  - intros i c Hc Hn. destruct (Hst i c Hc Hn) as (c2 & Hc2 & Hn2). by apply (Hst' i c2).
  - intros Hn. by apply Ha', Ha.
Qed.

(** One client's record changes, not what was sent to it. *)
Lemma stopped_update s s' i c c' :
  fan_exit (net s) = true -> over s' = false -> taking (net s) -> tuner_of s' = tuner_of s ->
  admission s' = admission s -> admission_end s' = admission_end s ->
  clients (net s) !! i = Some c -> net s' = mkFanout (fan_tx (net s)) (fan_exit (net s)) (<[i := c']> (clients (net s))) ->
  sent (cl_stream c') = sent (cl_stream c) -> accepts (cl_stream c') -> (cl_stop c <> None -> cl_stop c' <> None) ->
  stopped_at s s'.
Proof.
  intros Hx Ho Htk Ht Ha Hae Hc Hn Hs Hacc Hst. unfold stopped_at. rewrite Hn, Ha, Hae. cbn [fan_exit clients].
  refine (conj Hx (conj Ho (conj _ (conj Ht (conj eq_refl (conj _ (conj _ (fun x => x)))))))).
  - unfold taking. cbn [clients]. by apply map_Forall_insert_2.
  - intros j. destruct (decide (i = j)) as [->|]; [rewrite lookup_insert_eq, Hc; cbn; by rewrite Hs | by rewrite lookup_insert_ne].
  - intros j cj Hj Hnj. destruct (decide (i = j)) as [->|]; [rewrite lookup_insert_eq; eexists; split; [done|]; apply Hst; congruence|].
    rewrite lookup_insert_ne by done. by exists cj.
Qed.

Lemma event_stopped e s : fan_exit (net s) = true -> over s = false -> taking (net s) -> stopped_at s (server_event e s).
Proof.
  intros Hx Ho Htk. pose proof (stopped_refl s Hx Ho Htk) as Hrefl. unfold Server.server_event. rewrite Ho.
  destruct e as [block|id| |answer|answer clones clock|now].
  - exact Hrefl.
  - cbn [fan_event]. destruct (clients (net s) !! id) as [[st rcv [stop|]]|] eqn:Ec; try by destruct s.
    rewrite Hx, client_step_exits. eapply (stopped_update s _ id _ (mkClient st rcv (Some ExitFlag)) Hx);
      [exact Ho | exact Htk | done | done | done | exact Ec | cbn [net with_net]; by rewrite Hx | done | exact (Htk _ _ Ec) | done].
  - refine (conj eq_refl (conj Ho (conj Htk _))). split_and!; try done. intros i c Hc Hst. by exists c.
  - unfold slave_turn. destruct (admission_end s) eqn:Ea; [done|].
    destruct (match answer with SlaveAccepted _ _ _ _ _ => _ | _ => _ end); [done|]. cbv zeta. unfold acceptor_iteration.
    cbn [slave_exit]. rewrite Hx. cbn [slaves]. rewrite drop_all. cbn [fold_left].
    refine (conj Hx (conj Ho (conj Htk _))). split_and!; try done.
    intros i c Hc Hst. by exists c.
  - unfold master_turn. destruct (main_at s); try done. destruct (visit s) eqn:Ev; [done|]. rewrite Hx.
    refine (conj Hx (conj eq_refl (conj Htk _))). split_and!; try done. intros i c Hc Hst. by exists c.
  - destruct (control_turn_spec now s) as [->|(fd & ss & st & rcv & stop & ss' & flow & _ & Hv & Hc & Hi & ->)]; [done|].
    apply single_iteration_writes in Hi as (Ha & Hs & Ht); [|exact (Htk _ _ Hc)]. cbn [exit_flag tuner with_stream] in *.
    eapply stopped_update; [done | | done | | done | done | exact Hc | done | | exact Ha | done].
    + unfold over. cbn [main_at]. rewrite Hx. by destruct flow.
    + unfold tuner_of. cbn [visit shared]. rewrite Hv. destruct flow; cbn [server_tuner]; by apply Ht.
    + destruct Hs as [Hs|[Hf _]]; [exact Hs | congruence].
Qed.

Lemma run_stopped events s : fan_exit (net s) = true -> over s = false -> taking (net s) -> stopped_at s (server_run events s).
Proof.
  revert s. induction events as [|e events IH]; intros s Hx Ho Htk; [by apply stopped_refl|]. cbn [Server.server_run].
  pose proof (event_stopped e s Hx Ho Htk) as Hs. eapply stopped_trans; [exact Hs|]. by apply IH; apply Hs.
Qed.

Lemma run_app events1 events2 s : server_run (events1 ++ events2) s = server_run events2 (server_run events1 s).
Proof. revert s. induction events1 as [|e events1 IH]; intros s; [done|]. apply IH. Qed.

(** Every writer that gets a turn has ended. *)
Lemma writer_turn_ends id events s c :
  fan_exit (net s) = true -> over s = false -> taking (net s) -> WriterTurn id ∈ events -> clients (net (server_run events s)) !! id = Some c ->
  cl_stop c <> None.
Proof.
  intros Hx Ho Htk Hin. apply list_elem_of_split in Hin as (l1 & l2 & ->). rewrite run_app. cbn [Server.server_run].
  pose proof (run_stopped l1 s Hx Ho Htk) as (Hx1 & Ho1 & Ht1 & _). set (s1 := server_run l1 s) in *.
  pose proof (event_stopped (WriterTurn id) s1 Hx1 Ho1 Ht1) as (Hx2 & Ho2 & Ht2 & _ & _ & Hs2 & _).
  pose proof (run_stopped l2 _ Hx2 Ho2 Ht2) as (_ & _ & _ & _ & _ & Hs3 & Hst3 & _). intros Hc.
  assert (Hex : exists c2, clients (net (server_event (WriterTurn id) s1)) !! id = Some c2 /\ cl_stop c2 <> None).
  { specialize (Hs3 id). specialize (Hs2 id). rewrite Hc in Hs3. rewrite <- Hs3 in Hs2. cbn in Hs2.
    destruct (clients (net s1) !! id) as [[st rcv stop]|] eqn:E1; [|done].
    unfold Server.server_event. rewrite Ho1. cbn [fan_event with_net net]. rewrite E1. destruct stop as [stop|].
    - eexists. by split; [exact E1|].
    - rewrite Hx1, client_step_exits. cbn [clients]. rewrite lookup_insert_eq. by eexists. }
  destruct Hex as (c2 & Hc2 & Hn2). destruct (Hst3 id c2 Hc2 Hn2) as (c3 & Hc3 & Hn3). congruence.
Qed.

(** The acceptor too. *)
Lemma slave_turn_ends e events s :
  fan_exit (net s) = true -> over s = false -> taking (net s) -> SlaveTurn (SlaveAcceptErr e) ∈ events ->
  admission_end (server_run events s) <> None.
Proof.
  intros Hx Ho Htk Hin. apply list_elem_of_split in Hin as (l1 & l2 & ->). rewrite run_app. cbn [Server.server_run].
  pose proof (run_stopped l1 s Hx Ho Htk) as (Hx1 & Ho1 & Ht1 & _). set (s1 := server_run l1 s) in *.
  pose proof (event_stopped (SlaveTurn (SlaveAcceptErr e)) s1 Hx1 Ho1 Ht1) as (Hx2 & Ho2 & Ht2 & _).
  pose proof (run_stopped l2 _ Hx2 Ho2 Ht2) as (_ & _ & _ & _ & _ & _ & _ & Ha). apply Ha.
  unfold Server.server_event. rewrite Ho1. unfold slave_turn. destruct (admission_end s1) eqn:E; [by rewrite E|].
  cbv zeta. unfold acceptor_iteration. cbn [slave_exit]. by rewrite Hx1.
Qed.

(** ** Properties *)


(** C7. Who is let in: in every run at most [max_slaves] slaves are, and every
    connection with a writer, slave or master, came from an address that the
    whitelist passes and is among the streams that the shutdown closes. *)
Theorem server_admits (ctl : Controller) (events : list ServerEvent) :
  Forall fresh events ->
  let s := server_run events (server_start ctl) in
  (length (slaves (admission s)) <= max_slaves args)%nat /\
  forall i, is_Some (clients (net s) !! i) ->
    i ∈ guarded (server_streams (shared s)) /\
    exists e addr, e ∈ events /\ connects i addr e /\ check_whitelist (ip_to_string (to_canonical addr)) (whitelist args) = Ok tt.
Proof.
  intros Hf s. destruct (run_admission events events (server_start ctl) Hf) as (Hc & Hm & Hl); [done | |].
  - split_and!; cbn; [done | lia |]. intros i Hi. rewrite lookup_empty in Hi. by destruct Hi.
  - fold s in Hc, Hm, Hl. split; [lia | exact Hl].
Qed.


End admission.

Section witnesses.
#[local] Existing Instance ten_net.
#[local] Existing Instance list_broadcast.
#[local] Existing Instance log_tuner.
#[local] Existing Instance toy_cipher.

(** A master that probes and tunes, and a slave that joins after a block. *)
Definition probing_master : TcpStream :=
  mkTcp [Data (Protocol.encode (ChainDetect [80; 82; 79; 88]) ++ Protocol.encode (SetFrequency 5000))] [Accept 4] [] None None.
Definition busy_server : list ServerEvent :=
  [MasterTurn (MasterConnected 3 probing_master (V4 10 0 0 1)) (fun _ => Ok tt) (0, from_secs 1, from_secs 1);
   DeviceBlock [1; 2]; SlaveTurn (SlaveAccepted 4 (mkTcp [] [Accept 1; WErr Interrupted] [] None None) (V4 10 0 0 2) true true);
   WriterTurn 3; ControlTurn (from_secs 1 + from_millis 60); DeviceBlock [3; 4]; WriterTurn 4; WriterTurn 3;
   ControlTurn (from_secs 1 + from_millis 120)].

Lemma busy_fresh : Forall fresh busy_server.
Proof. unfold busy_server. repeat constructor; cbn; try lia. Qed.

Definition busy_state : Server := server_run no_text multi_args busy_server (server_start []).


Lemma server_admits_witness :
  (length (slaves (admission busy_state)) <= 10)%nat /\ 4%nat ∈ guarded (server_streams (shared busy_state)).
Proof.
  destruct (@server_admits toy_cipher log_tuner ten_net list_broadcast no_text multi_args [] busy_server busy_fresh) as [Hm Hl].
  split; [exact Hm|]. apply Hl. eexists. by vm_compute.
Defined.


End witnesses.
