(* ===== verification/Visit.v ===== *)
(** * A master's visit among the other threads

    What the control thread of a master does while the server's other threads
    take their turns ([Server]): it executes the master's commands as it would
    alone, and without the others' turns it is the iteration of [ServeMulti]. *)

From S2P Require Import Prelude Bytes Io Net Ip Error Control Encryption Stream Commands Protocol Interpreter Master Args Serve Fanout Acceptor ServeMulti Server.
From stdpp Require Import gmap strings.
#[local] Open Scope Z_scope.

Section visit.
Context `{StreamCipherLib} `{RtlSdrLib} `{IpNetLib} `{BroadcastLib} (io_display : ErrorKind -> string) (args : Args).
Abbreviation server_event := (server_event io_display args).
Abbreviation server_run := (server_run io_display args).

Definition control_instant (e : ServerEvent) : option Z := match e with ControlTurn now => Some now | _ => None end.
Definition control_instants (events : list ServerEvent) : list Z := omap control_instant events.

(** ** Lemmas: the commands *)

(** What a command answers does not depend on what was answered before. *)
Lemma receive_answers now c l t u :
  exists l' t' u' r, forall a, receive now c (mkMachine l t u a) = mkMachine l' t' u' (a ++ r).
Proof.
  unfold receive. cbn [m_limiter m_tuner m_unknown m_answers]. destruct (rate_limiter_check l now) as [[] rl].
  - unfold execute. cbn [m_limiter m_tuner m_unknown m_answers].
    exists rl, (match meaning c with Some r => perform r t | None => t end),
      (match c with Unsupported _ _ => as_u64 (u + 1) | _ => u end), (match c with ChainDetect _ => CHAIN_ACK | _ => [] end).
    intros a. destruct c; by rewrite ?app_nil_r.
  - do 3 eexists. exists []. intros a. rewrite app_nil_r. reflexivity.
Qed.

(** The session of the master [fd] is where the machine [m] is, and [rest] is
    what the master has yet to say; the writer's data is between the answers. *)
Definition at_work (fd : nat) (m : Machine) (rest : list Z) (s : Server) : Prop :=
  main_at s = Looped /\ fan_exit (net s) = false /\
  exists ss st rcv stop data t, visit s = Some (fd, ss) /\ clients (net s) !! fd = Some (mkClient st rcv stop) /\
    accepts st /\ yields st rest /\ sent st = MAGIC_PACKET ++ t /\ merged data (m_answers m) t /\
    rate_limiter ss = m_limiter m /\ tuner ss = m_tuner m /\ unknown_command_count ss = m_unknown m.

Lemma fan_event_keeps e n fd (st : TcpStream) rcv stop :
  clients n !! fd = Some (mkClient st rcv stop) -> accepts st ->
  exists st' rcv' stop' part, clients (fan_event e n) !! fd = Some (mkClient st' rcv' stop') /\
    accepts st' /\ rx st' = rx st /\ sent st' = sent st ++ part.
Proof.
  intros Hc Ha.
  assert (Hsame : exists st' rcv' stop' part, clients n !! fd = Some (mkClient st' rcv' stop') /\
    accepts st' /\ rx st' = rx st /\ sent st' = sent st ++ part).
  { exists st, rcv, stop, []. rewrite app_nil_r. by split_and!. }
  destruct e as [block|id st0|id|]; cbn [fan_event]; try exact Hsame.
  - destruct (clients n !! id) as [c|] eqn:Ei; [exact Hsame|]. cbn [clients]. rewrite lookup_insert_ne by congruence. exact Hsame.
  - destruct (clients n !! id) as [[st0 rcv0 [stop0|]]|] eqn:Ei; try exact Hsame.
    destruct (client_step _ _ _ _) as [[stop1 st1] rcv1] eqn:Es. cbn [clients].
    destruct (decide (id = fd)) as [->|]; [|rewrite lookup_insert_ne by done; exact Hsame].
    rewrite Hc in Ei. injection Ei as -> -> ->. apply client_step_frame in Es as (Ha1 & Hr1 & part & Hs1); [|done].
    rewrite lookup_insert_eq. by exists st1, rcv1, stop1, part.
Qed.

(** Turns of the distribution. *)
Lemma at_work_fan e fd m rest s s' :
  net s' = fan_event e (net s) -> fan_exit (net s') = fan_exit (net s) -> visit s' = visit s -> main_at s' = main_at s ->
  at_work fd m rest s -> at_work fd m rest s'.
Proof.
  intros Hn Hx Hv Hm (Hmain & Hexit & ss & st & rcv & stop & data & t & Hvis & Hc & Ha & Hy & Hs & Hmg & Hl & Ht & Hu).
  destruct (fan_event_keeps e (net s) fd st rcv stop Hc Ha) as (st' & rcv' & stop' & part & Hc' & Ha' & Hr' & Hs').
  unfold at_work. rewrite Hx, Hv, Hm. split; [done|]. split; [done|].
  exists ss, st', rcv', stop', (data ++ part), (t ++ part). rewrite Hn, Hs', Hs, <- app_assoc. split_and!; try done.
  - simpl in *. by rewrite Hr'.
  - by apply merged_more_left.
Qed.

Lemma at_work_same fd m rest s s' :
  net s' = net s -> visit s' = visit s -> main_at s' = main_at s -> at_work fd m rest s -> at_work fd m rest s'.
Proof. intros Hn Hv Hm. unfold at_work. by rewrite Hn, Hv, Hm. Qed.

Lemma at_work_other fd m rest e s :
  e <> Signal -> control_instant e = None -> at_work fd m rest s -> at_work fd m rest (server_event e s).
Proof.
  intros Hsig Hctl Hw. pose proof Hw as (Hmain & Hexit & ss & st & rcv & stop & data & t & Hvis & _).
  unfold Server.server_event, over. rewrite Hmain. destruct e as [block|id| |answer|answer clones clock|now]; try done.
  - apply (at_work_fan (Poll id) _ _ _ s); try done. cbn [net with_net fan_event].
    destruct (clients (net s) !! id) as [[st0 rcv0 [stop0|]]|]; try done. by destruct (client_step _ _ _ _) as [[? ?] ?].
  - unfold slave_turn. destruct (admission_end s); [done|]. destruct (match answer with SlaveAccepted _ _ _ _ _ => _ | _ => _ end); [done|].
    cbv zeta. destruct (acceptor_iteration _ _ _ _ _ _) as [stop' a'] eqn:Ea.
    apply acceptor_turn in Ea as [(Hsl & _ & _)|(fd' & st' & addr & _ & _ & _ & _ & ->)]; cbn [slaves] in *.
    + rewrite Hsl, drop_all. by apply (at_work_same _ _ _ s).
    + rewrite drop_app_length. cbn [fold_left]. unfold start_writer. cbn [slave_fd slave_stream].
      eapply (at_work_fan _ _ _ _ s); [reflexivity | | done | done | done]. cbn [net fan_event]. by destruct (clients (net s) !! fd').
  - unfold master_turn. by rewrite Hmain, Hvis.
Qed.

(** A turn of the control thread on a command that has arrived. *)
Lemma at_work_command fd m c rest now s :
  command_ok c -> at_work fd m (Protocol.encode c ++ rest) s -> at_work fd (receive now c m) rest (server_event (ControlTurn now) s).
Proof.
  intros Hok (Hmain & Hexit & ss & st & rcv & stop & data & t & Hvis & Hc & Ha & Hy & Hs & Hmg & Hl & Ht & Hu).
  unfold Server.server_event, over. rewrite Hmain. unfold control_turn. rewrite Hmain, Hvis, Hc. cbv zeta. rewrite master_iteration_plain.
  destruct (single_iteration_receives (mkTick (fan_exit (net s)) now [] true) c (with_stream ss st) rest Hok Ha Hexit Hy)
    as (ss' & E & Habs & Hy' & Ha').
  rewrite E. cbn [fst snd Master.session]. destruct m as [l tu u a]. cbn [m_limiter m_tuner m_unknown m_answers] in *.
  destruct (receive_answers now c l tu u) as (l' & tu' & u' & r & Hrec). unfold abs in Habs at 2.
  cbn [rate_limiter tuner unknown_command_count stream with_stream Commands.now] in Habs. rewrite Hl, Ht, Hu, Hs, Hrec in Habs.
  rewrite Hrec. split; [done|]. split; [done|].
  pose proof (f_equal m_limiter Habs) as El. pose proof (f_equal m_tuner Habs) as Et.
  pose proof (f_equal m_unknown Habs) as Eu. pose proof (f_equal m_answers Habs) as Es.
  cbn [abs m_limiter m_tuner m_unknown m_answers] in El, Et, Eu, Es.
  exists ss', (stream ss'), rcv, stop, data, (t ++ r). cbn [net clients visit m_limiter m_tuner m_unknown m_answers].
  rewrite lookup_insert_eq, Es, <- app_assoc. split_and!; try done. by apply merged_more_right.
Qed.

Lemma at_work_run fd events cmds m rest s :
  Forall command_ok cmds -> Forall (fun e => e <> Signal) events -> length (control_instants events) = length cmds ->
  at_work fd m (concat (map Protocol.encode cmds) ++ rest) s ->
  at_work fd (receive_all (zip (control_instants events) cmds) m) rest (server_run events s).
Proof.
  revert cmds m s. induction events as [|e events IH]; intros cmds m s Hok Hsig Hl Hw; [by destruct cmds|].
  apply Forall_cons in Hsig as [He Hsig]. cbn [Server.server_run]. unfold control_instants in *. cbn [omap list_omap] in *.
  destruct (control_instant e) as [now|] eqn:Ec.
  - destruct e; try done. injection Ec as ->. destruct cmds as [|c cmds]; [done|]. apply Forall_cons in Hok as [Hc Hok].
    cbn [zip zip_with receive_all]. apply IH; [done | done | by injection Hl|].
    apply at_work_command; [done|]. cbn [map concat] in Hw. by rewrite <- app_assoc in Hw.
  - apply IH; [done | done | done|]. by apply at_work_other.
Qed.

(** The main thread waits for a master. *)
Definition waiting (s : Server) : Prop :=
  main_at s = Looped /\ visit s = None /\ fan_exit (net s) = false /\ poisoned (server_streams (shared s)) = false.

(** The turn that admits a master. *)
Lemma master_turn_admits fd (st : TcpStream) addr clones epoch t0 t1 s :
  waiting s -> clients (net s) !! fd = None ->
  check_whitelist (ip_to_string (to_canonical addr)) (whitelist args) = Ok tt ->
  0 < read_timeout args -> 0 < write_timeout args -> (forall i, clones i = Ok tt) -> accepts st -> sent st = [] ->
  exists s1 st', server_event (MasterTurn (MasterConnected fd st addr) clones (epoch, t0, t1)) s = s1 /\
    main_at s1 = Looped /\ fan_exit (net s1) = false /\
    visit s1 = Some (fd, mkSession st' (rate_limiter_new epoch t0 t1 COMMAND_RATE_LIMIT_INTERVAL) (server_tuner (shared s)) 0) /\
    clients (net s1) !! fd = Some (mkClient st' (subscribe (fan_tx (net s))) None) /\
    accepts st' /\ rx st' = rx st /\ sent st' = MAGIC_PACKET.
Proof.
  intros (Hmain & Hvis & Hx & Hp) Hfd Hw Hr Hwt Hcl Ha Hs0.
  destruct (master_setup_ok args fd addr clones (fan_tx (net s)) st (shared s) Hw Hr Hwt Hp Hcl Ha) as (st1 & E & Hs1 & Hrx1 & Ha1).
  eexists. eexists. split; [reflexivity|].
  unfold Server.server_event, over. rewrite Hmain. unfold master_turn. rewrite Hmain, Hvis, Hx.
  unfold known. rewrite Hfd. rewrite bool_decide_eq_false_2 by (intros [? [=]]).
  rewrite E. cbv zeta. unfold set_read_timeout, from_secs. destruct (Z.eqb_spec (read_timeout args * 1000000000) 0); [lia|].
  cbn [snd net visit main_at fan_event server_tuner]. rewrite Hfd. cbn [clients fan_exit]. rewrite lookup_insert_eq.
  split; [reflexivity|]. split; [exact Hx|]. split; [reflexivity|]. split; [reflexivity|].
  split; [exact Ha1|]. split; [exact Hrx1|]. cbn [Net.sent]. by rewrite Hs1, Hs0.
Qed.

(** The end of the master's data ends its control thread. *)
Lemma at_work_disconnects fd m tail now s :
  (length tail < COMMAND_HEADER_SIZE)%nat -> at_work fd m tail s ->
  visit (server_event (ControlTurn now) s) = None /\ main_at (server_event (ControlTurn now) s) = Looped /\
  server_tuner (shared (server_event (ControlTurn now) s)) = m_tuner m.
Proof.
  intros Htail (Hmain & Hexit & ss & st & rcv & stop & data & t & Hvis & Hc & Ha & Hy & _ & _ & _ & Ht & _).
  unfold Server.server_event, over. rewrite Hmain. unfold control_turn. rewrite Hmain, Hvis, Hc. cbv zeta. rewrite master_iteration_plain.
  unfold single_iteration. cbn [stream with_stream]. destruct (read_exact_short st tail _ Hy Htail) as (st' & -> & _).
  cbn [read_failed is_timeout is_disconnect_err fst snd Master.session visit main_at shared server_tuner tuner with_stream].
  by rewrite Hexit.
Qed.

(** ** Lemmas: nobody else takes a turn *)

Lemma control_turns_alone fd nows ss s :
  main_at s = Looped -> visit s = Some (fd, ss) -> fan_exit (net s) = false ->
  (exists rcv stop, clients (net s) !! fd = Some (mkClient (stream ss) rcv stop)) ->
  let '(flow, ss') := control_loop single_iteration (map (fun now => mkTick false now [] true) nows) ss in
  let s' := server_run (map ControlTurn nows) s in
  match flow with
  | Continue | Blocked => visit s' = Some (fd, ss') /\ shared s' = shared s /\ over s' = false
  | _ => visit s' = None /\ main_at s' = Looped /\
      shared s' = mkMultiServer (tuner ss') (server_streams (shared s)) (server_nonces (shared s)) (subscribers (shared s))
  end.
Proof.
  revert ss s. induction nows as [|now nows IH]; intros ss s Hm Hv Hx (rcv & stop & Hc).
  { cbn. split_and!; [done | done |]. unfold over. by rewrite Hm. }
  cbn [map control_loop Server.server_run].
  assert (Hw : with_stream ss (stream ss) = ss) by (by destruct ss).
  assert (E : server_event (ControlTurn now) s = control_turn now s) by (unfold Server.server_event, over; by rewrite Hm).
  rewrite E. unfold control_turn. rewrite Hm, Hv, Hc, Hx, Hw. cbv zeta. rewrite master_iteration_plain. clear E.
  assert (Hidle : forall at_ sh n, at_ = Looped \/ at_ = LoopJoining -> forall v, (at_ = Looped -> v = None) ->
    server_run (map ControlTurn nows) (mkServer n sh (admission s) (admission_end s) v at_) =
    mkServer n sh (admission s) (admission_end s) v at_).
  { intros at_ sh n Hat v Hvn. clear IH. induction nows as [|now' nows IH]; [done|]. cbn [map Server.server_run].
    unfold Server.server_event at 1, over, control_turn. cbn [main_at visit]. destruct Hat as [-> | ->]; [rewrite Hvn in * by done|]; apply IH. }
  destruct (single_iteration _ ss) as [[|why| |] ss1]; cbn [fst snd Master.session encryption_nonces].
  - specialize (IH ss1 (mkServer (mkFanout (fan_tx (net s)) false (<[fd:=mkClient (stream ss1) rcv stop]> (clients (net s))))
      (shared s) (admission s) (admission_end s) (Some (fd, ss1)) Looped)).
    apply IH; try done. exists rcv, stop. cbn [net clients]. by rewrite lookup_insert_eq.
  - rewrite Hidle by (done || by left). done.
  - rewrite Hidle by (done || by left). done.
  - rewrite Hidle by (done || by right). done.
Qed.

(** ** Properties *)



End visit.

Section witnesses.
#[local] Existing Instance ten_net.
#[local] Existing Instance list_broadcast.
#[local] Existing Instance log_tuner.
#[local] Existing Instance toy_cipher.

Definition idle_server : Server := server_run no_text multi_args [] (server_start []).



End witnesses.
