(* ===== verification/Failures.v ===== *)
(** * What ends the multi-client server

    [run_serve_multi] ([src/main.rs]) returns, and the process with all its
    threads ends, when the admission of a master fails; no other turn of the
    running server ([Server]) does that.  A slave can bring it about: the
    acceptor clones its socket while it holds the list of streams, and a clone
    that fails poisons the list for the next master. *)

From S2P Require Import Prelude Bytes Io Net Ip Error Control Encryption Stream Commands Interpreter Master Args Serve Fanout Acceptor ServeMulti Server.
From stdpp Require Import gmap strings.
#[local] Open Scope Z_scope.

Section failures.
Context `{StreamCipherLib} `{RtlSdrLib} `{IpNetLib} `{BroadcastLib} (io_display : ErrorKind -> string) (args : Args).
Abbreviation server_event := (server_event io_display args).
Abbreviation server_run := (server_run io_display args).

(** The main thread looks for a master. *)
Definition looking (s : Server) : Prop := main_at s = Looped /\ visit s = None /\ fan_exit (net s) = false.

Definition listed (addr : IpAddr) : Prop := check_whitelist (ip_to_string (to_canonical addr)) (whitelist args) = Ok tt.

(** What [accept] answers, or what becomes of the connection, ends the loop. *)
Definition fatal (answer : MasterAccept) (clones : nat -> io unit) (s : Server) : Prop :=
  match answer with
  | MasterAcceptErr e => e <> WouldBlock
  | MasterConnected fd st addr => known fd s = false /\
      (~ listed addr \/ poisoned (server_streams (shared s)) = true \/ exists i, (i < 4)%nat /\ clones i <> Ok tt)
  end.

(** The operating system's side of it: clones that fail rather than hang, and
    a connection that takes writes. *)
Definition answers_come (answer : MasterAccept) (clones : nat -> io unit) : Prop :=
  (forall i, clones i = Ok tt \/ exists e, clones i = Err e) /\
  match answer with MasterConnected _ st _ => accepts st | _ => True end.

(** ** Lemmas *)

Lemma check_whitelist_answers ip wl : check_whitelist ip wl = Ok tt \/ exists e, check_whitelist ip wl = Err e.
Proof.
  unfold check_whitelist. destruct (bool_decide (wl = [])); [by left|].
  destruct (is_ip_in_whitelist _ _); [by left | right; by eexists].
Qed.

(** How a master's setup ends. *)
Lemma master_setup_outcome fd addr clones ch (st : TcpStream) (sh : MultiServer) :
  0 < read_timeout args -> 0 < write_timeout args -> (forall i, clones i = Ok tt \/ exists e, clones i = Err e) -> accepts st ->
  let r := fst (master_setup args fd addr clones ch (st, sh)) in
  (listed addr /\ poisoned (server_streams sh) = false /\ (forall i, (i < 4)%nat -> clones i = Ok tt) /\ r = Ok tt) \/
  ((~ listed addr \/ poisoned (server_streams sh) = true \/ exists i, (i < 4)%nat /\ clones i <> Ok tt) /\
   ((exists e, r = Err e) \/ r = Panic)).
Proof.
  intros Hr Hw Hcl Ha. cbv zeta. unfold listed, master_setup. cbv zeta.
  destruct (check_whitelist_answers (ip_to_string (to_canonical addr)) (whitelist args)) as [E|[e E]]; rewrite E;
    cbn [pure bind_st fst snd]; [|right; split; [by left | left; by eexists]].
  unfold set_read_timeout, set_write_timeout, from_secs. destruct (Z.eqb_spec (read_timeout args * 1000000000) 0); [lia|].
  cbn [on_stream lift_io bind_st fst snd map_err]. destruct (Z.eqb_spec (write_timeout args * 1000000000) 0); [lia|].
  cbn [on_stream lift_io bind_st fst snd map_err].
  destruct (poisoned (server_streams sh)); [right; split; [by right; left | by right]|].
  assert (Hfail : forall i e, (i < 4)%nat -> clones i = Err e -> ~ (Ok tt : res unit RtlTcpError) = Ok tt \/ true = false \/ exists i, (i < 4)%nat /\ clones i <> Ok tt).
  { intros i e Hi Hci. right. right. exists i. split; [done|]. by rewrite Hci. }
  destruct (Hcl 0%nat) as [E0|[e E0]]; rewrite E0; cbn [pure bind_st fst snd map_err];
    [|right; split; [right; right; exists 0%nat; split; [lia | by rewrite E0] | left; by eexists]].
  destruct (Hcl 1%nat) as [E1|[e E1]]; rewrite E1; cbn [pure bind_st fst snd map_err];
    [|right; split; [right; right; exists 1%nat; split; [lia | by rewrite E1] | left; by eexists]].
  destruct (Hcl 2%nat) as [E2|[e E2]]; rewrite E2; cbn [pure bind_st fst snd map_err];
    [|right; split; [right; right; exists 2%nat; split; [lia | by rewrite E2] | left; by eexists]].
  destruct (send_magic_accepts (Z.to_nat (tcp_buffers args)) (mkTcp (rx st) (tx st) (sent st)
    (Some (read_timeout args * 1000000000)) (Some (write_timeout args * 1000000000))) Ha) as (b & Eb & _).
  cbn [Net.rx Net.tx Net.sent Net.rto Net.wto] in *. rewrite Eb. cbn [on_stream bind_st fst snd pure map_err].
  destruct (Hcl 3%nat) as [E3|[e E3]]; rewrite E3; cbn [map_err];
    [|right; split; [right; right; exists 3%nat; split; [lia | by rewrite E3] | left; by eexists]].
  left. split_and!; try done. intros i Hi. destruct i as [|[|[|[|i]]]]; done || lia.
Qed.

(** The master's turn, on a server that looks for one. *)
Lemma master_turn_over answer clones clock s :
  0 < read_timeout args -> 0 < write_timeout args -> looking s -> answers_come answer clones ->
  (over (server_event (MasterTurn answer clones clock) s) = true <-> fatal answer clones s).
Proof.
  intros Hr Hw (Hm & Hv & Hx) [Hcl Hst]. unfold Server.server_event, over at 2. rewrite Hm. unfold master_turn. rewrite Hm, Hv, Hx.
  destruct answer as [fd st addr|e].
  - unfold fatal. destruct (known fd s) eqn:Ek; [unfold over; rewrite Hm; split; [done | by intros []]|].
    pose proof (master_setup_outcome fd addr clones (fan_tx (net s)) st (shared s) Hr Hw Hcl Hst) as Ho. cbv zeta in Ho.
    destruct (master_setup _ _ _ _ _ _) as [r [st' sh']]. cbn [fst] in Ho. cbv zeta.
    destruct Ho as [(Hl & Hp & Hok & ->)|(Hbad & Hres)].
    + destruct clock as [[epoch t0] t1]. unfold over. cbn [main_at]. split; [done|].
      intros [_ [Hn|[Hn|(i & Hi & Hn)]]]; [done | congruence | by destruct Hn; apply Hok].
    + split; [by intros _|]. intros _. by destruct Hres as [[e ->] | ->].
  - unfold fatal, over. destruct e; cbn [main_at with_main]; rewrite ?Hm; split; done.
Qed.

(** No other turn ends the process. *)
Lemma other_turn_over e s :
  over s = false -> (forall answer clones clock, e <> MasterTurn answer clones clock) -> over (server_event e s) = false.
Proof.
  intros Ho He. unfold Server.server_event. rewrite Ho. destruct e as [block|id| |answer|answer clones clock|now]; try done.
  - unfold slave_turn. destruct (admission_end s); [done|]. destruct (match answer with SlaveAccepted _ _ _ _ _ => _ | _ => _ end); [done|].
    cbv zeta. destruct (acceptor_iteration _ _ _ _ _ _) as [stop a']. exact Ho.
  - by destruct (He answer clones clock).
  - destruct (control_turn_spec now s) as [->|(fd & ss & st & rcv & stop & ss' & flow & Hm & _ & _ & _ & ->)]; [done|].
    unfold over. cbn [main_at]. destruct flow; try done; by destruct (fan_exit (net s)).
Qed.

Lemma master_turn_elsewhere answer clones clock s : ~ looking s -> over s = false ->
  over (server_event (MasterTurn answer clones clock) s) = false.
Proof.
  intros Hn Ho. unfold Server.server_event. rewrite Ho. unfold master_turn.
  destruct (main_at s) eqn:Em; try done. destruct (visit s) eqn:Ev; [done|].
  destruct (fan_exit (net s)) eqn:Ex; [done|]. by destruct Hn.
Qed.

Lemma looking_dec s : looking s \/ ~ looking s.
Proof.
  unfold looking. destruct (main_at s); try (right; by intros (? & _)).
  destruct (visit s); [right; by intros (_ & ? & _)|]. destruct (fan_exit (net s)); [right; by intros (_ & _ & ?) | by left].
Qed.

(** A slave whose socket cannot be cloned. *)
Lemma slave_turn_poisons fd (st : TcpStream) addr c2 s :
  over s = false -> admission_end s = None -> known fd s = false -> fan_exit (net s) = false ->
  (count (admission s) < max_slaves args)%nat -> listed addr -> poisoned (server_streams (shared s)) = false ->
  let s' := server_event (SlaveTurn (SlaveAccepted fd st addr false c2)) s in
  admission_end s' = Some AcceptorPanic /\ poisoned (server_streams (shared s')) = true /\
  main_at s' = main_at s /\ visit s' = visit s /\ net s' = net s.
Proof.
  intros Ho He Hk Hx Hc Hl Hp. cbv zeta. unfold Server.server_event. rewrite Ho. unfold slave_turn. rewrite He, Hk. cbv zeta.
  unfold acceptor_iteration. cbn [slave_exit slave_accept count all_streams]. rewrite Hx.
  destruct (Nat.leb_spec (max_slaves args) (count (admission s))); [lia|]. unfold listed in Hl. rewrite Hl. cbn [is_ok negb].
  rewrite Hp. cbn [slaves]. rewrite drop_all. done.
Qed.

(** ** Properties *)


End failures.

Section witnesses.
#[local] Existing Instance ten_net.
#[local] Existing Instance list_broadcast.
#[local] Existing Instance log_tuner.
#[local] Existing Instance toy_cipher.

Definition quiet_server : Server := server_run no_text multi_args [] (server_start []).


End witnesses.
