(* ===== verification/CaptureBin.v ===== *)
(** * The capture program

    Models [src/bin/capture.rs]: the magic packet and header, the loop that
    turns what the server sends into timestamped chunks buffered in memory, and
    the final flush.  An iteration meets a [CaptureTick]: the exit flag and the
    two readings of the elapsed time, in nanoseconds. *)

From S2P Require Import Prelude Bytes Io Net Error Control Capture Commands Protocol Interpreter Relay.
#[local] Open Scope Z_scope.

(** The arguments the loop uses: [duration] in seconds, [timeout] in seconds,
    [buffer_mem] in bytes. *)
Record CaptureArgs : Type := mkCaptureArgs { duration : Z; timeout : Z; buffer_mem : Z }.

Record CaptureTick : Type := mkCaptureTick { interrupted : bool; elapsed : Z; stamp : Z }.

Record Capture : Type := mkCapture {
  cap_stream : TcpStream;
  cap_file : File;
  cap_buf : list Z;
  total_bytes : Z
}.

Inductive CaptureStop : Type :=
| Interruption
| DurationReached
| ServerClosed
| CaptureReadError (e : ErrorKind)
| FlushFailed
| CapturePanic
| CaptureHung.

(** What the loop does with the bytes of one read. *)
Definition capture_store (args : CaptureArgs) (stamp : Z) (bs : list Z) (c : Capture) : option CaptureStop * Capture :=
  let chunk := mkChunk (as_u64 stamp) bs in
  match write_chunk ([] : list Z) chunk with
  | (Ok _, chunk_buf) =>
    let total := as_u64 (total_bytes c + zlen bs) in
    let buf := cap_buf c ++ chunk_buf in
    if buffer_mem args <=? zlen buf then
      match write_all (cap_file c) buf with
      | (Ok _, file) => (None, mkCapture (cap_stream c) file [] total)
      | (Err _, file) => (Some FlushFailed, mkCapture (cap_stream c) file buf total)
      | (Panic, file) => (Some CapturePanic, mkCapture (cap_stream c) file buf total)
      | (Diverged, file) => (Some CaptureHung, mkCapture (cap_stream c) file buf total)
      end
    else (None, mkCapture (cap_stream c) (cap_file c) buf total)
  | _ => (None, c)
  end.

Definition capture_iteration (args : CaptureArgs) (tick : CaptureTick) (c : Capture) : option CaptureStop * Capture :=
  if interrupted tick then (Some Interruption, c)
  else if from_secs (duration args) <=? elapsed tick then (Some DurationReached, c)
  else
    match read (cap_stream c) READ_BUFFER with
    | (Ok [], st) => (Some ServerClosed, mkCapture st (cap_file c) (cap_buf c) (total_bytes c))
    | (Ok bs, st) => capture_store args (stamp tick) bs (mkCapture st (cap_file c) (cap_buf c) (total_bytes c))
    | (Err e, st) =>
      let c := mkCapture st (cap_file c) (cap_buf c) (total_bytes c) in
      if is_timeout e then (None, c) else (Some (CaptureReadError e), c)
    | (Panic, st) => (Some CapturePanic, mkCapture st (cap_file c) (cap_buf c) (total_bytes c))
    | (Diverged, st) => (Some CaptureHung, mkCapture st (cap_file c) (cap_buf c) (total_bytes c))
    end.

Fixpoint capture_loop (args : CaptureArgs) (ticks : list CaptureTick) (c : Capture) : option CaptureStop * Capture :=
  match ticks with
  | [] => (None, c)
  | tick :: rest =>
    match capture_iteration args tick c with
    | (None, c') => capture_loop args rest c'
    | stop => stop
    end
  end.

(** The last write, whose error is only logged, and the flush. *)
Definition final_flush (c : Capture) : File :=
  let file := if bool_decide (cap_buf c = []) then cap_file c else snd (write_all (cap_file c) (cap_buf c)) in
  snd (flush file).

(** How the program ends: with status 1 at one of the steps before the loop,
    or after the loop. *)
Inductive CaptureExit : Type :=
| NoServer | NoMagic | NoFile | NoHeader
| Captured (stop : option CaptureStop) (file : File) (total : Z).

(** The program, given what connecting to the server and creating the file
    come to; the file is created only once the magic packet is there. *)
Definition capture_main (args : CaptureArgs) (connect : io TcpStream) (create : io File) (ticks : list CaptureTick)
    : CaptureExit :=
  match connect with
  | Ok stream =>
    let stream := snd (set_read_timeout stream (from_secs (timeout args))) in
    match read_exact stream 12 with
    | (Ok magic_payload, stream) =>
      match create with
      | Ok file =>
        match write_header file (mkHeader magic_payload) with
        | (Ok _, file) =>
          let '(stop, c) := capture_loop args ticks (mkCapture stream file [] 0) in
          Captured stop (final_flush c) (total_bytes c)
        | _ => NoHeader
        end
      | _ => NoFile
      end
    | _ => NoMagic
    end
  | _ => NoServer
  end.

(** ** Lemmas *)

Lemma write_chunk_vec chunk : write_chunk ([] : list Z) chunk = (Ok tt, encode_chunk chunk).
Proof. unfold write_chunk. rewrite write_all_vec. cbn [bind_st]. rewrite write_all_vec. cbn [bind_st]. by rewrite write_all_vec, <- app_assoc. Qed.

(** Chunks of what one or more reads returned. *)
Definition fresh (ticks : list CaptureTick) (ch : CaptureChunk) : Prop :=
  (exists tick, tick ∈ ticks /\ timestamp_ns ch = as_u64 (stamp tick)) /\ (0 < length (data ch) <= READ_BUFFER)%nat.

(** Since [c0] the chunks [cs] were captured: on disk, then in the buffer. *)
Definition holding (ticks : list CaptureTick) (f0 : File) (bytes : list Z) (cs : list CaptureChunk) (c : Capture) : Prop :=
  exists on_disk, wrote f0 on_disk (cap_file c) /\ on_disk ++ cap_buf c = encode_chunks cs /\ accepts (cap_file c) /\
    bytes = concat (map data cs) ++ rx_bytes (rx (cap_stream c)) /\
    total_bytes c = as_u64 (zlen (concat (map data cs))) /\ Forall (fresh ticks) cs.

Lemma as_u64_add a b : as_u64 (as_u64 a + b) = as_u64 (a + b).
Proof. unfold as_u64. by rewrite Zplus_mod_idemp_l. Qed.

Lemma capture_store_holds ticks args tick bs f0 bytes cs c :
  tick ∈ ticks -> (0 < length bs <= READ_BUFFER)%nat ->
  holding ticks f0 bytes cs c ->
  forall rest, rx_bytes (rx (cap_stream c)) = bs ++ rest ->
  forall st, rx_bytes (rx st) = rest ->
  exists c', capture_store args (stamp tick) bs (mkCapture st (cap_file c) (cap_buf c) (total_bytes c)) = (None, c') /\
    holding ticks f0 bytes (cs ++ [mkChunk (as_u64 (stamp tick)) bs]) c'.
Proof.
  intros Hin Hlen (d & Hw & He & Ha & Hb & Ht & Hf) rest Hrest st Hst. unfold capture_store. cbv zeta.
  cbn [cap_stream cap_file cap_buf total_bytes]. rewrite write_chunk_vec.
  set (ch := mkChunk (as_u64 (stamp tick)) bs).
  assert (Henc : encode_chunks (cs ++ [ch]) = d ++ cap_buf c ++ encode_chunk ch).
  { unfold encode_chunks in *. rewrite map_app, concat_app, <- He. cbn. by rewrite app_nil_r, <- app_assoc. }
  assert (Hb' : bytes = concat (map data (cs ++ [ch])) ++ rx_bytes (rx st)).
  { rewrite map_app, concat_app. cbn. by rewrite app_nil_r, Hb, Hrest, Hst, app_assoc. }
  assert (Ht' : as_u64 (total_bytes c + zlen bs) = as_u64 (zlen (concat (map data (cs ++ [ch]))))).
  { rewrite Ht, as_u64_add, map_app, concat_app, zlen_app. cbn. by rewrite app_nil_r. }
  assert (Hf' : Forall (fresh ticks) (cs ++ [ch])).
  { apply Forall_app. split; [done|]. constructor; [|constructor]. split; [by exists tick | done]. }
  destruct (_ <=? _).
  - destruct (write_all_accepts (cap_file c) (cap_buf c ++ encode_chunk ch) Ha) as (f' & -> & Hw' & Ha').
    eexists. split; [done|]. exists (d ++ cap_buf c ++ encode_chunk ch). cbn [cap_stream cap_file cap_buf total_bytes].
    rewrite app_nil_r. split_and!; try done. by eapply wrote_app.
  - eexists. split; [done|]. exists d. cbn [cap_stream cap_file cap_buf total_bytes]. by split_and!.
Qed.

Lemma capture_loop_holds ticks0 args ticks f0 bytes cs c stop c' :
  (forall tick, tick ∈ ticks -> tick ∈ ticks0) -> holding ticks0 f0 bytes cs c ->
  capture_loop args ticks c = (stop, c') ->
  stop <> Some FlushFailed /\ exists cs', holding ticks0 f0 bytes cs' c'.
Proof.
  revert cs c. induction ticks as [|tick ticks IH]; intros cs c Hin Hh; cbn [capture_loop].
  { intros; simplify_eq. split; [done|]. by exists cs. }
  unfold capture_iteration. destruct (interrupted tick); [intros; simplify_eq; split; [done | by exists cs]|].
  destruct (_ <=? _); [intros; simplify_eq; split; [done | by exists cs]|].
  assert (Hsame : forall st, rx_bytes (rx (cap_stream c)) = rx_bytes (rx st) ->
    holding ticks0 f0 bytes cs (mkCapture st (cap_file c) (cap_buf c) (total_bytes c))).
  { intros st Hst. destruct Hh as (d & ? & ? & ? & Hb & ? & ?). exists d. cbn [cap_stream cap_file cap_buf total_bytes]. rewrite <- Hst. by split_and!. }
  destruct (read (cap_stream c) READ_BUFFER) as [q st] eqn:Er.
  pose proof (tcp_read_bytes _ _ _ _ Er) as Hrb.
  destruct q as [[|b bs]|e| |]; cbv zeta; try (intros; simplify_eq; split; [done | exists cs; by apply Hsame]).
  - apply read_ok_law in Er as [Hlen _].
    destruct (capture_store_holds ticks0 args tick (b :: bs) f0 bytes cs c) with (rest := rx_bytes (rx st)) (st := st)
      as (c1 & -> & Hh1); [apply Hin; by left | simpl in *; lia | exact Hh | done | done |].
    apply IH with (cs := cs ++ [mkChunk (as_u64 (stamp tick)) (b :: bs)]); [|done]. intros t Ht. apply Hin. by right.
  - destruct (is_timeout e); [|intros; simplify_eq; split; [done | exists cs; by apply Hsame]].
    apply (IH cs); [|by apply Hsame]. intros t Ht. apply Hin. by right.
Qed.

(** A server that sends data, with pauses, and closes. *)
Definition steady (evs : list rx_event) : Prop :=
  Forall (fun e => match e with Data bs => bs <> [] | RErr k => is_timeout k = true end) evs.

Lemma steady_read (st st' : TcpStream) n r :
  (0 < n)%nat -> steady (rx st) -> read st n = (r, st') ->
  steady (rx st') /\
  (r = Ok [] /\ rx st' = [] \/ ((rx_left st' < rx_left st)%nat /\
     ((exists b bs, r = Ok (b :: bs)) \/ exists k, r = Err k /\ is_timeout k = true))).
Proof.
  intros Hn Hs Er. pose proof (tcp_read_left _ _ _ _ Er Hn) as Hlt. revert Er. cbn. unfold tcp_read.
  destruct (rx st) as [|[bs|k] evs] eqn:Hrx.
  - intros [= <- <-]. rewrite Hrx. split; [done | by left].
  - inversion Hs as [|? ? Hb Hs']; subst. destruct (Nat.leb_spec (length bs) n) as [Hle|Hgt]; intros [= <- <-].
    + split; [exact Hs'|]. right. destruct bs as [|b bs]; [done|]. split; [by apply Hlt | left; by eexists _, _].
    + split.
      * constructor; [|done]. intros E. apply (f_equal length) in E. rewrite length_drop in E. simpl in E. lia.
      * right. destruct bs as [|b bs], n as [|n]; try done; try lia. split; [by apply Hlt | left; by eexists _, _].
  - inversion Hs as [|? ? Hb Hs']; subst. intros [= <- <-]. split; [exact Hs'|]. right. split; [by apply Hlt|].
    right. by exists k.
Qed.

Lemma capture_store_stream args at_ bs c : cap_stream (snd (capture_store args at_ bs c)) = cap_stream c.
Proof.
  unfold capture_store. cbv zeta. rewrite write_chunk_vec. destruct (_ <=? _); [|done].
  by destruct (write_all _ _) as [[[]|e| |] f].
Qed.

Lemma capture_loop_completes ticks0 args ticks f0 bytes cs c :
  (forall tick, tick ∈ ticks -> tick ∈ ticks0) -> holding ticks0 f0 bytes cs c -> steady (rx (cap_stream c)) ->
  Forall (fun tick => interrupted tick = false /\ elapsed tick < from_secs (duration args)) ticks ->
  (rx_left (cap_stream c) < length ticks)%nat ->
  exists c', capture_loop args ticks c = (Some ServerClosed, c') /\ rx (cap_stream c') = [].
Proof.
  revert cs c. induction ticks as [|tick ticks IH]; intros cs c Hin Hh Hs Hf Hl; [simpl in Hl; lia|].
  inversion Hf as [|? ? [Hi Hd] Hf']; subst. cbn [capture_loop]. unfold capture_iteration. rewrite Hi.
  destruct (Z.leb_spec (from_secs (duration args)) (elapsed tick)); [lia|].
  destruct (read (cap_stream c) READ_BUFFER) as [q st] eqn:Er. pose proof (tcp_read_bytes _ _ _ _ Er) as Hrb.
  pose proof read_buffer_size.
  destruct (steady_read (cap_stream c) st READ_BUFFER q) as [Hs' [[-> Hnil]|[Hlt [(b & bs & ->)|(k & -> & Hk)]]]]; [lia | done | done | | |].
  - eexists. split; [reflexivity | exact Hnil].
  - cbv zeta. apply read_ok_law in Er as [Hlen _].
    destruct (capture_store_holds ticks0 args tick (b :: bs) f0 bytes cs c) with (rest := rx_bytes (rx st)) (st := st)
      as (c1 & E1 & Hh1); [apply Hin; by left | cbn [length] in Hlen |- *; lia | exact Hh | exact Hrb | reflexivity |].
    rewrite E1. assert (Hst : cap_stream c1 = st).
    { etrans; [|exact (capture_store_stream args (stamp tick) (b :: bs) (mkCapture st (cap_file c) (cap_buf c) (total_bytes c)))].
      by rewrite E1. }
    apply (IH _ _ ltac:(intros t Ht; apply Hin; by right) Hh1); [by rewrite Hst | done | rewrite Hst; cbn [length] in Hl; lia].
  - cbv zeta. rewrite Hk. apply (IH cs); [intros t Ht; apply Hin; by right | | done | done | cbn [length cap_stream] in *; lia].
    destruct Hh as (d & ? & ? & ? & Hb & ? & ?). exists d. cbn [cap_stream cap_file cap_buf total_bytes].
    cbn [app] in Hrb. rewrite <- Hrb. by split_and!.
Qed.

Lemma final_flush_holds ticks f0 bytes cs c :
  holding ticks f0 bytes cs c -> wrote f0 (encode_chunks cs) (final_flush c).
Proof.
  intros (d & Hw & He & Ha & _). unfold final_flush. cbv zeta.
  case_bool_decide as Hb.
  - rewrite Hb, app_nil_r in He. by rewrite <- He.
  - destruct (write_all_accepts (cap_file c) (cap_buf c) Ha) as (f' & -> & Hw' & _). rewrite <- He.
    by apply (wrote_app f0 (cap_file c) f').
Qed.

Lemma fresh_chunk_ok ticks ch : fresh ticks ch -> chunk_ok ch.
Proof.
  intros [(tick & _ & Hts) Hlen]. split.
  - rewrite Hts. unfold is_u64, as_u64. apply Z.mod_pos_bound. lia.
  - pose proof read_buffer_size. unfold is_u32, U32_MAX, zlen. lia.
Qed.

(** The program's run, once it has the magic packet. *)
Lemma capture_main_captures (args : CaptureArgs) (st st1 : TcpStream) (magic : list Z) (script : list tx_event)
    (ticks : list CaptureTick) :
  read_exact (snd (set_read_timeout st (from_secs (timeout args)))) 12 = (Ok magic, st1) -> Forall tx_good script ->
  exists stop cs file total rest, capture_main args (Ok st) (Ok (mkFile [] 0 script [] [])) ticks = Captured stop file total /\
    content file = encode_header (mkHeader magic) ++ encode_chunks cs /\
    rx_bytes (rx st1) = concat (map data cs) ++ rest /\
    Forall (fresh ticks) cs /\ total = as_u64 (zlen (concat (map data cs))) /\
    (forall r : File, yields r (content file) -> exists r1 r2, read_header r = (Ok (mkHeader magic), r1) /\
      read_chunks (S (length cs)) r1 = (cs, Ok tt, r2)) /\
    (steady (rx st1) -> (rx_left st1 < length ticks)%nat ->
     Forall (fun tick => interrupted tick = false /\ elapsed tick < from_secs (duration args)) ticks ->
     stop = Some ServerClosed /\ rest = []).
Proof.
  intros Hm Hs. unfold capture_main. cbv zeta. rewrite Hm.
  destruct (write_header_file (mkFile [] 0 script [] []) (mkHeader magic)) as (f0 & Eh & Ha & Hk & Hrx & Hp & Hc);
    [exact Hs | done | done |].
  rewrite Eh. set (c0 := mkCapture st1 f0 [] 0).
  assert (Hc0 : content f0 = encode_header (mkHeader magic)).
  { rewrite Hc. cbn [fpos Nat.eqb]. rewrite (splice_end _ []). done. }
  destruct (capture_loop args ticks c0) as [stop c1] eqn:El.
  assert (Hh0 : holding ticks f0 (rx_bytes (rx st1)) [] c0) by (exists []; split_and!; try done; apply wrote_nil).
  destruct (capture_loop_holds ticks args ticks f0 (rx_bytes (rx st1)) [] c0 stop c1) as (_ & cs & Hh); [done | done | exact El |].
  pose proof (final_flush_holds _ _ _ _ _ Hh) as (_ & _ & _ & Hw).
  destruct Hh as (d & _ & _ & _ & Hb & Ht & Hf).
  assert (Hcont : content (final_flush c1) = encode_header (mkHeader magic) ++ encode_chunks cs).
  { rewrite Hw by (rewrite Hp, Hc0; simpl; lia). rewrite Hp. cbn [fpos Nat.add]. by rewrite <- Hc0, splice_end. }
  exists stop, cs, (final_flush c1), (total_bytes c1), (rx_bytes (rx (cap_stream c1))).
  split_and!; [reflexivity | exact Hcont | done | done | done | |].
  2: { intros Hst Hl Hticks. destruct (capture_loop_completes ticks args ticks f0 (rx_bytes (rx st1)) [] c0) as (c2 & E2 & Hnil); try done.
       rewrite El in E2. simplify_eq. by rewrite Hnil. }
  intros r Hy. rewrite Hcont in Hy.
  assert (Hh : header_ok (mkHeader magic)).
  { apply read_exact_ok in Hm; [|apply _]. unfold header_ok, is_u32, U32_MAX, zlen. simpl. lia. }
  destruct (read_header_refines r _ Hy) as (r1 & E1 & Hy1).
  rewrite decode_encode_header in E1, Hy1 by done. cbn [fst snd] in E1, Hy1.
  rewrite <- (app_nil_r (encode_chunks cs)) in Hy1.
  destruct (read_chunks_app r1 cs [] (S (length cs))) as (r2 & Hy2 & E2); [| exact Hy1 | lia |].
  { eapply Forall_impl; [exact Hf|]. apply fresh_chunk_ok. }
  destruct (read_chunks_end r2 (S (length cs) - length cs) [] Hy2) as (r3 & E3); [simpl; lia | lia |].
  exists r1, r3. split; [exact E1|]. by rewrite E2, E3, app_nil_r.
Qed.

(** ** Properties *)

(** C13. A capture is faithful: once the magic packet has been read, and on a
    disk that takes the writes (however it splits them), the program's file
    holds the header and chunks whose data, joined, are the bytes it took from
    the server, in order, each chunk stamped with a reading of its clock;
    however the loop stops and whatever the buffer size, the capture readers
    get exactly these back, and the reported total is their length. When the
    server sends, with pauses, and closes before the program is interrupted or
    its duration has passed, it ends with all of the server's bytes. *)
Theorem capture_main_faithful (args : CaptureArgs) (st st1 : TcpStream) (magic : list Z) (script : list tx_event)
    (ticks : list CaptureTick) :
  read_exact (snd (set_read_timeout st (from_secs (timeout args)))) 12 = (Ok magic, st1) -> Forall tx_good script ->
  exists stop cs file total rest, capture_main args (Ok st) (Ok (mkFile [] 0 script [] [])) ticks = Captured stop file total /\
    content file = encode_header (mkHeader magic) ++ encode_chunks cs /\
    rx_bytes (rx st1) = concat (map data cs) ++ rest /\
    Forall (fresh ticks) cs /\ total = as_u64 (zlen (concat (map data cs))) /\
    (forall r : File, yields r (content file) -> exists r1 r2, read_header r = (Ok (mkHeader magic), r1) /\
      read_chunks (S (length cs)) r1 = (cs, Ok tt, r2)) /\
    (steady (rx st1) -> (rx_left st1 < length ticks)%nat ->
     Forall (fun tick => interrupted tick = false /\ elapsed tick < from_secs (duration args)) ticks ->
     stop = Some ServerClosed /\ rest = []).
Proof. apply capture_main_captures. Qed.

(** A flush that fails part of the way and then works again corrupts the
    file: the bytes the disk had taken are written a second time by the final
    flush, in front of which the first copy stays. *)
Theorem failed_flush_duplicates (args : CaptureArgs) (stamp : Z) (bs : list Z) (c : Capture) (k : nat) (e : ErrorKind)
    (script : list tx_event) :
  let buf := cap_buf c ++ encode_chunk (mkChunk (as_u64 stamp) bs) in
  buffer_mem args <= zlen buf -> (0 < k < length buf)%nat -> e <> Interrupted -> Forall tx_good script ->
  ftx (cap_file c) = Accept k :: WErr e :: script -> fpos (cap_file c) = length (content (cap_file c)) ->
  exists c', capture_store args stamp bs c = (Some FlushFailed, c') /\
    content (final_flush c') = content (cap_file c) ++ take k buf ++ buf.
Proof.
  intros buf Hmem Hk He Hs Htx Hpos. unfold capture_store. cbv zeta. rewrite write_chunk_vec. fold buf.
  destruct (Z.leb_spec (buffer_mem args) (zlen buf)); [|lia].
  assert (Hw : write_all (cap_file c) buf = (Err e, mkFile (content (cap_file c) ++ take k buf)
    (length (content (cap_file c)) + k) script (frx (cap_file c)) (fsk (cap_file c)))).
  { unfold write_all. destruct buf as [|x buf'] eqn:Eb; [simpl in Hk; lia|]. rewrite <- Eb in *.
    assert (Hfuel : exists n, (length buf + write_budget (cap_file c) = S (S n))%nat).
    { exists (length buf + write_budget (cap_file c) - 2)%nat. lia. }
    destruct Hfuel as [n ->]. cbn [write_loop]. rewrite Eb at 1. cbn [write File_Write]. unfold file_write at 1. rewrite Htx.
    rewrite Nat.min_l by lia. destruct k as [|k]; [lia|].
    destruct (drop (S k) buf) as [|y rest] eqn:Ed; [apply (f_equal length) in Ed; rewrite length_drop in Ed; simpl in Ed; lia|].
    assert (Hput : file_put (cap_file c) (take (S k) buf) (WErr e :: script) =
      mkFile (content (cap_file c) ++ take (S k) buf) (length (content (cap_file c)) + S k) (WErr e :: script) (frx (cap_file c)) (fsk (cap_file c))).
    { unfold file_put. destruct (take (S k) buf) as [|z t] eqn:Et; [by rewrite Eb in Et|].
      rewrite Hpos, splice_end, <- Et, length_take. do 2 f_equal. lia. }
    rewrite Hput. unfold file_write. cbn [ftx file_put content fpos frx fsk]. by destruct e. }
  rewrite Hw. eexists. split; [reflexivity|]. unfold final_flush. cbn [cap_buf cap_file].
  rewrite bool_decide_false by (intros E; rewrite E in Hk; simpl in Hk; lia). cbv zeta.
  set (f1 := mkFile _ _ _ _ _). assert (Ha1 : accepts f1) by exact Hs. destruct (write_all_accepts f1 buf Ha1) as (f2 & -> & (_ & _ & _ & Hc) & _). cbn [snd flush File_Write].
  unfold f1 in Hc at 1. cbn [fpos content] in Hc. rewrite Hc.
  - unfold f1. cbn [fpos content].
    replace (length (content (cap_file c)) + k)%nat with (length (content (cap_file c) ++ take k buf)).
    + by rewrite splice_end, <- app_assoc.
    + rewrite length_app, length_take. lia.
  - unfold f1. cbn [fpos content]. rewrite length_app, length_take. lia.
Qed.

Lemma capture_main_faithful_witness :
  let st := mkTcp [Data (MAGIC_PACKET ++ [1; 2]); RErr TimedOut; Data [3; 4; 5; 6]] [] [] None None in
  let ticks := map (fun t => mkCaptureTick false t (t + 5)) [10; 20; 30; 40] in
  exists stop cs file total, capture_main (mkCaptureArgs 10 1 20) (Ok st) (Ok (mkFile [] 0 [Accept 3] [] [])) ticks = Captured stop file total /\
    content file = encode_header (mkHeader MAGIC_PACKET) ++ encode_chunks cs /\ total = as_u64 (zlen (concat (map data cs))).
Proof.
  intros st ticks.
  destruct (capture_main_faithful (mkCaptureArgs 10 1 20) st (mkTcp [Data [1; 2]; RErr TimedOut; Data [3; 4; 5; 6]] [] [] (Some (from_secs 1)) None)
    MAGIC_PACKET [Accept 3] ticks) as (stop & cs & file & total & rest & H1 & H2 & _ & _ & H3 & _).
  - reflexivity.
  - repeat constructor.
  - by exists stop, cs, file, total.
Defined.

Lemma failed_flush_duplicates_witness :
  let c := mkCapture (mkTcp [] [] [] None None) (mkFile [9] 1 [Accept 5; WErr OtherError] [] []) [] 0 in
  exists c', capture_store (mkCaptureArgs 10 1 4) 7 [1; 2] c = (Some FlushFailed, c') /\
    content (final_flush c') = [9] ++ take 5 (encode_chunk (mkChunk 7 [1; 2])) ++ encode_chunk (mkChunk 7 [1; 2]).
Proof.
  intros c.
  apply (failed_flush_duplicates (mkCaptureArgs 10 1 4) 7 [1; 2] c 5 OtherError []).
  - by vm_compute.
  - vm_compute. lia.
  - done.
  - constructor.
  - reflexivity.
  - reflexivity.
Defined.
