(* ===== verification/Replay.v ===== *)
(** * The replay program

    Models [src/bin/replay.rs]: the header, the loop that sends the chunks at
    their pace, and the thread that logs the client's commands.  The pace is
    computed in IEEE double precision ([f64]), with the standard library's
    [SpecFloat].  The arithmetic is that of a release build: subtraction of
    timestamps wraps around. *)

From S2P Require Import Prelude Bytes Io Net Control Capture Commands Protocol.
From Stdlib Require Import SpecFloat.
#[local] Open Scope Z_scope.

(** ** The pace *)

Definition f64 : Type := spec_float.
Definition f64_zero : f64 := S754_zero false.
Definition f64_one : f64 := S754_finite false 4503599627370496 (-52).

(** [n as f64]: round to nearest, ties to even. *)
Definition u64_to_f64 (n : Z) : f64 := binary_normalize 53 1024 n 0 false.
Definition f64_div (x y : f64) : f64 := SFdiv 53 1024 x y.

(** [x as u64]: towards zero, saturating, a NaN being 0. *)
Definition f64_to_u64 (x : f64) : Z :=
  match x with
  | S754_finite false m e => Z.min (2 ^ 64 - 1) (Z.shiftl (Zpos m) e)
  | S754_infinity false => 2 ^ 64 - 1
  | _ => 0
  end.

Definition delta_ns (speed : f64) (prev timestamp : Z) : Z :=
  f64_to_u64 (f64_div (u64_to_f64 (as_u64 (timestamp - prev))) speed).

(** ** The loop *)

(** The program's own [is_disconnect_err]. *)
Definition replay_is_disconnect_err (e : ErrorKind) : bool :=
  match e with
  | UnexpectedEof | ConnectionReset | BrokenPipe | ConnectionAborted | NotConnected => true
  | _ => false
  end.

Record ReplayArgs : Type := mkReplayArgs { speed : f64; loop_mode : bool }.

(** [slept] lists the pauses made, in nanoseconds. *)
Record Replay : Type := mkReplay {
  replay_file : File;
  client : TcpStream;
  prev_timestamp : option Z;
  slept : list Z;
  client_quit : bool
}.

Inductive ReplayStop : Type :=
| ReplayFinished
| ReplaySeekFailed (e : ErrorKind)
| ReplayReadError (e : ErrorKind)
| ClientQuit
| ClientDisconnected
| ClientWriteError (e : ErrorKind)
| ReplayPanic
| ReplayHung.

(** The pause before a chunk, and the timestamp kept. *)
Definition pace (args : ReplayArgs) (timestamp : Z) (r : Replay) : Replay :=
  if SFltb f64_zero (speed args) then
    let pauses :=
      match prev_timestamp r with
      | Some prev =>
        let delta := delta_ns (speed args) prev timestamp in
        if 0 <? delta then [delta] else []
      | None => []
      end in
    mkReplay (replay_file r) (client r) (Some timestamp) (slept r ++ pauses) (client_quit r)
  else r.

Definition with_file (r : Replay) (f : File) : Replay :=
  mkReplay f (client r) (prev_timestamp r) (slept r) (client_quit r).
Definition with_client (r : Replay) (c : TcpStream) : Replay :=
  mkReplay (replay_file r) c (prev_timestamp r) (slept r) (client_quit r).
Definition with_prev (r : Replay) (p : option Z) : Replay :=
  mkReplay (replay_file r) (client r) p (slept r) (client_quit r).

Definition replay_iteration (args : ReplayArgs) (first_chunk_offset : nat) (r : Replay) : option ReplayStop * Replay :=
  match read_chunk (replay_file r) with
  | (Ok (Some chunk), f) =>
    let r := with_file r f in
    if client_quit r then (Some ClientQuit, r)
    else
      let r := pace args (timestamp_ns chunk) r in
      match write_all (client r) (data chunk) with
      | (Ok _, c) => (None, with_client r c)
      | (Err e, c) => (Some (if replay_is_disconnect_err e then ClientDisconnected else ClientWriteError e), with_client r c)
      | (Panic, c) => (Some ReplayPanic, with_client r c)
      | (Diverged, c) => (Some ReplayHung, with_client r c)
      end
  | (Ok None, f) =>
    if loop_mode args then
      match seek_start f first_chunk_offset with
      | (Ok _, f) => (None, with_prev (with_file r f) None)
      | (Err e, f) => (Some (ReplaySeekFailed e), with_file r f)
      | (Panic, f) => (Some ReplayPanic, with_file r f)
      | (Diverged, f) => (Some ReplayHung, with_file r f)
      end
    else (Some ReplayFinished, with_file r f)
  | (Err e, f) => (Some (ReplayReadError e), with_file r f)
  | (Panic, f) => (Some ReplayPanic, with_file r f)
  | (Diverged, f) => (Some ReplayHung, with_file r f)
  end.

(** [None] is a loop still running after [n] iterations. *)
Fixpoint replay_loop (args : ReplayArgs) (first_chunk_offset : nat) (n : nat) (r : Replay) : option ReplayStop * Replay :=
  match n with
  | O => (None, r)
  | S n' =>
    match replay_iteration args first_chunk_offset r with
    | (None, r') => replay_loop args first_chunk_offset n' r'
    | stop => stop
    end
  end.

Definition HEADER_FIXED_SIZE : Z := 12.

(** How the program ends: with status 1 at one of the steps before the loop,
    or after the loop ([stop] is [None] when it still runs). *)
Inductive ReplayExit : Type :=
| NoInput | BadHeader (e : ErrorKind) | NoListener | NoClient | MagicNotSent (e : ErrorKind) | NoClone | Crashed
| Replayed (stop : option ReplayStop) (r : Replay).

(** The program, given what opening the file, binding the port, accepting the
    client and cloning its stream for the command logger come to. *)
Definition replay_main (args : ReplayArgs) (n : nat) (open : io File) (bind : io unit) (accept : io TcpStream)
    (try_clone : io unit) : ReplayExit :=
  match open with
  | Ok file =>
    match read_header file with
    | (Ok header, file) =>
      let '(position, file) :=
        match stream_position file with
        | (Ok p, file) => (p, file)
        | (_, file) => (Z.to_nat (HEADER_FIXED_SIZE + zlen (magic_payload header)), file)
        end in
      match bind, accept with
      | Ok _, Ok c =>
        match write_all c (magic_payload header) with
        | (Ok _, c) =>
          match try_clone with
          | Ok _ =>
            let '(stop, r) := replay_loop args position n (mkReplay file c None [] false) in
            let quit := mkReplay (replay_file r) (client r) (prev_timestamp r) (slept r) true in
            Replayed stop (match stop with Some _ => quit | None => r end)
          | _ => NoClone
          end
        | (Err e, _) => MagicNotSent e
        | _ => Crashed
        end
      | Ok _, _ => NoClient
      | _, _ => NoListener
      end
    | (Err e, _) => BadHeader e
    | _ => Crashed
    end
  | _ => NoInput
  end.

(** ** The command logger *)

Inductive LogEntry : Type :=
| LogFrequency (freq : Z)
| LogSampleRate (rate : Z)
| LogGainMode (mode : Z)
| LogTunerGain (gain : Z)
| LogPpm (ppm : Z)
| LogAgc (agc : Z)
| LogChainDetect
| LogUnknown (payload : list Z).

Definition log_command (buf : list Z) : LogEntry :=
  let cmd := nth 0 buf 0 in
  let payload := drop 1 buf in
  if cmd =? CMD_SET_FREQUENCY then LogFrequency (u32_from_be_bytes payload)
  else if cmd =? CMD_SET_SAMPLE_RATE then LogSampleRate (u32_from_be_bytes payload)
  else if cmd =? CMD_SET_GAIN_MODE then LogGainMode (i32_from_be_bytes payload)
  else if cmd =? CMD_SET_TUNER_GAIN then LogTunerGain (i32_from_be_bytes payload)
  else if cmd =? CMD_SET_PPM then LogPpm (i32_from_be_bytes payload)
  else if cmd =? CMD_SET_AGC then LogAgc (u32_from_be_bytes payload)
  else if cmd =? CMD_CHAIN_DETECT then LogChainDetect
  else LogUnknown payload.

Record Logger : Type := mkLogger { cmd_stream : TcpStream; entries : list LogEntry }.

(** One iteration; the quit flag is read only when a read times out. *)
Definition logger_iteration (reader_quit : bool) (l : Logger) : Flow * Logger :=
  match read_exact (cmd_stream l) COMMAND_HEADER_SIZE with
  | (Ok buf, st) => (Continue, mkLogger st (entries l ++ [log_command buf]))
  | (Err e, st) =>
    let l := mkLogger st (entries l) in
    if replay_is_disconnect_err e then (Break Disconnected, l)
    else if is_timeout e then if reader_quit then (Break ExitSet, l) else (Continue, l)
    else (Break (ReadError e), l)
  | (Panic, st) => (Panicked, mkLogger st (entries l))
  | (Diverged, st) => (Blocked, mkLogger st (entries l))
  end.

Definition command_logger (quits : list bool) (l : Logger) : Flow * Logger :=
  control_loop (fun tick => logger_iteration (exit_flag tick)) (map (fun q => mkTick q 0 [] true) quits) l.

Example delta_plain : delta_ns f64_one 1000 51000 = 50000. Proof. reflexivity. Qed.
Example delta_backwards : delta_ns f64_one 5 4 = 2 ^ 64 - 1. Proof. reflexivity. Qed.
Example delta_rounded : delta_ns f64_one 0 9007199254740993 = 9007199254740992. Proof. reflexivity. Qed.

(** ** Lemmas: the loop *)

(** The pauses between chunks of these timestamps. *)
Fixpoint pauses (speed : f64) (prev : option Z) (stamps : list Z) : list Z :=
  match stamps with
  | [] => []
  | t :: rest =>
    match prev with
    | Some p => let d := delta_ns speed p t in if 0 <? d then d :: pauses speed (Some t) rest else pauses speed (Some t) rest
    | None => pauses speed (Some t) rest
    end
  end.
Definition paced (speed : f64) (prev : option Z) (stamps : list Z) : list Z :=
  if SFltb f64_zero speed then pauses speed prev stamps else [].

Lemma pace_slept args t stamps r :
  slept (pace args t r) ++ paced (speed args) (prev_timestamp (pace args t r)) stamps =
    slept r ++ paced (speed args) (prev_timestamp r) (t :: stamps).
Proof.
  unfold pace, paced. destruct (SFltb f64_zero (speed args)); [|done]. cbn [slept prev_timestamp pauses].
  destruct (prev_timestamp r) as [p|]; [|by rewrite app_nil_r]. cbv zeta.
  destruct (0 <? delta_ns (speed args) p t); rewrite <- app_assoc; done.
Qed.

Lemma pace_file args t r : replay_file (pace args t r) = replay_file r /\ client (pace args t r) = client r /\
  client_quit (pace args t r) = client_quit r.
Proof. unfold pace. by destruct (SFltb _ _). Qed.

(** One chunk to a client that takes it. *)
Lemma replay_chunk args off r chunk f :
  read_chunk (replay_file r) = (Ok (Some chunk), f) -> client_quit r = false -> accepts (client r) ->
  exists r', replay_iteration args off r = (None, r') /\ replay_file r' = f /\ client_quit r' = false /\
    accepts (client r') /\ sent (client r') = sent (client r) ++ data chunk /\
    forall stamps, slept r' ++ paced (speed args) (prev_timestamp r') stamps =
      slept r ++ paced (speed args) (prev_timestamp r) (timestamp_ns chunk :: stamps).
Proof.
  intros Er Hq Ha. unfold replay_iteration. rewrite Er. cbv zeta. cbn [client_quit with_file]. rewrite Hq.
  destruct (pace_file args (timestamp_ns chunk) (with_file r f)) as (Hf & Hc & Hq').
  destruct (write_all_accepts (client (pace args (timestamp_ns chunk) (with_file r f))) (data chunk)) as (c & Ew & (Hs & _) & Ha');
    [by rewrite Hc|]. rewrite Ew.
  eexists. split; [done|]. cbn [with_client replay_file client client_quit slept prev_timestamp].
  split_and!; try done; [by rewrite Hq' | by rewrite Hs, Hc |]. intros stamps. apply (pace_slept args (timestamp_ns chunk) stamps (with_file r f)).
Qed.

Definition stop_of (e : io unit) : ReplayStop :=
  match e with Ok _ => ReplayFinished | Err k => ReplayReadError k | Panic => ReplayPanic | Diverged => ReplayHung end.

Lemma replay_loop_reads args off fuel r cs e f' :
  loop_mode args = false -> read_chunks fuel (replay_file r) = (cs, e, f') -> e <> Diverged ->
  client_quit r = false -> accepts (client r) ->
  exists r', replay_loop args off fuel r = (Some (stop_of e), r') /\
    sent (client r') = sent (client r) ++ concat (map data cs) /\
    slept r' = slept r ++ paced (speed args) (prev_timestamp r) (map timestamp_ns cs).
Proof.
  intros Hl. revert r cs. induction fuel as [|fuel IH]; intros r cs; cbn [read_chunks replay_loop].
  { intros [= <- <- <-]. done. }
  destruct (read_chunk (replay_file r)) as [[[chunk|]|k| |] f] eqn:Er; intros Eq Hd Hq Ha.
  - destruct (read_chunks fuel f) as [[cs1 e1] f1] eqn:Erest. simplify_eq.
    destruct (replay_chunk args off r chunk f Er Hq Ha) as (r1 & -> & Hf1 & Hq1 & Ha1 & Hs1 & Hp1).
    destruct (IH r1 cs1) as (r2 & E2 & Hs2 & Hp2); [by rewrite Hf1 | done | done | done |].
    exists r2. split_and!; [done | |].
    + rewrite Hs2, Hs1. cbn. by rewrite app_assoc.
    + rewrite Hp2. by rewrite Hp1.
  - simplify_eq. unfold replay_iteration. rewrite Er, Hl. eexists. split; [reflexivity|]. cbn.
    unfold paced. destruct (SFltb _ _); by rewrite !app_nil_r.
  - simplify_eq. unfold replay_iteration. rewrite Er. eexists. split; [reflexivity|]. cbn.
    unfold paced. destruct (SFltb _ _); by rewrite !app_nil_r.
  - simplify_eq. unfold replay_iteration. rewrite Er. eexists. split; [reflexivity|]. cbn.
    unfold paced. destruct (SFltb _ _); by rewrite !app_nil_r.
  - simplify_eq.
Qed.

(** Reading a file leaves its bytes and its seeks alone. *)
Lemma file_read_keeps (f f' : File) n r :
  read f n = (r, f') -> content f' = content f /\ fsk f' = fsk f.
Proof. cbn. unfold file_read. destruct (frx f) as [|[k|] es]; intros E; by simplify_eq/=. Qed.

Lemma file_read_exact_keeps (f f' : File) n r :
  read_exact f n = (r, f') -> content f' = content f /\ fsk f' = fsk f.
Proof.
  unfold read_exact. generalize (n + read_budget f)%nat as fuel. intros fuel. generalize (@nil Z) as acc.
  revert f n; induction fuel as [|fuel IH]; intros f n acc; (destruct n as [|n]; [intros E; by simplify_eq/=|]);
    [intros E; by simplify_eq/=|].
  cbn [read_exact_loop]. destruct (read f (S n)) as [q f1] eqn:Er.
  destruct (file_read_keeps _ _ _ _ Er) as [<- <-].
  destruct q as [[|b d]|e| |]; try (intros E; by simplify_eq/=); [apply IH|].
  destruct e; try (intros E; by simplify_eq/=). apply IH.
Qed.

Lemma file_read_chunk_keeps (f f' : File) r :
  read_chunk f = (r, f') -> content f' = content f /\ fsk f' = fsk f.
Proof.
  unfold read_chunk. destruct (read_exact f 8) as [q f1] eqn:E1. destruct (file_read_exact_keeps _ _ _ _ E1) as [<- <-].
  destruct q as [ts|e| |]; [| destruct e; intros E; by simplify_eq/= | intros E; by simplify_eq/=..].
  destruct (read_exact f1 4) as [q f2] eqn:E2. destruct (file_read_exact_keeps _ _ _ _ E2) as [<- <-].
  destruct q as [len|e| |]; cbn [bind_st]; try (intros E; by simplify_eq/=).
  destruct (read_exact f2 _) as [q f3] eqn:E3. destruct (file_read_exact_keeps _ _ _ _ E3) as [<- <-].
  destruct q; cbn [bind_st]; intros E; by simplify_eq/=.
Qed.

(** A file positioned on its chunks. *)
Definition on_chunks (body : list Z) (off : nat) (f : File) : Prop :=
  content f = body /\ fsk f = [] /\ Forall frx_good (frx f) /\ fpos f = off.

Lemma replay_round args off body cs r :
  loop_mode args = true -> Forall chunk_ok cs -> drop off body = encode_chunks cs ->
  on_chunks body off (replay_file r) -> client_quit r = false -> accepts (client r) -> prev_timestamp r = None ->
  exists r', (forall n, replay_loop args off (S (length cs) + n) r = replay_loop args off n r') /\
    on_chunks body off (replay_file r') /\ client_quit r' = false /\ accepts (client r') /\ prev_timestamp r' = None /\
    sent (client r') = sent (client r) ++ concat (map data cs) /\
    slept r' = slept r ++ paced (speed args) None (map timestamp_ns cs).
Proof.
  intros Hl Hok Hdrop (Hc & Hk & Hg & Hp) Hq Ha Hprev.
  assert (Hgen : forall ds r, Forall chunk_ok ds -> content (replay_file r) = body -> fsk (replay_file r) = [] ->
    yields (replay_file r) (encode_chunks ds) -> client_quit r = false -> accepts (client r) ->
    exists r', (forall n, replay_loop args off (S (length ds) + n) r = replay_loop args off n r') /\
      on_chunks body off (replay_file r') /\ client_quit r' = false /\ accepts (client r') /\ prev_timestamp r' = None /\
      sent (client r') = sent (client r) ++ concat (map data ds) /\
      slept r' = slept r ++ paced (speed args) (prev_timestamp r) (map timestamp_ns ds)).
  { clear -Hl. induction ds as [|d ds IH]; intros r Hok Hc Hk Hy Hq Ha.
    - destruct (read_chunk_refines_aux (replay_file r) _ Hy) as (f & Er & Hgf & _). unfold decode_chunk in Er. cbn in Er.
      destruct (file_read_chunk_keeps _ _ _ Er) as [Hcf Hkf].
      assert (Es : seek_start f off = (Ok off, mkFile (content f) off (ftx f) (frx f) [])) by (apply seek_start_ok; congruence).
      exists (with_prev (with_file r (mkFile (content f) off (ftx f) (frx f) [])) None). split.
      + intros n. cbn [Nat.add length replay_loop]. unfold replay_iteration at 1. rewrite Er, Hl, Es. done.
      + cbn. unfold paced. destruct (SFltb _ _); rewrite !app_nil_r; split_and!; try done; by rewrite Hcf.
    - inversion Hok; subst. change (encode_chunks (d :: ds)) with (encode_chunk d ++ encode_chunks ds) in Hy.
      destruct (read_chunk_refines_aux (replay_file r) _ Hy) as (f & Er & Hyf). rewrite decode_encode_chunk in Er, Hyf by done.
      destruct (file_read_chunk_keeps _ _ _ Er) as [Hcf Hkf]. cbn [fst] in Er.
      destruct (replay_chunk args off r d f Er Hq Ha) as (r1 & E1 & Hf1 & Hq1 & Ha1 & Hs1 & Hp1). subst f.
      destruct (IH r1) as (r2 & E2 & Ho & Hq2 & Ha2 & Hpr & Hs2 & Hp2); [done | done | congruence | exact Hyf | done | done |].
      exists r2. split.
      + intros n. cbn [length Nat.add replay_loop]. rewrite E1. apply E2.
      + split_and!; try done; [rewrite Hs2, Hs1; cbn; by rewrite app_assoc | by rewrite Hp2, Hp1]. }
  destruct (Hgen cs r) as (r' & H1 & H2 & H3 & H4 & H5 & H6 & H7); try done.
  - split; [done|]. by rewrite Hp, Hc.
  - exists r'. rewrite Hprev in H7. by split_and!.
Qed.

(** ** Lemmas: the logger *)

Definition log_of (c : Command) : LogEntry :=
  match c with
  | SetFrequency z => LogFrequency z
  | SetSampleRate z => LogSampleRate z
  | SetGainMode z => LogGainMode z
  | SetTunerGain z => LogTunerGain z
  | SetPpm z => LogPpm z
  | SetAgc z => LogAgc z
  | ChainDetect _ => LogChainDetect
  | Unsupported _ payload => LogUnknown payload
  end.

Lemma log_command_encode c : command_ok c -> log_command (encode c) = log_of c.
Proof.
  assert (Hu : forall z, is_u32 z -> u32_from_be_bytes (u32_to_be_bytes z) = z)
    by (intros z Hz; by rewrite u32_be_roundtrip, as_u32_small).
  intros Hok; unfold log_command; destruct c as [z|z|z|z|z|z|tag|op payload];
    cbn [encode nth command_ok skipn log_of] in *; cbv zeta;
    unfold CMD_SET_FREQUENCY, CMD_SET_SAMPLE_RATE, CMD_SET_GAIN_MODE, CMD_SET_TUNER_GAIN,
      CMD_SET_PPM, CMD_SET_AGC, CMD_CHAIN_DETECT in *; cbn [Z.eqb Pos.eqb]; cbn iota;
    rewrite ?drop_0, ?Hu, ?i32_be_roundtrip by done; try done.
  destruct Hok as [Hop _]. unfold known_op in Hop. apply bool_decide_eq_false in Hop.
  repeat (apply not_elem_of_cons in Hop as [?%Z.eqb_neq Hop]).
  unfold CMD_SET_FREQUENCY, CMD_SET_SAMPLE_RATE, CMD_SET_GAIN_MODE, CMD_SET_TUNER_GAIN, CMD_SET_PPM, CMD_SET_AGC, CMD_CHAIN_DETECT in *.
  by repeat match goal with E : (op =? _) = false |- _ => rewrite E; clear E end.
Qed.

Lemma command_logger_cons q quits l l' :
  logger_iteration q l = (Continue, l') -> command_logger (q :: quits) l = command_logger quits l'.
Proof. intros E. unfold command_logger. cbn [map control_loop exit_flag]. by rewrite E. Qed.

Lemma command_logger_stops q quits l flow l' :
  logger_iteration q l = (flow, l') -> flow <> Continue -> command_logger (q :: quits) l = (flow, l').
Proof. intros E Hf. unfold command_logger. cbn [map control_loop exit_flag]. rewrite E. by destruct flow. Qed.

(** The whole program, over a file of a header and chunks. *)
Lemma replay_main_sends (args : ReplayArgs) (magic : list Z) (cs : list CaptureChunk) (file : File) (c : TcpStream) :
  loop_mode args = false -> header_ok (mkHeader magic) -> Forall chunk_ok cs ->
  yields file (encode_header (mkHeader magic) ++ encode_chunks cs) -> accepts c ->
  exists r, replay_main args (S (length cs)) (Ok file) (Ok tt) (Ok c) (Ok tt) = Replayed (Some ReplayFinished) r /\ client_quit r = true /\
    sent (client r) = sent c ++ magic ++ concat (map data cs) /\
    slept r = paced (speed args) None (map timestamp_ns cs).
Proof.
  intros Hl Hh Hok Hy Ha. unfold replay_main.
  destruct (read_header_refines file _ Hy) as (f1 & E1 & Hy1). rewrite decode_encode_header in E1, Hy1 by done.
  cbn [fst snd] in E1, Hy1. rewrite E1.
  assert (Hpos : exists p f2, (match stream_position f1 with (Ok p, f) => (p, f)
      | (_, f) => (Z.to_nat (HEADER_FIXED_SIZE + zlen (magic_payload (mkHeader magic))), f) end) = (p, f2) /\
      yields f2 (encode_chunks cs)).
  { cbn [stream_position File_Seek]. unfold file_seek. destruct (fsk f1) as [|[k|] es]; eexists _, _; (split; [reflexivity|]); exact Hy1. }
  destruct Hpos as (p & f2 & -> & Hy2). destruct (write_all_accepts c magic Ha) as (c1 & E2 & (Hs & _) & Ha1). cbn [magic_payload]. rewrite E2.
  rewrite <- (app_nil_r (encode_chunks cs)) in Hy2.
  destruct (read_chunks_app f2 cs [] (S (length cs)) Hok Hy2) as (f3 & Hy3 & E3); [lia|].
  destruct (read_chunks_end f3 (S (length cs) - length cs) [] Hy3) as (f4 & E4); [simpl; lia | lia |].
  rewrite E4, app_nil_r in E3.
  destruct (replay_loop_reads args p (S (length cs)) (mkReplay f2 c1 None [] false) cs (Ok tt) f4) as (r & E5 & Hs5 & Hp5); try done.
  rewrite E5. eexists. split; [reflexivity|]. cbn [client_quit client slept stop_of] in *.
  split_and!; [done | | exact Hp5]. by rewrite Hs5, Hs, <- app_assoc.
Qed.

(** ** Properties *)

(** C39. A replay sends what the file holds: whatever the file (truncated ones
    included), the client gets the data of exactly the chunks the reader gets
    from it, in order, with the pauses their timestamps call for, and the
    program stops at the end of the file, or with the reader's error. *)
Theorem replay_sends_chunks (args : ReplayArgs) (off fuel : nat) (r : Replay) (cs : list CaptureChunk) (e : io unit) (f' : File) :
  loop_mode args = false -> read_chunks fuel (replay_file r) = (cs, e, f') -> e <> Diverged ->
  client_quit r = false -> accepts (client r) ->
  exists r', replay_loop args off fuel r = (Some (stop_of e), r') /\
    sent (client r') = sent (client r) ++ concat (map data cs) /\
    slept r' = slept r ++ paced (speed args) (prev_timestamp r) (map timestamp_ns cs).
Proof. apply replay_loop_reads. Qed.

(** A capture replayed: from a file with a header and chunks, the client
    gets the magic packet of the captured server and then its bytes, and the
    program ends. *)
Theorem replay_of_capture (args : ReplayArgs) (magic : list Z) (cs : list CaptureChunk) (file : File) (c : TcpStream) :
  loop_mode args = false -> header_ok (mkHeader magic) -> Forall chunk_ok cs ->
  yields file (encode_header (mkHeader magic) ++ encode_chunks cs) -> accepts c ->
  exists r, replay_main args (S (length cs)) (Ok file) (Ok tt) (Ok c) (Ok tt) = Replayed (Some ReplayFinished) r /\ client_quit r = true /\
    sent (client r) = sent c ++ magic ++ concat (map data cs) /\
    slept r = paced (speed args) None (map timestamp_ns cs).
Proof. apply replay_main_sends. Qed.

(** Loop mode: on a file that can be read and sought, each round sends the
    same data with the same pauses (the first chunk of a round is not delayed),
    and the program is still running after any number of rounds; in particular
    over a capture without chunks it runs for ever, sending nothing and never
    pausing. *)
Theorem replay_loops (args : ReplayArgs) (off : nat) (body : list Z) (cs : list CaptureChunk) (rounds : nat) (r : Replay) :
  loop_mode args = true -> Forall chunk_ok cs -> drop off body = encode_chunks cs ->
  on_chunks body off (replay_file r) -> client_quit r = false -> accepts (client r) -> prev_timestamp r = None ->
  exists r', replay_loop args off (rounds * S (length cs)) r = (None, r') /\
    sent (client r') = sent (client r) ++ concat (replicate rounds (concat (map data cs))) /\
    slept r' = slept r ++ concat (replicate rounds (paced (speed args) None (map timestamp_ns cs))).
Proof.
  intros Hl Hok Hd. revert r. induction rounds as [|n IH]; intros r Ho Hq Ha Hp.
  - exists r. cbn. by rewrite !app_nil_r.
  - destruct (replay_round args off body cs r Hl Hok Hd Ho Hq Ha Hp) as (r1 & E & Ho1 & Hq1 & Ha1 & Hp1 & Hs1 & Hpa1).
    destruct (IH r1 Ho1 Hq1 Ha1 Hp1) as (r2 & E2 & Hs2 & Hpa2). exists r2.
    change (S n * S (length cs))%nat with (S (length cs) + n * S (length cs))%nat.
    split; [by rewrite E|]. rewrite Hs2, Hs1, Hpa2, Hpa1. cbn [replicate concat]. by rewrite <- !app_assoc.
Qed.

(** The command logger: it logs every command of the client, whatever its
    arguments, answers none of them (the chain probe included), ends when the
    client disconnects, and, once told to quit, at its first timeout. *)
Theorem command_logger_logs (cmds : list Command) (quits : list bool) (tail : list Z) (l : Logger) :
  length quits = length cmds -> Forall command_ok cmds -> (length tail < COMMAND_HEADER_SIZE)%nat ->
  accepts (cmd_stream l) -> yields (cmd_stream l) (concat (map encode cmds) ++ tail) ->
  (forall last, exists st, command_logger (quits ++ [last]) l = (Break Disconnected, mkLogger st (entries l ++ map log_of cmds)) /\
     sent st = sent (cmd_stream l)) /\
  (forall e st, is_timeout e = true -> read_exact (cmd_stream l) COMMAND_HEADER_SIZE = (Err e, st) ->
     forall more, command_logger (true :: more) l = (Break ExitSet, mkLogger st (entries l))).
Proof.
  intros Hlen Hok Ht Ha Hy. split.
  - intros last. clear Ha. revert quits l Hlen Hy. induction Hok as [|c cmds Hc Hok IH]; intros [|q quits] l Hlen Hy; try done.
    + destruct (read_exact_short (cmd_stream l) tail _ Hy Ht) as (st & Er & _).
      destruct (read_exact_sent _ _ _ _ Er) as [Hs _]. exists st. rewrite app_nil_r. split; [|done].
      apply command_logger_stops; [|done]. unfold logger_iteration. by rewrite Er.
    + cbn [map concat] in Hy. rewrite <- app_assoc in Hy.
      destruct (read_exact_yields (cmd_stream l) _ _ COMMAND_HEADER_SIZE Hy (length_encode c Hc)) as (st & Er & Hy1).
      destruct (read_exact_sent _ _ _ _ Er) as [Hs _].
      destruct (IH quits (mkLogger st (entries l ++ [log_of c]))) as (st2 & E2 & Hs2); [simpl in Hlen; lia | done |].
      exists st2. rewrite <- app_comm_cons. rewrite (command_logger_cons _ _ _ (mkLogger st (entries l ++ [log_of c]))).
      * rewrite E2. cbn [entries map cmd_stream] in *. rewrite <- app_assoc. split; [done | congruence].
      * unfold logger_iteration. by rewrite Er, log_command_encode.
  - intros e st He Er more. apply command_logger_stops; [|done]. unfold logger_iteration. rewrite Er. cbv zeta.
    rewrite He. by destruct e.
Qed.

Section witnesses.
Let file_bytes : list Z := encode_header (mkHeader MAGIC_PACKET) ++ encode_chunks [mkChunk 1000 [1; 2]; mkChunk 51000 [3; 4]].
Let live : TcpStream := mkTcp [] [Accept 1] [] None None.

Lemma replay_sends_chunks_witness :
  let cut := take 30 (encode_chunks [mkChunk 1000 [1; 2]; mkChunk 51000 [3; 4]; mkChunk 60000 [5]]) in
  exists r', replay_loop (mkReplayArgs f64_one false) 0 4 (mkReplay (cursor cut) live None [] false) =
      (Some ReplayFinished, r') /\
    sent (client r') = [] ++ [1; 2; 3; 4] /\ slept r' = [] ++ [50000].
Proof.
  intros cut.
  apply (replay_sends_chunks (mkReplayArgs f64_one false) 0 4 (mkReplay (cursor cut) live None [] false)
    [mkChunk 1000 [1; 2]; mkChunk 51000 [3; 4]] (Ok tt) (mkFile cut 30 [] [] [])); try reflexivity.
  - done.
  - repeat constructor.
Defined.

Lemma replay_of_capture_witness :
  exists r, replay_main (mkReplayArgs f64_one false) 3 (Ok (cursor file_bytes)) (Ok tt) (Ok live) (Ok tt) = Replayed (Some ReplayFinished) r /\
    client_quit r = true /\ sent (client r) = [] ++ MAGIC_PACKET ++ [1; 2; 3; 4] /\ slept r = [50000].
Proof.
  apply (replay_of_capture (mkReplayArgs f64_one false) MAGIC_PACKET [mkChunk 1000 [1; 2]; mkChunk 51000 [3; 4]] (cursor file_bytes) live).
  - reflexivity.
  - split; by vm_compute.
  - repeat constructor; by vm_compute.
  - split; [constructor | reflexivity].
  - repeat constructor.
Defined.

Lemma replay_loops_witness :
  let r := mkReplay (mkFile file_bytes 24 [] [] []) live None [] false in
  exists r', replay_loop (mkReplayArgs f64_one true) 24 (2 * 3) r = (None, r') /\
    sent (client r') = [] ++ [1; 2; 3; 4; 1; 2; 3; 4] /\ slept r' = [] ++ [50000; 50000].
Proof.
  intros r.
  apply (replay_loops (mkReplayArgs f64_one true) 24 file_bytes [mkChunk 1000 [1; 2]; mkChunk 51000 [3; 4]] 2 r); try reflexivity.
  - repeat constructor; by vm_compute.
  - split_and!; try reflexivity. constructor.
  - repeat constructor.
Defined.

Lemma command_logger_logs_witness :
  let cmds := [SetFrequency 4294967295; ChainDetect [80; 82; 79; 88]] in
  let l := mkLogger (mkTcp [Data (concat (map encode cmds)); Data [1]] [] [] None None) [] in
  exists st, command_logger [false; true; true] l = (Break Disconnected, mkLogger st [LogFrequency 4294967295; LogChainDetect]) /\
    sent st = [].
Proof.
  intros cmds l.
  apply (proj1 (command_logger_logs cmds [false; true] [1] l eq_refl ltac:(repeat constructor; by vm_compute)
    ltac:(unfold COMMAND_HEADER_SIZE; simpl; lia) ltac:(constructor) ltac:(split; [by repeat constructor | reflexivity])) true).
Defined.
End witnesses.
