(* ===== verification/RecordReplay.v ===== *)
(** * From the tuner to a file and back to a client

    The single-client server ([Serve]), the capture program ([CaptureBin]) and
    the replay program ([Replay]) one after the other. *)

From S2P Require Import Prelude Bytes Io Net Ip Error Control Capture Commands Protocol Interpreter Serve CaptureBin Replay.
#[local] Open Scope Z_scope.

(** What [read_exact] takes from a socket's script. *)
Lemma tcp_read_exact_bytes (st st' : TcpStream) n bs :
  read_exact st n = (Ok bs, st') -> rx_bytes (rx st) = bs ++ rx_bytes (rx st').
Proof.
  unfold read_exact. generalize (n + read_budget st)%nat as fuel. intros fuel.
  enough (Hg : forall acc, read_exact_loop fuel st n acc = (Ok bs, st') -> acc ++ rx_bytes (rx st) = bs ++ rx_bytes (rx st'))
    by (apply (Hg [])).
  revert st n. induction fuel as [|fuel IH]; intros st n acc; (destruct n as [|n]; [intros E; by simplify_eq/=|]); [done|].
  cbn [read_exact_loop]. destruct (read st (S n)) as [q s1] eqn:Er. apply Relay.tcp_read_bytes in Er. rewrite Er.
  destruct q as [[|b d]|e| |]; try done.
  - intros E. apply IH in E. by rewrite <- E, <- app_assoc.
  - destruct e; try done. apply IH.
Qed.

(** C14. Recording and replaying: a server that has sent the tuner's blocks to
    its client without a shutdown request, a capture program that reads that
    connection to its end (however it is segmented, with whatever pauses), on a
    disk that takes the writes, and a replay program that reads the file give
    the replay's client, byte for byte, what the server sent: the magic packet
    and the blocks; its pauses are those of the capture's clock. *)
Theorem record_and_replay (tcp_buffers : nat) (st : TcpStream) (b : BufWriter TcpStream) (blocks : list (list Z))
    (cargs : CaptureArgs) (cst cst1 : TcpStream) (magic : list Z) (script : list tx_event) (ticks : list CaptureTick)
    (rargs : ReplayArgs) :
  sent st = [] -> send_magic tcp_buffers st = (Ok tt, b) ->
  let p := read_async blocks (mkPump b 0 0) in
  shutdown_requests p = O ->
  rx_bytes (rx cst) = sent (inner (buf_write_stream p)) ->
  read_exact (snd (set_read_timeout cst (from_secs (timeout cargs)))) 12 = (Ok magic, cst1) ->
  steady (rx cst1) -> (rx_left cst1 < length ticks)%nat ->
  Forall (fun tick => interrupted tick = false /\ elapsed tick < from_secs (duration cargs)) ticks ->
  Forall tx_good script -> loop_mode rargs = false ->
  exists cs file, capture_main cargs (Ok cst) (Ok (mkFile [] 0 script [] [])) ticks =
      Captured (Some ServerClosed) file (as_u64 (zlen (concat blocks))) /\
    concat (map data cs) = concat blocks /\ Forall (fresh ticks) cs /\
    forall (r : File) (c : TcpStream), yields r (content file) -> accepts c ->
      exists out, replay_main rargs (S (length cs)) (Ok r) (Ok tt) (Ok c) (Ok tt) = Replayed (Some ReplayFinished) out /\
        sent (client out) = sent c ++ sent (inner (buf_write_stream p)) /\
        slept out = paced (speed rargs) None (map timestamp_ns cs).
Proof.
  intros Hs0 Hmagic p Hreq Hwire Hread Hsteady Hleft Hticks Hscript Hloop.
  destruct (proj1 (magic_then_blocks tcp_buffers st b blocks Hmagic) Hreq) as [Hsent _]. fold p in Hsent. rewrite Hs0 in Hsent.
  assert (Hbytes : rx_bytes (rx cst) = magic ++ rx_bytes (rx cst1)).
  { apply tcp_read_exact_bytes in Hread. rewrite <- Hread. unfold set_read_timeout. by destruct (_ =? 0). }
  assert (Hlen : length magic = length MAGIC_PACKET) by (by apply read_exact_ok in Hread; [|apply _]).
  rewrite Hwire, Hsent in Hbytes. cbn [app] in Hsent. change ([] ++ MAGIC_PACKET ++ concat blocks) with (MAGIC_PACKET ++ concat blocks) in Hbytes.
  apply app_inj_1 in Hbytes as [<- Hblocks]; [|done].
  destruct (capture_main_captures cargs cst cst1 MAGIC_PACKET script ticks Hread Hscript)
    as (stop & cs & file & total & rest & Ecap & Hcont & Hrest & Hfresh & Htotal & _ & Hdone).
  destruct (Hdone Hsteady Hleft Hticks) as [-> ->]. rewrite app_nil_r in Hrest.
  assert (Hdata : concat (map data cs) = concat blocks) by congruence.
  exists cs, file. split_and!; [by rewrite Ecap, Htotal, Hdata | done | done |].
  intros r c Hy Ha. rewrite Hcont in Hy.
  destruct (replay_main_sends rargs MAGIC_PACKET cs r c) as (out & Er & _ & Hout & Hpace); try done.
  - eapply Forall_impl; [exact Hfresh|]. apply fresh_chunk_ok.
  - exists out. split_and!; [done | | done]. by rewrite Hout, Hdata, Hsent.
Qed.

Lemma record_and_replay_witness :
  let st := mkTcp [] [Accept 5; WErr Interrupted] [] None None in
  let b := snd (send_magic 16 st) in
  let blocks := [[1; 2; 3]; replicate 20 7; [4]] in
  let p := read_async blocks (mkPump b 0 0) in
  let wire := sent (inner (buf_write_stream p)) in
  let cst := mkTcp [Data (take 20 wire); RErr TimedOut; Data (drop 20 wire)] [] [] None None in
  let ticks := map (fun t => mkCaptureTick false t (t + 5)) (map Z.of_nat (seq 0 40)) in
  exists (cs : list CaptureChunk) (file : File) (out : Replay), capture_main (mkCaptureArgs 10 1 20) (Ok cst) (Ok (mkFile [] 0 [Accept 3] [] [])) ticks =
      Captured (Some ServerClosed) file (as_u64 24) /\
    replay_main (mkReplayArgs f64_one false) (S (length cs)) (Ok (cursor (content file))) (Ok tt) (Ok (mkTcp [] [] [] None None)) (Ok tt) = Replayed (Some ReplayFinished) out /\
    sent (client out) = MAGIC_PACKET ++ [1; 2; 3] ++ replicate 20 7 ++ [4].
Proof.
  intros st b blocks p wire cst ticks.
  destruct (record_and_replay 16 st b blocks (mkCaptureArgs 10 1 20) cst
    (mkTcp [Data (take 8 (drop 12 wire)); RErr TimedOut; Data (drop 20 wire)] [] [] (Some (from_secs 1)) None)
    MAGIC_PACKET [Accept 3] ticks (mkReplayArgs f64_one false)) as (cs & file & E & _ & _ & Hr).
  - reflexivity.
  - by vm_compute.
  - by vm_compute.
  - by vm_compute.
  - by vm_compute.
  - repeat (constructor; [by vm_compute|]). constructor.
  - vm_compute. lia.
  - repeat constructor; by vm_compute.
  - repeat constructor.
  - reflexivity.
  - destruct (Hr (cursor (content file)) (mkTcp [] [] [] None None)) as (out & Er & Hs & _).
    + split; [constructor | reflexivity].
    + constructor.
    + exists cs, file, out. split; [exact E|]. split; [exact Er|]. rewrite Hs. by vm_compute.
Defined.
