(* ===== verification/ProxyMulti.v ===== *)
(** * The proxy

    Models the setup and the master loop of [run_proxy_multi] ([src/main.rs]).
    The upstream connection is made once and outlives the local masters, whose
    control threads forward through it one after the other ([Relay]).  As in
    [ServeMulti], an iteration meets a [ProxyTick] and the local master's
    socket is seen from the main thread and the control thread. *)

From S2P Require Import Prelude Bytes Io Net Ip Error Control Encryption Stream Commands Interpreter Args Serve Proxy Relay.
From stdpp Require Import strings.
#[local] Open Scope Z_scope.

Section proxy_multi.
Context `{StreamCipherLib} `{RtlSdrLib} `{IpNetLib} `{BroadcastLib} (io_display : ErrorKind -> string).

(** ** The setup, up to the upstream connection *)

Definition proxy_setup (env : ServeEnv) (hex_decode : string -> res (list Z) string) (fs_read : string -> io (list Z))
    (bind_slave : string -> io (Listener env)) (connect : string -> io TcpStream) (nonce : list Z) (args : Args)
    : res (UpstreamConnection * Listener env * option (Listener env)) RtlTcpError :=
  match upstream args with
  | None => Err (Config "--upstream required in proxy mode")
  | Some _ =>
    let? _ := map_err (fun e => Config ("could not set signal handler: " +:+ e)) (set_handler env) in
    let? master_listener := bind_master_port env args in
    let? slave_listener :=
      match slave_port args with
      | Some sp => let? l := map_err from_io (bind_slave (address args +:+ ":" +:+ u16_to_string sp)%string) in Ok (Some l)
      | None => Ok None
      end in
    let? host_port := parse_upstream args in
    let? encryption_key := parse_encryption_key hex_decode fs_read io_display args in
    let? upstream_conn := connect_upstream io_display connect (fst host_port) (snd host_port) encryption_key (from_millis 500) nonce in
    Ok (upstream_conn, master_listener, slave_listener)
  end.

(** ** The master loop *)

Inductive ProxyAccept : Type :=
| ProxyConnected (fd : nat) (stream : TcpStream) (addr : IpAddr)
| ProxyAcceptErr (e : ErrorKind).

Record ProxyTick : Type := mkProxyTick {
  proxy_exit_before : bool;
  proxy_accept : ProxyAccept;
  proxy_clones : nat -> io unit;
  proxy_tx : Chan;
  proxy_clock : Z * Z * Z;
  proxy_ctl_ticks : list Tick;
  proxy_exit_after : bool
}.

Record ProxyServer : Type := mkProxyServer {
  upstream_write_cipher : Mutex (option ChaCha20);
  upstream_ctl_stream : Mutex TcpStream;
  proxy_subscribers : list (nat * Receiver)
}.

Inductive ProxyEnd : Type := ProxyLooped | ProxyBreak | ProxyFailed (e : RtlTcpError) | ProxyPanic | ProxyJoining.

(** [send_magic] with the upstream's magic packet. *)
Definition send_cached_magic (tcp_buffers : nat) (magic : list Z) (stream : TcpStream) : res unit RtlTcpError * TcpStream :=
  let bufw := bufwriter_with_capacity tcp_buffers stream in
  let '(r, b) :=
    let? _ @ b := lift_io (bufwriter_write_all bufw magic) in
    lift_io (bufwriter_flush b) in
  (r, inner b).

(** From the accepted connection to its control thread: the master is
    subscribed after it was sent the magic packet. *)
Definition local_master_setup (args : Args) (magic : list Z) (addr : IpAddr) (clones : nat -> io unit) (stream : TcpStream)
    : res unit RtlTcpError * TcpStream :=
  let client_ip := ip_to_string (to_canonical addr) in
  let? _ @ stream := (check_whitelist client_ip (whitelist args), stream) in
  let? _ @ stream := lift_io (set_read_timeout stream (from_secs (read_timeout args))) in
  let? _ @ stream := lift_io (set_write_timeout stream (from_secs (write_timeout args))) in
  let? _ @ stream := (map_err from_io (clones 0%nat), stream) in
  let? _ @ stream := send_cached_magic (Z.to_nat (tcp_buffers args)) magic stream in
  (map_err from_io (clones 1%nat), stream).

Definition proxy_iteration (args : Args) (magic : list Z) (tick : ProxyTick) (s : ProxyServer) : ProxyEnd * ProxyServer :=
  if proxy_exit_before tick then (ProxyBreak, s)
  else
    match proxy_accept tick with
    | ProxyAcceptErr WouldBlock => (ProxyLooped, s)
    | ProxyAcceptErr e => (ProxyFailed (Network ("master accept error: " +:+ io_display e)), s)
    | ProxyConnected fd stream addr =>
      match local_master_setup args magic addr (proxy_clones tick) stream with
      | (Ok _, stream) =>
        let subs := proxy_subscribers s ++ [(fd, subscribe (proxy_tx tick))] in
        let '(epoch, t0, t1) := proxy_clock tick in
        let '(flow, f) := control_loop forward_iteration (proxy_ctl_ticks tick)
          (mkForwarder stream (rate_limiter_new epoch t0 t1 COMMAND_RATE_LIMIT_INTERVAL) (upstream_write_cipher s) (upstream_ctl_stream s)) in
        let s := mkProxyServer (write_cipher f) (ustream f) subs in
        match flow with
        | Continue | Blocked => (ProxyJoining, s)
        | Break _ | Panicked => if proxy_exit_after tick then (ProxyBreak, s) else (ProxyLooped, s)
        end
      | (Err e, _) => (ProxyFailed e, s)
      | (Panic, _) => (ProxyPanic, s)
      | (Diverged, _) => (ProxyJoining, s)
      end
    end.

Fixpoint proxy_loop (args : Args) (magic : list Z) (ticks : list ProxyTick) (s : ProxyServer) : ProxyEnd * ProxyServer :=
  match ticks with
  | [] => (ProxyLooped, s)
  | tick :: rest =>
    match proxy_iteration args magic tick s with
    | (ProxyLooped, s') => proxy_loop args magic rest s'
    | stop => stop
    end
  end.

(** ** Lemmas *)

Lemma send_cached_magic_accepts n magic (st : TcpStream) :
  accepts st -> exists st', send_cached_magic n magic st = (Ok tt, st') /\ wrote st magic st' /\ accepts st'.
Proof.
  intros Ha. unfold send_cached_magic. cbv zeta. set (b0 := bufwriter_with_capacity n st).
  assert (Hs0 : settled st [] b0) by (split; [apply wrote_nil | done]).
  destruct (bufwriter_write_all_accepts b0 magic Ha) as (b1 & E1 & Ha1).
  destruct (bufwriter_flush_accepts b1 Ha1) as (b2 & E2 & Ha2).
  pose proof (settled_write _ _ _ _ _ _ Hs0 E1 E2) as [Hw _]. rewrite E1. cbn [lift_io fst snd map_err bind_st].
  rewrite E2. by exists (inner b2).
Qed.

Lemma local_master_setup_ok args magic addr clones (st : TcpStream) :
  check_whitelist (ip_to_string (to_canonical addr)) (whitelist args) = Ok tt ->
  0 < read_timeout args -> 0 < write_timeout args -> (forall i, clones i = Ok tt) -> accepts st ->
  exists st', local_master_setup args magic addr clones st = (Ok tt, st') /\
    sent st' = sent st ++ magic /\ rx st' = rx st /\ accepts st'.
Proof.
  intros Hw Hr Hwt Hc Ha. unfold local_master_setup. cbv zeta. rewrite Hw. cbn [bind_st].
  unfold set_read_timeout, set_write_timeout, from_secs. destruct (Z.eqb_spec (read_timeout args * 1000000000) 0); [lia|].
  cbn [lift_io bind_st fst snd map_err].
  destruct (Z.eqb_spec (write_timeout args * 1000000000) 0); [lia|].
  cbn [lift_io bind_st fst snd map_err]. rewrite !Hc. cbn [bind_st map_err].
  destruct (send_cached_magic_accepts (Z.to_nat (tcp_buffers args)) magic (mkTcp (rx st) (tx st) (sent st)
    (Some (read_timeout args * 1000000000)) (Some (write_timeout args * 1000000000))) Ha) as (st' & E & (Hs & Hrx & _) & Ha').
  cbn [Net.rx Net.tx Net.sent Net.rto Net.wto] in *. rewrite E. by exists st'.
Qed.

(** The visits of local masters: for each, its tick, its socket, the blocks it
    sends and the schedule of its control thread. *)
Record Visit : Type := mkVisit {
  v_tick : ProxyTick;
  v_stream : TcpStream;
  v_fd : nat;
  v_addr : IpAddr;
  v_clock : Z * Z * Z;
  v_blocks : list (list Z);
  v_tail : list Z;
  v_ticks : list Tick;
  v_last : Tick
}.

Definition visit_ok (args : Args) (v : Visit) : Prop :=
  proxy_exit_before (v_tick v) = false /\ proxy_exit_after (v_tick v) = false /\
  proxy_accept (v_tick v) = ProxyConnected (v_fd v) (v_stream v) (v_addr v) /\ (forall i, proxy_clones (v_tick v) i = Ok tt) /\
  proxy_clock (v_tick v) = v_clock v /\ proxy_ctl_ticks (v_tick v) = v_ticks v ++ [v_last v] /\
  check_whitelist (ip_to_string (to_canonical (v_addr v))) (whitelist args) = Ok tt /\
  length (v_ticks v) = length (v_blocks v) /\ Forall (fun b => length b = COMMAND_HEADER_SIZE) (v_blocks v) /\
  Forall (fun t => exit_flag t = false) (v_ticks v) /\ accepts (v_stream v) /\
  yields (v_stream v) (concat (v_blocks v) ++ v_tail v) /\ (length (v_tail v) < COMMAND_HEADER_SIZE)%nat.

(** What the proxy forwards of a visit. *)
Definition forwarded (v : Visit) : list (list Z) :=
  let '(epoch, t0, t1) := v_clock v in
  admitted (rate_limiter_new epoch t0 t1 COMMAND_RATE_LIMIT_INTERVAL) (zip (map now (v_ticks v)) (v_blocks v)).

Lemma admitted_length {A} rl nows (l : list A) : (length (admitted rl (zip nows l)) <= length l)%nat.
Proof.
  revert rl l; induction nows as [|n nows IH]; intros rl [|a l]; simpl; try lia.
  destruct (rate_limiter_check rl n) as [[] rl']; simpl; specialize (IH rl' l); lia.
Qed.

Lemma zlen_blocks (bs : list (list Z)) :
  Forall (fun b => length b = COMMAND_HEADER_SIZE) bs -> zlen (concat bs) = 5 * zlen bs.
Proof.
  induction 1 as [|b bs Hb _ IH]; [done|]. cbn [concat]. rewrite zlen_app, IH, zlen_cons.
  unfold zlen at 1. rewrite Hb. unfold COMMAND_HEADER_SIZE. lia.
Qed.

Lemma admitted_blocks rl nows (bs : list (list Z)) :
  Forall (fun b => length b = COMMAND_HEADER_SIZE) bs ->
  Forall (fun b => length b = COMMAND_HEADER_SIZE) (admitted rl (zip nows bs)).
Proof.
  intros Hb. revert rl nows; induction Hb as [|b bs Hb _ IH]; intros rl [|n nows]; try constructor. cbn.
  destruct (rate_limiter_check rl n) as [[] rl']; [constructor; [done|]|]; apply IH.
Qed.

(** ** Properties *)

(** C30. The proxy serves its local masters one after the other over the one
    upstream connection: each that passes the whitelist is subscribed and has
    the blocks its own rate limiter admits forwarded, in the order of the
    visits, and on an encrypted chain the keystream goes on from one master to
    the next, as the server, for which they are one session, decrypts them. *)
Theorem proxy_visits (args : Args) (magic : list Z) (vs : list Visit) (s : ProxyServer) :
  0 < read_timeout args -> 0 < write_timeout args -> Forall (visit_ok args) vs ->
  poisoned (upstream_ctl_stream s) = false -> accepts (guarded (upstream_ctl_stream s)) ->
  room (guarded (upstream_write_cipher s)) (5 * zlen (concat (map v_blocks vs))) ->
  exists s', proxy_loop args magic (map v_tick vs) s = (ProxyLooped, s') /\
    sent (guarded (upstream_ctl_stream s')) = sent (guarded (upstream_ctl_stream s)) ++
      on_wire (guarded (upstream_write_cipher s)) (concat (concat (map forwarded vs))) /\
    map fst (proxy_subscribers s') = map fst (proxy_subscribers s) ++ map v_fd vs.
Proof.
  intros Hr Hwt. revert s. induction vs as [|v vs IH]; intros s Hvs Hp Ha Hroom.
  { exists s. cbn. split_and!; [done | | by rewrite app_nil_r]. destruct (guarded (upstream_write_cipher s)); by rewrite app_nil_r. }
  inversion Hvs as [|? ? Hv Hvs']; subst. cbn [map concat] in Hroom. rewrite zlen_app in Hroom.
  destruct Hv as (Hb & Haf & Hacc & Hcl & Hck & Hct & Hw & Hl & Hbl & Hex & Hav & Hy & Ht).
  cbn [map proxy_loop]. unfold proxy_iteration. rewrite Hb, Hacc, Haf.
  destruct (local_master_setup_ok args magic (v_addr v) (proxy_clones (v_tick v)) (v_stream v) Hw Hr Hwt Hcl Hav) as (st1 & -> & _ & Hrx & _).
  rewrite Hck, Hct. unfold forwarded. cbn [map]. destruct (v_clock v) as [[epoch t0] t1] eqn:Ev. cbv zeta.
  set (f0 := mkForwarder _ _ _ _).
  assert (Hy1 : yields (master_stream f0) (concat (v_blocks v) ++ v_tail v)) by (unfold f0; simpl in *; by rewrite Hrx).
  pose proof (zlen_nonneg (concat (map v_blocks vs))).
  destruct (forward_disconnects (v_ticks v) (v_last v) (v_blocks v) (v_tail v) f0 Hl Hbl Hex Hy1 Ht Hp Ha) as (f1 & E & (Hs & Hc & Hp1 & Ha1)).
  { rewrite zlen_blocks by done. eapply room_le; [|exact Hroom]. lia. }
  rewrite E. unfold f0 in Hs, Hc. cbn [rl write_cipher ustream] in Hs, Hc.
  set (rl0 := rate_limiter_new epoch t0 t1 COMMAND_RATE_LIMIT_INTERVAL) in *.
  pose proof (admitted_length rl0 (map now (v_ticks v)) (v_blocks v)) as Hadm.
  destruct (IH (mkProxyServer (write_cipher f1) (ustream f1) (proxy_subscribers s ++ [(v_fd v, subscribe (proxy_tx (v_tick v)))])))
    as (s' & E' & Hs' & Hsub); try done.
  { cbn [upstream_write_cipher]. rewrite Hc. cbn [guarded]. apply room_advance. eapply room_le; [|exact Hroom].
    rewrite (zlen_blocks (admitted _ _)) by (by apply admitted_blocks). unfold zlen in *. lia. }
  exists s'. split_and!; [exact E' | |].
  - rewrite Hs'. cbn [upstream_write_cipher upstream_ctl_stream]. rewrite Hs, Hc. cbn [guarded concat].
    by rewrite concat_app, on_wire_app, <- app_assoc.
  - rewrite Hsub. cbn [proxy_subscribers]. rewrite map_app, <- app_assoc. done.
Qed.

End proxy_multi.

Section witnesses.
#[local] Existing Instance ten_net.
#[local] Existing Instance list_broadcast.
#[local] Existing Instance toy_cipher.
#[local] Existing Instance log_tuner.

Definition proxy_args : Args := mkArgs "proxy" "0.0.0.0" 1234 None 10 (Some "radio:1234"%string) None None 0 15 16 30 30 ["10.0.0.0/8"%string].
Definition sample_visit (fd : nat) (blocks : list (list Z)) : Visit :=
  let st := mkTcp [Data (concat blocks)] [Accept 7] [] None None in
  let ticks := map (fun i => tick_at (from_secs 1 + from_millis (50 * Z.of_nat i)) false) (seq 0 (length blocks)) in
  mkVisit (mkProxyTick false (ProxyConnected fd st (V4 10 0 0 1)) (fun _ => Ok tt) (mkListChan [] 64 false)
      (0, from_secs 1, from_secs 1) (ticks ++ [tick_at 0 true]) false)
    st fd (V4 10 0 0 1) (0, from_secs 1, from_secs 1) blocks [] ticks (tick_at 0 true).

Lemma proxy_visits_witness :
  let vs := [sample_visit 3 [[1; 0; 0; 0; 1]; [2; 0; 0; 0; 2]]; sample_visit 4 [[5; 0; 0; 0; 5]]] in
  let s := mkProxyServer (mkMutex (Some (chacha20_new [1] [2])) false) (mkMutex (mkTcp [] [] [] None None) false) [] in
  exists s', proxy_loop some_text proxy_args MAGIC_PACKET (map v_tick vs) s = (ProxyLooped, s') /\
    sent (guarded (upstream_ctl_stream s')) = [] ++ xor_from [1] [2] 0 [1; 0; 0; 0; 1; 2; 0; 0; 0; 2; 5; 0; 0; 0; 5] /\
    map fst (proxy_subscribers s') = [3%nat; 4%nat].
Proof.
  intros vs s.
  destruct (proxy_visits some_text proxy_args MAGIC_PACKET vs s) as (s' & E & Hs & Hsub).
  - by vm_compute.
  - by vm_compute.
  - repeat constructor; by vm_compute.
  - reflexivity.
  - constructor.
  - by vm_compute.
  - exists s'. split; [exact E|]. split; [rewrite Hs; by vm_compute | rewrite Hsub; by vm_compute].
Defined.

End witnesses.
