(* ===== verification/Widths.v ===== *)
(** * The machine types of the state

    In the model a byte, a [u64] or a position in a keystream is an integer;
    here is what the program's types promise of them.  [typed] says of a value
    that its parts are in the range of their Rust types, and every thread is
    shown to keep it: what it puts on the wire are bytes, its counters do not
    leave their width, its ciphers do not run past the end of the keystream. *)

From S2P Require Import Prelude Bytes Io Net Error Control Encryption Stream Commands Protocol Interpreter Master Relay Serve.
#[local] Open Scope Z_scope.

Class Typed (A : Type) : Type := typed : A -> Prop.
#[global] Hint Mode Typed ! : typeclass_instances.

#[export] Instance bytes_typed : Typed (list Z) := bytes_ok.
#[export] Instance rx_event_typed : Typed rx_event := fun e => match e with Data bs => typed bs | RErr _ => True end.
#[export] Instance tcp_typed : Typed TcpStream := fun st => Forall typed (rx st) /\ typed (sent st).
#[export] Instance option_typed `{Typed A} : Typed (option A) := fun o => match o with Some a => typed a | None => True end.
#[export] Instance pair_typed `{Typed A, Typed B} : Typed (A * B) := fun p => typed (fst p) /\ typed (snd p).
#[export] Instance mutex_typed `{Typed A} : Typed (Mutex A) := fun m => typed (guarded m).
#[export] Instance bufwriter_typed : Typed (BufWriter TcpStream) := fun b => typed (inner b) /\ typed (pending b).
#[export] Instance session_typed `{RtlSdrLib} : Typed Session :=
  fun s => typed (stream s) /\ is_u64 (unknown_command_count s).
#[export] Instance pump_typed : Typed Pump :=
  fun p => typed (buf_write_stream p) /\ is_u64 (total_bytes_sent p).
#[export] Instance tick_typed : Typed Tick := fun t => typed (fresh_nonce t).

Section ciphers.
Context `{StreamCipherLib}.
#[export] Instance cipher_typed : Typed ChaCha20 := fun c => 0 <= cpos c <= keystream_end.
#[export] Instance master_typed `{RtlSdrLib} : Typed MasterSession :=
  fun m => typed (session m) /\ typed (read_cipher m) /\ typed (_write_cipher m) /\ typed (encryption_nonces m).
#[export] Instance forwarder_typed : Typed Forwarder :=
  fun f => typed (master_stream f) /\ typed (write_cipher f) /\ typed (ustream f).
End ciphers.

#[export] Instance reader_typed `{BroadcastLib} : Typed Reader :=
  fun r => typed (upstream_reader_stream r) /\ Forall typed (history (tx_chan r)).

(** ** Lemmas *)

Lemma typed_app (bs cs : list Z) : typed bs -> typed cs -> typed (bs ++ cs).
Proof. intros. by apply Forall_app. Qed.

Lemma typed_prefix (bs cs : list Z) : prefix bs cs -> typed cs -> typed bs.
Proof. intros [k ->] Hc. by apply Forall_app in Hc as [? _]. Qed.

Lemma as_u64_typed z : is_u64 (as_u64 z).
Proof. unfold is_u64, as_u64. by apply Z.mod_pos_bound. Qed.

Lemma lxor_byte a b : is_byte a -> is_byte b -> is_byte (Z.lxor a b).
Proof.
  unfold is_byte. intros Ha Hb. assert (H0 : 0 <= Z.lxor a b) by (apply Z.lxor_nonneg; lia). split; [done|].
  destruct (Z.eq_dec (Z.lxor a b) 0) as [->|Hne]; [lia|].
  change 256 with (2 ^ 8). apply Z.log2_lt_pow2; [lia|].
  assert (Hl : forall x, 0 <= x < 256 -> Z.log2 x <= 7).
  { intros x Hx. change 7 with (Z.log2 255). apply Z.log2_le_mono. lia. }
  pose proof (Z.log2_lxor a b ltac:(lia) ltac:(lia)). pose proof (Hl a Ha). pose proof (Hl b Hb). lia.
Qed.

Lemma tcp_read_typed (st st' : TcpStream) n r :
  read st n = (r, st') -> typed st -> typed st' /\ forall bs, r = Ok bs -> typed bs.
Proof.
  cbn. unfold tcp_read. intros E [Hr Hs]. destruct (rx st) as [|[d|k] evs] eqn:Erx.
  - simplify_eq. split; [split; by rewrite ?Erx | intros ? [= <-]; constructor].
  - inversion Hr as [|? ? Hd Hr']; subst. destruct (length d <=? n)%nat; simplify_eq.
    + split; [by split | by intros ? [= <-]].
    + apply (Forall_take_drop _ n) in Hd as [Ht Hd]. split; [split; [by constructor | done] | by intros ? [= <-]].
  - inversion Hr; subst. simplify_eq. split; [by split | done].
Qed.

Lemma read_exact_typed (st st' : TcpStream) n r :
  read_exact st n = (r, st') -> typed st -> typed st' /\ forall bs, r = Ok bs -> typed bs.
Proof.
  unfold read_exact. generalize (n + read_budget st)%nat as fuel. intros fuel.
  enough (Hg : forall acc, typed acc -> read_exact_loop fuel st n acc = (r, st') -> typed st ->
    typed st' /\ forall bs, r = Ok bs -> typed bs) by (apply Hg; constructor).
  revert st n. induction fuel as [|fuel IH]; intros st n acc Hacc E Hst; (destruct n as [|n]; [by simplify_eq/=; split; [|intros ? [= <-]]|]).
  { by simplify_eq/=. }
  cbn [read_exact_loop] in E. destruct (read st (S n)) as [q s1] eqn:Er.
  destruct (tcp_read_typed _ _ _ _ Er Hst) as [H1 Hq].
  destruct q as [[|b d]|e| |]; try by simplify_eq.
  - apply IH in E; try done. apply typed_app; [done | by apply Hq].
  - destruct e; try by simplify_eq. by apply IH in E.
Qed.

Lemma write_all_typed (st : TcpStream) buf : typed st -> typed buf -> typed (snd (write_all st buf)).
Proof.
  intros [Hr Hs] Hb. destruct (write_all st buf) as [r st'] eqn:E.
  apply write_all_wrote in E as (bs & Hp & (Hs' & Hr' & _) & _). cbn [snd]. split; [by rewrite Hr'|].
  rewrite Hs'. apply typed_app; [done|]. by eapply typed_prefix.
Qed.

Section ciphers.
Context `{StreamCipherLib}.

Lemma xor_from_typed key nonce p bs : typed bs -> typed (xor_from key nonce p bs).
Proof.
  intros Hb. revert p. induction Hb as [|b bs Hb _ IH]; intros p; [constructor|]. cbn [xor_from].
  constructor; [apply lxor_byte; [done | apply keystream_byte] | apply IH].
Qed.

Lemma apply_keystream_typed c buf out c' :
  apply_keystream c buf = Some (out, c') -> typed c -> typed buf -> typed out /\ typed c'.
Proof.
  unfold apply_keystream. destruct (Z.ltb_spec keystream_end (cpos c + zlen buf)); [done|]. intros [= <- <-] Hc Hb.
  split; [by apply xor_from_typed|]. unfold typed, cipher_typed in *. cbn. pose proof (zlen_nonneg buf). lia.
Qed.

Lemma server_nonce_exchange_typed (st st' : TcpStream) key nonce r :
  server_nonce_exchange st key nonce = (r, st') -> typed st -> typed nonce ->
  typed st' /\ forall p, r = Ok p -> typed p.
Proof.
  unfold server_nonce_exchange. intros E Hst Hn. destruct (read_exact st NONCE_SIZE) as [q s1] eqn:Er.
  destruct (read_exact_typed _ _ _ _ Er Hst) as [H1 Hq].
  destruct q as [peer|e| |]; cbn [bind_st] in E; try (simplify_eq; done).
  pose proof (write_all_typed s1 nonce H1 Hn) as H2. destruct (write_all s1 nonce) as [q2 s2].
  destruct q2; cbn [bind_st] in E; simplify_eq; split; try done. intros p [= <-]. split; [done | by apply Hq].
Qed.

(** ** The control threads *)

Context `{RtlSdrLib}.

Lemma chain_ack_typed : typed CHAIN_ACK.
Proof. repeat constructor; by vm_compute. Qed.

Lemma master_chain_detect_typed key tick m :
  0 <= keystream_end -> typed tick -> typed m -> typed (snd (master_chain_detect key tick m)).
Proof.
  intros Hend Ht (Hs & Hrc & Hwc & Hn). destruct Hs as [Hst Hu]. unfold master_chain_detect. cbv zeta.
  pose proof (write_all_typed (stream (session m)) CHAIN_ACK Hst chain_ack_typed) as H1.
  destruct key as [k|]; [|by split_and!].
  destruct (server_nonce_exchange _ k (fresh_nonce tick)) as [r st'] eqn:E.
  destruct (server_nonce_exchange_typed _ _ _ _ _ E H1 Ht) as [H2 Hr].
  destruct r as [[mine peer]|e| |]; [destruct (nonces_free tick)|..]; split_and!; try done.
  by apply (Hr (mine, peer)).
Qed.

Lemma master_received_typed key tick buf m :
  0 <= keystream_end -> typed tick -> typed m -> typed (snd (master_received key tick buf m)).
Proof.
  intros Hend Ht Hm. unfold master_received. destruct (exit_flag tick); [done|].
  destruct (rate_limiter_check (rate_limiter (session m)) (now tick)) as [[] rl]; [|done].
  assert (Hm' : typed (with_session m (with_limiter (session m) rl))) by done.
  revert Hm'. generalize (with_session m (with_limiter (session m) rl)) as m1. clear -Hend Ht. intros m Hm.
  unfold master_dispatch. cbv zeta. destruct (device_command _ _ _); [done|].
  destruct (nth 0 buf 0 =? CMD_CHAIN_DETECT); [by apply master_chain_detect_typed|].
  destruct Hm as ((Hs & Hu) & Hm). split; [|done]. split; [done | apply as_u64_typed].
Qed.

Lemma master_iteration_typed key tick m :
  0 <= keystream_end -> typed tick -> typed m -> typed (snd (master_iteration key tick m)).
Proof.
  intros Hend Ht Hm. unfold master_iteration. destruct (read_exact (stream (session m)) COMMAND_HEADER_SIZE) as [q st] eqn:E.
  destruct Hm as ((Hst & Hu) & Hrc & Hm). destruct (read_exact_typed _ _ _ _ E Hst) as [Hst' Hq].
  assert (Hm' : typed (with_session m (with_stream (session m) st))) by exact (conj (conj Hst' Hu) (conj Hrc Hm)).
  destruct q as [buf|e| |]; try exact Hm'. cbv zeta.
  destruct (read_cipher (with_session m (with_stream (session m) st))) as [c|] eqn:Ec; [|by apply master_received_typed].
  destruct (apply_keystream c buf) as [[out c']|] eqn:Ea; [|exact Hm'].
  cbn in Ec. rewrite Ec in Hrc. destruct (apply_keystream_typed _ _ _ _ Ea Hrc (Hq _ eq_refl)) as [_ Hc'].
  apply master_received_typed; [done | done | exact (conj (conj Hst' Hu) (conj Hc' Hm))].
Qed.

Lemma forward_typed buf f : typed buf -> typed f -> typed (snd (forward buf f)).
Proof.
  intros Hb (Hm & Hc & Hu). unfold forward. cbv zeta.
  assert (Hgo : forall out cipher, typed out -> typed cipher ->
    typed (snd (if poisoned (ustream f) then (Break LockPoisoned, mkForwarder (master_stream f) (rl f) (mkMutex cipher (poisoned (write_cipher f))) (ustream f))
      else match write_all (guarded (ustream f)) out with
      | (Ok _, u) => (Continue, mkForwarder (master_stream f) (rl f) (mkMutex cipher (poisoned (write_cipher f))) (mkMutex u false))
      | (Err _, u) => (Break ForwardFailed, mkForwarder (master_stream f) (rl f) (mkMutex cipher (poisoned (write_cipher f))) (mkMutex u false))
      | (Panic, u) => (Panicked, mkForwarder (master_stream f) (rl f) (mkMutex cipher (poisoned (write_cipher f))) (mkMutex u true))
      | (Diverged, u) => (Blocked, mkForwarder (master_stream f) (rl f) (mkMutex cipher (poisoned (write_cipher f))) (mkMutex u false))
      end))).
  { intros out cipher Ho Hci. destruct (poisoned (ustream f)); [by split_and!|].
    pose proof (write_all_typed _ out Hu Ho) as Hw. destruct (write_all (guarded (ustream f)) out) as [[] u]; by split_and!. }
  destruct (guarded (write_cipher f)) as [c|] eqn:Ec; [|by apply Hgo].
  unfold typed, mutex_typed in Hc. rewrite Ec in Hc.
  destruct (apply_keystream c buf) as [[enc c']|] eqn:Ea.
  - destruct (apply_keystream_typed _ _ _ _ Ea Hc Hb) as [He Hc']. by apply Hgo.
  - split_and!; try done. 
Qed.

Lemma forward_iteration_typed tick f : typed f -> typed (snd (forward_iteration tick f)).
Proof.
  intros (Hm & Hc & Hu). unfold forward_iteration. destruct (read_exact (master_stream f) COMMAND_HEADER_SIZE) as [q st] eqn:E.
  destruct (read_exact_typed _ _ _ _ E Hm) as [Hst Hq].
  destruct q as [buf|e| |]; try (by split_and!). cbv zeta. destruct (exit_flag tick); [by split_and!|].
  destruct (rate_limiter_check _ _) as [[] rl']; [|by split_and!]. apply forward_typed; [by apply Hq | by split_and!].
Qed.

End ciphers.

(** ** The I/Q path *)

Lemma bufwriter_flush_buf_typed (b : BufWriter TcpStream) : typed b -> typed (snd (bufwriter_flush_buf b)).
Proof.
  intros [[Hr Hs] Hp]. unfold bufwriter_flush_buf. destruct (write_loop _ _ _) as [[r rest] w] eqn:E.
  apply write_loop_wrote in E as (bs & Hbs & (Hs' & Hr' & _) & _). rewrite Hbs in Hp. apply Forall_app in Hp as [Hb Hrest].
  split; [split|]; cbn [snd inner pending]; [by rewrite Hr' | rewrite Hs'; by apply typed_app | done].
Qed.

Lemma bufwriter_write_all_typed (b : BufWriter TcpStream) buf :
  typed b -> typed buf -> typed (snd (bufwriter_write_all b buf)).
Proof.
  intros Hb Hbuf. unfold bufwriter_write_all. destruct (_ <? _)%nat.
  { destruct Hb as [Hi Hp]. split; [done | by apply typed_app]. }
  assert (H1 : typed (snd (if (Net.cap b - length (pending b) <? length buf)%nat then bufwriter_flush_buf b else (Ok tt, b)))).
  { destruct (_ <? _)%nat; [by apply bufwriter_flush_buf_typed | done]. }
  destruct (if (_ <? _)%nat then _ else _) as [[[]|e| |] b1]; cbn [bind_st]; try done. destruct H1 as [Hi Hp].
  destruct (_ <=? _)%nat; [|split; [done | by apply typed_app]].
  pose proof (write_all_typed (inner b1) buf Hi Hbuf) as Hw. destruct (write_all (inner b1) buf). by split.
Qed.

Lemma bufwriter_flush_typed (b : BufWriter TcpStream) : typed b -> typed (snd (bufwriter_flush b)).
Proof.
  intros Hb. unfold bufwriter_flush. pose proof (bufwriter_flush_buf_typed b Hb) as H1.
  by destruct (bufwriter_flush_buf b) as [[[]|e| |] b1].
Qed.

Lemma on_iq_typed bytes p : typed bytes -> typed p -> typed (on_iq bytes p).
Proof.
  intros Hb [Hw Hu]. unfold on_iq. cbv zeta.
  pose proof (bufwriter_write_all_typed (buf_write_stream p) bytes Hw Hb) as H1.
  destruct (bufwriter_write_all (buf_write_stream p) bytes) as [r b1].
  pose proof (bufwriter_flush_typed b1 H1) as H2. destruct (bufwriter_flush b1) as [r2 b2].
  destruct r as [[]|e| |]; [destruct r2|..]; (split; [done | apply as_u64_typed]).
Qed.

Lemma reader_iteration_typed `{BroadcastLib} exit r : typed r -> typed (snd (reader_iteration exit r)).
Proof.
  intros [Hst Hh]. unfold reader_iteration. destruct exit; [done|].
  destruct (read (upstream_reader_stream r) READ_BUFFER) as [q st] eqn:E.
  destruct (tcp_read_typed _ _ _ _ E Hst) as [Hst' Hq].
  destruct q as [[|b bs]|e| |]; [done | | by destruct (is_timeout e) | done | done].
  split; [done|]. cbn [snd tx_chan]. rewrite (proj1 (send_law _ _)). apply Forall_app. split; [done|].
  constructor; [by apply Hq | constructor].
Qed.

Lemma control_loop_on_ticks {S} (iteration : Tick -> S -> Flow * S) (P : Tick -> Prop) (I : S -> Prop) ticks s :
  (forall tick s, P tick -> I s -> I (snd (iteration tick s))) -> Forall P ticks -> I s -> I (snd (control_loop iteration ticks s)).
Proof.
  intros Hstep Hp. revert s; induction Hp as [|tick ticks Ht _ IH]; intros s Hs; [done|]. cbn [control_loop].
  pose proof (Hstep tick s Ht Hs) as H1. destruct (iteration tick s) as [[| | |] s1]; [by apply IH | done..].
Qed.

(** ** Properties *)


Section witnesses.
#[local] Existing Instance list_broadcast.
#[local] Existing Instance log_tuner.
#[local] Existing Instance toy_cipher.


End witnesses.
