(* ===== verification/UnitTests.v ===== *)
(** * The repository's unit tests

    The [#[cfg(test)]] modules of [src/control.rs], [src/capture/mod.rs],
    [src/encryption.rs] and [src/stream.rs], each test a boolean function of
    what it takes from outside (the clock, the cipher, the networks, the
    channel), under the name it has in the source; the theorems say that the
    model passes them, whatever a lawful environment answers.
    [test_nonce_unique] is about the random generator and is left out. *)

From S2P Require Import Prelude Bytes Io Net Ip Error Control Cidr Encryption Stream Capture.
From stdpp Require Import strings.
#[local] Open Scope Z_scope.

(** [assert_eq!] and [unwrap]. *)
Definition assert_eq {A} `{EqDecision A} (x y : A) : bool := bool_decide (x = y).
Definition assert_ne {A} `{EqDecision A} (x y : A) : bool := negb (assert_eq x y).
Definition unwrap {A E S} (c : res A E * S) (k : A -> S -> bool) : bool :=
  match c with (Ok a, s) => k a s | _ => false end.
Notation "'let!' x '@' s ':=' c 'in' k" := (unwrap c (fun x s => k))
  (at level 10, x pattern, s name, c at level 200, k at level 200) : rust_scope.

#[export] Instance CaptureChunk_eq_dec : EqDecision CaptureChunk.
Proof. solve_decision. Defined.

(** ** [control.rs] *)

Definition test_magic_packet_length : bool := assert_eq (length MAGIC_PACKET) 12%nat.

Definition test_command_constants : bool :=
  assert_eq CMD_SET_FREQUENCY 0x01 && assert_eq CMD_SET_SAMPLE_RATE 0x02 && assert_eq CMD_SET_GAIN_MODE 0x03 &&
  assert_eq CMD_SET_TUNER_GAIN 0x04 && assert_eq CMD_SET_PPM 0x05 && assert_eq CMD_SET_AGC 0x08.

Definition test_command_header_size : bool := assert_eq COMMAND_HEADER_SIZE 5%nat.

Definition test_magic_packet_content : bool :=
  assert_eq (take 4 MAGIC_PACKET) [0x52; 0x54; 0x4c; 0x30] &&
  assert_eq (take 4 (drop 4 MAGIC_PACKET)) (u32_to_be_bytes 5) &&
  assert_eq (take 4 (drop 8 MAGIC_PACKET)) (u32_to_be_bytes 0x1d).

Definition test_parse_frequency_command : bool :=
  let buf := [0x01; 0x05; 0xFD; 0x82; 0x20] in
  assert_eq (nth 0 buf 0) CMD_SET_FREQUENCY && assert_eq (u32_from_be_bytes (drop 1 buf)) 100500000.

Definition test_parse_sample_rate_command : bool :=
  let buf := [0x02; 0x00; 0x1F; 0x40; 0x00] in
  assert_eq (nth 0 buf 0) CMD_SET_SAMPLE_RATE && assert_eq (u32_from_be_bytes (drop 1 buf)) 2048000.

Definition test_parse_gain_mode_command : bool :=
  let buf := [0x03; 0x00; 0x00; 0x00; 0x01] in
  assert_eq (nth 0 buf 0) CMD_SET_GAIN_MODE && assert_eq (i32_from_be_bytes (drop 1 buf)) 1.

Definition test_parse_tuner_gain_command : bool :=
  let buf := [0x04; 0x00; 0x00; 0x00; 0x1E] in
  assert_eq (nth 0 buf 0) CMD_SET_TUNER_GAIN && assert_eq (i32_from_be_bytes (drop 1 buf)) 30.

Definition test_parse_ppm_command : bool :=
  let buf := [0x05; 0x00; 0x00; 0x00; 0x32] in
  assert_eq (nth 0 buf 0) CMD_SET_PPM && assert_eq (i32_from_be_bytes (drop 1 buf)) 50.

Definition test_parse_agc_command : bool :=
  let buf := [0x08; 0x00; 0x00; 0x00; 0x01] in
  assert_eq (nth 0 buf 0) CMD_SET_AGC && assert_eq (u32_from_be_bytes (drop 1 buf)) 1.

Definition test_unknown_command_zero : bool :=
  let buf := [0x00; 0x00; 0x00; 0x00; 0x00] in
  forallb (assert_ne (nth 0 buf 0))
    [CMD_SET_FREQUENCY; CMD_SET_SAMPLE_RATE; CMD_SET_GAIN_MODE; CMD_SET_TUNER_GAIN; CMD_SET_PPM; CMD_SET_AGC].

Definition test_unknown_command_ff : bool :=
  let buf := [0xFF; 0x00; 0x00; 0x00; 0x00] in
  forallb (assert_ne (nth 0 buf 0))
    [CMD_SET_FREQUENCY; CMD_SET_SAMPLE_RATE; CMD_SET_GAIN_MODE; CMD_SET_TUNER_GAIN; CMD_SET_PPM; CMD_SET_AGC].

Definition test_validate_frequency_valid : bool :=
  is_ok (validate_frequency 0) && is_ok (validate_frequency 100000000) && is_ok (validate_frequency 2200000000).

Definition test_validate_frequency_invalid : bool :=
  is_err (validate_frequency (FREQ_MAX + 1)) && is_err (validate_frequency U32_MAX).

Definition test_validate_sample_rate_valid : bool :=
  is_ok (validate_sample_rate 0) && is_ok (validate_sample_rate 2048000) && is_ok (validate_sample_rate 3200000).

Definition test_validate_sample_rate_invalid : bool :=
  is_err (validate_sample_rate (SAMPLE_RATE_MAX + 1)) && is_err (validate_sample_rate U32_MAX).

Definition test_validate_ppm_valid : bool :=
  is_ok (validate_ppm 0) && is_ok (validate_ppm (-200)) && is_ok (validate_ppm 200) &&
  is_ok (validate_ppm 50) && is_ok (validate_ppm (-100)).

Definition test_validate_ppm_invalid : bool :=
  is_err (validate_ppm (PPM_MIN - 1)) && is_err (validate_ppm (PPM_MAX + 1)) &&
  is_err (validate_ppm (-300)) && is_err (validate_ppm 300).

Definition test_validate_tuner_gain_valid : bool :=
  is_ok (validate_tuner_gain 0) && is_ok (validate_tuner_gain 30) && is_ok (validate_tuner_gain 500).

Definition test_validate_tuner_gain_invalid : bool :=
  is_err (validate_tuner_gain (TUNER_GAIN_MIN - 1)) && is_err (validate_tuner_gain (TUNER_GAIN_MAX + 1)) &&
  is_err (validate_tuner_gain (-10)) && is_err (validate_tuner_gain 600).

(** The clock: its earliest instant, the readings of [new], then those of the
    test. *)
Definition test_rate_limiter_allows_after_interval (epoch t0 t1 now : Z) : bool :=
  let limiter := rate_limiter_new epoch t0 t1 (from_millis 10) in
  fst (rate_limiter_check limiter now).

Definition test_rate_limiter_blocks_rapid_commands (epoch t0 t1 last now : Z) : bool :=
  let limiter := rate_limiter_new epoch t0 t1 (from_millis 500) in
  let limiter := mkRateLimiter last (min_interval limiter) in
  negb (fst (rate_limiter_check limiter now)).

Definition test_rate_limiter_allows_after_sleep (epoch t0 t1 last now : Z) : bool :=
  let limiter := rate_limiter_new epoch t0 t1 (from_millis 10) in
  let limiter := mkRateLimiter last (min_interval limiter) in
  fst (rate_limiter_check limiter now).

Definition test_agc_state_initial_true : bool := enabled agc_new.
Definition test_agc_state_enable_unchanged : bool := negb (fst (agc_enable agc_new)).
Definition test_agc_state_disable_changed : bool := fst (agc_disable agc_new).
Definition test_agc_state_enable_after_disable : bool :=
  let agc := snd (agc_disable agc_new) in
  fst (agc_enable agc).
Definition test_agc_state_disable_twice_unchanged : bool :=
  let agc := snd (agc_disable agc_new) in
  negb (fst (agc_disable agc)).

Section whitelist.
Context `{IpNetLib}.

Definition test_check_whitelist_matching_ip_allows : bool :=
  let whitelist := ["192.168.1.0/24"%string] in
  is_ok (check_whitelist "192.168.1.50" whitelist).

Definition test_check_whitelist_non_matching_rejects : bool :=
  let whitelist := ["192.168.1.0/24"%string] in
  match check_whitelist "10.0.0.1" whitelist with Err (Network _) => true | _ => false end.

Definition test_check_whitelist_empty_allows : bool :=
  let whitelist := [] in
  is_ok (check_whitelist "10.0.0.1" whitelist).

Definition test_whitelist_ipv4_single : bool :=
  let whitelist := ["192.168.1.100/32"%string] in
  is_ip_in_whitelist "192.168.1.100" whitelist &&
  negb (is_ip_in_whitelist "192.168.1.101" whitelist) && negb (is_ip_in_whitelist "192.168.2.100" whitelist).

Definition test_whitelist_ipv4_cidr : bool :=
  let whitelist := ["192.168.100.0/24"%string] in
  is_ip_in_whitelist "192.168.100.1" whitelist && is_ip_in_whitelist "192.168.100.255" whitelist &&
  negb (is_ip_in_whitelist "192.168.101.1" whitelist) && negb (is_ip_in_whitelist "10.0.0.1" whitelist).

Definition test_whitelist_ipv4_cidr_16 : bool :=
  let whitelist := ["10.0.0.0/16"%string] in
  is_ip_in_whitelist "10.0.0.1" whitelist && is_ip_in_whitelist "10.0.255.255" whitelist &&
  negb (is_ip_in_whitelist "10.1.0.1" whitelist).

Definition test_whitelist_multiple_entries : bool :=
  let whitelist := ["192.168.1.0/24"%string; "10.0.0.0/8"%string] in
  is_ip_in_whitelist "192.168.1.50" whitelist && is_ip_in_whitelist "10.50.100.200" whitelist &&
  negb (is_ip_in_whitelist "172.16.0.1" whitelist).

Definition test_whitelist_empty : bool :=
  let whitelist := [] in
  negb (is_ip_in_whitelist "192.168.1.1" whitelist).

Definition test_whitelist_invalid_cidr : bool :=
  let whitelist := ["invalid-cidr"%string] in
  negb (is_ip_in_whitelist "192.168.1.1" whitelist).

Definition test_whitelist_ipv6 : bool :=
  let whitelist := ["::1/128"%string] in
  is_ip_in_whitelist "::1" whitelist && negb (is_ip_in_whitelist "::2" whitelist).

Definition test_whitelist_ipv4_mapped : bool :=
  let whitelist := ["10.4.10.0/24"%string] in
  is_ip_in_whitelist "::ffff:10.4.10.71" whitelist && is_ip_in_whitelist "::ffff:10.4.10.1" whitelist &&
  negb (is_ip_in_whitelist "::ffff:10.4.11.1" whitelist) && negb (is_ip_in_whitelist "::ffff:192.168.1.1" whitelist).
End whitelist.

Definition test_chain_detect_ack_response : bool :=
  let buf := [0xF0; 0x50; 0x52; 0x4F; 0x58] in
  assert_eq (nth 0 buf 0) CMD_CHAIN_DETECT && assert_eq (u32_from_be_bytes (drop 1 buf)) 0x50524F58.

Definition test_chain_detect_ack_format : bool :=
  let ack := [0xF0; 0x00; 0x00; 0x00; 0x00] in
  assert_eq (length ack) COMMAND_HEADER_SIZE && assert_eq (nth 0 ack 0) CMD_CHAIN_DETECT.

(** ** [capture/mod.rs] *)

(** [Cursor::set_position]; [Cursor::into_inner] is [content]. *)
Definition set_position (f : File) (p : nat) : File := mkFile (content f) p (ftx f) (frx f) (fsk f).

(** The loop of the tests that compares the chunks read with those written. *)
Fixpoint reads_back (cursor : File) (chunks : list CaptureChunk) (k : File -> bool) : bool :=
  match chunks with
  | [] => k cursor
  | expected :: chunks =>
    let! got @ cursor := read_chunk cursor in
    match got with
    | Some got =>
      assert_eq (timestamp_ns got) (timestamp_ns expected) && assert_eq (data got) (data expected) &&
      reads_back cursor chunks k
    | None => false
    end
  end.

Definition test_roundtrip_header_and_chunks : bool :=
  let header := mkHeader [0x52; 0x54; 0x4c; 0x30; 0; 0; 0; 0x05; 0; 0; 0; 0x1d] in
  let chunks := [mkChunk 1000 (replicate 64 0); mkChunk 2000 (replicate 128 1); mkChunk 3000 (replicate 256 2)] in
  let cursor := cursor [] in
  let! _ @ cursor := write_header cursor header in
  let! _ @ cursor := write_chunks cursor chunks in
  let cursor := set_position cursor 0 in
  let! got_header @ cursor := read_header cursor in
  assert_eq (magic_payload got_header) (magic_payload header) &&
  reads_back cursor chunks (fun cursor => let! end_ @ _ := read_chunk cursor in assert_eq end_ None).

Definition test_roundtrip_empty_chunk : bool :=
  let header := mkHeader (replicate 12 0) in
  let chunks := [mkChunk 42 []; mkChunk 99 (replicate 1 0xAB)] in
  let cursor := cursor [] in
  let! _ @ cursor := write_header cursor header in
  let! _ @ cursor := write_chunks cursor chunks in
  let cursor := set_position cursor 0 in
  let! _ @ cursor := read_header cursor in
  let! first @ cursor := read_chunk cursor in
  let! second @ cursor := read_chunk cursor in
  match first, second with
  | Some first, Some second =>
    assert_eq (timestamp_ns first) 42 && assert_eq (data first) [] && assert_eq (data second) [0xAB]
  | _, _ => false
  end.

(** Chunks encoded into a buffer that goes to the file when it holds more than
    [limit] bytes, and once more at the end unless it is empty. *)
Fixpoint write_with_flush (limit : nat) (with_flush : File) (buf : list Z) (chunks : list CaptureChunk)
    : io unit * File :=
  match chunks with
  | [] => if bool_decide (buf = []) then (Ok tt, with_flush) else write_all with_flush buf
  | chunk :: chunks =>
    match write_chunk ([] : list Z) chunk with
    | (Ok _, chunk_buf) =>
      let buf := buf ++ chunk_buf in
      if (limit <? length buf)%nat then
        let? _ @ with_flush := write_all with_flush buf in write_with_flush limit with_flush [] chunks
      else write_with_flush limit with_flush buf chunks
    | _ => (Panic, with_flush)
    end
  end.

Definition test_buffer_flush_identity : bool :=
  let header := mkHeader (replicate 12 0) in
  let chunks := map (fun i => mkChunk (as_u64 (Z.of_nat i) * 1000) (replicate 32 (Z.of_nat i mod 2 ^ 8))) (seq 0 10) in
  let! _ @ all_at_once := write_header (cursor []) header in
  let! _ @ all_at_once := write_chunks all_at_once chunks in
  let! _ @ with_flush := write_header (cursor []) header in
  let! _ @ with_flush := write_with_flush 50 with_flush [] chunks in
  assert_eq (content all_at_once) (content with_flush).

Definition test_invalid_magic_rejected : bool :=
  let cursor := cursor ([0x58; 0x58; 0x58; 0x58] ++ [1; 0; 0; 0] ++ [0x0c; 0; 0; 0] ++
    [0x52; 0x54; 0x4c; 0x30; 0; 0; 0; 0x05; 0; 0; 0; 0x1d]) in
  is_err (fst (read_header cursor)).

(** ** [encryption.rs] *)

(** [Read::read_to_end]: reads until a read returns nothing, retrying
    interrupted calls; the library chooses how much to ask for ([probe], given
    what it has so far). *)
Section read_to_end.
Context {R : Type} `{Read R} (probe : nat -> nat).

Fixpoint read_to_end_loop (fuel : nat) (r : R) (acc : list Z) : io (list Z) * R :=
  match fuel with
  | O => (Diverged, r)
  | S fuel =>
    match read r (probe (length acc)) with
    | (Ok [], r) => (Ok acc, r)
    | (Ok bs, r) => read_to_end_loop fuel r (acc ++ bs)
    | (Err Interrupted, r) => read_to_end_loop fuel r acc
    | (Err e, r) => (Err e, r)
    | (Panic, r) => (Panic, r)
    | (Diverged, r) => (Diverged, r)
    end
  end.

Context `{!ReadStream R} `{!ReadLaws R} (Hprobe : forall n, (0 < probe n)%nat).

(** On a stream of [bs], with fuel for its bytes and its interrupted reads. *)
Lemma read_to_end_yields fuel r acc bs :
  yields r bs -> (length bs + read_budget r < fuel)%nat ->
  exists r', read_to_end_loop fuel r acc = (Ok (acc ++ bs), r').
Proof.
  revert r acc bs. induction fuel as [|fuel IH]; intros r acc bs Hy Hf; [lia|]. cbn [read_to_end_loop].
  destruct (read_yields r bs _ Hy (Hprobe (length acc))) as [(k & r1 & Hr & Hy1 & _ & Hkl & Hpos)|(r1 & Hr & Hy1)]; rewrite Hr.
  - destruct (decide (bs = [])) as [->|Hne]; [rewrite take_nil, app_nil_r; by exists r1|].
    pose proof (read_ok_law _ _ _ _ Hr) as [_ Hb]. specialize (Hpos Hne).
    destruct (take k bs) as [|b cs] eqn:Et; [apply (f_equal length) in Et; rewrite length_take in Et; simpl in Et; lia|].
    rewrite <- Et. destruct (IH r1 (acc ++ take k bs) (drop k bs) Hy1) as (r2 & E); [rewrite length_drop; lia|].
    rewrite E, <- app_assoc, take_drop. by exists r2.
  - apply read_interrupted_law in Hr. apply IH; [done | lia].
Qed.
End read_to_end.

Section sockets.
(** A pair of sockets: what the far end reads, given what went into the near
    end before it was closed; and the sizes [read_to_end] asks for. *)
Context (far : list Z -> TcpStream) (probe : nat -> nat).

Definition test_internal_encrypted_roundtrip `{StreamCipherLib} (w : TcpStream) : bool :=
  let key := replicate 32 0xAB in
  let nonce := replicate 12 0x42 in
  let data := [0x48; 0x65; 0x6c; 0x6c; 0x6f; 0x21] in
  let ew := encrypted_writer_new w key nonce in
  let! _ @ ew := write_all ew data in
  let! _ @ ew := flush ew in
  let er := encrypted_reader_new (far (sent (ew_inner ew))) key nonce in
  let! buf @ _ := read_to_end_loop probe (S (length (sent (ew_inner ew)) + read_budget er)) er [] in
  assert_eq buf data.

(** The two threads of the test, each with its end of the pair and the nonce
    it generates. *)
Definition test_nonce_exchange (a b : TcpStream) (nonce_a nonce_b : list Z) : bool :=
  let key := replicate 32 0x01 in
  let! (my_a, peer_a) @ _ := nonce_exchange a key nonce_a in
  let! (my_b, peer_b) @ _ := nonce_exchange b key nonce_b in
  assert_eq my_a peer_b && assert_eq my_b peer_a.

(** ** [stream.rs] *)

Context `{BroadcastLib}.

Definition test_new_broadcast_send_recv : bool :=
  let (tx, rx) := new_broadcast 16 in
  let data := [1; 2; 3] in
  let tx := send tx data in
  match try_recv tx rx with (RecvOk buf, _) => assert_eq buf data | _ => false end.

Definition test_broadcast_multiple_receivers : bool :=
  let (tx, _rx) := new_broadcast 16 in
  let rx1 := subscribe tx in
  let rx2 := subscribe tx in
  let data := replicate 256 0xAB in
  let tx := send tx data in
  match try_recv tx rx1, try_recv tx rx2 with
  | (RecvOk buf1, _), (RecvOk buf2, _) => assert_eq buf1 data && assert_eq buf2 data
  | _, _ => false
  end.

(** The writer polls [before] times before the buffer is sent, [during] times
    before the reader has it and sets the flag, and [after] times from then. *)
Definition test_writer_exits_on_flag (w : TcpStream) (before during after : nat) : bool :=
  let (tx, _rx) := new_broadcast 16 in
  let rx := subscribe tx in
  let tx' := send tx (replicate 32 0x42) in
  match write_client_loop (replicate before (false, tx) ++ replicate during (false, tx') ++ replicate after (true, tx')) w rx with
  | (Some ExitFlag, w, _) =>
    let! buf @ _ := read_exact (far (sent w)) 32 in assert_eq buf (replicate 32 0x42)
  | _ => false
  end.
End sockets.

(** ** The tests pass *)

#[export] Instance ip_ok_dec ip : Decision (ip_ok ip).
Proof. destruct ip; cbn; unfold is_byte, is_u16; apply _. Defined.
#[export] Instance entry_ok_dec e : Decision (entry_ok e).
Proof. unfold entry_ok; apply _. Defined.

(** An address of the tests against a whitelist of networks: every lawful
    library of networks answers alike. *)
Definition cidr_answer (entries : list (IpAddr * Z)) (text : string) : option bool :=
  match parse_ip text with
  | Some ip =>
    if bool_decide (Forall entry_ok entries) && bool_decide (ip_ok ip) then
      Some (existsb (fun e => same_prefix (fst e) (snd e) (to_canonical ip)) entries)
    else None
  | None => None
  end.

Lemma whitelist_test `{IpNetLaws} (entries : list (IpAddr * Z)) (text : string) (answer : bool) :
  cidr_answer entries text = Some answer ->
  is_ip_in_whitelist text (map (fun e => cidr_text (fst e) (snd e)) entries) = answer.
Proof.
  unfold cidr_answer, is_ip_in_whitelist. destruct (parse_ip text) as [ip|]; [|done].
  case_bool_decide as He; [|done]. case_bool_decide as Hok; [|done]. intros [= <-].
  apply any_entry_cidrs; [done | by apply to_canonical_ok].
Qed.

(** [ip_tests entries]: every lookup of the goal in the whitelist of these
    networks gives what [cidr_answer] computes. *)
Ltac ip_tests entries :=
  let texts := eval vm_compute in (map (fun e => cidr_text (fst e) (snd e)) entries) in
  repeat match goal with
  | |- context [is_ip_in_whitelist ?text texts] =>
    let answer := eval vm_compute in (cidr_answer entries text) in
    lazymatch answer with
    | Some ?b => replace (is_ip_in_whitelist text texts) with b by
        (symmetry; exact (whitelist_test entries text b (eq_refl (Some b) <: cidr_answer entries text = Some b)))
    end
  end.

Section control_tests.
Context `{IpNetLaws}.

Lemma whitelist_tests_pass :
  forallb id [test_check_whitelist_matching_ip_allows; test_check_whitelist_non_matching_rejects;
    test_check_whitelist_empty_allows; test_whitelist_ipv4_single; test_whitelist_ipv4_cidr;
    test_whitelist_ipv4_cidr_16; test_whitelist_multiple_entries; test_whitelist_empty;
    test_whitelist_invalid_cidr; test_whitelist_ipv6; test_whitelist_ipv4_mapped] = true.
Proof.
  unfold test_check_whitelist_matching_ip_allows, test_check_whitelist_non_matching_rejects, check_whitelist,
    test_whitelist_ipv4_single, test_whitelist_ipv4_cidr, test_whitelist_ipv4_cidr_16, test_whitelist_multiple_entries,
    test_whitelist_ipv6, test_whitelist_ipv4_mapped. cbv zeta.
  assert (Hinvalid : test_whitelist_invalid_cidr = true).
  { unfold test_whitelist_invalid_cidr, is_ip_in_whitelist. cbv zeta. destruct (parse_ip _); [|done].
    rewrite any_entry_no_slash; [done|]. by apply (bool_decide_unpack _). }
  rewrite Hinvalid.
  ip_tests [(V4 192 168 1 100, 32)]. ip_tests [(V4 192 168 1 0, 24)]. ip_tests [(V4 192 168 100 0, 24)].
  ip_tests [(V4 10 0 0 0, 16)]. ip_tests [(V4 192 168 1 0, 24); (V4 10 0 0 0, 8)].
  ip_tests [(V6 [0; 0; 0; 0; 0; 0; 0; 1], 128)]. ip_tests [(V4 10 4 10 0, 24)].
  by vm_compute.
Qed.

End control_tests.

Section io_tests.
Context `{StreamCipherLib} `{BroadcastLib}.

Lemma encrypted_test_passes far probe (w : TcpStream) :
  (forall bs, yields (far bs) bs) -> (forall n, (0 < probe n)%nat) -> tx w = [] -> sent w = [] ->
  1024 <= keystream_end -> test_internal_encrypted_roundtrip far probe w = true.
Proof.
  intros Hfar Hprobe Htx Hsent Hend. unfold test_internal_encrypted_roundtrip. cbv zeta.
  set (key := replicate 32 0xAB). set (nonce := replicate 12 0x42). set (bytes := [0x48; 0x65; 0x6c; 0x6c; 0x6f; 0x21]).
  destruct (encrypted_write_all_whole (fun w => tx w = []) tcp_whole w (chacha20_new key nonce) bytes Htx)
    as (w' & E & (Hs & _) & _); [unfold bytes, zlen; cbn; lia|].
  unfold encrypted_writer_new. rewrite E. cbn [unwrap]. cbn [flush EncryptedWriter_Write]. unfold encrypted_flush.
  cbn [ew_inner ew_cipher flush TcpStream_Write unwrap]. rewrite Hs, Hsent. cbn [app].
  set (wire := xor_from _ _ _ bytes).
  assert (Hlen : length wire = 6%nat) by (unfold wire; by rewrite length_xor_from).
  destruct (read_to_end_yields probe Hprobe (S (length wire + read_budget (encrypted_reader_new (far wire) key nonce)))
    (encrypted_reader_new (far wire) key nonce) [] bytes) as (r' & Er).
  - exists wire. cbn [er_inner er_cipher encrypted_reader_new chacha20_new ckey cnonce cpos].
    split; [apply Hfar|]. unfold wire. rewrite xor_from_involutive. split; [done|].
    rewrite zlen_xor_from. unfold bytes, zlen. cbn. lia.
  - rewrite Hlen. cbn. lia.
  - rewrite Er. cbn [unwrap app]. by unfold assert_eq; rewrite bool_decide_true.
Qed.

Lemma nonce_exchange_ok (s : TcpStream) key mine theirs :
  length theirs = NONCE_SIZE -> accepts s -> yields s theirs ->
  exists s', nonce_exchange s key mine = (Ok (mine, theirs), s') /\ sent s' = sent s ++ mine.
Proof.
  intros Hl Ha Hy. unfold nonce_exchange.
  destruct (write_all_accepts s mine Ha) as (s1 & -> & (Hs & Hrx & _ & _) & _). cbn [bind_st].
  assert (Hy1 : yields s1 (theirs ++ [])) by (rewrite app_nil_r; simpl in *; by rewrite Hrx).
  destruct (read_exact_yields s1 theirs [] NONCE_SIZE Hy1 Hl) as (s2 & E & _). rewrite E. cbn [bind_st].
  exists s2. split; [done|]. apply read_exact_sent in E as [-> _]. done.
Qed.

(** What a receiver gets from a channel that still holds what it has to read. *)
Lemma recv_next ch rcv buf :
  history ch !! position rcv = Some buf -> (oldest ch <= position rcv)%nat ->
  exists rcv', try_recv ch rcv = (RecvOk buf, rcv') /\ position rcv' = S (position rcv).
Proof.
  intros Hl Ho. pose proof (lookup_lt_Some _ _ _ Hl). pose proof (try_recv_law ch rcv) as Hlaw.
  destruct (try_recv ch rcv) as [[b| | |n] r1]; specialize (Hlaw ltac:(lia)).
  - destruct Hlaw as (_ & Hb & Hp). exists r1. by simplify_eq.
  - lia.
  - lia.
  - lia.
Qed.

Lemma loop_idle ch rcv n rest (w : TcpStream) :
  position rcv = length (history ch) -> closed ch = false ->
  write_client_loop (replicate n (false, ch) ++ rest) w rcv = write_client_loop rest w rcv.
Proof.
  intros Hp Hc. induction n as [|n IH]; [done|]. cbn [replicate app write_client_loop client_step].
  pose proof (try_recv_law ch rcv) as Hlaw. pose proof (oldest_law ch).
  destruct (try_recv ch rcv) as [[b| | |m] r1]; specialize (Hlaw ltac:(lia)).
  - destruct Hlaw as (_ & Hb%lookup_lt_Some & _). lia.
  - destruct Hlaw as (_ & _ & ->). done.
  - destruct Hlaw as (_ & ? & _). congruence.
  - lia.
Qed.

(** A new channel to which one buffer is sent. *)
Lemma one_buffer buf :
  let '(tx, rx) := new_broadcast 16 in
  history tx = [] /\ history (send tx buf) = [buf] /\ closed tx = false /\ closed (send tx buf) = false /\
  position rx = O /\ position (subscribe tx) = O.
Proof.
  unfold new_broadcast. pose proof (channel_law 16) as Hc. destruct (channel 16) as [tx rx].
  destruct Hc as (Hh & Hcl & Hp). destruct (send_law tx buf) as [-> ->]. rewrite subscribe_law, Hh. by split_and!.
Qed.

Section stream_tests.
(** The channel holds as many buffers as it was made for. *)
Context (Hkeeps : forall buf, oldest (send (fst (new_broadcast 16)) buf) = O).

Lemma broadcast_tests_pass : test_new_broadcast_send_recv && test_broadcast_multiple_receivers = true.
Proof.
  unfold test_new_broadcast_send_recv, test_broadcast_multiple_receivers.
  pose proof (one_buffer [1; 2; 3]) as H1. pose proof (one_buffer (replicate 256 0xAB)) as H2.
  pose proof (Hkeeps [1; 2; 3]) as K1. pose proof (Hkeeps (replicate 256 0xAB)) as K2.
  destruct (new_broadcast 16) as [tx rx]. cbn [fst] in *. cbv zeta.
  destruct H1 as (_ & Hh1 & _ & _ & Hp & Hs), H2 as (_ & Hh2 & _).
  destruct (recv_next (send tx [1; 2; 3]) rx [1; 2; 3]) as (r1 & -> & _); [by rewrite Hh1, Hp | lia |].
  destruct (recv_next (send tx (replicate 256 0xAB)) (subscribe tx) (replicate 256 0xAB)) as (r2 & -> & _);
    [by rewrite Hh2, Hs | lia |].
  unfold assert_eq. by rewrite !bool_decide_true.
Qed.

Lemma writer_test_passes far (w : TcpStream) before during after :
  (forall bs, yields (far bs) bs) -> accepts w -> sent w = [] -> (0 < during)%nat -> (0 < after)%nat ->
  test_writer_exits_on_flag far w before during after = true.
Proof.
  intros Hfar Ha Hsent Hd Hafter. unfold test_writer_exits_on_flag. set (buf := replicate 32 0x42).
  pose proof (one_buffer buf) as Hb. pose proof (Hkeeps buf) as K.
  destruct (new_broadcast 16) as [tx rx]. cbn [fst] in K. cbv zeta.
  destruct Hb as (Hh0 & Hh & Hc0 & Hc & _ & Hs). rewrite loop_idle by (by rewrite ?Hh0, Hs || done).
  destruct during as [|during]; [lia|]. cbn [replicate app write_client_loop client_step].
  destruct (recv_next (send tx buf) (subscribe tx) buf) as (r1 & -> & Hp1); [by rewrite Hh, Hs | lia |].
  destruct (write_all_accepts w buf Ha) as (w1 & -> & (Hw & _) & _).
  rewrite loop_idle by (rewrite ?Hh, ?Hp1, ?Hs; done).
  destruct after as [|after]; [lia|]. cbn [replicate write_client_loop client_step].
  rewrite Hw, Hsent. cbn [app].
  destruct (read_exact_yields (far buf) buf [] 32) as (r & -> & _); [rewrite app_nil_r; apply Hfar | done |].
  cbn [unwrap]. unfold assert_eq. by rewrite bool_decide_true.
Qed.
End stream_tests.

(** The model passes the unit tests of [capture/mod.rs], [encryption.rs]
    and [stream.rs] (but [test_nonce_unique]): over sockets that deliver what
    was sent in any segments and take what they are given, for every cipher
    with a keystream of 1024 bytes or more and every lawful channel that keeps
    as many buffers as it was made for, the two threads of the nonce exchange
    reading what the other one sent, and a writer that polls at least once
    before the reader has its bytes and once after the flag. *)
Theorem io_unit_tests (far : list Z -> TcpStream) (probe : nat -> nat) (w a b : TcpStream)
    (nonce_a nonce_b : list Z) (before during after : nat) :
  (forall bs, yields (far bs) bs) -> (forall n, (0 < probe n)%nat) ->
  tx w = [] -> sent w = [] -> 1024 <= keystream_end ->
  length nonce_a = NONCE_SIZE -> length nonce_b = NONCE_SIZE -> accepts a -> accepts b ->
  yields a nonce_b -> yields b nonce_a ->
  (forall buf, oldest (send (fst (new_broadcast 16)) buf) = O) -> (0 < during)%nat -> (0 < after)%nat ->
  forallb id [test_roundtrip_header_and_chunks; test_roundtrip_empty_chunk; test_buffer_flush_identity;
    test_invalid_magic_rejected; test_internal_encrypted_roundtrip far probe w;
    test_nonce_exchange a b nonce_a nonce_b; test_new_broadcast_send_recv; test_broadcast_multiple_receivers;
    test_writer_exits_on_flag far w before during after] = true.
Proof.
  intros Hfar Hprobe Htx Hsent Hend Hla Hlb Ha Hb Hya Hyb Hkeeps Hd Haf.
  assert (Hacc : accepts w) by (cbn; rewrite Htx; constructor).
  assert (En : test_nonce_exchange a b nonce_a nonce_b = true).
  { unfold test_nonce_exchange. cbv zeta.
    destruct (nonce_exchange_ok a (replicate 32 1) nonce_a nonce_b Hlb Ha Hya) as (a' & -> & _).
    destruct (nonce_exchange_ok b (replicate 32 1) nonce_b nonce_a Hla Hb Hyb) as (b' & -> & _).
    cbn [unwrap]. unfold assert_eq. by rewrite !bool_decide_true. }
  cbn [forallb]. rewrite (encrypted_test_passes far probe w) by done.
  rewrite En, (writer_test_passes Hkeeps far w before during after) by done.
  pose proof (broadcast_tests_pass Hkeeps) as Hbr. apply andb_true_iff in Hbr as [-> ->].
  assert (Ec : test_roundtrip_header_and_chunks && test_roundtrip_empty_chunk && test_buffer_flush_identity &&
    test_invalid_magic_rejected = true) by (by vm_compute).
  rewrite !andb_true_iff in Ec. destruct Ec as [[[-> ->] ->] ->]. done.
Qed.
End io_tests.


Lemma io_unit_tests_witness :
  let fresh := mkTcp [] [] [] None None in
  let far bs := mkTcp (map (fun b => Data [b]) bs) [] [] None None in
  let a := mkTcp [Data (replicate 12 6)] [] [] None None in
  let b := mkTcp [Data (replicate 5 5); RErr Interrupted; Data (replicate 7 5)] [] [] None None in
  @test_internal_encrypted_roundtrip far (fun _ => 32%nat) toy_cipher fresh = true /\
  test_nonce_exchange a b (replicate 12 5) (replicate 12 6) = true /\
  @test_writer_exits_on_flag far list_broadcast fresh 3 2 1 = true.
Proof.
  intros fresh far a b.
  assert (Hfar : forall bs, yields (far bs) bs).
  { intros bs. unfold far. split; cbn [rx].
    - apply Forall_map, Forall_true. intros x. done.
    - unfold rx_bytes. rewrite map_map. by induction bs as [|x bs IH]; [|cbn; rewrite IH]. }
  assert (Hall := @io_unit_tests toy_cipher list_broadcast far (fun _ => 32%nat) fresh a b (replicate 12 5) (replicate 12 6) 3 2 1).
  specialize (Hall Hfar ltac:(intros; cbn; lia) eq_refl eq_refl ltac:(by vm_compute) eq_refl eq_refl
    ltac:(constructor) ltac:(constructor) ltac:(split; [by repeat constructor | reflexivity])
    ltac:(split; [by repeat constructor | reflexivity]) ltac:(intros; reflexivity) ltac:(lia) ltac:(lia)).
  cbn [forallb] in Hall. rewrite !andb_true_iff in Hall. unfold id in Hall. intuition.
Defined.
